(** * Boggle solver (boggle.C): a shallow embedding and its properties

    The program stores a filtered dictionary in a 26-way trie and runs a
    backtracking depth-first search from every tile of a square board.
    This file embeds the core functions of [boggle.C] as Rocq functions in a
    state-and-fault monad over the control block [BoggleCB], and proves
    properties of the dictionary and of the search.

    Conventions of the embedding.
    - C [int] values are modelled by [Z].  Every [int] the program computes
      is a board coordinate, a board index or a letter count; the board side
      is the length of a line read into a 128-byte buffer, so none of them
      leaves the 32-bit range and no wrap-around is written for them.
    - The two [size_t] counters wrap modulo 2^64.
    - C arrays are lists read with [load] and written with [store]; an
      access outside the array is undefined behaviour in C and the fault
      [OutOfBounds] here.
    - A failed [assert] is the fault [AssertFail]; it stops the program, and
      what was printed before stays printed.
    - The trie is a tree of exclusively owned nodes: [Trie *] is
      [option Trie] with [None] for [NULL]. *)

From Stdlib Require Import ZArith Ascii String Lia.
From stdpp Require Import base list.

Local Open Scope Z_scope.
Set Warnings "-register-all".

(** ** Constants *)

Definition ALPHABET_SIZE : Z := 26.
Definition MAX_WORD_LENGTH : Z := 80.
Definition FLAGS_ISWORD : Z := 1.
Definition SIZE_MAX1 : Z := 2 ^ 64.

Definition NUL : ascii := "000"%char.

(** ** Characters *)

(** [tolower] of the C locale: upper-case ASCII letters move down by 32. *)
Definition tolower (c : ascii) : ascii :=
  let n := nat_of_ascii c in
  if ((65 <=? n) && (n <=? 90))%nat then ascii_of_nat (n + 32) else c.

(** [getCharIndex]: [tolower(c) - 'a'], computed in [int].  [char] is
    signed on the machines the program was built for.  The byte 255 is
    then the value -1, which is [EOF]: [tolower] returns it as it is, and
    the index is -1 - 97 = -98.  For the other bytes above 127 the argument
    of [tolower] is negative and not [EOF], which the C standard leaves
    undefined; the C library returns the value of the byte as an
    [unsigned char] for them, and so does the model.  Every byte that is
    not a letter gets an index outside 0..25. *)
Definition getCharIndex (c : ascii) : Z :=
  let n := nat_of_ascii (tolower c) in
  if (n =? 255)%nat then -98 else Z.of_nat n - 97.

(** ** Arrays *)

Definition load {A} (l : list A) (i : Z) : option A :=
  if 0 <=? i then l !! Z.to_nat i else None.

Definition store {A} (l : list A) (i : Z) (x : A) : option (list A) :=
  if (0 <=? i) && (i <? Z.of_nat (length l)) then Some (<[Z.to_nat i := x]> l)
  else None.

(** The text [printf("%s")] prints from a buffer: the bytes before the
    first NUL; reading past a buffer without one is out of bounds. *)
Fixpoint cstring (buf : list ascii) : option (list ascii) :=
  match buf with
  | [] => None
  | c :: rest =>
      if Ascii.eqb c NUL then Some []
      else match cstring rest with
           | Some w => Some (c :: w)
           | None => None
           end
  end.

(** ** The trie *)

Inductive Trie : Type :=
  TrieNode (ch : ascii) (flags : Z) (child : list (option Trie)).

Definition trie_ch (t : Trie) : ascii := let 'TrieNode c _ _ := t in c.
Definition trie_flags (t : Trie) : Z := let 'TrieNode _ f _ := t in f.
Definition trie_child (t : Trie) : list (option Trie) :=
  let 'TrieNode _ _ k := t in k.

Definition set_ch (t : Trie) (c : ascii) : Trie :=
  let 'TrieNode _ f k := t in TrieNode c f k.
Definition or_flags (t : Trie) (m : Z) : Trie :=
  let 'TrieNode c f k := t in TrieNode c (Z.lor f m) k.

(** A node as [malloc] followed by [memset 0] leaves it. *)
Definition zeroNode : Trie :=
  TrieNode NUL 0 (replicate (Z.to_nat ALPHABET_SIZE) None).

(** Number of nodes of a tree, and number of nodes flagged as words. *)
Fixpoint trie_nodes (t : Trie) : Z :=
  let 'TrieNode _ _ kids := t in
  1 + (fix sum (l : list (option Trie)) : Z :=
         match l with
         | [] => 0
         | None :: l' => sum l'
         | Some k :: l' => trie_nodes k + sum l'
         end) kids.

Fixpoint trie_words (t : Trie) : Z :=
  let 'TrieNode _ f kids := t in
  (if Z.land f FLAGS_ISWORD =? 0 then 0 else 1)
  + (fix sum (l : list (option Trie)) : Z :=
       match l with
       | [] => 0
       | None :: l' => sum l'
       | Some k :: l' => trie_words k + sum l'
       end) kids.

(** ** The control block and the world around it *)

Record BoggleCB : Type := mkCB {
  search : list ascii;          (* char search[MAX_WORD_LENGTH] *)
  dict : option Trie;           (* Trie *dict *)
  histogram : list Z;           (* int *histogram *)
  board : list ascii;           (* char *board *)
  used : list bool;             (* bool *used *)
  trieAllocCalls : Z;           (* size_t *)
  trieFreeCalls : Z;            (* size_t *)
  boardSize : Z;
  maxBoardSize : Z
}.

Definition cell : Type := (Z * Z)%type.

(** What the run leaves behind.  [Found] is a line written by [printf]:
    the word and the two coordinates; its [path] is ghost.  The other two
    are ghost records that no C statement produces: [Snap] is taken
    whenever the mask changes and holds the string index of the change, the
    mask and the tiles of the word being spelled; [Probe] holds the board
    index [isValid] was called with.  The ghost parts are only ever
    written: [ghostless_playBoggle] shows that the control block, the heap
    and the printed lines do not depend on them. *)
Inductive event : Type :=
| Found (word : list ascii) (row col : Z) (path : list cell)
| Snap (stringIndex : Z) (mask : list bool) (path : list cell)
| Probe (boardIndex : Z).

(** [heapNodes] is the number of trie nodes [malloc] can still deliver.
    [trace] is the list of events, oldest first.  [gpath] is ghost: the
    tiles marked used and not yet unmarked, most recent first. *)
Record World : Type := mkWorld {
  cb : BoggleCB;
  heapNodes : nat;
  trace : list event;
  gpath : list cell
}.

Definition with_cb (f : BoggleCB -> BoggleCB) (w : World) : World :=
  mkWorld (f (cb w)) (heapNodes w) (trace w) (gpath w).

Definition set_search (v : list ascii) (b : BoggleCB) : BoggleCB :=
  mkCB v (dict b) (histogram b) (board b) (used b) (trieAllocCalls b)
       (trieFreeCalls b) (boardSize b) (maxBoardSize b).
Definition set_dict (v : option Trie) (b : BoggleCB) : BoggleCB :=
  mkCB (search b) v (histogram b) (board b) (used b) (trieAllocCalls b)
       (trieFreeCalls b) (boardSize b) (maxBoardSize b).
Definition set_histogram (v : list Z) (b : BoggleCB) : BoggleCB :=
  mkCB (search b) (dict b) v (board b) (used b) (trieAllocCalls b)
       (trieFreeCalls b) (boardSize b) (maxBoardSize b).
Definition set_used (v : list bool) (b : BoggleCB) : BoggleCB :=
  mkCB (search b) (dict b) (histogram b) (board b) v (trieAllocCalls b)
       (trieFreeCalls b) (boardSize b) (maxBoardSize b).
Definition set_trieAllocCalls (v : Z) (b : BoggleCB) : BoggleCB :=
  mkCB (search b) (dict b) (histogram b) (board b) (used b) v
       (trieFreeCalls b) (boardSize b) (maxBoardSize b).
Definition set_trieFreeCalls (v : Z) (b : BoggleCB) : BoggleCB :=
  mkCB (search b) (dict b) (histogram b) (board b) (used b)
       (trieAllocCalls b) v (boardSize b) (maxBoardSize b).
Definition set_maxBoardSize (v : Z) (b : BoggleCB) : BoggleCB :=
  mkCB (search b) (dict b) (histogram b) (board b) (used b)
       (trieAllocCalls b) (trieFreeCalls b) (boardSize b) v.

(** ** The monad: state, and faults that keep the state they stopped in *)

Inductive fault : Type := AssertFail | OutOfBounds | NullDeref | OutOfFuel.

Inductive outcome (A : Type) : Type :=
| Done (a : A) (w : World)
| Abort (f : fault) (w : World).
Arguments Done {A} a w.
Arguments Abort {A} f w.

Definition M (A : Type) : Type := World -> outcome A.

Definition ret {A} (a : A) : M A := fun w => Done a w.
Definition bind {A B} (m : M A) (k : A -> M B) : M B :=
  fun w => match m w with
           | Done a w' => k a w'
           | Abort f w' => Abort f w'
           end.
Definition raise {A} (f : fault) : M A := fun w => Abort f w.

Notation "x <- m ;; k" := (bind m (fun x => k))
  (at level 100, m at next level, right associativity).
Notation "m ;;; k" := (bind m (fun _ => k))
  (at level 100, right associativity).

Definition gets {A} (f : BoggleCB -> A) : M A := fun w => Done (f (cb w)) w.
Definition modify (f : BoggleCB -> BoggleCB) : M unit :=
  fun w => Done tt (with_cb f w).
Definition emit (e : event) : M unit :=
  fun w => Done tt (mkWorld (cb w) (heapNodes w) (trace w ++ [e]) (gpath w)).
Definition get_gpath : M (list cell) := fun w => Done (gpath w) w.
Definition set_gpath (p : list cell) : M unit :=
  fun w => Done tt (mkWorld (cb w) (heapNodes w) (trace w) p).

(** An array read or write, faulting outside the array. *)
Definition loadM {A} (l : list A) (i : Z) : M A :=
  match load l i with Some x => ret x | None => raise OutOfBounds end.
Definition storeM {A} (l : list A) (i : Z) (x : A) : M (list A) :=
  match store l i x with Some l' => ret l' | None => raise OutOfBounds end.

Definition assert (b : bool) : M unit :=
  if b then ret tt else raise AssertFail.

Fixpoint for_each {A} (l : list A) (body : A -> M unit) : M unit :=
  match l with
  | [] => ret tt
  | x :: l' => body x ;;; for_each l' body
  end.

(** ** Index helpers *)

Definition getBoardIndex (b : BoggleCB) (row col : Z) : Z :=
  boardSize b * row + col.

(** ** Dictionary: allocation, insertion, teardown *)

(** [trieAllocNode]: a zeroed node, or [NULL] when the heap is exhausted. *)
Definition trieAllocNode : M (option Trie) :=
  fun w => match heapNodes w with
           | O => Done None w
           | S n => Done (Some zeroNode) (mkWorld (cb w) n (trace w) (gpath w))
           end.

Definition incr (n : Z) : Z := (n + 1) mod SIZE_MAX1.

(** The loop of [trieAddWord] from [curNode = cur] over the letters still
    to read.  [atRoot] says that [cur] is [bCB->dict] itself, which is what
    [assert(prevNode != bCB->dict)] tests: nodes are never shared, so the
    last node visited is the root exactly when no letter was consumed.
    The result is the rebuilt subtree, [*wordAdded] and [bSuccess]. *)
Fixpoint trieAddLoop (word : list ascii) (atRoot : bool) (cur : Trie)
  : M (Trie * bool * bool) :=
  match word with
  | [] =>
      (* i == stringLength, prevNode is the node reached *)
      assert (negb atRoot) ;;;
      ret (or_flags cur FLAGS_ISWORD, true, true)
  | c :: rest =>
      let ix := getCharIndex c in
      hist <- gets histogram ;;
      h <- loadM hist ix ;;
      if h =? 0 then ret (cur, false, true)              (* break *)
      else
        slot <- loadM (trie_child cur) ix ;;
        kid <- match slot with
               | Some k => ret (Some k)
               | None =>
                   fresh <- trieAllocNode ;;
                   match fresh with
                   | None => ret None
                   | Some n =>
                       modify (fun b =>
                         set_trieAllocCalls (incr (trieAllocCalls b)) b) ;;;
                       ret (Some n)
                   end
               end ;;
        match kid with
        | None => ret (cur, false, false)                (* goto exit *)
        | Some k =>
            r <- trieAddLoop rest false (set_ch k c) ;;
            let '(k', added, ok) := r in
            ret (TrieNode (trie_ch cur) (trie_flags cur)
                          (<[Z.to_nat ix := Some k']> (trie_child cur)),
                 added, ok)
        end
  end.

(** [trieAddWord]: returns [( *wordAdded, bSuccess )].  With a [NULL] root
    the loop dereferences it at the first letter that passes the filter. *)
Definition trieAddWord (word : list ascii) : M (bool * bool) :=
  d <- gets dict ;;
  match d with
  | Some root =>
      r <- trieAddLoop word true root ;;
      let '(root', added, ok) := r in
      modify (set_dict (Some root')) ;;;
      ret (added, ok)
  | None =>
      match word with
      | [] => ret (false, true)
      | c :: _ =>
          hist <- gets histogram ;;
          h <- loadM hist (getCharIndex c) ;;
          if h =? 0 then ret (false, true) else raise NullDeref
      end
  end.

(** [initBoggle]: the counter is incremented whether or not the root was
    allocated. *)
Definition initBoggle : M unit :=
  modify (fun b => set_trieAllocCalls 0 (set_trieFreeCalls 0 b)) ;;;
  root <- trieAllocNode ;;
  modify (set_dict root) ;;;
  modify (fun b => set_trieAllocCalls (incr (trieAllocCalls b)) b).

(** [trieFree] on a non-null node: the children in index order, then the
    node itself, which goes back to the heap. *)
Fixpoint trieFreeNode (t : Trie) : M unit :=
  let 'TrieNode _ _ kids := t in
  (fix loop (l : list (option Trie)) : M unit :=
     match l with
     | [] => ret tt
     | None :: l' => loop l'
     | Some k :: l' => trieFreeNode k ;;; loop l'
     end) kids ;;;
  (fun w => Done tt (mkWorld (cb w) (S (heapNodes w)) (trace w) (gpath w))) ;;;
  modify (fun b => set_trieFreeCalls (incr (trieFreeCalls b)) b).

(** [trieFree(bCB, &p)]: returns the new value of [p]. *)
Definition trieFree (node : option Trie) : M (option Trie) :=
  match node with
  | None => ret None
  | Some t => trieFreeNode t ;;; ret None
  end.

(** [trieBuild] over the lines of the dictionary file after [chop]:
    returns [(bSuccess, wordCount)]. *)
Fixpoint trieBuildLoop (words : list (list ascii)) (wordCount : Z)
  : M (bool * Z) :=
  match words with
  | [] => ret (true, wordCount)
  | buf :: rest =>
      bs <- gets boardSize ;;
      let maxStringLength := bs * bs in
      let stringLength := Z.of_nat (length buf) in
      if stringLength <=? maxStringLength then
        r <- trieAddWord buf ;;
        let '(wordAdded, ok) := r in
        if negb ok then ret (false, wordCount)
        else trieBuildLoop rest (if wordAdded then incr wordCount else wordCount)
      else trieBuildLoop rest wordCount
  end.

Definition trieBuild (words : list (list ascii)) : M (bool * Z) :=
  trieBuildLoop words 0.

(** ** Board model: the mask and the word buffer *)

Definition set_board (v : list ascii) (b : BoggleCB) : BoggleCB :=
  mkCB (search b) (dict b) (histogram b) v (used b) (trieAllocCalls b)
       (trieFreeCalls b) (boardSize b) (maxBoardSize b).
Definition set_boardSize (v : Z) (b : BoggleCB) : BoggleCB :=
  mkCB (search b) (dict b) (histogram b) (board b) (used b)
       (trieAllocCalls b) (trieFreeCalls b) v (maxBoardSize b).

(** Ghost: record the state the mask change at [stringIndex] leaves. *)
Definition snapshot (stringIndex : Z) : M unit :=
  fun w => emit (Snap stringIndex (used (cb w)) (gpath w)) w.

Definition markUnused (row col stringIndex : Z) : M unit :=
  b <- gets id ;;
  let boardIndex := getBoardIndex b row col in
  u <- loadM (used b) boardIndex ;;
  assert (Bool.eqb u true) ;;;
  used' <- storeM (used b) boardIndex false ;;
  modify (set_used used') ;;;
  search' <- storeM (search b) stringIndex NUL ;;
  modify (set_search search') ;;;
  p <- get_gpath ;;
  set_gpath (tail p) ;;;
  snapshot stringIndex.

Definition markUsed (row col stringIndex : Z) : M unit :=
  b <- gets id ;;
  let boardIndex := getBoardIndex b row col in
  u <- loadM (used b) boardIndex ;;
  assert (Bool.eqb u false) ;;;
  used' <- storeM (used b) boardIndex true ;;
  modify (set_used used') ;;;
  c <- loadM (board b) boardIndex ;;
  search' <- storeM (search b) stringIndex c ;;
  modify (set_search search') ;;;
  p <- get_gpath ;;
  set_gpath ((row, col) :: p) ;;;
  snapshot stringIndex.

(** [isValid]: the three conditions are evaluated left to right and the
    evaluation stops at the first that fails.  [node] is not [NULL] here:
    [findSolution] asserts it before its loops. *)
Definition isValid (boardIndex : Z) (node : Trie) : M bool :=
  emit (Probe boardIndex) ;;;
  b <- gets id ;;
  if (0 <=? boardIndex) && (boardIndex <=? maxBoardSize b) then
    u <- loadM (used b) boardIndex ;;
    if negb u then
      c <- loadM (board b) boardIndex ;;
      slot <- loadM (trie_child node) (getCharIndex c) ;;
      match slot with
      | Some _ => ret true
      | None => ret false
      end
    else ret false
  else ret false.

(** ** Search engine *)

(** The [printf] of [findSolution]: the buffer as a C string and the two
    coordinates it is given (the ghost path rides along). *)
Definition printFound (row col : Z) : M unit :=
  buf <- gets search ;;
  match cstring buf with
  | None => raise OutOfBounds
  | Some word => p <- get_gpath ;; emit (Found word row col p)
  end.

(** [findSolution].  [fuel] bounds the depth of the recursion and is not
    part of the program; [search_depth_bounded] below shows that a run from
    [playBoggle] never runs out of it when it is at least the number of
    tiles.  [boardSize] is read
    once: nothing writes it during the search. *)
Fixpoint findSolution (fuel : nat) (row col : Z) (node : option Trie)
    (stringIndex : Z) : M unit :=
  match node with
  | None => raise AssertFail                         (* assert(node != NULL) *)
  | Some nd =>
      match fuel with
      | O => raise OutOfFuel
      | S fuel' =>
          (if Z.land (trie_flags nd) FLAGS_ISWORD =? 0 then ret tt
           else printFound row col) ;;;
          bs <- gets boardSize ;;
          for_each (seqZ (-1) 3) (fun rowDiff =>
            let newRow := row + rowDiff in
            if (0 <=? newRow) && (newRow <? bs) then
              for_each (seqZ (-1) 3) (fun colDiff =>
                let newCol := col + colDiff in
                b <- gets id ;;
                let move := getBoardIndex b newRow newCol in
                if (0 <=? newCol) && (newCol <? bs) then
                  valid <- isValid move nd ;;
                  if valid then
                    c <- loadM (board b) move ;;
                    let newIx := getCharIndex c in
                    markUsed newRow newCol stringIndex ;;;
                    next <- loadM (trie_child nd) newIx ;;
                    findSolution fuel' newRow newCol next (stringIndex + 1) ;;;
                    markUnused newRow newCol stringIndex
                  else ret tt
                else ret tt)
            else ret tt)
      end
  end.

(** [playBoggle]: one search from every tile, in row-major order. *)
Definition playBoggle (fuel : nat) : M unit :=
  bs <- gets boardSize ;;
  assert (bs * bs <=? MAX_WORD_LENGTH) ;;;
  modify (set_search (replicate (Z.to_nat MAX_WORD_LENGTH) NUL)) ;;;
  for_each (seqZ 0 bs) (fun i =>
    for_each (seqZ 0 bs) (fun j =>
      markUsed i j 0 ;;;
      b <- gets id ;;
      c <- loadM (board b) (getBoardIndex b i j) ;;
      let charIndex := getCharIndex c in
      root <- match dict b with
              | None => raise NullDeref
              | Some d => loadM (trie_child d) charIndex
              end ;;
      findSolution fuel i j root 1 ;;;
      markUnused i j 0)).

(** ** The parts of [main] around the core *)

Fixpoint foldM {A B} (f : B -> A -> M B) (l : list A) (acc : B) : M B :=
  match l with
  | [] => ret acc
  | x :: l' => acc' <- f acc x ;; foldM f l' acc'
  end.

(** The histogram loops of [main], over the local array [board] after the
    board file was read; [bCB.boardSize] is already set. *)
Definition buildHistogram (tiles : list ascii) : M (list Z) :=
  b <- gets id ;;
  let n := boardSize b in
  foldM (fun hist row =>
    foldM (fun hist col =>
      c <- loadM tiles (getBoardIndex b row col) ;;
      let arrayIndex := getCharIndex c in
      assert (arrayIndex <? ALPHABET_SIZE) ;;;
      h <- loadM hist arrayIndex ;;
      storeM hist arrayIndex (h + 1)) (seqZ 0 n) hist)
    (seqZ 0 n) (replicate (Z.to_nat ALPHABET_SIZE) 0).

(** The label [exit] of [main]: teardown of the trie and the two sanity
    assertions. *)
Definition mainExit : M unit :=
  d <- gets dict ;;
  d' <- trieFree d ;;
  modify (set_dict d') ;;;
  b <- gets id ;;
  assert (match dict b with None => true | Some _ => false end) ;;;
  assert (trieAllocCalls b =? trieFreeCalls b).

(** The control block after [memset(&bCB, 0, sizeof(bCB))]. *)
Definition zeroCB : BoggleCB :=
  mkCB (replicate (Z.to_nat MAX_WORD_LENGTH) NUL) None [] [] [] 0 0 0 0.

(** [main] from [initBoggle] on, given the board file as its side [n] and
    its tiles in row-major order (already lower-cased) and the dictionary
    file as its lines.  The three [malloc]s of [main] for the board, the
    histogram and the mask are taken to succeed. *)
Definition mainSetup (n : Z) (tiles : list ascii) : M unit :=
  initBoggle ;;;
  modify (set_boardSize n) ;;;
  hist <- buildHistogram tiles ;;
  modify (set_histogram hist) ;;;
  modify (set_board tiles) ;;;
  modify (fun b => set_maxBoardSize (boardSize b * boardSize b) b) ;;;
  modify (set_used (replicate (Z.to_nat (n * n)) false)).

Definition mainRun (fuel : nat) (n : Z) (tiles : list ascii)
    (words : list (list ascii)) : M unit :=
  mainSetup n tiles ;;;
  r <- trieBuild words ;;
  (if fst r then playBoggle fuel else ret tt) ;;;
  mainExit.

Definition world0 (heap : nat) : World := mkWorld zeroCB heap [] [].

Definition chars (s : string) : list ascii := list_ascii_of_string s.

(** What [printf] wrote: the [Found] lines without their ghost path. *)
Definition stdout (tr : list event) : list (list ascii * Z * Z) :=
  omap (fun e => match e with
                 | Found w r c _ => Some (w, r, c)
                 | _ => None
                 end) tr.

Definition world_of {A} (o : outcome A) : World :=
  match o with Done _ w => w | Abort _ w => w end.

(** ** Vocabulary of the proofs *)

Fixpoint sum_kids (f : Trie -> Z) (l : list (option Trie)) : Z :=
  match l with
  | [] => 0
  | None :: l' => sum_kids f l'
  | Some k :: l' => f k + sum_kids f l'
  end.

Definition same_but_alloc (w w' : World) : Prop :=
  exists a h, w' = mkWorld (set_trieAllocCalls a (cb w)) h (trace w) (gpath w).

(** The world after a successful [trieAllocNode] and the increment of the
    allocation counter. *)
Definition allocated (w : World) (n : nat) : World :=
  mkWorld (set_trieAllocCalls (incr (trieAllocCalls (cb w))) (cb w)) n
          (trace w) (gpath w).

Definition freed (w : World) (f : Z) (h : nat) : World :=
  mkWorld (set_trieFreeCalls f (cb w)) h (trace w) (gpath w).

Fixpoint freeKids (l : list (option Trie)) : M unit :=
  match l with
  | [] => ret tt
  | None :: l' => freeKids l'
  | Some k :: l' => trieFreeNode k ;;; freeKids l'
  end.

(** Worlds that [initBoggle] with an allocated root followed by any
    sequence of insertions that return can produce; between them the
    program may do anything that leaves the dictionary and the two
    counters alone, as [main] does when it fills in the board. *)
Inductive built : World -> Prop :=
| built_init w w' :
    initBoggle w = Done tt w' -> dict (cb w') <> None -> built w'
| built_add w word r w' :
    built w -> trieAddWord word w = Done r w' -> built w'
| built_other w w' :
    built w ->
    dict (cb w') = dict (cb w) ->
    trieAllocCalls (cb w') = trieAllocCalls (cb w) ->
    trieFreeCalls (cb w') = trieFreeCalls (cb w) ->
    built w'.

Definition counted (w : World) : Prop :=
  exists t, dict (cb w) = Some t /\
            trieAllocCalls (cb w) = trie_nodes t mod SIZE_MAX1 /\
            trieFreeCalls (cb w) = 0.

Definition dict_nodes (d : option Trie) : Z := from_option trie_nodes 0 d.
Definition dict_words (d : option Trie) : Z := from_option trie_words 0 d.

(** The letter has count zero in the frequency table. *)
Definition absent (hist : list Z) (c : ascii) : Prop :=
  load hist (getCharIndex c) = Some 0.

(** The flat index of a tile on a board of side [n]. *)
Definition cell_index (n : Z) (p : cell) : Z := n * fst p + snd p.

(** The mask marks exactly the tiles of the path. *)
Definition mask_is (n : Z) (mask : list bool) (path : list cell) : Prop :=
  forall i, load mask i = Some true <-> i ∈ map (cell_index n) path.

(** Chebyshev adjacency: row and column differ by at most one, and the two
    tiles are not the same tile. *)
Definition adjacent (p q : cell) : Prop :=
  Z.abs (fst p - fst q) <= 1 /\ Z.abs (snd p - snd q) <= 1 /\ p <> q.

Fixpoint chain (path : list cell) : Prop :=
  match path with
  | p :: (q :: _) as rest => adjacent p q /\ chain rest
  | _ => True
  end.

Definition in_grid (n : Z) (p : cell) : Prop :=
  0 <= fst p < n /\ 0 <= snd p < n.

(** [word] is what the board shows along [path], read from its oldest tile
    to its newest. *)
Definition spelled (n : Z) (tiles : list ascii) (path : list cell)
    (word : list ascii) : Prop :=
  Forall2 (fun p ch => load tiles (cell_index n p) = Some ch) (rev path) word.

Fixpoint unused (mask : list bool) : nat :=
  match mask with
  | [] => O
  | u :: rest => ((if u then 0 else 1) + unused rest)%nat
  end.

Definition with_trace (w : World) (evs : list event) : World :=
  mkWorld (cb w) (heapNodes w) (trace w ++ evs) (gpath w).

(** What every event of a search over a board of side [n] with the tiles
    [tiles] satisfies. *)
Definition event_ok (n : Z) (tiles : list ascii) (e : event) : Prop :=
  match e with
  | Found word row col path =>
      (exists rest, path = (row, col) :: rest) /\
      NoDup (map (cell_index n) path) /\
      chain path /\
      Forall (in_grid n) path /\
      spelled n tiles path word
  | Snap stringIndex mask path =>
      mask_is n mask path /\
      0 <= stringIndex < n * n
  | Probe boardIndex =>
      0 <= boardIndex <= n * n - 1
  end.

(** The state a search step starts from: mask, path and buffer agree. *)
Record search_inv (w : World) : Prop := {
  inv_mask : mask_is (boardSize (cb w)) (used (cb w)) (gpath w);
  inv_nodup : NoDup (map (cell_index (boardSize (cb w))) (gpath w));
  inv_chain : chain (gpath w);
  inv_grid : Forall (in_grid (boardSize (cb w))) (gpath w);
  inv_buffer : exists word,
    spelled (boardSize (cb w)) (board (cb w)) (gpath w) word /\
    Forall (fun ch => ch <> NUL) word /\
    search (cb w) =
      word ++ replicate (Z.to_nat MAX_WORD_LENGTH - length word) NUL /\
    (length word <= Z.to_nat MAX_WORD_LENGTH)%nat
}.

(** The outcome [o] of a step from [w]: it added only good events; if it
    returned, nothing but the trace changed; and it ran out of fuel only
    if the fuel did not exceed the number of unused tiles. *)
Definition step_ok (fuel : nat) (w : World) (o : outcome unit) : Prop :=
  exists evs,
    Forall (event_ok (boardSize (cb w)) (board (cb w))) evs /\
    match o with
    | Done _ w' => w' = with_trace w evs
    | Abort f w' =>
        trace w' = trace w ++ evs /\
        (f = OutOfFuel -> (fuel <= unused (used (cb w)))%nat)
    end.

Definition marked (w : World) (row col stringIndex : Z) (s' : list ascii)
  : World :=
  let i := cell_index (boardSize (cb w)) (row, col) in
  let u' := <[Z.to_nat i := true]> (used (cb w)) in
  mkWorld (set_search s' (set_used u' (cb w))) (heapNodes w)
          (trace w ++ [Snap stringIndex u' ((row, col) :: gpath w)])
          ((row, col) :: gpath w).

Definition unmarked (w : World) (row col stringIndex : Z) (s' : list ascii)
  : World :=
  let i := cell_index (boardSize (cb w)) (row, col) in
  let u' := <[Z.to_nat i := false]> (used (cb w)) in
  mkWorld (set_search s' (set_used u' (cb w))) (heapNodes w)
          (trace w ++ [Snap stringIndex u' (tail (gpath w))])
          (tail (gpath w)).

(** One attempted move of [findSolution] to the tile ([newRow], [newCol]),
    after the two range checks; [rec] is the recursive call. *)
Definition explore (rec : Z -> Z -> option Trie -> Z -> M unit) (nd : Trie)
    (stringIndex newRow newCol : Z) (b : BoggleCB) : M unit :=
  let move := getBoardIndex b newRow newCol in
  valid <- isValid move nd ;;
  if valid then
    c <- loadM (board b) move ;;
    let newIx := getCharIndex c in
    markUsed newRow newCol stringIndex ;;;
    next <- loadM (trie_child nd) newIx ;;
    rec newRow newCol next (stringIndex + 1) ;;;
    markUnused newRow newCol stringIndex
  else ret tt.

(** The precondition of a call [findSolution row col _ stringIndex]. *)
Definition at_tile (row col stringIndex : Z) (w : World) : Prop :=
  search_inv w /\
  (exists rest, gpath w = (row, col) :: rest) /\
  stringIndex = Z.of_nat (length (gpath w)).

(** The new tile is next to the newest tile of the path, if there is one. *)
Definition near_head (path : list cell) (nr nc : Z) : Prop :=
  match path with
  | [] => True
  | q :: _ => Z.abs (nr - fst q) <= 1 /\ Z.abs (nc - snd q) <= 1
  end.

(** The body of the two loops of [playBoggle] for the tile ([i], [j]). *)
Definition start (fuel : nat) (i j : Z) : M unit :=
  markUsed i j 0 ;;;
  b <- gets id ;;
  c <- loadM (board b) (getBoardIndex b i j) ;;
  let charIndex := getCharIndex c in
  root <- match dict b with
          | None => raise NullDeref
          | Some d => loadM (trie_child d) charIndex
          end ;;
  findSolution fuel i j root 1 ;;;
  markUnused i j 0.

(** The state in which [main] calls [playBoggle]: nothing is marked. *)
Definition idle (w : World) : Prop :=
  gpath w = [] /\ Forall (fun u => u = false) (used (cb w)).

(** [playBoggle] first clears the word buffer. *)
Definition cleared (w : World) : World :=
  with_cb (set_search (replicate (Z.to_nat MAX_WORD_LENGTH) NUL)) w.

(** The letter has a positive count in the table. *)
Definition present (hist : list Z) (ch : ascii) : Prop :=
  exists k, load hist (getCharIndex ch) = Some k /\ 0 < k.

(** What [main] has set up when it calls [trieBuild], and what still holds
    when it calls [playBoggle]. *)
Record ready (n : Z) (tiles : list ascii) (w : World) : Prop := {
  ready_size : boardSize (cb w) = n;
  ready_board : board (cb w) = tiles;
  ready_max : maxBoardSize (cb w) = n * n;
  ready_used : used (cb w) = replicate (Z.to_nat (n * n)) false;
  ready_hist : forall r c ch,
    in_grid n (r, c) -> load tiles (cell_index n (r, c)) = Some ch ->
    present (histogram (cb w)) ch;
  ready_trace : trace w = [];
  ready_gpath : gpath w = []
}.

Definition same_but_dict (w w' : World) : Prop :=
  exists d a h,
    w' = mkWorld (set_dict d (set_trieAllocCalls a (cb w))) h
                 (trace w) (gpath w).

(** Mask and board side are as they were. *)
Definition mask_kept (w w' : World) : Prop :=
  used (cb w') = used (cb w) /\ boardSize (cb w') = boardSize (cb w).

(** Everything the run of [playBoggle] from [w] leaves in the trace. *)
Definition search_trace (fuel : nat) (w : World) : list event :=
  trace (world_of (playBoggle fuel w)).

(** The tile a search began at: the oldest tile of the path. *)
Definition origin (path : list cell) : option cell := last path.

(** The real part of an event: a printed line keeps its text and its
    coordinates and loses its ghost path; ghost records vanish. *)
Definition erase_event (e : event) : option event :=
  match e with
  | Found word row col _ => Some (Found word row col [])
  | _ => None
  end.

(** The real part of a world: control block, heap and printed lines. *)
Definition erase (w : World) : World :=
  mkWorld (cb w) (heapNodes w) (omap erase_event (trace w)) [].

Definition erase_outcome {A} (o : outcome A) : outcome A :=
  match o with
  | Done a w => Done a (erase w)
  | Abort f w => Abort f (erase w)
  end.

(** The real part of what [m] does depends only on the real part of the
    world it starts from. *)
Definition ghostless {A} (m : M A) : Prop :=
  forall w, erase_outcome (m w) = erase_outcome (m (erase w)).

Definition demo_board : list ascii := chars "abcd".
Definition demo_setup : World := world_of (mainSetup 2 demo_board (world0 16)).
Definition demo_words : list (list ascii) :=
  [chars "ab"; chars "ba"; chars "cd"; chars "dc"].
Definition demo : World := world_of (trieBuild demo_words demo_setup).
Definition demo_ab : World := world_of (trieAddWord (chars "ab") demo_setup).
Definition demo_abz : World :=
  world_of (trieAddWord (chars "abz") demo_setup).
Definition demo_one : World := world_of (trieBuild [chars "ab"] demo_setup).
Definition demo_stop : World := world_of (playBoggle 4 demo_one).

(** ** Vocabulary of the further properties *)

(** An ASCII letter, of either case. *)
Definition is_letter (c : ascii) : Prop :=
  (65 <= nat_of_ascii c <= 90)%nat \/ (97 <= nat_of_ascii c <= 122)%nat.

(** The child indices a word selects, letter by letter. *)
Definition letters (word : list ascii) : list Z := map getCharIndex word.

(** The node reached from [t] by following the children at [ixs]. *)
Fixpoint walk (t : Trie) (ixs : list Z) : option Trie :=
  match ixs with
  | [] => Some t
  | i :: rest =>
      match load (trie_child t) i with
      | Some (Some k) => walk k rest
      | _ => None
      end
  end.

(** The test [node->flags & FLAGS_ISWORD] of [findSolution]. *)
Definition flagged (t : Trie) : bool :=
  negb (Z.land (trie_flags t) FLAGS_ISWORD =? 0).

(** The trie [t] holds the word with the child indices [ixs]. *)
Definition is_word (t : Trie) (ixs : list Z) : bool :=
  match walk t ixs with
  | Some nd => flagged nd
  | None => false
  end.

(** The filter of [trieAddWord] as a test: the letter has count zero. *)
Definition absentb (hist : list Z) (c : ascii) : bool :=
  match load hist (getCharIndex c) with
  | Some h => h =? 0
  | None => false
  end.

(** The lines [trieBuild] puts in the dictionary: those that fit on a
    board of side [n] and have no letter of count zero. *)
Definition acceptedb (n : Z) (hist : list Z) (word : list ascii) : bool :=
  (Z.of_nat (length word) <=? n * n) &&
  forallb (fun c => negb (absentb hist c)) word.

(** Every node has its 26 child slots. *)
Fixpoint trie_wf (t : Trie) : Prop :=
  let 'TrieNode _ _ kids := t in
  length kids = Z.to_nat ALPHABET_SIZE /\
  (fix all (l : list (option Trie)) : Prop :=
     match l with
     | [] => True
     | None :: l' => all l'
     | Some k :: l' => trie_wf k /\ all l'
     end) kids.

Definition slot_wf (o : option Trie) : Prop :=
  match o with Some k => trie_wf k | None => True end.

(** The number of letters of all the lines. *)
Fixpoint total_letters (words : list (list ascii)) : nat :=
  match words with
  | [] => O
  | w :: rest => (length w + total_letters rest)%nat
  end.

(** The node the search holds is the node the dictionary reaches along the
    word spelled so far. *)
Definition tracks (root nd : Trie) (w : World) : Prop :=
  forall word,
    spelled (boardSize (cb w)) (board (cb w)) (gpath w) word ->
    walk root (letters word) = Some nd.

(** A printed word is a word of the dictionary with root [root]. *)
Definition in_dict (root : Trie) (e : event) : Prop :=
  match e with
  | Found word _ _ _ => is_word root (letters word) = true
  | _ => True
  end.

(** The arrays as [main] allocates them for a board that [playBoggle]
    accepts: the buffer can hold a word of N² letters, mask and board have
    N² entries, and every tile is a letter. *)
Record safe_board (w : World) : Prop := {
  safe_side : boardSize (cb w) * boardSize (cb w) <= MAX_WORD_LENGTH;
  safe_used :
    Z.of_nat (length (used (cb w))) = boardSize (cb w) * boardSize (cb w);
  safe_tiles : forall i,
    0 <= i < boardSize (cb w) * boardSize (cb w) ->
    exists c, load (board (cb w)) i = Some c /\ is_letter c
}.

(** Like [step_ok], for the events [in_dict] and with the faults that
    [ends] allows. *)
Definition step_in (root : Trie) (ends : fault -> Prop) (w : World)
    (o : outcome unit) : Prop :=
  exists evs, Forall (in_dict root) evs /\
    match o with
    | Done _ w' => w' = with_trace w evs
    | Abort f w' => trace w' = trace w ++ evs /\ ends f
    end.

(** A tile whose letter has no child under the root. *)
Definition rootless (root : Trie) (w : World) : Prop :=
  exists i j c,
    in_grid (boardSize (cb w)) (i, j) /\
    load (board (cb w)) (cell_index (boardSize (cb w)) (i, j)) = Some c /\
    load (trie_child root) (getCharIndex c) = Some None.

(** A path the rules of the game allow on a board of side [n]: its tiles
    are on the board, no tile is used twice, and each tile is next to the
    one before it. *)
Definition valid_path (n : Z) (path : list cell) : Prop :=
  NoDup (map (cell_index n) path) /\ chain path /\ Forall (in_grid n) path.

(** The reports a search that has reached the path [p] still owes: one for
    every valid path that extends [p] and spells a word of the dictionary
    with root [root]. *)
Definition target (root : Trie) (n : Z) (tiles : list ascii) (p : list cell)
    (e : event) : Prop :=
  exists ext word row col,
    e = Found word row col (ext ++ p) /\
    head (ext ++ p) = Some (row, col) /\
    valid_path n (ext ++ p) /\
    spelled n tiles (ext ++ p) word /\
    is_word root (letters word) = true.

(** The outcome [o] of a step from [w]: if it returned, nothing but the
    trace changed and every event of [T] was added. *)
Definition step_all (T : event -> Prop) (w : World) (o : outcome unit)
    : Prop :=
  match o with
  | Done _ w' => exists evs, w' = with_trace w evs /\ forall e, T e -> e ∈ evs
  | Abort _ _ => True
  end.

(** The dictionary of [demo], and [demo] after the search. *)
Definition demo_root : Trie := from_option id zeroNode (dict (cb demo)).
Definition demo_done : World := world_of (playBoggle 4 demo).

(** ** Reading the two files *)

Definition FILE_LINE_SIZE : Z := 128.

(** [isalpha] of the C locale.  A byte above 127 is no letter here; with a
    signed [char] the argument is negative then, which the C standard
    leaves undefined. *)
Definition isalpha (c : ascii) : bool :=
  let n := nat_of_ascii c in
  ((65 <=? n) && (n <=? 90) || (97 <=? n) && (n <=? 122))%nat.

(** [strlen]: the number of bytes before the first NUL. *)
Definition strlen (buf : list ascii) : M Z :=
  match cstring buf with
  | Some s => ret (Z.of_nat (length s))
  | None => raise OutOfBounds
  end.

(** The loop of [chop].  It reads [buf[stringLength-1]] before it tests
    anything else, so on a string without a letter it reads [buf[-1]].
    [fuel] bounds the number of iterations and is not part of the program:
    [chop] passes the length of the string, and the loop has read [buf[-1]]
    before it can have run that often. *)
Fixpoint chopLoop (fuel : nat) (buf : list ascii) (stringLength : Z)
  : M (list ascii * Z) :=
  c <- loadM buf (stringLength - 1) ;;
  if negb (isalpha c) then
    match fuel with
    | O => raise OutOfFuel
    | S fuel' =>
        buf' <- storeM buf (stringLength - 1) NUL ;;
        chopLoop fuel' buf' (stringLength - 1)
    end
  else ret (buf, stringLength).

(** [chop]: returns the buffer as it leaves it and the new length. *)
Definition chop (buf : list ascii) : M (list ascii * Z) :=
  stringLength <- strlen buf ;;
  chopLoop (Z.to_nat stringLength) buf stringLength.

(** [fgets(buf, sizeof(buf), fp)] for a line of fewer than [FILE_LINE_SIZE]
    bytes, none of them NUL: the line, its newline included, and a NUL are
    written over the beginning of the buffer. *)
Definition fgets (line buf : list ascii) : list ascii :=
  line ++ NUL :: drop (S (length line)) buf.

(** The string a [char *] argument points to. *)
Definition cstringM (buf : list ascii) : M (list ascii) :=
  match cstring buf with
  | Some s => ret s
  | None => raise OutOfBounds
  end.

(** The loop of [trieBuild] over the lines of the dictionary file as
    [fgets] delivers them; [buf] is the local buffer, whose bytes past the
    line read stay what they were. *)
Fixpoint trieBuildFileLoop (maxStringLength : Z) (lines : list (list ascii))
    (buf : list ascii) (wordCount : Z) : M (bool * Z) :=
  match lines with
  | [] => ret (true, wordCount)
  | line :: rest =>
      r <- chop (fgets line buf) ;;
      let '(buf', stringLength) := r in
      if stringLength <=? maxStringLength then
        word <- cstringM buf' ;;
        r <- trieAddWord word ;;
        let '(wordAdded, ok) := r in
        if negb ok then ret (false, wordCount)
        else trieBuildFileLoop maxStringLength rest buf'
               (if wordAdded then incr wordCount else wordCount)
      else trieBuildFileLoop maxStringLength rest buf' wordCount
  end.

(** [trieBuild] with its reading of the file; [buf] is what the local
    buffer holds on entry. *)
Definition trieBuildFile (lines : list (list ascii)) (buf : list ascii)
  : M (bool * Z) :=
  bs <- gets boardSize ;;
  trieBuildFileLoop (bs * bs) lines buf 0.

(** What the comment of [chop] asks for: the line without its trailing
    bytes that are not letters. *)
Fixpoint chopped (line : list ascii) : list ascii :=
  match line with
  | [] => []
  | c :: rest =>
      match chopped rest with
      | [] => if isalpha c then [c] else []
      | r => c :: r
      end
  end.

(** A line as the theorems about reading take it: no NUL in it, and short
    enough for the buffer. *)
Definition line_ok (buf line : list ascii) : Prop :=
  Forall (fun ch => ch <> NUL) line /\ (length line < length buf)%nat.

(** The inner loop of the board reading of [main]: the first [boardSize]
    bytes of the buffer go, lower-cased, to row [row] of the board. *)
Definition copyRow (buf board : list ascii) (boardSize row : Z)
  : M (list ascii) :=
  foldM (fun b i =>
           c <- loadM buf i ;;
           storeM b (boardSize * row + i) (tolower c))
        (seqZ 0 boardSize) board.

(** The loop of [main] over the lines of the board file.  The first line
    sets [boardSize] and allocates the zeroed board ([malloc] is taken to
    succeed); [board] is [None] for the [NULL] pointer before that. *)
Fixpoint readBoardLoop (lines : list (list ascii)) (buf : list ascii)
    (board : option (list ascii)) (boardSize row : Z)
  : M (option (list ascii) * Z) :=
  match lines with
  | [] => ret (board, boardSize)
  | line :: rest =>
      r <- chop (fgets line buf) ;;
      let '(buf', stringLength) := r in
      init <- match board with
              | None =>
                  modify (set_boardSize stringLength) ;;;
                  ret (replicate (Z.to_nat (stringLength * stringLength)) NUL,
                       stringLength)
              | Some b => ret (b, boardSize)
              end ;;
      let '(b, boardSize') := init in
      b' <- copyRow buf' b boardSize' row ;;
      readBoardLoop rest buf' (Some b') boardSize' (row + 1)
  end.

Definition readBoard (lines : list (list ascii)) (buf : list ascii)
  : M (option (list ascii) * Z) :=
  readBoardLoop lines buf None 0 0.

(** [main] from [initBoggle] on, given the two files as their lines and
    what the two line buffers hold at first.  The two files are taken to
    open and the three [malloc]s of [main] to succeed; the [printf]s that
    show the board and the two counts are left out. *)
Definition mainFile (fuel : nat) (boardLines dictLines : list (list ascii))
    (buf0 buf1 : list ascii) : M unit :=
  initBoggle ;;;
  r <- readBoard boardLines buf0 ;;
  let '(board, n) := r in
  let tiles := from_option id [] board in
  hist <- buildHistogram tiles ;;
  modify (set_histogram hist) ;;;
  modify (set_board tiles) ;;;
  modify (fun b => set_maxBoardSize (boardSize b * boardSize b) b) ;;;
  modify (set_used (replicate (Z.to_nat (n * n)) false)) ;;;
  r <- trieBuildFile dictLines buf1 ;;
  (if fst r then playBoggle fuel else ret tt) ;;;
  mainExit.

(** The tiles a board file shows, row by row. *)
Definition tiles_of (lines : list (list ascii)) : list ascii :=
  map tolower (concat (map chopped lines)).

(** A board file of [n] rows of [n] bytes each, trailing bytes that are
    not letters apart. *)
Definition square_file (buf : list ascii) (n : nat)
    (lines : list (list ascii)) : Prop :=
  length lines = n /\
  Forall (fun line => line_ok buf line /\ Exists is_letter line /\
                      length (chopped line) = n) lines.

(** The node has a child in slot [i]. *)
Definition has_childb (t : Trie) (i : Z) : bool :=
  match load (trie_child t) i with
  | Some (Some _) => true
  | _ => false
  end.

(** The line begins with a letter of index [i] that has a count. *)
Definition startsb (hist : list Z) (i : Z) (dw : list ascii) : bool :=
  match dw with
  | c :: _ => (getCharIndex c =? i) && negb (absentb hist c)
  | [] => false
  end.

(** A line that makes [trieBuild] give the root a child in slot [i]. *)
Definition opensb (n : Z) (hist : list Z) (i : Z) (dw : list ascii) : bool :=
  (Z.of_nat (length dw) <=? n * n) && startsb hist i dw.

(** The body of the two histogram loops of [main] for one tile. *)
Definition countTile (hist : list Z) (c : ascii) : M (list Z) :=
  let arrayIndex := getCharIndex c in
  assert (arrayIndex <? ALPHABET_SIZE) ;;;
  h <- loadM hist arrayIndex ;;
  storeM hist arrayIndex (h + 1).

(** The number of tiles whose letter has index [i]. *)
Definition tally (tiles : list ascii) (i : Z) : Z :=
  Z.of_nat (length (List.filter (fun c => getCharIndex c =? i) tiles)).

(** The line passes the length test of [trieBuild] and begins with the
    letter of the tile [c], in either case. *)
Definition begins (n : Z) (c : ascii) (dw : list ascii) : bool :=
  (Z.of_nat (length dw) <=? n * n) &&
  match dw with
  | c' :: _ => getCharIndex c' =? getCharIndex c
  | [] => false
  end.

(** Every tile of the board is the first letter of such a line. *)
Definition covered (n : Z) (tiles : list ascii) (words : list (list ascii))
  : bool :=
  forallb (fun c => existsb (begins n c) words) tiles.

(** The two files of the 2 x 2 instance, line by line, and a line buffer
    as [main] could find it. *)
Definition newline : ascii := "010"%char.
Definition demo_board_lines : list (list ascii) :=
  [chars "ab" ++ [newline]; chars "cd" ++ [newline]].
Definition demo_dict_lines : list (list ascii) :=
  [chars "ab" ++ [newline]; chars "ba" ++ [newline];
   chars "cd" ++ [newline]; chars "dc" ++ [newline]].
Definition demo_buf : list ascii := replicate (Z.to_nat FILE_LINE_SIZE) NUL.

(** The paths of the words reported, in the order of the reports. *)
Definition found_paths (tr : list event) : list (list cell) :=
  omap (fun e => match e with
                 | Found _ _ _ p => Some p
                 | _ => None
                 end) tr.

(** The outcome [o] of a step from [w]: the paths it reported are pairwise
    different and all in [P]; if it returned, nothing but the trace
    changed. *)
Definition step_once (P : list cell -> Prop) (w : World) (o : outcome unit)
    : Prop :=
  exists evs,
    NoDup (found_paths evs) /\ Forall P (found_paths evs) /\
    match o with
    | Done _ w' => w' = with_trace w evs
    | Abort _ w' => trace w' = trace w ++ evs
    end.

(** The paths that pass through [q] after [p]. *)
Definition through (q : cell) (p : list cell) (path : list cell) : Prop :=
  exists ext, path = ext ++ q :: p.

(** The control block when [initBoggle] could not allocate the root: no
    dictionary, one allocation counted, nothing freed. *)
Definition no_root (w : World) : Prop :=
  dict (cb w) = None /\ trieAllocCalls (cb w) = 1 /\
  trieFreeCalls (cb w) = 0.

(** The 2 x 2 instance on a heap of two nodes. *)
Definition demo_small : World :=
  world_of (mainSetup 2 demo_board (world0 2)).
Definition demo_short : World := world_of (trieBuild demo_words demo_small).

(** How many of the indices [ixs], from the first on, have their node in
    the tree below [t]. *)
Fixpoint reach (t : Trie) (ixs : list Z) : nat :=
  match ixs with
  | [] => O
  | i :: rest =>
      match load (trie_child t) i with
      | Some (Some k) => S (reach k rest)
      | _ => O
      end
  end.

(** The path and the mask that the latest [Snap] of a list of events
    holds, or [cur] and [m0] when it has none: the mask changes only where
    a [Snap] is taken, so these are the path and the mask in force after
    the events. *)
Fixpoint last_path (cur : list cell) (evs : list event) : list cell :=
  match evs with
  | [] => cur
  | Snap _ _ p :: rest => last_path p rest
  | _ :: rest => last_path cur rest
  end.

Fixpoint last_mask (m0 : list bool) (evs : list event) : list bool :=
  match evs with
  | [] => m0
  | Snap _ m _ :: rest => last_mask m rest
  | _ :: rest => last_mask m0 rest
  end.

(** Every word is reported with the path in force when it is reported. *)
Fixpoint tracking (cur : list cell) (evs : list event) : Prop :=
  match evs with
  | [] => True
  | Found _ _ _ p :: rest => p = cur /\ tracking cur rest
  | Snap _ _ p :: rest => tracking p rest
  | Probe _ :: rest => tracking cur rest
  end.

(** The number of tiles a mask marks. *)
Fixpoint in_use (mask : list bool) : nat :=
  match mask with
  | [] => O
  | u :: rest => ((if u then 1 else 0) + in_use rest)%nat
  end.

(** The outcome [o] of a step from [w]: its reports carry the path in
    force; if it returned, nothing but the trace changed and the path in
    force is the one it started with. *)
Definition step_track (w : World) (o : outcome unit) : Prop :=
  exists evs, tracking (gpath w) evs /\
    match o with
    | Done _ w' => w' = with_trace w evs /\ last_path (gpath w) evs = gpath w
    | Abort _ w' => trace w' = trace w ++ evs
    end.

(** The demo search: the state after its first [markUsed], and the events
    before and after its report of "ab". *)
Definition demo_marked : World :=
  world_of (markUsed 0 0 0 (cleared demo)).

Definition demo_pre : list event :=
  [Snap 0 [true; false; false; false] [(0, 0)]; Probe 0; Probe 1;
   Snap 1 [true; true; false; false] [(0, 1); (0, 0)]].

Definition demo_post : list event := drop 5 (search_trace 4 demo).

(** * Proofs *)

(** ** Monad laws used for stepping through a computation *)

Lemma bind_Done {A B} (m : M A) (k : A -> M B) w b w' :
  bind m k w = Done b w' ->
  exists a w1, m w = Done a w1 /\ k a w1 = Done b w'.
Proof.
  unfold bind. destruct (m w) as [a w1|f w1]; [eauto | discriminate].
Qed.

Lemma bind_Abort {A B} (m : M A) (k : A -> M B) w f w' :
  bind m k w = Abort f w' ->
  m w = Abort f w' \/ exists a w1, m w = Done a w1 /\ k a w1 = Abort f w'.
Proof.
  unfold bind. destruct (m w) as [a w1|g w1]; [eauto | left; congruence].
Qed.

Lemma bind_step {A B} (m : M A) (k : A -> M B) w a w1 :
  m w = Done a w1 -> bind m k w = k a w1.
Proof. unfold bind. intros ->. reflexivity. Qed.

Ltac prim :=
  unfold gets, modify, ret, raise, loadM, storeM, assert, emit, get_gpath,
    set_gpath in *.

(** ** Sums over the children of a node *)

Lemma trie_nodes_eq c f kids :
  trie_nodes (TrieNode c f kids) = 1 + sum_kids trie_nodes kids.
Proof.
  simpl. f_equal. induction kids as [|[k|] l IH]; simpl; congruence.
Qed.

Lemma trie_words_eq c f kids :
  trie_words (TrieNode c f kids) =
  (if Z.land f FLAGS_ISWORD =? 0 then 0 else 1) + sum_kids trie_words kids.
Proof.
  simpl. f_equal. induction kids as [|[k|] l IH]; simpl; congruence.
Qed.

Arguments trie_nodes : simpl never.
Arguments trie_words : simpl never.

Lemma sum_kids_insert f l i o k :
  l !! i = Some o ->
  sum_kids f (<[i := Some k]> l) =
  sum_kids f l - from_option f 0 o + f k.
Proof.
  revert i. induction l as [|x l IH]; intros [|i] Hl; simpl in *;
    try discriminate.
  - injection Hl as ->. destruct o; simpl; lia.
  - rewrite (IH _ Hl). destruct x; lia.
Qed.

Lemma sum_kids_replicate f n : sum_kids f (replicate n None) = 0.
Proof. induction n; simpl; auto. Qed.

Lemma trie_nodes_pos t : 0 < trie_nodes t.
Proof.
  assert (Hk : forall l, Forall (fun o => match o with
                                          | Some k => 0 < trie_nodes k
                                          | None => True end) l ->
                         0 <= sum_kids trie_nodes l).
  { induction 1 as [|[k|] l Hx Hl IH]; simpl; lia. }
  revert t. fix IH 1. intros [c f kids]. rewrite trie_nodes_eq.
  assert (0 <= sum_kids trie_nodes kids); [|lia].
  apply Hk. induction kids as [|[k|] l IHl]; constructor; auto.
Qed.

(** ** Insertion *)

Lemma same_but_alloc_refl w : same_but_alloc w w.
Proof.
  exists (trieAllocCalls (cb w)), (heapNodes w).
  destruct w as [[] ? ? ?]; reflexivity.
Qed.

Lemma same_but_alloc_trans w1 w2 w3 :
  same_but_alloc w1 w2 -> same_but_alloc w2 w3 -> same_but_alloc w1 w3.
Proof.
  intros (a & h & ->) (a' & h' & ->). exists a', h'.
  destruct w1 as [[] ? ? ?]; reflexivity.
Qed.

Ltac mcrunch :=
  repeat first
    [ progress prim
    | progress unfold bind, trieAllocNode in *
    | progress simpl in *
    | case_match
    | progress simplify_eq ].

(** One iteration of the loop of [trieAddWord], by cases. *)
Lemma trieAddLoop_nil r cur w t added ok w' :
  trieAddLoop [] r cur w = Done (t, added, ok) w' ->
  r = false /\ t = or_flags cur FLAGS_ISWORD /\ added = true /\ ok = true /\
  w' = w.
Proof. intros H. destruct r; mcrunch; auto. Qed.

Lemma trieAddLoop_cons c rest r cur w t added ok w' :
  trieAddLoop (c :: rest) r cur w = Done (t, added, ok) w' ->
  exists h, load (histogram (cb w)) (getCharIndex c) = Some h /\
  ((h = 0 /\ t = cur /\ added = false /\ ok = true /\ w' = w) \/
   (h <> 0 /\ exists slot,
      load (trie_child cur) (getCharIndex c) = Some slot /\
      ((slot = None /\ heapNodes w = O /\
        t = cur /\ added = false /\ ok = false /\ w' = w) \/
       (exists k k' w1,
          (slot = Some k /\ w1 = w \/
           slot = None /\ k = zeroNode /\
           exists n, heapNodes w = S n /\ w1 = allocated w n) /\
          trieAddLoop rest false (set_ch k c) w1 = Done (k', added, ok) w' /\
          t = TrieNode (trie_ch cur) (trie_flags cur)
                (<[Z.to_nat (getCharIndex c) := Some k']> (trie_child cur)))))).
Proof.
  intros H. simpl in H. mcrunch; eexists; (split; [reflexivity|]).
  - left. repeat split; auto. lia.
  - right. split; [lia|]. eexists; split; [reflexivity|]. right.
    eexists _, _, _. split; [left; eauto|]. split; [eassumption|reflexivity].
  - right. split; [lia|]. eexists; split; [reflexivity|]. right.
    eexists _, _, _.
    split; [right; split; [reflexivity|split; [reflexivity|]]|].
    { eexists. split; [eassumption|reflexivity]. }
    split; [exact H5|reflexivity].
  - right. split; [lia|]. eexists; split; [reflexivity|]. left.
    repeat split; auto.
Qed.

Ltac add_cases H IH :=
  let h := fresh "h" in
  let Hh := fresh "Hh" in
  let slot := fresh "slot" in
  let Hslot := fresh "Hslot" in
  let k := fresh "k" in
  let k' := fresh "k'" in
  let w1 := fresh "w1" in
  let Hk := fresh "Hk" in
  let Hrec := fresh "Hrec" in
  let n := fresh "n" in
  let Hn := fresh "Hheap" in
  apply trieAddLoop_cons in H as
    (h & Hh & [(-> & -> & -> & -> & ->) |
      (Hne & slot & Hslot &
        [(-> & Hn & -> & -> & -> & ->) |
         (k & k' & w1 & Hk & Hrec & ->)])]);
  [ | | destruct Hk as [(-> & ->) | (-> & -> & n & Hn & ->)] ].

Lemma trieAddLoop_frame word : forall r cur w t added ok w',
  trieAddLoop word r cur w = Done (t, added, ok) w' ->
  same_but_alloc w w' /\ trie_ch t = trie_ch cur.
Proof.
  induction word as [|c rest IH]; intros r cur w t added ok w' H.
  - apply trieAddLoop_nil in H as (-> & -> & -> & -> & ->).
    split; [apply same_but_alloc_refl|destruct cur; reflexivity].
  - add_cases H IH.
    + split; [apply same_but_alloc_refl|reflexivity].
    + split; [apply same_but_alloc_refl|reflexivity].
    + apply IH in Hrec as [? _]. auto.
    + apply IH in Hrec as [Hrec _]. split; [|reflexivity].
      eapply same_but_alloc_trans; [|exact Hrec].
      eexists _, _. reflexivity.
Qed.

Lemma load_lookup {A} (l : list A) i x :
  load l i = Some x -> 0 <= i /\ l !! Z.to_nat i = Some x.
Proof. unfold load. destruct (Z.leb_spec 0 i); [auto|discriminate]. Qed.

Lemma load_Some_lt {A} (l : list A) i x :
  load l i = Some x -> 0 <= i < Z.of_nat (length l).
Proof.
  intros [Hi Hl]%load_lookup. apply lookup_lt_Some in Hl. lia.
Qed.

Lemma incr_mod n : incr (n mod SIZE_MAX1) = (n + 1) mod SIZE_MAX1.
Proof. unfold incr. apply Zplus_mod_idemp_l. Qed.

Lemma set_ch_nodes t c : trie_nodes (set_ch t c) = trie_nodes t.
Proof. destruct t. reflexivity. Qed.

Lemma set_ch_words t c : trie_words (set_ch t c) = trie_words t.
Proof. destruct t. reflexivity. Qed.

Lemma trie_eta t : TrieNode (trie_ch t) (trie_flags t) (trie_child t) = t.
Proof. destruct t. reflexivity. Qed.

Lemma trie_nodes_insert t i o k :
  trie_child t !! i = Some o ->
  trie_nodes (TrieNode (trie_ch t) (trie_flags t) (<[i := Some k]> (trie_child t)))
  = trie_nodes t - from_option trie_nodes 0 o + trie_nodes k.
Proof.
  intros H. rewrite <- (trie_eta t) at 4. rewrite !trie_nodes_eq.
  rewrite (sum_kids_insert _ _ _ _ _ H). lia.
Qed.

Lemma trie_words_insert t i o k :
  trie_child t !! i = Some o ->
  trie_words (TrieNode (trie_ch t) (trie_flags t) (<[i := Some k]> (trie_child t)))
  = trie_words t - from_option trie_words 0 o + trie_words k.
Proof.
  intros H. rewrite <- (trie_eta t) at 4. rewrite !trie_words_eq.
  rewrite (sum_kids_insert _ _ _ _ _ H). lia.
Qed.

Lemma zeroNode_nodes : trie_nodes zeroNode = 1.
Proof. reflexivity. Qed.

Lemma zeroNode_words : trie_words zeroNode = 0.
Proof. reflexivity. Qed.

(** The allocation counter grows by the number of nodes the insertion
    adds, modulo the width of [size_t]. *)
Lemma trieAddLoop_count word : forall r cur w t added ok w' n,
  trieAddLoop word r cur w = Done (t, added, ok) w' ->
  trieAllocCalls (cb w) = n mod SIZE_MAX1 ->
  trieAllocCalls (cb w') = (n + trie_nodes t - trie_nodes cur) mod SIZE_MAX1.
Proof.
  induction word as [|c rest IH]; intros r cur w t added ok w' n H Hn.
  - apply trieAddLoop_nil in H as (-> & -> & -> & -> & ->).
    rewrite Hn. destruct cur. f_equal.
    unfold or_flags. rewrite !trie_nodes_eq. lia.
  - add_cases H IH; try (rewrite Hn; f_equal; lia).
    + eapply IH in Hrec; [|exact Hn]. rewrite Hrec.
      apply load_lookup in Hslot as [_ Hslot].
      rewrite (trie_nodes_insert _ _ _ _ Hslot), set_ch_nodes.
      cbn [from_option]. f_equal. lia.
    + eapply IH with (n := n + 1) in Hrec;
        [|simpl; rewrite Hn; apply incr_mod].
      rewrite Hrec. apply load_lookup in Hslot as [_ Hslot].
      rewrite (trie_nodes_insert _ _ _ _ Hslot), set_ch_nodes, zeroNode_nodes.
      cbn [from_option]. f_equal. lia.
Qed.

(** ** Teardown *)

(** Induction on a trie with the hypothesis for every child. *)
Lemma Trie_kids_ind (P : Trie -> Prop) :
  (forall c f kids,
     Forall (fun o => match o with Some k => P k | None => True end) kids ->
     P (TrieNode c f kids)) ->
  forall t, P t.
Proof.
  intros H. fix IH 1. intros [c f kids]. apply H.
  induction kids as [|[k|] l IHl]; constructor; auto.
Qed.

Lemma trieFreeNode_eq c f kids :
  trieFreeNode (TrieNode c f kids) =
  (freeKids kids ;;;
   (fun w => Done tt (mkWorld (cb w) (S (heapNodes w)) (trace w) (gpath w))) ;;;
   modify (fun b => set_trieFreeCalls (incr (trieFreeCalls b)) b)).
Proof.
  reflexivity.
Qed.

Lemma freed_self w : w = freed w (trieFreeCalls (cb w)) (heapNodes w).
Proof. destruct w as [[] ? ? ?]. reflexivity. Qed.

(** The teardown of a tree always returns, and counts every node once. *)
Lemma trieFreeNode_spec t : forall w,
  exists f h, trieFreeNode t w = Done tt (freed w f h) /\
    forall n, trieFreeCalls (cb w) = n mod SIZE_MAX1 ->
              f = (n + trie_nodes t) mod SIZE_MAX1.
Proof.
  induction t as [c fl kids IH] using Trie_kids_ind. intros w.
  assert (Hk : forall w, exists f h, freeKids kids w = Done tt (freed w f h) /\
    forall n, trieFreeCalls (cb w) = n mod SIZE_MAX1 ->
              f = (n + sum_kids trie_nodes kids) mod SIZE_MAX1).
  { clear w. induction IH as [|[k|] l Hx Hl IHl]; intros w; simpl.
    - exists (trieFreeCalls (cb w)), (heapNodes w). split.
      + unfold ret. f_equal. apply freed_self.
      + intros n ->. f_equal. lia.
    - destruct (Hx w) as (f1 & h1 & E1 & F1).
      destruct (IHl (freed w f1 h1)) as (f2 & h2 & E2 & F2).
      exists f2, h2. split.
      + rewrite (bind_step _ _ _ _ _ E1), E2. reflexivity.
      + intros n Hn. rewrite (F2 (n + trie_nodes k)).
        * f_equal. lia.
        * simpl. auto.
    - apply IHl. }
  destruct (Hk w) as (f1 & h1 & E1 & F1).
  exists (incr f1), (S h1). split.
  - rewrite trieFreeNode_eq, (bind_step _ _ _ _ _ E1). reflexivity.
  - intros n Hn. rewrite (F1 n Hn), incr_mod, trie_nodes_eq. f_equal. lia.
Qed.

(** ** Allocation and deallocation counts *)

Lemma initBoggle_counted w w' :
  initBoggle w = Done tt w' -> dict (cb w') <> None -> counted w'.
Proof.
  unfold initBoggle. intros H Hd. mcrunch; try congruence.
  exists zeroNode. repeat split.
Qed.

Lemma trieAddWord_counted word w r w' :
  counted w -> trieAddWord word w = Done r w' -> counted w'.
Proof.
  intros (t & Ht & Ha & Hf) H. unfold trieAddWord in H.
  apply bind_Done in H as (d & w0 & Hd & H). prim. simplify_eq.
  rewrite Ht in H.
  apply bind_Done in H as ([[t' added] ok] & w1 & Hloop & H).
  pose proof (trieAddLoop_count _ _ _ _ _ _ _ _ _ Hloop Ha) as Hc.
  apply trieAddLoop_frame in Hloop as [(a & h & ->) _].
  unfold bind in H. simpl in *. simplify_eq.
  exists t'. simpl. repeat split; auto.
  f_equal. lia.
Qed.

Lemma built_counted w : built w -> counted w.
Proof.
  induction 1 as [| |w w' _ (t & Ht & Ha & Hf) Hd Hac Hfc];
    eauto using initBoggle_counted, trieAddWord_counted.
  exists t. rewrite Hd, Hac, Hfc. auto.
Qed.

Lemma mainExit_counted w :
  counted w ->
  exists w', mainExit w = Done tt w' /\
             trieFreeCalls (cb w') = trieAllocCalls (cb w') /\
             dict (cb w') = None.
Proof.
  intros (t & Ht & Ha & Hf). unfold mainExit, trieFree.
  destruct (trieFreeNode_spec t w) as (f & h & E & F).
  specialize (F 0). rewrite Hf in F. specialize (F eq_refl).
  simpl in F.
  eexists. split.
  - unfold gets at 1. unfold bind at 1. rewrite Ht.
    unfold bind at 1. unfold bind at 1. rewrite E.
    unfold ret, modify, gets, bind, with_cb. simpl.
    rewrite Ha, F, Z.eqb_refl. simpl. reflexivity.
  - simpl. split; [rewrite Ha; reflexivity|reflexivity].
Qed.


(** When [malloc] fails in [initBoggle] the counter still counts a root:
    with no word to insert, [main] reaches its exit with one allocation
    counted and nothing to free, and its last assertion fails.  The theorem
    above is about runs in which the root was allocated. *)
Remark initBoggle_counts_missing_root :
  exists w1 w2,
    initBoggle (world0 0) = Done tt w1 /\ dict (cb w1) = None /\
    trieAllocCalls (cb w1) = 1 /\
    mainExit w1 = Abort AssertFail w2 /\ trieFreeCalls (cb w2) = 0.
Proof.
  exists (world_of (initBoggle (world0 0))),
         (world_of (mainExit (world_of (initBoggle (world0 0))))).
  split; [vm_compute; reflexivity|]. split; [vm_compute; reflexivity|].
  split; [vm_compute; reflexivity|]. split; vm_compute; reflexivity.
Qed.

(** ** Inserting a word a second time *)

Lemma trieAddLoop_hit c rest r cur w h k k' added ok w' :
  load (histogram (cb w)) (getCharIndex c) = Some h -> h <> 0 ->
  load (trie_child cur) (getCharIndex c) = Some (Some k) ->
  trieAddLoop rest false (set_ch k c) w = Done (k', added, ok) w' ->
  trieAddLoop (c :: rest) r cur w =
  Done (TrieNode (trie_ch cur) (trie_flags cur)
          (<[Z.to_nat (getCharIndex c) := Some k']> (trie_child cur)),
        added, ok) w'.
Proof.
  intros Hh Hne Hs Hrec. cbn [trieAddLoop]. unfold bind, gets, loadM.
  rewrite Hh. unfold ret. cbn beta iota.
  destruct (Z.eqb_spec h 0) as [|_]; [contradiction|].
  rewrite Hs. cbn beta iota. rewrite Hrec. reflexivity.
Qed.

Lemma load_insert {A} (l : list A) i x y :
  load l i = Some x -> load (<[Z.to_nat i := y]> l) i = Some y.
Proof.
  intros H. pose proof (load_Some_lt _ _ _ H). unfold load.
  destruct (Z.leb_spec 0 i); [|lia].
  apply list_lookup_insert_eq. lia.
Qed.

Lemma set_ch_same t : set_ch t (trie_ch t) = t.
Proof. destruct t. reflexivity. Qed.

Lemma or_flags_twice t m : or_flags (or_flags t m) m = or_flags t m.
Proof.
  destruct t. simpl. f_equal. rewrite <- Z.lor_assoc, Z.lor_diag. reflexivity.
Qed.

Lemma same_but_alloc_histogram w w' :
  same_but_alloc w w' -> histogram (cb w') = histogram (cb w).
Proof. intros (a & h & ->). reflexivity. Qed.

Lemma trieAddLoop_again_step c rest r cur w' h slot k' added ok :
  load (histogram (cb w')) (getCharIndex c) = Some h -> h <> 0 ->
  load (trie_child cur) (getCharIndex c) = Some slot ->
  trie_ch k' = c ->
  trieAddLoop rest false k' w' = Done (k', added, ok) w' ->
  let t := TrieNode (trie_ch cur) (trie_flags cur)
             (<[Z.to_nat (getCharIndex c) := Some k']> (trie_child cur)) in
  trieAddLoop (c :: rest) r t w' = Done (t, added, ok) w'.
Proof.
  intros Hh Hne Hs Hch Hrec t.
  rewrite <- (set_ch_same k'), Hch in Hrec at 1.
  rewrite (trieAddLoop_hit c rest r t w' h k' k' added ok w' Hh Hne);
    [| |exact Hrec].
  - unfold t. simpl. rewrite list_insert_insert_eq. reflexivity.
  - unfold t. simpl. eapply load_insert. exact Hs.
Qed.

Lemma trieAddLoop_break c rest r cur w :
  load (histogram (cb w)) (getCharIndex c) = Some 0 ->
  trieAddLoop (c :: rest) r cur w = Done (cur, false, true) w.
Proof.
  intros Hh. cbn [trieAddLoop]. unfold bind, gets, loadM. rewrite Hh.
  reflexivity.
Qed.

(** A successful insertion leaves a subtree on which the same insertion,
    from any world with the same histogram, changes nothing. *)
Lemma trieAddLoop_again word : forall r cur w t added ok w',
  trieAddLoop word r cur w = Done (t, added, ok) w' -> ok = true ->
  forall w2, histogram (cb w2) = histogram (cb w) ->
  trieAddLoop word r t w2 = Done (t, added, true) w2.
Proof.
  induction word as [|c rest IH]; intros r cur w t added ok w' H Hok w2 Hw2.
  - apply trieAddLoop_nil in H as (-> & -> & -> & -> & ->).
    cbn [trieAddLoop]. unfold assert, bind, ret. cbn [negb].
    rewrite (or_flags_twice cur). reflexivity.
  - add_cases H IH.
    + apply trieAddLoop_break. rewrite Hw2. exact Hh.
    + discriminate.
    + pose proof (trieAddLoop_frame _ _ _ _ _ _ _ _ Hrec) as [Hfr Hch].
      eapply IH in Hrec; [|exact Hok|exact Hw2].
      eapply trieAddLoop_again_step; eauto.
      * rewrite Hw2. exact Hh.
      * rewrite Hch. destruct k; reflexivity.
    + pose proof (trieAddLoop_frame _ _ _ _ _ _ _ _ Hrec) as [Hfr Hch].
      eapply IH in Hrec; [|exact Hok|exact Hw2].
      eapply trieAddLoop_again_step; eauto.
      rewrite Hw2. exact Hh.
Qed.

Lemma trieAddWord_dict word w r w' :
  trieAddWord word w = Done r w' ->
  (dict (cb w) = None /\ w' = w) \/
  exists root root', dict (cb w) = Some root /\
    exists w1, trieAddLoop word true root w = Done (root', fst r, snd r) w1 /\
               w' = with_cb (set_dict (Some root')) w1.
Proof.
  unfold trieAddWord. intros H.
  apply bind_Done in H as (d & w0 & Hd & H). prim. simplify_eq.
  destruct (dict (cb w0)) as [root|] eqn:Hroot.
  - right. apply bind_Done in H as ([[t' added] ok] & w1 & Hloop & H).
    unfold bind in H. simpl in H. simplify_eq. eauto 10.
  - left. split; [reflexivity|]. destruct word; mcrunch; reflexivity.
Qed.

(** C4 (as the code has it).  Inserting a word that was just inserted
    changes nothing: the dictionary, with its terminal markings and node
    count, and both counters stay as the first insertion left them; and the
    second insertion reports the same [wordAdded] as the first, so [true]
    for a word the first insertion marked. *)
Theorem trieAddWord_twice word w added w1 :
  trieAddWord word w = Done (added, true) w1 ->
  trieAddWord word w1 = Done (added, true) w1.
Proof.
  intros H. pose proof H as H0.
  apply trieAddWord_dict in H as [[Hd ->]|(root & root' & Hd & w2 & Hloop & ->)].
  - exact H0.
  - simpl in Hloop.
    pose proof (trieAddLoop_frame _ _ _ _ _ _ _ _ Hloop) as [(a & h & ->) _].
    eapply trieAddLoop_again in Hloop; [|reflexivity|].
    + unfold trieAddWord, gets, bind. simpl. rewrite Hloop. reflexivity.
    + reflexivity.
Qed.

(** ** The pruning filter *)

Lemma or_flags_nodes t m : trie_nodes (or_flags t m) = trie_nodes t.
Proof. destruct t. unfold or_flags. rewrite !trie_nodes_eq. reflexivity. Qed.

(** A word with a letter of count zero: nothing is marked, and only nodes
    for letters before the first such letter can be added. *)
Lemma trieAddLoop_absent pre : forall c post r cur w t added ok w',
  absent (histogram (cb w)) c ->
  trieAddLoop (pre ++ c :: post) r cur w = Done (t, added, ok) w' ->
  added = false /\ trie_words t = trie_words cur /\
  0 <= trie_nodes t - trie_nodes cur <= Z.of_nat (length pre).
Proof.
  induction pre as [|p pre IH]; intros c post r cur w t added ok w' Habs H.
  - change ([] ++ c :: post) with (c :: post) in H.
    rewrite (trieAddLoop_break _ _ _ _ _ Habs) in H.
    simplify_eq. simpl. repeat split; lia.
  - change ((p :: pre) ++ c :: post) with (p :: (pre ++ c :: post)) in H.
    add_cases H IH.
    + simpl. repeat split; lia.
    + simpl. repeat split; lia.
    + apply IH in Hrec as (-> & Hw & Hn); [|exact Habs].
      apply load_lookup in Hslot as [_ Hslot].
      rewrite (trie_words_insert _ _ _ _ Hslot),
        (trie_nodes_insert _ _ _ _ Hslot).
      rewrite set_ch_words in Hw. rewrite set_ch_nodes in Hn.
      cbn [from_option length]. repeat split; lia.
    + apply IH in Hrec as (-> & Hw & Hn); [|exact Habs].
      apply load_lookup in Hslot as [_ Hslot].
      rewrite (trie_words_insert _ _ _ _ Hslot),
        (trie_nodes_insert _ _ _ _ Hslot).
      rewrite set_ch_words, zeroNode_words in Hw.
      rewrite set_ch_nodes, zeroNode_nodes in Hn.
      cbn [from_option length]. repeat split; lia.
Qed.

Lemma trieAddWord_absent pre c post w added ok w' :
  absent (histogram (cb w)) c ->
  trieAddWord (pre ++ c :: post) w = Done (added, ok) w' ->
  added = false /\
  dict_words (dict (cb w')) = dict_words (dict (cb w)) /\
  0 <= dict_nodes (dict (cb w')) - dict_nodes (dict (cb w))
    <= Z.of_nat (length pre).
Proof.
  intros Habs H.
  pose proof H as H0.
  apply trieAddWord_dict in H as [[Hd ->]|(root & root' & Hd & w2 & Hloop & ->)].
  - split; [|split; lia]. unfold trieAddWord, gets, bind in H0.
    rewrite Hd in H0. destruct pre; simpl in H0; mcrunch; reflexivity.
  - simpl in Hloop. apply trieAddLoop_absent in Hloop; [|exact Habs].
    rewrite Hd. simpl. exact Hloop.
Qed.

(** A line longer than the board has tiles never reaches [trieAddWord]. *)
Lemma trieBuildLoop_skip buf rest count w :
  boardSize (cb w) * boardSize (cb w) < Z.of_nat (length buf) ->
  trieBuildLoop (buf :: rest) count w = trieBuildLoop rest count w.
Proof.
  intros H. cbn [trieBuildLoop]. unfold bind, gets.
  destruct (Z.leb_spec (Z.of_nat (length buf))
              (boardSize (cb w) * boardSize (cb w))); [lia|reflexivity].
Qed.

(** ** The search: what each primitive does *)

Ltac crunch_prim :=
  repeat first
    [ progress (unfold bind, gets, modify, ret, raise, loadM, storeM, assert,
                emit, get_gpath, set_gpath, snapshot in *)
    | progress cbn beta iota in *
    | case_match
    | progress simplify_eq ].

Lemma isValid_spec i nd w :
  isValid i nd w = Abort OutOfBounds (with_trace w [Probe i]) \/
  exists v, isValid i nd w = Done v (with_trace w [Probe i]) /\
    (v = true ->
     load (used (cb w)) i = Some false /\
     exists c k, load (board (cb w)) i = Some c /\
                 load (trie_child nd) (getCharIndex c) = Some (Some k)).
Proof.
  unfold isValid. crunch_prim; cbn in *; simplify_eq; eauto.
  all: try (right; eexists; split; [reflexivity|]; intros; try discriminate).
  destruct a; [discriminate|]. eauto.
Qed.

Lemma store_Some {A} (l : list A) i x l' :
  store l i x = Some l' ->
  0 <= i < Z.of_nat (length l) /\ l' = <[Z.to_nat i := x]> l.
Proof.
  unfold store. destruct (Z.leb_spec 0 i), (Z.ltb_spec i (Z.of_nat (length l)));
    simpl; intros; simplify_eq; auto with lia.
Qed.

Lemma markUsed_spec row col si w :
  match markUsed row col si w with
  | Abort f w' => trace w' = trace w /\ f <> OutOfFuel
  | Done _ w' =>
      let i := cell_index (boardSize (cb w)) (row, col) in
      load (used (cb w)) i = Some false /\
      exists c s', load (board (cb w)) i = Some c /\
                   store (search (cb w)) si c = Some s' /\
                   w' = marked w row col si s'
  end.
Proof.
  unfold markUsed, marked, cell_index. crunch_prim; cbn in *; simplify_eq;
    try (split; [reflexivity|discriminate]).
  match goal with H : store (used _) _ _ = Some _ |- _ =>
    apply store_Some in H as [_ ->] end.
  match goal with H : eqb ?a false = true |- _ =>
    destruct a; [discriminate|] end.
  eauto 10.
Qed.

Lemma markUnused_spec row col si w :
  match markUnused row col si w with
  | Abort f w' => trace w' = trace w /\ f <> OutOfFuel
  | Done _ w' =>
      let i := cell_index (boardSize (cb w)) (row, col) in
      load (used (cb w)) i = Some true /\
      exists s', store (search (cb w)) si NUL = Some s' /\
                 w' = unmarked w row col si s'
  end.
Proof.
  unfold markUnused, unmarked, cell_index. crunch_prim; cbn in *; simplify_eq;
    try (split; [reflexivity|discriminate]).
  match goal with H : store (used _) _ _ = Some _ |- _ =>
    apply store_Some in H as [_ ->] end.
  match goal with H : eqb ?a true = true |- _ =>
    destruct a; [|discriminate] end.
  eauto 10.
Qed.

Lemma printFound_spec row col w :
  match printFound row col w with
  | Abort f w' => w' = w /\ f = OutOfBounds
  | Done _ w' =>
      exists word, cstring (search (cb w)) = Some word /\
                   w' = with_trace w [Found word row col (gpath w)]
  end.
Proof.
  unfold printFound. crunch_prim; cbn in *; simplify_eq; eauto.
Qed.

(** ** The search: lists, masks and buffers *)

Lemma cstring_padded word k :
  Forall (fun ch => ch <> NUL) word ->
  cstring (word ++ replicate k NUL) =
  match k with O => None | S _ => Some word end.
Proof.
  induction 1 as [|c word Hc Hw IH]; simpl.
  - destruct k; reflexivity.
  - destruct (Ascii.eqb_spec c NUL) as [|_]; [contradiction|].
    rewrite IH. destruct k; reflexivity.
Qed.

Lemma store_padded (word : list ascii) k c s' :
  store (word ++ replicate k NUL) (Z.of_nat (length word)) c = Some s' ->
  exists k', k = S k' /\ s' = (word ++ [c]) ++ replicate k' NUL.
Proof.
  intros [Hr ->]%store_Some. rewrite length_app, length_replicate in Hr.
  destruct k as [|k']; [lia|]. exists k'. split; [reflexivity|].
  rewrite Nat2Z.id, insert_app_r_alt, Nat.sub_diag by lia.
  simpl. rewrite <- app_assoc. reflexivity.
Qed.

Lemma store_unpadded (word : list ascii) k c :
  store ((word ++ [c]) ++ replicate k NUL) (Z.of_nat (length word)) NUL =
  Some (word ++ replicate (S k) NUL).
Proof.
  unfold store. rewrite !length_app, length_replicate. simpl.
  destruct (Z.leb_spec 0 (Z.of_nat (length word))); [|lia].
  destruct (Z.ltb_spec (Z.of_nat (length word))
              (Z.of_nat (length word + 1 + k))); [|lia].
  simpl. f_equal. rewrite Nat2Z.id, <- app_assoc.
  rewrite insert_app_r_alt, Nat.sub_diag by lia. reflexivity.
Qed.

Lemma unused_mark mask i :
  mask !! i = Some false ->
  unused mask = S (unused (<[i := true]> mask)).
Proof.
  revert i. induction mask as [|u mask IH]; intros [|i] H; simpl in *;
    simplify_eq; auto.
  rewrite (IH _ H). destruct u; simpl; lia.
Qed.

Lemma unused_le mask : (unused mask <= length mask)%nat.
Proof. induction mask as [|[] mask IH]; simpl; lia. Qed.

Lemma unused_replicate n : unused (replicate n false) = n.
Proof. induction n; simpl; auto. Qed.

Lemma unmark_mark (mask : list bool) i :
  mask !! i = Some false -> <[i := false]> (<[i := true]> mask) = mask.
Proof.
  intros H. rewrite list_insert_insert_eq. apply list_insert_id, H.
Qed.

Lemma load_insert_ne {A} (l : list A) i j x :
  0 <= i -> i <> j -> load (<[Z.to_nat i := x]> l) j = load l j.
Proof.
  intros Hi Hne. unfold load. destruct (Z.leb_spec 0 j); [|reflexivity].
  apply list_lookup_insert_ne. lia.
Qed.

Lemma mask_is_mark (b : Z) mask path p :
  mask_is b mask path ->
  load mask (cell_index b p) = Some false ->
  mask_is b (<[Z.to_nat (cell_index b p) := true]> mask) (p :: path).
Proof.
  intros Hm Hl i. simpl. rewrite elem_of_cons.
  destruct (Z.eq_dec i (cell_index b p)) as [->|Hne].
  - rewrite (load_insert _ _ _ _ Hl). tauto.
  - apply load_lookup in Hl as [Hi _].
    rewrite load_insert_ne by auto. specialize (Hm i). tauto.
Qed.

Lemma mask_is_fresh (b : Z) mask path i :
  mask_is b mask path -> load mask i = Some false ->
  i ∉ map (cell_index b) path.
Proof. intros Hm Hl Hin. apply Hm in Hin. congruence. Qed.

Lemma length_le_range (l : list Z) n :
  NoDup l -> Forall (fun x => 0 <= x < n) l -> Z.of_nat (length l) <= Z.max 0 n.
Proof.
  intros Hnd Hr.
  assert (Hsub : map Z.to_nat l ⊆ seq 0 (Z.to_nat n)).
  { intros x [y [-> Hy]]%list_elem_of_fmap.
    rewrite Forall_forall in Hr. apply Hr in Hy.
    apply elem_of_seq. lia. }
  assert (Hnd' : NoDup (map Z.to_nat l)).
  { apply NoDup_fmap_2_strong; [|exact Hnd].
    intros x y Hx Hy Heq. rewrite Forall_forall in Hr.
    apply Hr in Hx, Hy. lia. }
  pose proof (submseteq_length _ _ (NoDup_submseteq _ _ Hnd' Hsub)) as Hlen.
  rewrite length_map, length_seq in Hlen. lia.
Qed.

Lemma in_grid_index n p :
  in_grid n p -> 0 <= cell_index n p <= n * n - 1.
Proof. unfold in_grid, cell_index. nia. Qed.

Lemma path_length_le n path :
  NoDup (map (cell_index n) path) -> Forall (in_grid n) path ->
  Z.of_nat (length path) <= n * n.
Proof.
  intros Hnd Hg.
  pose proof (length_le_range (map (cell_index n) path) (n * n) Hnd) as H.
  rewrite length_map in H.
  assert (0 <= n * n) by nia.
  rewrite Z.max_r in H by lia. apply H.
  rewrite Forall_fmap. eapply Forall_impl; [exact Hg|].
  intros p Hp. simpl. apply in_grid_index in Hp. lia.
Qed.

(** ** The search: composing steps *)

Lemma with_trace_nil w : with_trace w [] = w.
Proof. destruct w. unfold with_trace. simpl. rewrite app_nil_r. reflexivity. Qed.

Lemma with_trace_app w e1 e2 :
  with_trace (with_trace w e1) e2 = with_trace w (e1 ++ e2).
Proof. unfold with_trace. simpl. rewrite app_assoc. reflexivity. Qed.

Lemma step_ok_refl fuel w : step_ok fuel w (Done tt w).
Proof. exists []. split; [constructor|]. symmetry. apply with_trace_nil. Qed.

Lemma step_ok_trans fuel w evs o :
  Forall (event_ok (boardSize (cb w)) (board (cb w))) evs ->
  step_ok fuel (with_trace w evs) o -> step_ok fuel w o.
Proof.
  intros H1 (evs2 & H2 & Ho). exists (evs ++ evs2). split.
  - apply Forall_app. auto.
  - destruct o as [[] w'|f w']; simpl in *.
    + rewrite Ho. apply with_trace_app.
    + rewrite app_assoc. exact Ho.
Qed.

Lemma step_ok_done fuel w w1 o :
  step_ok fuel w (Done tt w1) -> step_ok fuel w1 o -> step_ok fuel w o.
Proof.
  intros (evs & H1 & ->) H2. eapply step_ok_trans; eauto.
Qed.

Lemma for_each_ok {A} fuel (P : World -> Prop) (l : list A) body :
  (forall w evs, P w -> P (with_trace w evs)) ->
  (forall x w, x ∈ l -> P w -> step_ok fuel w (body x w)) ->
  forall w, P w -> step_ok fuel w (for_each l body w).
Proof.
  intros HP Hbody. induction l as [|x l IH]; intros w Hw; simpl.
  - apply step_ok_refl.
  - unfold bind.
    pose proof (Hbody x w (list_elem_of_here _ _) Hw) as Hx.
    destruct (body x w) as [[] w1|f w1]; [|exact Hx].
    eapply step_ok_done; [exact Hx|].
    destruct Hx as (evs & _ & ->).
    apply IH; [|apply HP, Hw].
    intros y w' Hy. apply Hbody. apply list_elem_of_further, Hy.
Qed.

Lemma search_inv_with_trace w evs : search_inv w -> search_inv (with_trace w evs).
Proof. intros []. constructor; assumption. Qed.

Lemma findSolution_unfold fuel row col nd stringIndex :
  findSolution (S fuel) row col (Some nd) stringIndex =
  ((if Z.land (trie_flags nd) FLAGS_ISWORD =? 0 then ret tt
    else printFound row col) ;;;
   bs <- gets boardSize ;;
   for_each (seqZ (-1) 3) (fun rowDiff =>
     let newRow := row + rowDiff in
     if (0 <=? newRow) && (newRow <? bs) then
       for_each (seqZ (-1) 3) (fun colDiff =>
         let newCol := col + colDiff in
         b <- gets id ;;
         if (0 <=? newCol) && (newCol <? bs) then
           explore (findSolution fuel) nd stringIndex newRow newCol b
         else ret tt)
     else ret tt)).
Proof. reflexivity. Qed.

Lemma at_tile_with_trace row col si w evs :
  at_tile row col si w -> at_tile row col si (with_trace w evs).
Proof.
  intros (H1 & H2 & H3). split; [|split]; auto using search_inv_with_trace.
Qed.

(** ** The search: marking and unmarking a tile *)

Lemma spelled_length n tiles path word :
  spelled n tiles path word -> length word = length path.
Proof.
  intros H. apply Forall2_length in H. rewrite length_rev in H. auto.
Qed.

Lemma marked_at_tile si w nr nc c s' :
  search_inv w -> si = Z.of_nat (length (gpath w)) ->
  in_grid (boardSize (cb w)) (nr, nc) ->
  near_head (gpath w) nr nc ->
  load (used (cb w)) (cell_index (boardSize (cb w)) (nr, nc)) = Some false ->
  load (board (cb w)) (cell_index (boardSize (cb w)) (nr, nc)) = Some c ->
  store (search (cb w)) si c = Some s' ->
  (c <> NUL -> at_tile nr nc (si + 1) (marked w nr nc si s')) /\
  event_ok (boardSize (cb w)) (board (cb w))
    (Snap si (<[Z.to_nat (cell_index (boardSize (cb w)) (nr, nc)) := true]>
                (used (cb w)))
          ((nr, nc) :: gpath w)).
Proof.
  intros [Hm Hnd Hch Hg (word & Hsp & Hnul & Hs & Hlen)] Hsi
    Hin Hnear Hu Hb Hst.
  set (n := boardSize (cb w)) in *.
  assert (Hfresh : cell_index n (nr, nc) ∉ map (cell_index n) (gpath w))
    by (eapply mask_is_fresh; eauto).
  assert (Hnd' : NoDup (map (cell_index n) ((nr, nc) :: gpath w)))
    by (simpl; constructor; auto).
  assert (Hg' : Forall (in_grid n) ((nr, nc) :: gpath w))
    by (constructor; auto).
  pose proof (path_length_le _ _ Hnd' Hg') as Hle. simpl length in Hle.
  pose proof (mask_is_mark _ _ _ _ Hm Hu) as Hm'.
  split; [|split; [exact Hm'|lia]].
  intros Hcn.
  pose proof (spelled_length _ _ _ _ Hsp) as Hwl.
  rewrite Hs, Hsi, <- Hwl in Hst.
  apply store_padded in Hst as (k' & Hk & ->).
  split; [|split].
  - constructor; simpl; fold n; auto.
    + destruct (gpath w) as [|q rest] eqn:Hp; [exact I|].
      split; [|exact Hch]. destruct Hnear as [Hr Hc].
      repeat split; simpl; auto.
      intros Heq. apply Hfresh. rewrite Heq. simpl. left.
    + exists (word ++ [c]). repeat split.
      * unfold spelled. simpl. apply Forall2_app; [exact Hsp|].
        constructor; [exact Hb|constructor].
      * apply Forall_app. split; [exact Hnul|]. constructor; auto.
      * rewrite length_app. simpl. f_equal. f_equal. lia.
      * rewrite length_app. simpl. lia.
  - simpl. eauto.
  - simpl. lia.
Qed.

Lemma set_search_used_id b :
  set_search (search b) (set_used (used b) b) = b.
Proof. destruct b. reflexivity. Qed.

Lemma unmarked_marked si w nr nc c s' s2 evs :
  search_inv w -> si = Z.of_nat (length (gpath w)) ->
  load (used (cb w)) (cell_index (boardSize (cb w)) (nr, nc)) = Some false ->
  store (search (cb w)) si c = Some s' ->
  store s' si NUL = Some s2 ->
  unmarked (with_trace (marked w nr nc si s') evs) nr nc si s2 =
  with_trace w
    ([Snap si (<[Z.to_nat (cell_index (boardSize (cb w)) (nr, nc)) := true]>
                 (used (cb w))) ((nr, nc) :: gpath w)]
     ++ evs ++ [Snap si (used (cb w)) (gpath w)]).
Proof.
  intros [Hm Hnd Hch Hg (word & Hsp & Hnul & Hs & Hlen)] Hsi Hu Hst Hst2.
  pose proof (spelled_length _ _ _ _ Hsp) as Hwl.
  rewrite Hs, Hsi, <- Hwl in Hst.
  apply store_padded in Hst as (k' & Hk & ->).
  rewrite Hsi, <- Hwl, store_unpadded in Hst2.
  rewrite <- Hk, <- Hs in Hst2. injection Hst2 as <-.
  apply load_lookup in Hu as [_ Hu].
  unfold unmarked, marked, with_trace. simpl.
  rewrite (unmark_mark _ _ Hu). f_equal.
  - clear. destruct (cb w). reflexivity.
  - rewrite <- !app_assoc. reflexivity.
Qed.

(** ** The search: one move, and the whole recursion *)

Lemma getCharIndex_NUL c : 0 <= getCharIndex c -> c <> NUL.
Proof. intros H ->. vm_compute in H. apply H. reflexivity. Qed.

Section Explore.
Variable fuel' : nat.
Hypothesis IH : forall row col node si w,
  at_tile row col si w ->
  step_ok fuel' w (findSolution fuel' row col node si w).

Lemma explore_ok row col si nd nr nc w :
  at_tile row col si w ->
  in_grid (boardSize (cb w)) (nr, nc) ->
  Z.abs (nr - row) <= 1 -> Z.abs (nc - col) <= 1 ->
  step_ok (S fuel') w (explore (findSolution fuel') nd si nr nc (cb w) w).
Proof.
  intros Hat Hin Hr Hc.
  set (n := boardSize (cb w)). set (tiles := board (cb w)).
  set (i := cell_index n (nr, nc)).
  assert (Hprobe : event_ok n tiles (Probe i))
    by (apply in_grid_index in Hin; exact Hin).
  unfold explore. change (getBoardIndex (cb w) nr nc) with i.
  unfold bind at 1.
  destruct (isValid_spec i nd w) as [->|(v & -> & Hv)].
  { exists [Probe i]. split; [apply Forall_singleton; exact Hprobe|].
    split; [reflexivity|discriminate]. }
  destruct v.
  2:{ exists [Probe i]. split; [apply Forall_singleton; exact Hprobe|].
      reflexivity. }
  destruct (Hv eq_refl) as (Hu & c & k & Hb & Hk). clear Hv.
  assert (Hcn : c <> NUL).
  { apply getCharIndex_NUL. apply load_lookup in Hk. tauto. }
  set (wp := with_trace w [Probe i]).
  assert (Hat' : at_tile row col si wp) by (apply at_tile_with_trace, Hat).
  eapply step_ok_trans with (evs := [Probe i]);
    [apply Forall_singleton; exact Hprobe|]. fold wp.
  unfold loadM at 1. change (board (cb w)) with (board (cb wp)).
  change i with (cell_index (boardSize (cb wp)) (nr, nc)) in Hu, Hb |- *.
  change (used (cb w)) with (used (cb wp)) in Hu.
  change (board (cb w)) with (board (cb wp)) in Hb.
  change (boardSize (cb w)) with (boardSize (cb wp)) in Hin.
  clearbody wp. clear Hat Hprobe. subst n tiles i.
  rewrite Hb. unfold bind at 1, ret at 1. unfold bind at 1.
  pose proof (markUsed_spec nr nc si wp) as Hmu.
  destruct (markUsed nr nc si wp) as [[] w1|f w1].
  2:{ exists []. split; [constructor|]. destruct Hmu as [-> Hf].
      rewrite app_nil_r. split; [reflexivity|]. intros; contradiction. }
  destruct Hmu as (_ & c' & s' & Hb' & Hst & ->).
  rewrite Hb in Hb'. injection Hb' as <-.
  destruct Hat' as (Hinv & (rest & Hp) & Hsi).
  assert (Hnear : near_head (gpath wp) nr nc) by (rewrite Hp; simpl; auto).
  destruct (marked_at_tile _ _ _ _ _ _ Hinv Hsi Hin Hnear Hu Hb Hst)
    as [Hat1 Hsnap].
  specialize (Hat1 Hcn).
  unfold bind at 1, loadM at 1. rewrite Hk. unfold ret at 1.
  unfold bind at 1.
  pose proof (IH nr nc (Some k) (si + 1) _ Hat1) as (evs & Hevs & Ho).
  destruct (findSolution fuel' nr nc (Some k) (si + 1) _) as [[] w2|f w2].
  2:{ eexists (_ :: evs). split; [constructor; [exact Hsnap|exact Hevs]|].
      destruct Ho as [Ht Hf]. split.
      - rewrite Ht. simpl. rewrite <- app_assoc. reflexivity.
      - intros Hof. specialize (Hf Hof). simpl in Hf.
        apply load_lookup in Hu as [_ Hu].
        rewrite (unused_mark _ _ Hu). lia. }
  subst w2.
  pose proof (markUnused_spec nr nc si
                (with_trace (marked wp nr nc si s') evs)) as Hmn.
  destruct (markUnused nr nc si _) as [[] w3|f w3].
  2:{ eexists (_ :: evs). split; [constructor; [exact Hsnap|exact Hevs]|].
      destruct Hmn as [Ht Hf]. split.
      - rewrite Ht. simpl. rewrite <- app_assoc. reflexivity.
      - intros; contradiction. }
  destruct Hmn as (_ & s2 & Hst2 & ->).
  rewrite (unmarked_marked _ _ _ _ _ _ _ _ Hinv Hsi Hu Hst Hst2).
  eexists. split; [|reflexivity].
  constructor; [exact Hsnap|]. apply Forall_app. split; [exact Hevs|].
  constructor; [|constructor]. split.
  - destruct Hinv. assumption.
  - apply Hsnap.
Qed.
End Explore.

Lemma elem_of_diffs d : d ∈ seqZ (-1) 3 -> Z.abs d <= 1.
Proof. intros H. apply elem_of_seqZ in H. lia. Qed.

Lemma found_ok row col si w word :
  at_tile row col si w ->
  cstring (search (cb w)) = Some word ->
  event_ok (boardSize (cb w)) (board (cb w)) (Found word row col (gpath w)).
Proof.
  intros ([Hm Hnd Hch Hg (word' & Hsp & Hnul & Hs & Hlen)] & Hp & Hsi) Hc.
  rewrite Hs, (cstring_padded _ _ Hnul) in Hc.
  destruct (Z.to_nat MAX_WORD_LENGTH - length word')%nat; simplify_eq.
  repeat split; auto.
Qed.

(** The master lemma of the search: every call of [findSolution] from a
    state in which mask, path and buffer agree adds only good events,
    restores the state when it returns, and runs out of fuel only if there
    are at least as many unused tiles as fuel. *)
Lemma findSolution_ok fuel : forall row col node si w,
  at_tile row col si w ->
  step_ok fuel w (findSolution fuel row col node si w).
Proof.
  induction fuel as [|fuel' IH]; intros row col node si w Hat;
    (destruct node as [nd|];
     [|exists []; split; [constructor|]; simpl; rewrite app_nil_r;
       split; [reflexivity|discriminate]]).
  { exists []. split; [constructor|]. simpl. rewrite app_nil_r.
    split; [reflexivity|lia]. }
  rewrite findSolution_unfold.
  assert (Hloops : forall w, at_tile row col si w ->
    step_ok (S fuel') w
      ((bs <- gets boardSize ;;
        for_each (seqZ (-1) 3) (fun rowDiff =>
          let newRow := row + rowDiff in
          if (0 <=? newRow) && (newRow <? bs) then
            for_each (seqZ (-1) 3) (fun colDiff =>
              let newCol := col + colDiff in
              b <- gets id ;;
              if (0 <=? newCol) && (newCol <? bs) then
                explore (findSolution fuel') nd si newRow newCol b
              else ret tt)
          else ret tt)) w)).
  { clear w Hat. intros w Hat. unfold bind at 1, gets at 1.
    set (bs := boardSize (cb w)).
    apply (for_each_ok (S fuel')
             (fun w => at_tile row col si w /\ boardSize (cb w) = bs)).
    - intros w0 evs [H1 H2]. split; [apply at_tile_with_trace, H1|exact H2].
    - intros rowDiff w1 Hrd [Hat1 Hbs1]. cbv zeta.
      destruct ((0 <=? row + rowDiff) && (row + rowDiff <? bs)) eqn:Er;
        [|apply step_ok_refl].
      apply andb_true_iff in Er as [Hr1%Z.leb_le Hr2%Z.ltb_lt].
      apply (for_each_ok (S fuel')
               (fun w => at_tile row col si w /\ boardSize (cb w) = bs)).
      + intros w0 evs [H1 H2]. split; [apply at_tile_with_trace, H1|exact H2].
      + intros colDiff w2 Hcd [Hat2 Hbs2]. cbv zeta.
        unfold bind at 1, gets at 1. unfold id.
        destruct ((0 <=? col + colDiff) && (col + colDiff <? bs)) eqn:Ec;
          [|apply step_ok_refl].
        apply andb_true_iff in Ec as [Hc1%Z.leb_le Hc2%Z.ltb_lt].
        apply elem_of_diffs in Hrd, Hcd.
        apply (explore_ok fuel' IH row col); auto.
        * rewrite Hbs2. split; simpl; lia.
        * replace (row + rowDiff - row) with rowDiff by lia. exact Hrd.
        * replace (col + colDiff - col) with colDiff by lia. exact Hcd.
      + auto.
    - auto. }
  unfold bind at 1.
  destruct (Z.land (trie_flags nd) FLAGS_ISWORD =? 0).
  { unfold ret at 1. apply Hloops, Hat. }
  pose proof (printFound_spec row col w) as Hpf.
  destruct (printFound row col w) as [[] w1|f w1].
  - destruct Hpf as (word & Hc & ->).
    eapply step_ok_trans.
    + apply Forall_singleton. eapply found_ok; eauto.
    + apply Hloops, at_tile_with_trace, Hat.
  - destruct Hpf as [-> ->]. exists []. split; [constructor|].
    rewrite app_nil_r. split; [reflexivity|discriminate].
Qed.

(** ** The search: the top-level driver *)

Lemma playBoggle_unfold fuel :
  playBoggle fuel =
  (bs <- gets boardSize ;;
   assert (bs * bs <=? MAX_WORD_LENGTH) ;;;
   modify (set_search (replicate (Z.to_nat MAX_WORD_LENGTH) NUL)) ;;;
   for_each (seqZ 0 bs) (fun i => for_each (seqZ 0 bs) (fun j => start fuel i j))).
Proof. reflexivity. Qed.

Lemma start_ok fuel i j w :
  search_inv w -> gpath w = [] ->
  in_grid (boardSize (cb w)) (i, j) ->
  step_ok (S fuel) w (start fuel i j w).
Proof.
  intros Hinv Hp Hin. unfold start. unfold bind at 1.
  assert (Hsi : 0 = Z.of_nat (length (gpath w))) by (rewrite Hp; reflexivity).
  assert (Hnear : near_head (gpath w) i j) by (rewrite Hp; exact I).
  pose proof (markUsed_spec i j 0 w) as Hmu.
  destruct (markUsed i j 0 w) as [[] w1|f w1].
  2:{ exists []. split; [constructor|]. destruct Hmu as [-> Hf].
      rewrite app_nil_r. split; [reflexivity|]. intros; contradiction. }
  destruct Hmu as (Hu & c & s' & Hb & Hst & ->).
  destruct (marked_at_tile _ _ _ _ _ _ Hinv Hsi Hin Hnear Hu Hb Hst)
    as [Hat1 Hsnap].
  unfold bind at 1, gets at 1, id.
  change (getBoardIndex (cb (marked w i j 0 s')) i j)
    with (cell_index (boardSize (cb w)) (i, j)).
  change (board (cb (marked w i j 0 s'))) with (board (cb w)).
  change (dict (cb (marked w i j 0 s'))) with (dict (cb w)).
  unfold loadM at 1. rewrite Hb. unfold bind at 1, ret at 1.
  unfold bind at 1.
  assert (Hstop : forall f, f <> OutOfFuel ->
    step_ok (S fuel) w (Abort f (marked w i j 0 s'))).
  { intros f Hf. eexists [_]. split; [apply Forall_singleton, Hsnap|].
    split; [reflexivity|]. intros; contradiction. }
  destruct (dict (cb w)) as [d|]; [|apply Hstop; discriminate].
  unfold loadM at 1.
  destruct (load (trie_child d) (getCharIndex c)) as [root|] eqn:Hroot;
    [|apply Hstop; discriminate].
  unfold ret at 1.
  assert (Hcn : c <> NUL).
  { apply getCharIndex_NUL. apply load_lookup in Hroot. tauto. }
  specialize (Hat1 Hcn). unfold bind at 1.
  pose proof (findSolution_ok fuel i j root 1 _ Hat1) as (evs & Hevs & Ho).
  destruct (findSolution fuel i j root 1 _) as [[] w2|f w2].
  2:{ eexists (_ :: evs). split; [constructor; [exact Hsnap|exact Hevs]|].
      destruct Ho as [Ht Hf]. split.
      - rewrite Ht. simpl. rewrite <- app_assoc. reflexivity.
      - intros Hof. specialize (Hf Hof). simpl in Hf.
        apply load_lookup in Hu as [_ Hu].
        rewrite (unused_mark _ _ Hu). lia. }
  subst w2.
  pose proof (markUnused_spec i j 0
                (with_trace (marked w i j 0 s') evs)) as Hmn.
  destruct (markUnused i j 0 _) as [[] w3|f w3].
  2:{ eexists (_ :: evs). split; [constructor; [exact Hsnap|exact Hevs]|].
      destruct Hmn as [Ht Hf]. split.
      - rewrite Ht. simpl. rewrite <- app_assoc. reflexivity.
      - intros; contradiction. }
  destruct Hmn as (_ & s2 & Hst2 & ->).
  rewrite (unmarked_marked _ _ _ _ _ _ _ _ Hinv Hsi Hu Hst Hst2).
  eexists. split; [|reflexivity].
  constructor; [exact Hsnap|]. apply Forall_app. split; [exact Hevs|].
  constructor; [|constructor]. split.
  - destruct Hinv. assumption.
  - apply Hsnap.
Qed.

(** A tile whose letter has no child under the root: the driver marks it
    and calls [findSolution] with [NULL], whose assertion fails. *)
Lemma start_without_root fuel i j w w1 d c :
  markUsed i j 0 w = Done tt w1 ->
  dict (cb w) = Some d ->
  load (board (cb w)) (getBoardIndex (cb w) i j) = Some c ->
  load (trie_child d) (getCharIndex c) = Some None ->
  start fuel i j w = Abort AssertFail w1.
Proof.
  intros Hmu Hd Hb Hroot. unfold start. unfold bind at 1. rewrite Hmu.
  pose proof (markUsed_spec i j 0 w) as Hs. rewrite Hmu in Hs.
  destruct Hs as (_ & c' & s' & _ & _ & ->).
  unfold bind at 1, gets at 1, id.
  change (board (cb (marked w i j 0 s'))) with (board (cb w)).
  change (dict (cb (marked w i j 0 s'))) with (dict (cb w)).
  change (getBoardIndex (cb (marked w i j 0 s')) i j)
    with (getBoardIndex (cb w) i j).
  unfold loadM at 1. rewrite Hb. unfold bind at 1, ret at 1.
  rewrite Hd. unfold bind at 1, loadM at 1. rewrite Hroot.
  unfold ret at 1. unfold bind at 1. destruct fuel; reflexivity.
Qed.

Lemma cleared_inv w : idle w -> search_inv (cleared w).
Proof.
  intros [Hp Hu]. constructor; simpl; rewrite ?Hp; simpl.
  - intros i. split.
    + intros H. apply load_lookup in H as [_ H].
      rewrite Forall_lookup in Hu. apply Hu in H. discriminate.
    + intros H. inversion H.
  - constructor.
  - exact I.
  - constructor.
  - exists []. repeat split; try constructor. simpl. lia.
Qed.

Lemma playBoggle_ok fuel w :
  idle w ->
  exists evs,
    Forall (event_ok (boardSize (cb w)) (board (cb w))) evs /\
    match playBoggle fuel w with
    | Done _ w' => w' = with_trace (cleared w) evs
    | Abort f w' =>
        trace w' = trace w ++ evs /\
        (f = OutOfFuel -> (S fuel <= unused (used (cb w)))%nat)
    end.
Proof.
  intros Hidle. rewrite playBoggle_unfold.
  unfold bind at 1, gets at 1. unfold bind at 1, assert at 1.
  set (bs := boardSize (cb w)).
  destruct (bs * bs <=? MAX_WORD_LENGTH).
  2:{ exists []. split; [constructor|]. simpl. rewrite app_nil_r.
      split; [reflexivity|discriminate]. }
  unfold ret at 1. unfold bind at 1, modify at 1. fold (cleared w).
  assert (H : step_ok (S fuel) (cleared w)
    (for_each (seqZ 0 bs)
       (fun i => for_each (seqZ 0 bs) (fun j => start fuel i j)) (cleared w))).
  { apply (for_each_ok (S fuel)
             (fun w => search_inv w /\ gpath w = [] /\ boardSize (cb w) = bs)).
    - intros w0 evs (H1 & H2 & H3).
      split; [apply search_inv_with_trace, H1|auto].
    - intros i w1 Hi (Hinv1 & Hp1 & Hbs1).
      apply (for_each_ok (S fuel)
               (fun w => search_inv w /\ gpath w = [] /\ boardSize (cb w) = bs)).
      + intros w0 evs (H1 & H2 & H3).
        split; [apply search_inv_with_trace, H1|auto].
      + intros j w2 Hj (Hinv2 & Hp2 & Hbs2).
        apply start_ok; auto. rewrite Hbs2.
        apply elem_of_seqZ in Hi, Hj. split; simpl; lia.
      + auto.
    - split; [apply cleared_inv, Hidle|]. split; [apply Hidle|reflexivity]. }
  destruct H as (evs & Hevs & Ho). exists evs. split; [exact Hevs|].
  destruct (for_each _ _ _) as [[] w'|f w']; exact Ho.
Qed.

(** ** The frequency table *)

Lemma foldM_rule {A B} (f : B -> A -> M B) (Inv : list A -> B -> Prop) l :
  (forall seen x acc w acc' w',
     Inv seen acc -> f acc x w = Done acc' w' ->
     w' = w /\ Inv (seen ++ [x]) acc') ->
  forall seen acc w acc' w',
    Inv seen acc -> foldM f l acc w = Done acc' w' ->
    w' = w /\ Inv (seen ++ l) acc'.
Proof.
  intros Hf. induction l as [|x l IH]; intros seen acc w acc' w' HI H;
    simpl in H.
  - unfold ret in H. simplify_eq. rewrite app_nil_r. auto.
  - apply bind_Done in H as (acc1 & w1 & H1 & H2).
    destruct (Hf _ _ _ _ _ _ HI H1) as [-> HI1].
    destruct (IH _ _ _ _ _ HI1 H2) as [-> HI2].
    rewrite <- app_assoc in HI2. auto.
Qed.

Lemma present_store hist i h ch hist' :
  Forall (fun x => 0 <= x) hist ->
  load hist i = Some h -> store hist i (h + 1) = Some hist' ->
  Forall (fun x => 0 <= x) hist' /\
  (present hist ch -> present hist' ch) /\
  (getCharIndex ch = i -> present hist' ch).
Proof.
  intros Hnn Hl [Hr ->]%store_Some.
  assert (0 <= h).
  { apply load_lookup in Hl as [_ Hl]. rewrite Forall_lookup in Hnn. eauto. }
  split; [|split].
  - apply Forall_insert; auto. lia.
  - intros (k & Hk & Hpos).
    destruct (Z.eq_dec i (getCharIndex ch)) as [->|Hne].
    + exists (h + 1). split; [eapply load_insert; eauto|lia].
    + exists k. rewrite load_insert_ne by lia. auto.
  - intros <-. exists (h + 1). split; [eapply load_insert; eauto|lia].
Qed.

Lemma buildHistogram_spec tiles w hist w' :
  buildHistogram tiles w = Done hist w' ->
  w' = w /\
  forall r c ch,
    in_grid (boardSize (cb w)) (r, c) ->
    load tiles (cell_index (boardSize (cb w)) (r, c)) = Some ch ->
    present hist ch.
Proof.
  unfold buildHistogram. intros H.
  apply bind_Done in H as (b & w0 & Hb & H). unfold gets, id in Hb.
  simplify_eq. set (n := boardSize (cb w0)) in *.
  pose (good := fun (hist : list Z) (r c : Z) =>
    forall ch, load tiles (cell_index n (r, c)) = Some ch -> present hist ch).
  pose (Outer := fun (rows : list Z) (hist : list Z) =>
    Forall (fun x => 0 <= x) hist /\
    forall r c, r ∈ rows -> c ∈ seqZ 0 n -> good hist r c).
  eapply (foldM_rule _ Outer) with (seen := []) in H.
  - destruct H as [-> [_ H]]. split; [reflexivity|].
    intros r c ch [Hr Hc] Hl. simpl in Hr, Hc.
    apply (H r c); auto; apply elem_of_seqZ; lia.
  - clear H. intros rows row acc w1 acc' w2 [Hnn Hrows] H.
    pose (Inner := fun (cols : list Z) (hist : list Z) =>
      Forall (fun x => 0 <= x) hist /\
      (forall r c, r ∈ rows -> c ∈ seqZ 0 n -> good hist r c) /\
      forall c, c ∈ cols -> good hist row c).
    eapply (foldM_rule _ Inner) with (seen := []) in H.
    + destruct H as [-> (Hnn' & Hrows' & Hcols)]. split; [reflexivity|].
      split; [exact Hnn'|]. intros r c [Hr|Hr%list_elem_of_singleton]%elem_of_app Hc.
      * apply Hrows'; auto.
      * subst r. apply Hcols. exact Hc.
    + clear. intros cols col acc w3 acc' w4 (Hnn & Hrows & Hcols) H.
      apply bind_Done in H as (ch & w5 & Hch & H).
      unfold loadM in Hch.
      destruct (load tiles _) as [ch'|] eqn:Hl; [|discriminate].
      unfold ret in Hch. simplify_eq.
      apply bind_Done in H as ([] & w6 & Has & H).
      unfold assert in Has.
      destruct (getCharIndex ch <? ALPHABET_SIZE); [|discriminate].
      unfold ret in Has. simplify_eq.
      apply bind_Done in H as (h & w7 & Hh & H).
      unfold loadM in Hh.
      destruct (load acc (getCharIndex ch)) as [h'|] eqn:Hlh; [|discriminate].
      unfold ret in Hh. simplify_eq.
      unfold storeM in H.
      destruct (store acc _ _) as [acc1|] eqn:Hst; [|discriminate].
      unfold ret in H. simplify_eq. split; [reflexivity|].
      assert (Hps := fun c => present_store acc _ _ c _ Hnn Hlh Hst).
      split; [apply (Hps ch)|]. split.
      * intros r c Hr Hc ch0 Hl0.
        apply (proj1 (proj2 (Hps ch0))). eapply Hrows; eauto.
      * intros c [Hc|Hc%list_elem_of_singleton]%elem_of_app ch0 Hl0.
        -- apply (proj1 (proj2 (Hps ch0))). eapply Hcols; eauto.
        -- subst c. apply (proj2 (proj2 (Hps ch0))).
           change (getBoardIndex (cb w0) row col)
             with (cell_index n (row, col)) in Hl.
           congruence.
    + split; [exact Hnn|]. split; [exact Hrows|]. intros c Hc. inversion Hc.
  - split.
    + apply Forall_replicate. lia.
    + intros r c Hr. inversion Hr.
Qed.

(** ** From [main] to the search *)

Lemma mainSetup_ready n tiles heap w :
  mainSetup n tiles (world0 heap) = Done tt w -> ready n tiles w.
Proof.
  unfold mainSetup. intros H.
  apply bind_Done in H as ([] & w1 & Hinit & H).
  assert (Hw1 : trace w1 = [] /\ gpath w1 = []).
  { unfold initBoggle in Hinit. clear H. mcrunch; auto. }
  apply bind_Done in H as ([] & w2 & H2 & H). unfold modify in H2.
  simplify_eq.
  apply bind_Done in H as (hist & w4 & Hh & H).
  apply buildHistogram_spec in Hh as [-> Hh].
  unfold bind, modify in H. simpl in H. simplify_eq.
  destruct Hw1. constructor; simpl; auto.
Qed.

Lemma same_but_dict_refl w : same_but_dict w w.
Proof.
  exists (dict (cb w)), (trieAllocCalls (cb w)), (heapNodes w).
  destruct w as [[] ? ? ?]. reflexivity.
Qed.

Lemma same_but_dict_trans w1 w2 w3 :
  same_but_dict w1 w2 -> same_but_dict w2 w3 -> same_but_dict w1 w3.
Proof.
  intros (d & a & h & ->) (d' & a' & h' & ->). exists d', a', h'.
  destruct w1 as [[] ? ? ?]. reflexivity.
Qed.

Lemma trieAddWord_frame word w r w' :
  trieAddWord word w = Done r w' -> same_but_dict w w'.
Proof.
  intros H.
  apply trieAddWord_dict in H as [[Hd ->]|(root & root' & Hd & w2 & Hloop & ->)].
  - apply same_but_dict_refl.
  - apply trieAddLoop_frame in Hloop as [(a & h & ->) _].
    exists (Some root'), a, h. destruct w as [[] ? ? ?]. reflexivity.
Qed.

Lemma trieBuildLoop_frame words : forall count w r w',
  trieBuildLoop words count w = Done r w' -> same_but_dict w w'.
Proof.
  induction words as [|buf rest IH]; intros count w r w' H; simpl in H.
  - unfold ret in H. simplify_eq. apply same_but_dict_refl.
  - unfold bind at 1, gets at 1 in H.
    destruct (_ <=? _); [|eauto].
    apply bind_Done in H as ([added ok] & w1 & Hadd & H).
    apply trieAddWord_frame in Hadd.
    destruct (negb ok).
    + unfold ret in H. simplify_eq. exact Hadd.
    + eapply same_but_dict_trans; eauto.
Qed.

Lemma trieBuild_frame words w r w' :
  trieBuild words w = Done r w' -> same_but_dict w w'.
Proof. apply trieBuildLoop_frame. Qed.

Lemma ready_same_but_dict n tiles w w' :
  ready n tiles w -> same_but_dict w w' -> ready n tiles w'.
Proof. intros [] (d & a & h & ->). constructor; simpl; auto. Qed.

Lemma ready_idle n tiles w : ready n tiles w -> idle w.
Proof.
  intros []. split; [assumption|]. rewrite ready_used0.
  apply Forall_replicate. reflexivity.
Qed.

(** ** The mask after a call returns *)

Lemma mask_kept_refl w : mask_kept w w.
Proof. split; reflexivity. Qed.

Lemma mask_kept_trans w1 w2 w3 :
  mask_kept w1 w2 -> mask_kept w2 w3 -> mask_kept w1 w3.
Proof. intros [? ?] [? ?]. split; congruence. Qed.

Lemma for_each_kept {A} (l : list A) body :
  (forall x w w', body x w = Done tt w' -> mask_kept w w') ->
  forall w w', for_each l body w = Done tt w' -> mask_kept w w'.
Proof.
  intros Hbody. induction l as [|x l IH]; intros w w' H; simpl in H.
  - unfold ret in H. simplify_eq. apply mask_kept_refl.
  - apply bind_Done in H as ([] & w1 & H1 & H2).
    eapply mask_kept_trans; eauto.
Qed.

Lemma explore_kept (rec : Z -> Z -> option Trie -> Z -> M unit) nd si nr nc w w' :
  (forall row col node si w w',
     rec row col node si w = Done tt w' -> mask_kept w w') ->
  explore rec nd si nr nc (cb w) w = Done tt w' -> mask_kept w w'.
Proof.
  intros IH H. unfold explore in H.
  apply bind_Done in H as (v & wp & Hv & H).
  destruct (isValid_spec (getBoardIndex (cb w) nr nc) nd w)
    as [Hv'|(v' & Hv' & Hfacts)]; rewrite Hv' in Hv; simplify_eq.
  destruct v.
  2:{ unfold ret in H. simplify_eq. split; reflexivity. }
  destruct (Hfacts eq_refl) as (Hu & _). clear Hfacts Hv'.
  unfold bind at 1, loadM at 1 in H.
  destruct (load (board (cb w)) _) as [c|]; [|discriminate].
  unfold ret at 1 in H.
  apply bind_Done in H as ([] & w1 & Hmu & H).
  pose proof (markUsed_spec nr nc si
                (with_trace w [Probe (getBoardIndex (cb w) nr nc)])) as Hs.
  rewrite Hmu in Hs. destruct Hs as (_ & c' & s' & _ & _ & ->).
  unfold bind at 1, loadM at 1 in H.
  destruct (load (trie_child nd) _) as [next|]; [|discriminate].
  unfold ret at 1 in H.
  apply bind_Done in H as ([] & w3 & Hrec & H).
  apply IH in Hrec as [Hu3 Hb3].
  pose proof (markUnused_spec nr nc si w3) as Hs. rewrite H in Hs.
  destruct Hs as (_ & s2 & _ & ->).
  unfold unmarked, mask_kept. simpl in *. rewrite Hu3, Hb3.
  split; [|reflexivity].
  apply unmark_mark. apply load_lookup in Hu. apply Hu.
Qed.

Lemma findSolution_kept fuel : forall row col node si w w',
  findSolution fuel row col node si w = Done tt w' -> mask_kept w w'.
Proof.
  induction fuel as [|fuel IH]; intros row col node si w w' H;
    (destruct node as [nd|]; [|discriminate]); [discriminate|].
  rewrite findSolution_unfold in H.
  apply bind_Done in H as ([] & w1 & Hp & H).
  assert (Hw1 : mask_kept w w1).
  { destruct (_ =? _).
    - unfold ret in Hp. simplify_eq. apply mask_kept_refl.
    - pose proof (printFound_spec row col w) as Hs. rewrite Hp in Hs.
      destruct Hs as (word & _ & ->). split; reflexivity. }
  eapply mask_kept_trans; [exact Hw1|]. clear Hp Hw1.
  unfold bind at 1, gets at 1 in H.
  eapply for_each_kept; [|exact H]. clear H.
  intros rowDiff w2 w2' H. cbv beta zeta in H.
  destruct (_ && _); [|unfold ret in H; simplify_eq; apply mask_kept_refl].
  eapply for_each_kept; [|exact H]. clear H.
  intros colDiff w0 w0' H. cbv beta zeta in H.
  unfold bind at 1, gets at 1, id in H.
  destruct (_ && _); [|unfold ret in H; simplify_eq; apply mask_kept_refl].
  eapply explore_kept; [|exact H]. exact IH.
Qed.

(** ** The ghost components do not interfere *)

Lemma erase_trace_idem (tr : list event) :
  omap erase_event (omap erase_event tr) = omap erase_event tr.
Proof.
  induction tr as [|e tr IH]; [reflexivity|].
  destruct e; cbn; rewrite ?IH; try reflexivity; exact IH.
Qed.

Lemma erase_eq w w' :
  cb w = cb w' -> heapNodes w = heapNodes w' ->
  omap erase_event (trace w) = omap erase_event (trace w') ->
  erase w = erase w'.
Proof. intros H1 H2 H3. unfold erase. rewrite H1, H2, H3. reflexivity. Qed.

Lemma erase_idem w : erase (erase w) = erase w.
Proof. apply erase_eq; try reflexivity. apply erase_trace_idem. Qed.

Lemma ghostless_ret {A} (a : A) : ghostless (ret a).
Proof. intros w. unfold ret, erase_outcome. rewrite erase_idem. reflexivity. Qed.

Lemma ghostless_raise {A} f : ghostless (raise (A := A) f).
Proof.
  intros w. unfold raise, erase_outcome. rewrite erase_idem. reflexivity.
Qed.

Lemma ghostless_bind {A B} (m : M A) (k : A -> M B) :
  ghostless m -> (forall a, ghostless (k a)) -> ghostless (bind m k).
Proof.
  intros Hm Hk w. unfold bind. specialize (Hm w).
  destruct (m w) as [a w1|f w1], (m (erase w)) as [a' w1'|f' w1'];
    simpl in Hm; try discriminate.
  - assert (Ha : a = a') by congruence.
    assert (He : erase w1 = erase w1') by congruence.
    subst a'. rewrite (Hk a w1), (Hk a w1'), He. reflexivity.
  - assert (Hf : f = f') by congruence.
    assert (He : erase w1 = erase w1') by congruence.
    simpl. rewrite Hf, He. reflexivity.
Qed.

Lemma ghostless_gets {A} (f : BoggleCB -> A) : ghostless (gets f).
Proof.
  intros w. unfold gets, erase_outcome. rewrite erase_idem. reflexivity.
Qed.

Lemma ghostless_modify f : ghostless (modify f).
Proof.
  intros w. unfold modify, erase_outcome. f_equal.
  apply erase_eq; try reflexivity. symmetry. apply erase_trace_idem.
Qed.

Lemma erase_trace_snoc (tr : list event) e :
  omap erase_event (tr ++ [e]) =
  omap erase_event (omap erase_event tr ++ [e]).
Proof. rewrite !omap_app, erase_trace_idem. reflexivity. Qed.

Lemma ghostless_emit e : ghostless (emit e).
Proof.
  intros w. unfold emit, erase_outcome. f_equal.
  apply erase_eq; try reflexivity. apply erase_trace_snoc.
Qed.

Lemma ghostless_loadM {A} (l : list A) i : ghostless (loadM l i).
Proof.
  unfold loadM. destruct (load l i); [apply ghostless_ret|apply ghostless_raise].
Qed.

Lemma ghostless_storeM {A} (l : list A) i x : ghostless (storeM l i x).
Proof.
  unfold storeM.
  destruct (store l i x); [apply ghostless_ret|apply ghostless_raise].
Qed.

Lemma ghostless_assert b : ghostless (assert b).
Proof. destruct b; [apply ghostless_ret|apply ghostless_raise]. Qed.

Lemma ghostless_for_each {A} (l : list A) body :
  (forall x, ghostless (body x)) -> ghostless (for_each l body).
Proof.
  intros H. induction l as [|x l IH]; simpl.
  - apply ghostless_ret.
  - apply ghostless_bind; auto.
Qed.

(** The two ghost blocks: pushing or popping the path and taking a
    snapshot change nothing real. *)
Lemma ghostless_path_update (f : list cell -> list cell) si :
  ghostless (p <- get_gpath ;; set_gpath (f p) ;;; snapshot si).
Proof.
  intros w. unfold bind, get_gpath, set_gpath, snapshot, emit, erase_outcome.
  f_equal. apply erase_eq; try reflexivity.
  cbn [trace]. rewrite !omap_app. unfold erase at 1. cbn [trace].
  rewrite erase_trace_idem. reflexivity.
Qed.

Lemma ghostless_printFound row col : ghostless (printFound row col).
Proof.
  unfold printFound. apply ghostless_bind; [apply ghostless_gets|].
  intros buf. destruct (cstring buf) as [word|]; [|apply ghostless_raise].
  intros w. unfold bind, get_gpath, emit, erase_outcome.
  f_equal. apply erase_eq; try reflexivity.
  cbn [trace]. rewrite !omap_app. unfold erase at 1. cbn [trace].
  rewrite erase_trace_idem. reflexivity.
Qed.

Ltac ghostless_step :=
  first
    [ apply ghostless_ret | apply ghostless_raise | apply ghostless_gets
    | apply ghostless_modify | apply ghostless_emit | apply ghostless_loadM
    | apply ghostless_storeM | apply ghostless_assert
    | apply ghostless_path_update | apply ghostless_printFound
    | apply ghostless_bind; [|intros ?]
    | apply ghostless_for_each; intros ?
    | case_match ].

Lemma ghostless_markUsed row col si : ghostless (markUsed row col si).
Proof. unfold markUsed. repeat ghostless_step. Qed.

Lemma ghostless_markUnused row col si : ghostless (markUnused row col si).
Proof. unfold markUnused. repeat ghostless_step. Qed.

Lemma ghostless_isValid i nd : ghostless (isValid i nd).
Proof. unfold isValid. repeat ghostless_step. Qed.

Lemma ghostless_findSolution fuel : forall row col node si,
  ghostless (findSolution fuel row col node si).
Proof.
  induction fuel as [|fuel IH]; intros row col [nd|] si;
    try apply ghostless_raise.
  rewrite findSolution_unfold. unfold explore.
  repeat first
    [ apply IH | apply ghostless_markUsed | apply ghostless_markUnused
    | apply ghostless_isValid | ghostless_step ].
Qed.

(** The run of [playBoggle] reads the ghost path and the ghost records
    only to write them: its control block, its heap, the lines it prints
    and the way it ends are the same from a world and from that world
    without its ghost components. *)
Lemma ghostless_playBoggle fuel : ghostless (playBoggle fuel).
Proof.
  rewrite playBoggle_unfold. unfold start.
  repeat first
    [ apply ghostless_findSolution | apply ghostless_markUsed
    | apply ghostless_markUnused | ghostless_step ].
Qed.

(** ** The claims about the search *)

Lemma playBoggle_events fuel w :
  idle w -> trace w = [] ->
  Forall (event_ok (boardSize (cb w)) (board (cb w))) (search_trace fuel w).
Proof.
  intros Hidle Ht. unfold search_trace.
  destruct (playBoggle_ok fuel w Hidle) as (evs & Hevs & Ho).
  destruct (playBoggle fuel w) as [[] w'|f w']; simpl.
  - subst w'. simpl. rewrite Ht. exact Hevs.
  - destruct Ho as [-> _]. rewrite Ht. exact Hevs.
Qed.

Lemma found_event_ok fuel w word row col path :
  idle w -> trace w = [] ->
  Found word row col path ∈ search_trace fuel w ->
  event_ok (boardSize (cb w)) (board (cb w)) (Found word row col path).
Proof.
  intros Hidle Ht Hin.
  pose proof (playBoggle_events fuel w Hidle Ht) as H.
  rewrite Forall_forall in H. apply H, Hin.
Qed.

(** C1 (as the code has it).  Every word found is reported with the text
    the board shows along its path, from the tile the search began at to
    the tile it has reached, and with the coordinates of the tile it has
    reached (the newest tile of the path), which are the [row] and [col]
    of the current call of [findSolution]. *)
Theorem report_names_current_tile fuel w word row col path :
  idle w -> trace w = [] ->
  Found word row col path ∈ search_trace fuel w ->
  head path = Some (row, col) /\
  spelled (boardSize (cb w)) (board (cb w)) path word.
Proof.
  intros Hidle Ht Hin.
  destruct (found_event_ok _ _ _ _ _ _ Hidle Ht Hin)
    as ((rest & ->) & _ & _ & _ & Hsp).
  split; [reflexivity|exact Hsp].
Qed.

(** C6.  No board index, and so no tile, appears twice in the path of a
    reported word. *)
Theorem no_tile_twice fuel w word row col path :
  idle w -> trace w = [] ->
  Found word row col path ∈ search_trace fuel w ->
  NoDup (map (cell_index (boardSize (cb w))) path) /\ NoDup path.
Proof.
  intros Hidle Ht Hin.
  destruct (found_event_ok _ _ _ _ _ _ Hidle Ht Hin) as (_ & Hnd & _).
  split; [exact Hnd|]. eapply NoDup_fmap_1, Hnd.
Qed.

(** C7.  Any two consecutive tiles of the path of a reported word are
    Chebyshev-adjacent: rows and columns differ by at most one, and the
    two tiles are not the same tile. *)
Theorem consecutive_tiles_adjacent fuel w word row col path :
  idle w -> trace w = [] ->
  Found word row col path ∈ search_trace fuel w ->
  chain path.
Proof.
  intros Hidle Ht Hin.
  destruct (found_event_ok _ _ _ _ _ _ Hidle Ht Hin) as (_ & _ & Hch & _).
  exact Hch.
Qed.

(** ** The mask in force when a word is reported *)

Lemma tracking_app cur a b :
  tracking cur (a ++ b) <-> tracking cur a /\ tracking (last_path cur a) b.
Proof.
  revert cur. induction a as [|[word r c p|si m p|i] a IH]; intros cur; simpl.
  - tauto.
  - rewrite IH. tauto.
  - apply IH.
  - apply IH.
Qed.

Lemma last_path_app cur a b :
  last_path cur (a ++ b) = last_path (last_path cur a) b.
Proof.
  revert cur. induction a as [|[word r c p|si m p|i] a IH]; intros cur; simpl;
    auto.
Qed.

Lemma last_mask_is n tiles evs : forall m0 cur,
  mask_is n m0 cur -> Forall (event_ok n tiles) evs ->
  mask_is n (last_mask m0 evs) (last_path cur evs).
Proof.
  induction evs as [|[word r c p|si m p|i] evs IH]; intros m0 cur Hm Hall;
    simpl; [exact Hm| | |]; apply Forall_cons in Hall as [He Hall].
  - apply IH; auto.
  - apply IH; [apply He|exact Hall].
  - apply IH; auto.
Qed.

Lemma in_use_none mask :
  (forall k, mask !! k <> Some true) -> in_use mask = O.
Proof.
  induction mask as [|u mask IH]; intros H; [reflexivity|]. simpl.
  destruct u; [exfalso; apply (H O); reflexivity|].
  apply IH. intros k. apply (H (S k)).
Qed.

Lemma in_use_unmark mask : forall k,
  mask !! k = Some true ->
  in_use mask = S (in_use (<[k := false]> mask)).
Proof.
  induction mask as [|u mask IH]; intros k H; [discriminate|].
  destruct k as [|k]; simpl in H |- *.
  - injection H as ->. reflexivity.
  - rewrite (IH k H). destruct u; simpl; lia.
Qed.

(** A mask that marks exactly the tiles of a path without repetition marks
    as many tiles as the path has. *)
Lemma in_use_path n path : forall mask,
  mask_is n mask path -> NoDup (map (cell_index n) path) ->
  in_use mask = length path.
Proof.
  induction path as [|q path IH]; intros mask Hm Hnd.
  - apply in_use_none. intros k Hk.
    assert (Hl : load mask (Z.of_nat k) = Some true).
    { unfold load. destruct (Z.leb_spec 0 (Z.of_nat k)); [|lia].
      rewrite Nat2Z.id. exact Hk. }
    apply Hm in Hl. simpl in Hl. apply elem_of_nil in Hl. exact Hl.
  - simpl in Hnd. apply NoDup_cons in Hnd as [Hq Hnd].
    set (i := cell_index n q) in *.
    assert (Hi : load mask i = Some true).
    { apply Hm. simpl. apply list_elem_of_here. }
    pose proof (load_lookup _ _ _ Hi) as [Hi0 Hk].
    rewrite (in_use_unmark mask _ Hk). simpl. f_equal.
    apply IH; [|exact Hnd].
    intros j. split.
    + intros Hj. destruct (Z.eq_dec i j) as [<-|Hne].
      * rewrite (load_insert _ _ _ _ Hi) in Hj. discriminate.
      * rewrite load_insert_ne in Hj by auto.
        apply Hm in Hj. simpl in Hj.
        apply elem_of_cons in Hj as [Hj|Hj]; [|exact Hj].
        fold i in Hj. congruence.
    + intros Hj. destruct (Z.eq_dec i j) as [<-|Hne]; [contradiction|].
      rewrite load_insert_ne by auto. apply Hm. simpl.
      apply list_elem_of_further, Hj.
Qed.

Lemma step_track_quiet w evs o :
  tracking (gpath w) evs -> last_path (gpath w) evs = gpath w ->
  match o with
  | Done _ w' => w' = with_trace w evs
  | Abort _ w' => trace w' = trace w ++ evs
  end ->
  step_track w o.
Proof.
  intros Ht Hl Ho. exists evs. split; [exact Ht|].
  destruct o; auto.
Qed.

Lemma step_track_trans w evs0 o :
  tracking (gpath w) evs0 -> last_path (gpath w) evs0 = gpath w ->
  step_track (with_trace w evs0) o -> step_track w o.
Proof.
  intros Ht0 Hl0 (evs & Ht & Ho). exists (evs0 ++ evs). split.
  - apply tracking_app. rewrite Hl0. auto.
  - destruct o as [[] w'|f w'].
    + destruct Ho as [-> Hl]. split; [apply with_trace_app|].
      rewrite last_path_app, Hl0. exact Hl.
    + simpl in Ho. rewrite Ho, app_assoc. reflexivity.
Qed.

Lemma for_each_track {A} (I : World -> Prop) (l : list A) body :
  (forall w evs, I w -> I (with_trace w evs)) ->
  (forall x w, x ∈ l -> I w -> step_track w (body x w)) ->
  forall w, I w -> step_track w (for_each l body w).
Proof.
  intros HI Hbody. induction l as [|x l IH]; intros w Hw; simpl.
  - apply (step_track_quiet w []); [exact Logic.I|reflexivity|].
    symmetry. apply with_trace_nil.
  - unfold bind.
    destruct (Hbody x w (list_elem_of_here _ _) Hw) as (evs1 & Ht1 & Ho1).
    destruct (body x w) as [[] w1|f w1].
    + destruct Ho1 as [-> Hl1].
      apply (step_track_trans w evs1 _ Ht1 Hl1).
      apply IH; [|apply HI, Hw].
      intros y w' Hy. apply Hbody, list_elem_of_further, Hy.
    + exists evs1. auto.
Qed.

Section ExploreTrack.
Variable fuel' : nat.
Hypothesis IH : forall row col nd si w,
  at_tile row col si w ->
  step_track w (findSolution fuel' row col (Some nd) si w).

Lemma explore_track row col si nd nr nc w :
  at_tile row col si w ->
  in_grid (boardSize (cb w)) (nr, nc) ->
  Z.abs (nr - row) <= 1 -> Z.abs (nc - col) <= 1 ->
  step_track w (explore (findSolution fuel') nd si nr nc (cb w) w).
Proof.
  intros Hat Hin Hr Hc.
  unfold explore.
  change (getBoardIndex (cb w) nr nc)
    with (cell_index (boardSize (cb w)) (nr, nc)).
  set (i := cell_index (boardSize (cb w)) (nr, nc)).
  unfold bind at 1.
  destruct (isValid_spec i nd w) as [E|(v & E & Hv)]; rewrite E.
  { apply (step_track_quiet w [Probe i]); [exact I|reflexivity|reflexivity]. }
  destruct v.
  2:{ apply (step_track_quiet w [Probe i]);
        [exact I|reflexivity|reflexivity]. }
  destruct (Hv eq_refl) as (Hu & c & k & Hb & Hk). clear Hv E.
  assert (Hcn : c <> NUL).
  { apply getCharIndex_NUL. apply load_lookup in Hk. tauto. }
  apply (step_track_trans w [Probe i]); [exact I|reflexivity|].
  set (wp := with_trace w [Probe i]).
  assert (Hat' : at_tile row col si wp) by (apply at_tile_with_trace, Hat).
  unfold loadM at 1.
  change i with (cell_index (boardSize (cb wp)) (nr, nc)) in Hu, Hb |- *.
  change (used (cb w)) with (used (cb wp)) in Hu.
  change (board (cb w)) with (board (cb wp)) in Hb |- *.
  change (boardSize (cb w)) with (boardSize (cb wp)) in Hin |- *.
  clearbody wp. clear Hat. clear i.
  rewrite Hb. unfold bind at 1, ret at 1. unfold bind at 1.
  destruct Hat' as (Hinv & (rest & Hp) & Hsi).
  assert (Hnear : near_head (gpath wp) nr nc) by (rewrite Hp; simpl; auto).
  pose proof (markUsed_spec nr nc si wp) as Hmu.
  destruct (markUsed nr nc si wp) as [[] w1|f w1].
  2:{ destruct Hmu as [Ht _]. exists []. split; [exact I|].
      rewrite app_nil_r. exact Ht. }
  destruct Hmu as (_ & c' & s' & Hb' & Hst & ->).
  rewrite Hb in Hb'. injection Hb' as <-.
  destruct (marked_at_tile _ _ _ _ _ _ Hinv Hsi Hin Hnear Hu Hb Hst)
    as [Hat1 _].
  specialize (Hat1 Hcn).
  unfold bind at 1, loadM at 1. rewrite Hk. unfold ret at 1.
  unfold bind at 1.
  destruct (IH nr nc k (si + 1) _ Hat1) as (evs & Ht & Ho).
  change (gpath (marked wp nr nc si s')) with ((nr, nc) :: gpath wp)
    in Ht, Ho.
  destruct (findSolution fuel' nr nc (Some k) (si + 1) _) as [[] w2|f w2].
  2:{ eexists (Snap _ _ _ :: evs). split; [exact Ht|].
      rewrite Ho. simpl. rewrite <- app_assoc. reflexivity. }
  destruct Ho as [-> Hl].
  pose proof (markUnused_spec nr nc si
                (with_trace (marked wp nr nc si s') evs)) as Hmn.
  destruct (markUnused nr nc si _) as [[] w3|f w3].
  2:{ eexists (Snap _ _ _ :: evs). split; [exact Ht|].
      destruct Hmn as [Hmn _]. rewrite Hmn. simpl.
      rewrite <- app_assoc. reflexivity. }
  destruct Hmn as (_ & s2 & Hst2 & ->).
  rewrite (unmarked_marked _ _ _ _ _ _ _ _ Hinv Hsi Hu Hst Hst2).
  eexists. split; [|split; [reflexivity|]].
  - simpl. apply tracking_app. rewrite Hl. split; [exact Ht|exact I].
  - simpl. rewrite last_path_app. reflexivity.
Qed.
End ExploreTrack.

Lemma findSolution_track fuel : forall row col nd si w,
  at_tile row col si w ->
  step_track w (findSolution fuel row col (Some nd) si w).
Proof.
  induction fuel as [|fuel' IH]; intros row col nd si w Hat.
  { exists []. split; [exact I|]. simpl. rewrite app_nil_r. reflexivity. }
  rewrite findSolution_unfold.
  assert (Hloops : forall w0,
    at_tile row col si w0 ->
    step_track w0
      ((bs <- gets boardSize ;;
        for_each (seqZ (-1) 3) (fun rowDiff =>
          let newRow := row + rowDiff in
          if (0 <=? newRow) && (newRow <? bs) then
            for_each (seqZ (-1) 3) (fun colDiff =>
              let newCol := col + colDiff in
              b <- gets id ;;
              if (0 <=? newCol) && (newCol <? bs) then
                explore (findSolution fuel') nd si newRow newCol b
              else ret tt)
          else ret tt)) w0)).
  { intros w0 Hat0. unfold bind at 1, gets at 1.
    set (bs := boardSize (cb w0)).
    set (J := fun w1 : World =>
      at_tile row col si w1 /\ boardSize (cb w1) = bs).
    assert (HJ : forall w1 evs, J w1 -> J (with_trace w1 evs)).
    { intros w1 evs (H1 & H2).
      split; [apply at_tile_with_trace, H1|exact H2]. }
    apply (for_each_track J); [exact HJ| |split; [exact Hat0|reflexivity]].
    intros rd w1 Hrd HJ1. cbv zeta.
    destruct ((0 <=? row + rd) && (row + rd <? bs)) eqn:Er.
    2:{ apply (step_track_quiet w1 []); [exact I|reflexivity|].
        symmetry. apply with_trace_nil. }
    apply (for_each_track J); [exact HJ| |exact HJ1].
    intros cd w2 Hcd (Hat2 & Hbs2). cbv zeta.
    unfold bind at 1, gets at 1. unfold id.
    destruct ((0 <=? col + cd) && (col + cd <? bs)) eqn:Ec.
    2:{ apply (step_track_quiet w2 []); [exact I|reflexivity|].
        symmetry. apply with_trace_nil. }
    apply andb_true_iff in Er as [Hr1%Z.leb_le Hr2%Z.ltb_lt].
    apply andb_true_iff in Ec as [Hc1%Z.leb_le Hc2%Z.ltb_lt].
    apply elem_of_diffs in Hrd, Hcd.
    apply (explore_track fuel' IH row col si nd (row + rd) (col + cd)
             w2 Hat2).
    - rewrite Hbs2. split; simpl; lia.
    - replace (row + rd - row) with rd by lia. exact Hrd.
    - replace (col + cd - col) with cd by lia. exact Hcd. }
  unfold bind at 1.
  destruct (Z.land (trie_flags nd) FLAGS_ISWORD =? 0).
  { unfold ret at 1. apply Hloops, Hat. }
  pose proof (printFound_spec row col w) as Hpf.
  destruct (printFound row col w) as [[] w1|f w1].
  2:{ destruct Hpf as [-> _]. exists []. split; [exact I|].
      rewrite app_nil_r. reflexivity. }
  destruct Hpf as (word & _ & ->).
  apply (step_track_trans w [Found word row col (gpath w)]);
    [split; [reflexivity|exact I]|reflexivity|].
  apply Hloops, at_tile_with_trace, Hat.
Qed.

Lemma start_track fuel i j w :
  search_inv w -> gpath w = [] ->
  in_grid (boardSize (cb w)) (i, j) ->
  step_track w (start fuel i j w).
Proof.
  intros Hinv Hp Hin. unfold start. unfold bind at 1.
  assert (Hsi : 0 = Z.of_nat (length (gpath w))) by (rewrite Hp; reflexivity).
  assert (Hnear : near_head (gpath w) i j) by (rewrite Hp; exact I).
  pose proof (markUsed_spec i j 0 w) as Hmu.
  destruct (markUsed i j 0 w) as [[] w1|f w1].
  2:{ destruct Hmu as [Ht _]. exists []. split; [exact I|].
      rewrite app_nil_r. exact Ht. }
  destruct Hmu as (Hu & c & s' & Hb & Hst & ->).
  destruct (marked_at_tile _ _ _ _ _ _ Hinv Hsi Hin Hnear Hu Hb Hst)
    as [Hat1 _].
  unfold bind at 1, gets at 1, id.
  change (getBoardIndex (cb (marked w i j 0 s')) i j)
    with (cell_index (boardSize (cb w)) (i, j)).
  change (board (cb (marked w i j 0 s'))) with (board (cb w)).
  change (dict (cb (marked w i j 0 s'))) with (dict (cb w)).
  unfold loadM at 1. rewrite Hb. unfold bind at 1, ret at 1.
  unfold bind at 1.
  assert (Hstop : forall f, step_track w (Abort f (marked w i j 0 s'))).
  { intros f. eexists [Snap _ _ _]. split; [exact I|reflexivity]. }
  destruct (dict (cb w)) as [d|]; [|apply Hstop].
  unfold loadM at 1.
  destruct (load (trie_child d) (getCharIndex c)) as [[k|]|] eqn:Hroot;
    [|destruct fuel; apply Hstop|apply Hstop].
  unfold ret at 1.
  assert (Hcn : c <> NUL).
  { apply getCharIndex_NUL. apply load_lookup in Hroot. tauto. }
  specialize (Hat1 Hcn). unfold bind at 1.
  destruct (findSolution_track fuel i j k 1 _ Hat1) as (evs & Ht & Ho).
  change (0 + 1) with 1 in Ho.
  change (gpath (marked w i j 0 s')) with ((i, j) :: gpath w) in Ht, Ho.
  destruct (findSolution fuel i j (Some k) 1 _) as [[] w2|f w2].
  2:{ eexists (Snap _ _ _ :: evs). split; [exact Ht|].
      rewrite Ho. simpl. rewrite <- app_assoc. reflexivity. }
  destruct Ho as [-> Hl].
  pose proof (markUnused_spec i j 0
                (with_trace (marked w i j 0 s') evs)) as Hmn.
  destruct (markUnused i j 0 _) as [[] w3|f w3].
  2:{ eexists (Snap _ _ _ :: evs). split; [exact Ht|].
      destruct Hmn as [Hmn _]. rewrite Hmn. simpl.
      rewrite <- app_assoc. reflexivity. }
  destruct Hmn as (_ & s2 & Hst2 & ->).
  rewrite (unmarked_marked _ _ _ _ _ _ _ _ Hinv Hsi Hu Hst Hst2).
  eexists. split; [|split; [reflexivity|]].
  - simpl. apply tracking_app. rewrite Hl. split; [exact Ht|exact I].
  - simpl. rewrite last_path_app. reflexivity.
Qed.

Lemma playBoggle_track fuel w :
  idle w -> trace w = [] -> tracking [] (search_trace fuel w).
Proof.
  intros Hidle Ht. unfold search_trace. rewrite playBoggle_unfold.
  unfold bind at 1, gets at 1. unfold bind at 1, assert at 1.
  set (bs := boardSize (cb w)).
  destruct (bs * bs <=? MAX_WORD_LENGTH).
  2:{ simpl. rewrite Ht. exact I. }
  unfold ret at 1. unfold bind at 1, modify at 1. fold (cleared w).
  set (J := fun w0 : World =>
       search_inv w0 /\ gpath w0 = [] /\ boardSize (cb w0) = bs).
  assert (HJ : forall w0 evs, J w0 -> J (with_trace w0 evs)).
  { intros w0 evs (H1 & H2 & H3).
    split; [apply search_inv_with_trace, H1|auto]. }
  assert (H : step_track (cleared w)
    (for_each (seqZ 0 bs)
       (fun i => for_each (seqZ 0 bs) (fun j => start fuel i j)) (cleared w))).
  { apply (for_each_track J); [exact HJ| |].
    - intros i w1 Hi HJ1.
      apply (for_each_track J); [exact HJ| |exact HJ1].
      intros j w2 Hj (Hinv2 & Hp2 & Hbs2).
      apply start_track; auto. rewrite Hbs2.
      apply elem_of_seqZ in Hi, Hj. split; simpl; lia.
    - split; [apply cleared_inv, Hidle|]. split; [apply Hidle|reflexivity]. }
  destruct H as (evs & Htr & Ho).
  assert (Hg : gpath (cleared w) = []) by apply Hidle.
  rewrite Hg in Htr.
  destruct (for_each _ _ _) as [[] w'|f w']; simpl.
  - destruct Ho as [-> _]. simpl. rewrite Ht. exact Htr.
  - simpl in Ho. rewrite Ho, Ht. exact Htr.
Qed.

Lemma isValid_used i nd w v w' :
  isValid i nd w = Done v w' -> used (cb w') = used (cb w).
Proof.
  intros H. destruct (isValid_spec i nd w) as [E|(v' & E & _)];
    rewrite E in H; [discriminate|].
  injection H as _ <-. reflexivity.
Qed.

Lemma printFound_used row col w w' :
  printFound row col w = Done tt w' -> used (cb w') = used (cb w).
Proof.
  intros H. pose proof (printFound_spec row col w) as Hs. rewrite H in Hs.
  destruct Hs as (word & _ & ->). reflexivity.
Qed.

(** C5.  In a run of [playBoggle] from a state with nothing marked: after
    every change of the mask, the mask marks exactly the tiles of the
    current path; every call of [findSolution] that returns leaves the mask
    as it found it; and when [playBoggle] returns, the mask is entirely
    false and the word buffer holds only NULs, so the word is empty.

    The mask changes nowhere else.  [markUsed] finds the tile unmarked,
    marks that one tile and puts it on the path; [markUnused] finds the
    tile marked, unmarks that one tile and takes the newest tile off the
    path; each records the mask and the path it leaves; [isValid] and the
    printing of a word leave the mask alone.  So the mask in force at any
    point of the search is the one of the latest record, or the mask the
    search began with when there is none yet, and at every point of the
    search it marks exactly the tiles of the path then in force.  In
    particular, whenever a word is reported, the mask in force marks exactly the tiles of the
    path of the report, the tile of the report among them, and it marks
    as many tiles as the word has letters. *)
Theorem mask_tracks_path fuel w :
  idle w -> trace w = [] ->
  (forall si mask path,
     Snap si mask path ∈ search_trace fuel w ->
     mask_is (boardSize (cb w)) mask path) /\
  (forall row col si w1 w2,
     markUsed row col si w1 = Done tt w2 ->
     let i := cell_index (boardSize (cb w1)) (row, col) in
     load (used (cb w1)) i = Some false /\
     used (cb w2) = <[Z.to_nat i := true]> (used (cb w1)) /\
     gpath w2 = (row, col) :: gpath w1 /\
     trace w2 = trace w1 ++ [Snap si (used (cb w2)) (gpath w2)]) /\
  (forall row col si w1 w2,
     markUnused row col si w1 = Done tt w2 ->
     let i := cell_index (boardSize (cb w1)) (row, col) in
     load (used (cb w1)) i = Some true /\
     used (cb w2) = <[Z.to_nat i := false]> (used (cb w1)) /\
     gpath w2 = tail (gpath w1) /\
     trace w2 = trace w1 ++ [Snap si (used (cb w2)) (gpath w2)]) /\
  (forall i nd v w1 w2,
     isValid i nd w1 = Done v w2 -> used (cb w2) = used (cb w1)) /\
  (forall row col w1 w2,
     printFound row col w1 = Done tt w2 -> used (cb w2) = used (cb w1)) /\
  (forall pre post,
     search_trace fuel w = pre ++ post ->
     mask_is (boardSize (cb w)) (last_mask (used (cb w)) pre)
       (last_path [] pre)) /\
  (forall pre word row col path post,
     search_trace fuel w = pre ++ Found word row col path :: post ->
     let mask := last_mask (used (cb w)) pre in
     path = last_path [] pre /\
     mask_is (boardSize (cb w)) mask path /\
     load mask (cell_index (boardSize (cb w)) (row, col)) = Some true /\
     in_use mask = length word) /\
  (forall fuel' row col node si w1 w2,
     findSolution fuel' row col node si w1 = Done tt w2 ->
     used (cb w2) = used (cb w1)) /\
  (forall w', playBoggle fuel w = Done tt w' ->
     Forall (fun u => u = false) (used (cb w')) /\
     search (cb w') = replicate (Z.to_nat MAX_WORD_LENGTH) NUL /\
     cstring (search (cb w')) = Some [] /\
     gpath w' = []).
Proof.
  intros Hidle Ht.
  pose proof (playBoggle_events fuel w Hidle Ht) as Hev.
  assert (Hm0 : mask_is (boardSize (cb w)) (used (cb w)) []).
  { pose proof (inv_mask _ (cleared_inv w Hidle)) as Hm.
    destruct Hidle as [Hp _]. simpl in Hm. rewrite Hp in Hm. exact Hm. }
  split; [|split; [|split; [|split; [|split; [|split; [|split; [|split]]]]]]].
  - intros si mask path Hin.
    rewrite Forall_forall in Hev. apply Hev in Hin. apply Hin.
  - intros row col si w1 w2 H.
    pose proof (markUsed_spec row col si w1) as Hs. rewrite H in Hs.
    destruct Hs as (Hu & c & s' & _ & _ & ->).
    cbv zeta. split; [exact Hu|]. repeat split.
  - intros row col si w1 w2 H.
    pose proof (markUnused_spec row col si w1) as Hs. rewrite H in Hs.
    destruct Hs as (Hu & s' & _ & ->).
    cbv zeta. split; [exact Hu|]. repeat split.
  - intros i nd v w1 w2 H. apply (isValid_used _ _ _ _ _ H).
  - intros row col w1 w2 H. apply (printFound_used _ _ _ _ H).
  - intros pre post Heq. rewrite Heq in Hev.
    apply Forall_app in Hev as [Hpre _].
    apply (last_mask_is _ _ _ _ _ Hm0 Hpre).
  - intros pre word row col path post Heq. cbv zeta.
    pose proof (playBoggle_track fuel w Hidle Ht) as Htr.
    rewrite Heq in Htr, Hev.
    apply tracking_app in Htr as [_ [Hpath _]].
    apply Forall_app in Hev as [Hpre Hrest].
    apply Forall_cons in Hrest as [Hfound _].
    destruct Hfound as ((rest & Hhd) & Hnd & _ & _ & Hsp).
    pose proof (last_mask_is _ _ _ _ _ Hm0 Hpre) as Hm.
    rewrite <- Hpath in Hm.
    split; [exact Hpath|]. split; [exact Hm|]. split.
    + apply Hm. rewrite Hhd. simpl. apply list_elem_of_here.
    + rewrite (in_use_path _ _ _ Hm Hnd).
      apply Forall2_length in Hsp. rewrite length_rev in Hsp. exact Hsp.
  - intros fuel' row col node si w1 w2 H.
    apply findSolution_kept in H. apply H.
  - intros w' H.
    destruct (playBoggle_ok fuel w Hidle) as (evs & _ & Ho).
    rewrite H in Ho. subst w'. simpl.
    destruct Hidle as [Hp Hu]. auto.
Qed.

(** C8.  The search terminates, at a depth of at most N².  [fuel] counts
    the nested calls of [findSolution] a run may make; a run from a state
    with nothing marked never needs more than there are tiles in the mask
    (N² in [main]), so it never stops for lack of fuel; and the string
    index of every tile marked, which is one less than the depth argument
    of the call made for it and grows by one from a call to the call it
    makes, stays below N². *)
Theorem search_depth_bounded fuel w :
  idle w -> trace w = [] ->
  (length (used (cb w)) <= fuel)%nat ->
  (forall w', playBoggle fuel w <> Abort OutOfFuel w') /\
  (forall si mask path,
     Snap si mask path ∈ search_trace fuel w ->
     0 <= si /\ si + 1 <= boardSize (cb w) * boardSize (cb w)).
Proof.
  intros Hidle Ht Hfuel. split.
  - intros w' H.
    destruct (playBoggle_ok fuel w Hidle) as (evs & _ & Ho).
    rewrite H in Ho. destruct Ho as [_ Ho]. specialize (Ho eq_refl).
    pose proof (unused_le (used (cb w))). lia.
  - intros si mask path Hin.
    pose proof (playBoggle_events fuel w Hidle Ht) as H.
    rewrite Forall_forall in H. apply H in Hin. destruct Hin as [_ Hin]. lia.
Qed.

(** C10.  Every board index [isValid] is called with during the search
    lies in 0 .. N²-1, so its reads of the mask and of the board are
    inside the two arrays; although [isValid] itself lets the index N²
    through its bound check and then reads the mask out of bounds. *)
Theorem isValid_index_in_range fuel n tiles w :
  ready n tiles w -> length tiles = Z.to_nat (n * n) ->
  (forall i, Probe i ∈ search_trace fuel w ->
     0 <= i <= n * n - 1 /\
     is_Some (load (used (cb w)) i) /\ is_Some (load (board (cb w)) i)) /\
  (forall nd, isValid (n * n) nd w =
              Abort OutOfBounds (with_trace w [Probe (n * n)])).
Proof.
  intros Hr Hlen. pose proof (ready_idle _ _ _ Hr) as Hidle.
  destruct Hr as [Hn Hb Hmax Hu _ Ht _]. split.
  - intros i Hin.
    pose proof (playBoggle_events fuel w Hidle Ht) as H.
    rewrite Forall_forall in H. apply H in Hin. simpl in Hin.
    rewrite Hn in Hin. split; [exact Hin|].
    rewrite Hu, Hb. unfold load.
    destruct (Z.leb_spec 0 i); [|lia]. split; apply lookup_lt_is_Some.
    + rewrite length_replicate. lia.
    + rewrite Hlen. lia.
  - intros nd. unfold isValid, bind, emit, gets, id. simpl.
    rewrite Hmax, Hu.
    assert (0 <= n * n) by nia.
    destruct (Z.leb_spec 0 (n * n)); [|lia].
    rewrite Z.leb_refl. simpl. unfold loadM, load.
    destruct (Z.leb_spec 0 (n * n)); [|lia].
    rewrite lookup_ge_None_2 by (rewrite length_replicate; lia).
    reflexivity.
Qed.

(** ** The claim about pruning *)

Lemma spelled_present n tiles hist path word ch :
  (forall r c ch, in_grid n (r, c) ->
     load tiles (cell_index n (r, c)) = Some ch -> present hist ch) ->
  Forall (in_grid n) path -> spelled n tiles path word ->
  ch ∈ word -> present hist ch.
Proof.
  intros Hh Hg Hsp Hin.
  apply list_elem_of_lookup in Hin as [i Hi].
  destruct (Forall2_lookup_r _ _ _ _ _ Hsp Hi) as ([r c] & Hp & Hl).
  apply (Hh r c); [|exact Hl].
  rewrite Forall_forall in Hg. apply Hg.
  apply list_elem_of_In, in_rev, list_elem_of_In.
  eapply list_elem_of_lookup_2, Hp.
Qed.

Lemma reach_set_ch t c ixs : reach (set_ch t c) ixs = reach t ixs.
Proof. destruct t, ixs; reflexivity. Qed.

Lemma reach_zeroNode ixs : reach zeroNode ixs = O.
Proof.
  destruct ixs as [|i ixs]; [reflexivity|]. cbn [reach].
  destruct (load (trie_child zeroNode) i) as [[k|]|] eqn:H; try reflexivity.
  apply load_lookup in H as [_ H].
  change (trie_child zeroNode)
    with (replicate (Z.to_nat ALPHABET_SIZE) (@None Trie)) in H.
  apply lookup_replicate in H as [H _]. discriminate.
Qed.

(** A word abandoned at a letter of count zero, all of whose earlier
    letters have a count: when the call reports no failed allocation, the
    tree holds a node for each of these earlier letters, and the nodes it
    has gained are exactly those that were missing. *)
Lemma trieAddLoop_prefix pre : forall c post r cur w t added ok w',
  absent (histogram (cb w)) c ->
  Forall (fun p => ~ absent (histogram (cb w)) p) pre ->
  trieAddLoop (pre ++ c :: post) r cur w = Done (t, added, ok) w' ->
  ok = true ->
  (exists nd, walk t (letters pre) = Some nd) /\
  trie_nodes t - trie_nodes cur
  = Z.of_nat (length pre) - Z.of_nat (reach cur (letters pre)).
Proof.
  induction pre as [|p pre IH];
    intros c post r cur w t added ok w' Habs Hpre H Hok.
  - change ([] ++ c :: post) with (c :: post) in H.
    rewrite (trieAddLoop_break _ _ _ _ _ Habs) in H.
    simplify_eq. simpl. split; [eauto|lia].
  - change ((p :: pre) ++ c :: post) with (p :: (pre ++ c :: post)) in H.
    apply Forall_cons in Hpre as [Hp Hpre].
    add_cases H IH.
    + contradiction.
    + discriminate.
    + destruct (IH _ _ _ _ _ _ _ _ _ Habs Hpre Hrec Hok) as [[nd Hnd] Hn].
      unfold letters. cbn [map walk reach trie_child length].
      rewrite (load_insert _ _ _ _ Hslot), Hslot. fold (letters pre).
      split; [eauto|].
      apply load_lookup in Hslot as [_ Hslot].
      rewrite (trie_nodes_insert _ _ _ _ Hslot).
      rewrite set_ch_nodes, reach_set_ch in Hn.
      cbn [from_option]. lia.
    + destruct (IH c post false (set_ch zeroNode p) (allocated w n) k' added
                  ok w' Habs Hpre Hrec Hok) as [[nd Hnd] Hn].
      unfold letters. cbn [map walk reach trie_child length].
      rewrite (load_insert _ _ _ _ Hslot), Hslot. fold (letters pre).
      split; [eauto|].
      apply load_lookup in Hslot as [_ Hslot].
      rewrite (trie_nodes_insert _ _ _ _ Hslot).
      rewrite set_ch_nodes, reach_set_ch, zeroNode_nodes, reach_zeroNode in Hn.
      cbn [from_option]. lia.
Qed.

Lemma trieAddWord_prefix pre c post w root added w' :
  dict (cb w) = Some root ->
  absent (histogram (cb w)) c ->
  Forall (fun p => ~ absent (histogram (cb w)) p) pre ->
  trieAddWord (pre ++ c :: post) w = Done (added, true) w' ->
  exists root',
    dict (cb w') = Some root' /\
    (exists nd, walk root' (letters pre) = Some nd) /\
    trie_nodes root' - trie_nodes root
    = Z.of_nat (length pre) - Z.of_nat (reach root (letters pre)).
Proof.
  intros Hd Habs Hpre H.
  apply trieAddWord_dict in H as [[Hn _]|(r0 & root' & Hd' & w2 & Hloop & ->)];
    [congruence|].
  rewrite Hd in Hd'. injection Hd' as <-. simpl in Hloop.
  exists root'. split; [reflexivity|].
  eapply trieAddLoop_prefix; eauto.
Qed.

(** C3 (as the code has it).  A line longer than N² is skipped by
    [trieBuild] without a call of [trieAddWord], so no node is added for
    it.  A word with a letter whose count is zero is abandoned by
    [trieAddWord] at its first such letter: it reports [wordAdded = false]
    and marks no node as a word, but the nodes for the letters before that
    letter have been created when they did not exist, at most one for each
    of these letters.  When the call reports no failed allocation, the
    tree then holds a node for every letter before that letter, and the
    number of nodes it has gained is exactly the number of these letters
    whose node was missing.  Neither kind of word is ever reported by the
    search. *)
Theorem pruning_rejects n tiles w0 :
  ready n tiles w0 ->
  (forall buf rest count w,
     boardSize (cb w) = n -> n * n < Z.of_nat (length buf) ->
     trieBuildLoop (buf :: rest) count w = trieBuildLoop rest count w) /\
  (forall pre c post w added ok w',
     absent (histogram (cb w)) c ->
     trieAddWord (pre ++ c :: post) w = Done (added, ok) w' ->
     added = false /\
     dict_words (dict (cb w')) = dict_words (dict (cb w)) /\
     0 <= dict_nodes (dict (cb w')) - dict_nodes (dict (cb w))
       <= Z.of_nat (length pre)) /\
  (forall pre c post w root added w',
     dict (cb w) = Some root ->
     absent (histogram (cb w)) c ->
     Forall (fun p => ~ absent (histogram (cb w)) p) pre ->
     trieAddWord (pre ++ c :: post) w = Done (added, true) w' ->
     exists root',
       dict (cb w') = Some root' /\
       (exists nd, walk root' (letters pre) = Some nd) /\
       dict_nodes (dict (cb w')) - dict_nodes (dict (cb w))
       = Z.of_nat (length pre) - Z.of_nat (reach root (letters pre))) /\
  (forall words r w1 fuel word row col path bad,
     trieBuild words w0 = Done r w1 ->
     Found word row col path ∈ search_trace fuel w1 ->
     n * n < Z.of_nat (length bad) \/
       Exists (absent (histogram (cb w0))) bad ->
     word <> bad).
Proof.
  intros Hr. split; [|split; [|split]].
  - intros buf rest count w <- Hlen. apply trieBuildLoop_skip, Hlen.
  - intros pre c post w added ok w'. apply trieAddWord_absent.
  - intros pre c post w root added w' Hd Habs Hpre H.
    destruct (trieAddWord_prefix _ _ _ _ _ _ _ Hd Habs Hpre H)
      as (root' & Hd' & Hwalk & Hn).
    exists root'. rewrite Hd, Hd'. simpl. auto.
  - intros words r w1 fuel word row col path bad Hb Hin Hbad ->.
    apply trieBuild_frame in Hb.
    assert (Hh : histogram (cb w1) = histogram (cb w0))
      by (destruct Hb as (d & a & h & ->); reflexivity).
    pose proof (ready_same_but_dict _ _ _ _ Hr Hb) as Hr1.
    pose proof (ready_idle _ _ _ Hr1) as Hidle.
    destruct Hr1 as [Hn Hbd _ _ Hhist Ht _].
    destruct (found_event_ok _ _ _ _ _ _ Hidle Ht Hin)
      as (_ & Hnd & _ & Hg & Hsp).
    rewrite Hn in Hnd, Hg, Hsp. rewrite Hbd in Hsp.
    destruct Hbad as [Hlong|Habs].
    + pose proof (path_length_le _ _ Hnd Hg).
      apply spelled_length in Hsp. lia.
    + apply Exists_exists in Habs as (ch & Hch & Habs).
      destruct (spelled_present _ _ _ _ _ _ Hhist Hg Hsp Hch) as (k & Hk & Hpos).
      unfold absent in Habs. rewrite <- Hh, Hk in Habs.
      injection Habs as ->. lia.
Qed.

(** ** The pipeline of [main] builds what the theorems assume *)

Lemma mainSetup_built n tiles w w' :
  mainSetup n tiles w = Done tt w' -> dict (cb w') <> None -> built w'.
Proof.
  unfold mainSetup. intros H Hd.
  apply bind_Done in H as ([] & w1 & Hinit & H).
  apply bind_Done in H as ([] & w2 & H2 & H). unfold modify in H2.
  simplify_eq.
  apply bind_Done in H as (hist & w4 & Hh & H).
  apply buildHistogram_spec in Hh as [-> _].
  unfold bind, modify in H. simpl in H. simplify_eq. simpl in Hd.
  eapply built_other; [eapply built_init; [exact Hinit|exact Hd]| | |];
    reflexivity.
Qed.

Lemma trieBuildLoop_built words : forall count w r w',
  built w -> trieBuildLoop words count w = Done r w' -> built w'.
Proof.
  induction words as [|buf rest IH]; intros count w r w' Hb H; simpl in H.
  - unfold ret in H. simplify_eq. exact Hb.
  - unfold bind at 1, gets at 1 in H.
    destruct (_ <=? _); [|eauto].
    apply bind_Done in H as ([added ok] & w1 & Hadd & H).
    pose proof (built_add _ _ _ _ Hb Hadd) as Hb1.
    destruct (negb ok).
    + unfold ret in H. simplify_eq. exact Hb1.
    + eauto.
Qed.

Lemma trieBuild_built words w r w' :
  built w -> trieBuild words w = Done r w' -> built w'.
Proof. apply trieBuildLoop_built. Qed.

(** ** Instances on a 2 x 2 board *)

Ltac pick := repeat first [left; reflexivity | right].

Lemma demo_setup_eq : mainSetup 2 demo_board (world0 16) = Done tt demo_setup.
Proof. vm_compute. reflexivity. Qed.

Lemma demo_eq : trieBuild demo_words demo_setup = Done (true, 4) demo.
Proof. vm_compute. reflexivity. Qed.

Lemma demo_ready : ready 2 demo_board demo.
Proof.
  eapply ready_same_but_dict.
  - apply (mainSetup_ready 2 demo_board 16), demo_setup_eq.
  - apply (trieBuild_frame demo_words _ _ _ demo_eq).
Qed.

Lemma demo_trace : trace demo = [].
Proof. vm_compute. reflexivity. Qed.

Lemma demo_idle : idle demo.
Proof. split; vm_compute; [reflexivity|repeat constructor]. Qed.

Lemma demo_returns : exists w', playBoggle 4 demo = Done tt w'.
Proof.
  exists (world_of (playBoggle 4 demo)). vm_compute. reflexivity.
Qed.

Lemma demo_found :
  Found (chars "ab") 0 1 [(0, 1); (0, 0)] ∈ search_trace 4 demo.
Proof. apply list_elem_of_In. vm_compute. pick. Qed.

(** C1, counterexample: the search that finds "ab" on the board ab/cd
    began at tile (0,0) and is reported at tile (0,1). *)
Lemma report_origin_counterexample :
  exists word row col path,
    Found word row col path ∈ search_trace 4 demo /\
    origin path = Some (0, 0) /\ (row, col) = (0, 1).
Proof.
  exists (chars "ab"), 0, 1, [(0, 1); (0, 0)].
  split; [apply demo_found|split; reflexivity].
Qed.

Lemma report_names_current_tile_witness :
  idle demo /\ trace demo = [] /\
  Found (chars "ab") 0 1 [(0, 1); (0, 0)] ∈ search_trace 4 demo /\
  head [(0, 1); (0, 0)] = Some (0, 1) /\
  spelled (boardSize (cb demo)) (board (cb demo)) [(0, 1); (0, 0)] (chars "ab").
Proof.
  split; [exact demo_idle|]. split; [exact demo_trace|].
  split; [exact demo_found|].
  apply (report_names_current_tile 4 demo (chars "ab") 0 1 [(0, 1); (0, 0)]).
  - exact demo_idle.
  - exact demo_trace.
  - exact demo_found.
Defined.

(** C2, the failing run: on the board ab/cd with the dictionary {ab}, the
    tile (0,1) holds a letter with no child under the root; [playBoggle]
    calls [findSolution] for it with a [NULL] node, and the assertion at
    the top of [findSolution] stops the program after "ab" was printed. *)
Lemma driver_calls_search_without_root :
  trieBuild [chars "ab"] demo_setup = Done (true, 1) demo_one /\
  (forall d, dict (cb demo_one) = Some d ->
             load (trie_child d) (getCharIndex "b") = Some None) /\
  playBoggle 4 demo_one = Abort AssertFail demo_stop /\
  stdout (trace demo_stop) = [(chars "ab", 0, 1)] /\
  gpath demo_stop = [(0, 1)] /\
  mainRun 4 2 demo_board [chars "ab"] (world0 16) = Abort AssertFail demo_stop.
Proof.
  split; [vm_compute; reflexivity|].
  split; [intros d Hd; vm_compute in Hd; injection Hd as <-;
          vm_compute; reflexivity|].
  split; [vm_compute; reflexivity|].
  split; [vm_compute; reflexivity|].
  split; vm_compute; reflexivity.
Qed.

(** C3, counterexample: "abz" has the letter z, which is not on the board
    ab/cd; its insertion is abandoned at z, after the nodes for a and b
    were added. *)
Lemma rejected_word_adds_nodes :
  absent (histogram (cb demo_setup)) "z" /\
  trieAddWord (chars "abz") demo_setup = Done (false, true) demo_abz /\
  dict_nodes (dict (cb demo_abz)) = dict_nodes (dict (cb demo_setup)) + 2.
Proof. split; [|split]; vm_compute; reflexivity. Qed.

Lemma pruning_rejects_witness :
  ready 2 demo_board demo_setup /\
  ((forall buf rest count w,
     boardSize (cb w) = 2 -> 2 * 2 < Z.of_nat (length buf) ->
     trieBuildLoop (buf :: rest) count w = trieBuildLoop rest count w) /\
  (forall pre c post w added ok w',
     absent (histogram (cb w)) c ->
     trieAddWord (pre ++ c :: post) w = Done (added, ok) w' ->
     added = false /\
     dict_words (dict (cb w')) = dict_words (dict (cb w)) /\
     0 <= dict_nodes (dict (cb w')) - dict_nodes (dict (cb w))
       <= Z.of_nat (length pre)) /\
  (forall pre c post w root added w',
     dict (cb w) = Some root ->
     absent (histogram (cb w)) c ->
     Forall (fun p => ~ absent (histogram (cb w)) p) pre ->
     trieAddWord (pre ++ c :: post) w = Done (added, true) w' ->
     exists root',
       dict (cb w') = Some root' /\
       (exists nd, walk root' (letters pre) = Some nd) /\
       dict_nodes (dict (cb w')) - dict_nodes (dict (cb w))
       = Z.of_nat (length pre) - Z.of_nat (reach root (letters pre))) /\
  (forall words r w1 fuel word row col path bad,
     trieBuild words demo_setup = Done r w1 ->
     Found word row col path ∈ search_trace fuel w1 ->
     2 * 2 < Z.of_nat (length bad) \/
       Exists (absent (histogram (cb demo_setup))) bad ->
     word <> bad)) /\
  (dict (cb demo_setup) = Some zeroNode /\
   absent (histogram (cb demo_setup)) "z" /\
   Forall (fun p => ~ absent (histogram (cb demo_setup)) p) (chars "ab") /\
   trieAddWord (chars "ab" ++ "z"%char :: []) demo_setup
   = Done (false, true) demo_abz /\
   exists root',
     dict (cb demo_abz) = Some root' /\
     (exists nd, walk root' (letters (chars "ab")) = Some nd) /\
     dict_nodes (dict (cb demo_abz)) - dict_nodes (dict (cb demo_setup))
     = Z.of_nat (length (chars "ab"))
       - Z.of_nat (reach zeroNode (letters (chars "ab")))).
Proof.
  assert (Hr : ready 2 demo_board demo_setup)
    by (apply (mainSetup_ready 2 demo_board 16), demo_setup_eq).
  assert (Hd : dict (cb demo_setup) = Some zeroNode)
    by (vm_compute; reflexivity).
  assert (Hz : absent (histogram (cb demo_setup)) "z")
    by (vm_compute; reflexivity).
  assert (Hab : Forall (fun p => ~ absent (histogram (cb demo_setup)) p)
                  (chars "ab")).
  { apply Forall_cons. split; [intros H; vm_compute in H; discriminate|].
    apply Forall_cons. split; [intros H; vm_compute in H; discriminate|].
    apply Forall_nil_2. }
  assert (Hrun : trieAddWord (chars "ab" ++ "z"%char :: []) demo_setup
                 = Done (false, true) demo_abz)
    by (vm_compute; reflexivity).
  pose proof (pruning_rejects 2 demo_board demo_setup Hr) as H.
  split; [exact Hr|]. split; [exact H|].
  split; [exact Hd|]. split; [exact Hz|]. split; [exact Hab|].
  split; [exact Hrun|].
  destruct H as (_ & _ & H & _).
  exact (H (chars "ab") "z"%char [] demo_setup zeroNode false demo_abz
           Hd Hz Hab Hrun).
Defined.

(** C4, counterexample: the second insertion of "ab" reports
    [wordAdded = true], as the first did. *)
Lemma second_insertion_reports_added :
  trieAddWord (chars "ab") demo_setup = Done (true, true) demo_ab /\
  trieAddWord (chars "ab") demo_ab = Done (true, true) demo_ab.
Proof. split; vm_compute; reflexivity. Qed.

Lemma trieAddWord_twice_witness :
  trieAddWord (chars "ab") demo_setup = Done (true, true) demo_ab /\
  trieAddWord (chars "ab") demo_ab = Done (true, true) demo_ab.
Proof.
  assert (H : trieAddWord (chars "ab") demo_setup = Done (true, true) demo_ab)
    by (vm_compute; reflexivity).
  split; [exact H|].
  apply (trieAddWord_twice (chars "ab") demo_setup true demo_ab H).
Defined.

Lemma mask_tracks_path_witness :
  idle demo /\ trace demo = [] /\
  Snap 1 [true; true; false; false] [(0, 1); (0, 0)] ∈ search_trace 4 demo /\
  mask_is (boardSize (cb demo)) [true; true; false; false] [(0, 1); (0, 0)] /\
  markUsed 0 0 0 (cleared demo) = Done tt demo_marked /\
  (load (used (cb (cleared demo))) 0 = Some false /\
   used (cb demo_marked) = [true; false; false; false] /\
   gpath demo_marked = [(0, 0)] /\
   trace demo_marked = [Snap 0 [true; false; false; false] [(0, 0)]]) /\
  search_trace 4 demo
  = demo_pre ++ Found (chars "ab") 0 1 [(0, 1); (0, 0)] :: demo_post /\
  ([(0, 1); (0, 0)] = last_path [] demo_pre /\
   mask_is (boardSize (cb demo)) [true; true; false; false]
     [(0, 1); (0, 0)] /\
   load [true; true; false; false] 1 = Some true /\
   in_use [true; true; false; false] = length (chars "ab")) /\
  (forall fuel' row col node si w1 w2,
     findSolution fuel' row col node si w1 = Done tt w2 ->
     used (cb w2) = used (cb w1)) /\
  (forall w', playBoggle 4 demo = Done tt w' ->
     Forall (fun u => u = false) (used (cb w')) /\
     search (cb w') = replicate (Z.to_nat MAX_WORD_LENGTH) NUL /\
     cstring (search (cb w')) = Some [] /\
     gpath w' = []).
Proof.
  pose proof (mask_tracks_path 4 demo demo_idle demo_trace)
    as (HA & HB & _ & _ & _ & _ & HC & HD & HE).
  assert (Hsnap : Snap 1 [true; true; false; false] [(0, 1); (0, 0)]
                  ∈ search_trace 4 demo)
    by (apply list_elem_of_In; vm_compute; pick).
  assert (Hmark : markUsed 0 0 0 (cleared demo) = Done tt demo_marked)
    by (vm_compute; reflexivity).
  assert (Hsplit : search_trace 4 demo
            = demo_pre ++ Found (chars "ab") 0 1 [(0, 1); (0, 0)]
                :: demo_post)
    by (vm_compute; reflexivity).
  split; [exact demo_idle|]. split; [exact demo_trace|].
  split; [exact Hsnap|]. split; [exact (HA _ _ _ Hsnap)|].
  split; [exact Hmark|]. split; [exact (HB _ _ _ _ _ Hmark)|].
  split; [exact Hsplit|]. split; [exact (HC _ _ _ _ _ _ Hsplit)|].
  split; [exact HD|exact HE].
Defined.

Lemma no_tile_twice_witness :
  idle demo /\ trace demo = [] /\
  Found (chars "ab") 0 1 [(0, 1); (0, 0)] ∈ search_trace 4 demo /\
  NoDup (map (cell_index (boardSize (cb demo))) [(0, 1); (0, 0)]) /\
  NoDup [(0, 1); (0, 0)].
Proof.
  split; [exact demo_idle|]. split; [exact demo_trace|].
  split; [exact demo_found|].
  apply (no_tile_twice 4 demo (chars "ab") 0 1 [(0, 1); (0, 0)]).
  - exact demo_idle.
  - exact demo_trace.
  - exact demo_found.
Defined.

Lemma consecutive_tiles_adjacent_witness :
  idle demo /\ trace demo = [] /\
  Found (chars "ab") 0 1 [(0, 1); (0, 0)] ∈ search_trace 4 demo /\
  chain [(0, 1); (0, 0)].
Proof.
  split; [exact demo_idle|]. split; [exact demo_trace|].
  split; [exact demo_found|].
  apply (consecutive_tiles_adjacent 4 demo (chars "ab") 0 1 [(0, 1); (0, 0)]).
  - exact demo_idle.
  - exact demo_trace.
  - exact demo_found.
Defined.

Lemma search_depth_bounded_witness :
  idle demo /\ trace demo = [] /\
  (length (used (cb demo)) <= 4)%nat /\
  (forall w', playBoggle 4 demo <> Abort OutOfFuel w') /\
  (forall si mask path,
     Snap si mask path ∈ search_trace 4 demo ->
     0 <= si /\ si + 1 <= boardSize (cb demo) * boardSize (cb demo)).
Proof.
  assert (Hlen : (length (used (cb demo)) <= 4)%nat)
    by (vm_compute; repeat constructor).
  split; [exact demo_idle|]. split; [exact demo_trace|].
  split; [exact Hlen|].
  apply (search_depth_bounded 4 demo);
    [exact demo_idle|exact demo_trace|exact Hlen].
Defined.


Lemma isValid_index_in_range_witness :
  ready 2 demo_board demo /\ length demo_board = Z.to_nat (2 * 2) /\
  (forall i, Probe i ∈ search_trace 4 demo ->
     0 <= i <= 2 * 2 - 1 /\
     is_Some (load (used (cb demo)) i) /\ is_Some (load (board (cb demo)) i)) /\
  (forall nd, isValid (2 * 2) nd demo =
              Abort OutOfBounds (with_trace demo [Probe (2 * 2)])).
Proof.
  split; [exact demo_ready|]. split; [reflexivity|].
  apply (isValid_index_in_range 4 2 demo_board demo);
    [exact demo_ready|reflexivity].
Defined.

(** * Further properties of the code *)

(** ** Letters and child indices *)

Lemma nat_of_tolower c :
  nat_of_ascii (tolower c) =
  if ((65 <=? nat_of_ascii c) && (nat_of_ascii c <=? 90))%nat
  then (nat_of_ascii c + 32)%nat else nat_of_ascii c.
Proof.
  unfold tolower. pose proof (nat_ascii_bounded c) as Hb.
  destruct (Nat.leb_spec 65 (nat_of_ascii c)),
    (Nat.leb_spec (nat_of_ascii c) 90); simpl; try reflexivity.
  apply nat_ascii_embedding. lia.
Qed.

Lemma getCharIndex_range c :
  0 <= getCharIndex c < ALPHABET_SIZE <-> is_letter c.
Proof.
  unfold getCharIndex, is_letter, ALPHABET_SIZE. cbv zeta.
  rewrite nat_of_tolower.
  destruct (Nat.leb_spec 65 (nat_of_ascii c)),
    (Nat.leb_spec (nat_of_ascii c) 90); cbn [andb];
    match goal with |- context [(?n =? 255)%nat] =>
      destruct (Nat.eqb_spec n 255) end; lia.
Qed.

Lemma tolower_inj_nat a b :
  nat_of_ascii (tolower a) = nat_of_ascii (tolower b) -> tolower a = tolower b.
Proof.
  intros H. rewrite <- (ascii_nat_embedding (tolower a)),
    <- (ascii_nat_embedding (tolower b)), H. reflexivity.
Qed.

(** X1.  [getCharIndex] gives an index inside the 26-entry arrays exactly
    for the ASCII letters, and gives two bytes the same index exactly when
    they are the same up to case. *)
Theorem getCharIndex_letters a b :
  (0 <= getCharIndex a < ALPHABET_SIZE <-> is_letter a) /\
  (getCharIndex a = getCharIndex b <-> tolower a = tolower b).
Proof.
  split; [apply getCharIndex_range|]. unfold getCharIndex. cbv zeta. split.
  - intros H. apply tolower_inj_nat.
    destruct (Nat.eqb_spec (nat_of_ascii (tolower a)) 255),
      (Nat.eqb_spec (nat_of_ascii (tolower b)) 255); lia.
  - intros ->. reflexivity.
Qed.

(** ** What the dictionary holds *)

Lemma flag_set f :
  (Z.land (Z.lor f FLAGS_ISWORD) FLAGS_ISWORD =? 0) = false.
Proof.
  apply Z.eqb_neq. intros H.
  assert (Hb : Z.testbit (Z.land (Z.lor f FLAGS_ISWORD) FLAGS_ISWORD) 0 = true).
  { rewrite Z.land_spec, Z.lor_spec. unfold FLAGS_ISWORD. simpl.
    rewrite orb_true_r. reflexivity. }
  rewrite H in Hb. discriminate.
Qed.

Lemma is_word_nil t : is_word t [] = flagged t.
Proof. reflexivity. Qed.

Lemma is_word_cons t i ixs :
  is_word t (i :: ixs) =
  match load (trie_child t) i with
  | Some (Some k) => is_word k ixs
  | _ => false
  end.
Proof.
  unfold is_word. simpl. destruct (load (trie_child t) i) as [[k|]|];
    reflexivity.
Qed.

Lemma is_word_zeroNode ixs : is_word zeroNode ixs = false.
Proof.
  destruct ixs as [|i ixs]; [reflexivity|]. rewrite is_word_cons.
  destruct (load (trie_child zeroNode) i) as [[k|]|] eqn:H; try reflexivity.
  apply load_lookup in H as [_ H].
  change (trie_child zeroNode)
    with (replicate (Z.to_nat ALPHABET_SIZE) (@None Trie)) in H.
  apply lookup_replicate in H as [H _]. discriminate.
Qed.

Lemma is_word_set_ch t c ixs : is_word (set_ch t c) ixs = is_word t ixs.
Proof. destruct t. destruct ixs; reflexivity. Qed.

(** The words of the subtree after the loop of [trieAddWord]: those it had,
    and the word inserted when [wordAdded] is reported. *)
Lemma trieAddLoop_words word : forall r cur w t added ok w' ixs,
  trieAddLoop word r cur w = Done (t, added, ok) w' ->
  is_word t ixs =
  is_word cur ixs || (added && bool_decide (ixs = letters word)).
Proof.
  induction word as [|c rest IH]; intros r cur w t added ok w' ixs H.
  - apply trieAddLoop_nil in H as (-> & -> & -> & -> & ->).
    destruct cur as [ch f kids]. destruct ixs as [|i ixs].
    + rewrite !is_word_nil. unfold flagged. simpl.
      rewrite flag_set. simpl. rewrite orb_true_r. reflexivity.
    + rewrite !is_word_cons. simpl. rewrite orb_false_r. reflexivity.
  - add_cases H IH.
    + rewrite orb_false_r. reflexivity.
    + rewrite orb_false_r. reflexivity.
    + specialize (IH _ _ _ _ _ _ _ (tail ixs) Hrec).
      destruct ixs as [|i ixs].
      * rewrite !is_word_nil. simpl. rewrite andb_false_r, orb_false_r.
        destruct cur; reflexivity.
      * rewrite !is_word_cons. cbn [tail] in IH. cbn [trie_child].
        destruct (Z.eq_dec i (getCharIndex c)) as [->|Hni].
        -- rewrite (load_insert _ _ _ _ Hslot), Hslot, IH, is_word_set_ch.
           f_equal. f_equal. apply bool_decide_ext. unfold letters. simpl.
           split; congruence.
        -- apply load_lookup in Hslot as [Hi _].
           rewrite load_insert_ne by auto.
           rewrite bool_decide_eq_false_2
             by (unfold letters; simpl; congruence).
           rewrite andb_false_r, orb_false_r. reflexivity.
    + specialize (IH _ _ _ _ _ _ _ (tail ixs) Hrec).
      destruct ixs as [|i ixs].
      * rewrite !is_word_nil. simpl. rewrite andb_false_r, orb_false_r.
        destruct cur; reflexivity.
      * rewrite !is_word_cons. cbn [tail] in IH. cbn [trie_child].
        destruct (Z.eq_dec i (getCharIndex c)) as [->|Hni].
        -- rewrite (load_insert _ _ _ _ Hslot), Hslot, IH, is_word_set_ch,
             is_word_zeroNode. cbn [orb].
           f_equal. apply bool_decide_ext. unfold letters. simpl.
           split; congruence.
        -- apply load_lookup in Hslot as [Hi _].
           rewrite load_insert_ne by auto.
           rewrite bool_decide_eq_false_2
             by (unfold letters; simpl; congruence).
           rewrite andb_false_r, orb_false_r. reflexivity.
Qed.

(** X2.  Insertion and lookup.  After [trieAddWord] returns, the dictionary
    holds the words it held before, and the inserted word exactly when
    [wordAdded] is reported: no other word appears and none is lost,
    whether the insertion was completed, abandoned at a letter that is not
    on the board, or stopped by a failed allocation. *)
Theorem trieAddWord_words word w root added ok w' :
  dict (cb w) = Some root ->
  trieAddWord word w = Done (added, ok) w' ->
  exists root', dict (cb w') = Some root' /\
    forall ixs, is_word root' ixs =
                is_word root ixs || (added && bool_decide (ixs = letters word)).
Proof.
  intros Hd H.
  apply trieAddWord_dict in H as [[Hn _]|(r0 & root' & Hd' & w2 & Hloop & ->)];
    [congruence|].
  rewrite Hd in Hd'. injection Hd' as <-.
  exists root'. split; [reflexivity|]. intros ixs.
  eapply trieAddLoop_words. exact Hloop.
Qed.

Lemma absentb_true hist c : absentb hist c = true <-> absent hist c.
Proof.
  unfold absentb, absent. destruct (load hist (getCharIndex c)) as [h|].
  - rewrite Z.eqb_eq. split; congruence.
  - split; discriminate.
Qed.

(** When the loop of [trieAddWord] reports the word added. *)
Lemma trieAddLoop_added word : forall r cur w t added ok w',
  trieAddLoop word r cur w = Done (t, added, ok) w' ->
  (added = true ->
   ok = true /\ forallb (fun c => negb (absentb (histogram (cb w)) c)) word = true) /\
  (ok = true ->
   forallb (fun c => negb (absentb (histogram (cb w)) c)) word = true ->
   added = true).
Proof.
  induction word as [|c rest IH]; intros r cur w t added ok w' H.
  - apply trieAddLoop_nil in H as (-> & -> & -> & -> & ->). auto.
  - add_cases H IH.
    + split; [discriminate|]. intros _ Hf. simpl in Hf.
      unfold absentb in Hf. rewrite Hh in Hf. discriminate.
    + split; discriminate.
    + apply IH in Hrec as [H1 H2]. simpl. unfold absentb at 1 3.
      rewrite Hh. destruct (Z.eqb_spec h 0); [contradiction|]. simpl. auto.
    + apply IH in Hrec as [H1 H2]. simpl in H1, H2. simpl.
      unfold absentb at 1 3.
      rewrite Hh. destruct (Z.eqb_spec h 0); [contradiction|]. simpl. auto.
Qed.

Lemma trieAddWord_added word w root added ok w' :
  dict (cb w) = Some root ->
  trieAddWord word w = Done (added, ok) w' ->
  (added = true ->
   ok = true /\ forallb (fun c => negb (absentb (histogram (cb w)) c)) word = true) /\
  (ok = true ->
   forallb (fun c => negb (absentb (histogram (cb w)) c)) word = true ->
   added = true).
Proof.
  intros Hd H.
  apply trieAddWord_dict in H as [[Hn _]|(r0 & root' & Hd' & w2 & Hloop & ->)];
    [congruence|].
  eapply trieAddLoop_added. exact Hloop.
Qed.

Lemma same_but_dict_consts w w' :
  same_but_dict w w' ->
  boardSize (cb w') = boardSize (cb w) /\
  histogram (cb w') = histogram (cb w).
Proof. intros (d & a & h & ->). split; reflexivity. Qed.

Lemma trieBuildLoop_words words : forall count w ok cnt w' root,
  dict (cb w) = Some root ->
  trieBuildLoop words count w = Done (ok, cnt) w' ->
  exists root', dict (cb w') = Some root' /\
    forall ixs,
      (is_word root' ixs = true ->
       is_word root ixs = true \/
       exists dw, dw ∈ words /\ letters dw = ixs /\
         acceptedb (boardSize (cb w)) (histogram (cb w)) dw = true) /\
      (ok = true ->
       is_word root ixs = true \/
       (exists dw, dw ∈ words /\ letters dw = ixs /\
          acceptedb (boardSize (cb w)) (histogram (cb w)) dw = true) ->
       is_word root' ixs = true).
Proof.
  induction words as [|buf rest IH]; intros count w ok cnt w' root Hd H;
    simpl in H.
  - unfold ret in H. simplify_eq. exists root. split; [exact Hd|].
    intros ixs. split; [auto|]. intros _ [?|(dw & Hin & _)]; [auto|].
    inversion Hin.
  - unfold bind at 1, gets at 1 in H.
    destruct (Z.leb_spec (Z.of_nat (length buf))
                (boardSize (cb w) * boardSize (cb w))) as [Hfit|Hlong].
    2:{ destruct (IH _ _ _ _ _ _ Hd H) as (root' & Hd' & Hw).
        exists root'. split; [exact Hd'|]. intros ixs.
        destruct (Hw ixs) as [Hw1 Hw2]. split.
        - intros Hi. destruct (Hw1 Hi) as [?|(dw & Hin & ?)]; [auto|].
          right. exists dw. split; [apply list_elem_of_further, Hin|auto].
        - intros Hok [?|(dw & Hin & Hl & Ha)]; [auto|].
          apply elem_of_cons in Hin as [->|Hin].
          + unfold acceptedb in Ha. apply andb_true_iff in Ha as [Ha _].
            apply Z.leb_le in Ha. lia.
          + apply Hw2; eauto 6. }
    apply bind_Done in H as ([added ok1] & w1 & Hadd & H).
    destruct (trieAddWord_words _ _ _ _ _ _ Hd Hadd) as (root1 & Hd1 & Hw1).
    destruct (trieAddWord_added _ _ _ _ _ _ Hd Hadd) as [Ha1 Ha2].
    pose proof (same_but_dict_consts _ _ (trieAddWord_frame _ _ _ _ Hadd))
      as [Hn Hh].
    assert (Hbuf : added = true ->
              acceptedb (boardSize (cb w)) (histogram (cb w)) buf = true).
    { intros Ht. destruct (Ha1 Ht) as [_ Hf]. unfold acceptedb.
      rewrite Hf. apply andb_true_iff. split; [apply Z.leb_le, Hfit|auto]. }
    destruct ok1; simpl in H.
    2:{ unfold ret in H. simplify_eq. exists root1. split; [exact Hd1|].
        intros ixs. split; [|discriminate]. rewrite Hw1. intros Hi.
        apply orb_true_iff in Hi as [?|Hi]; [auto|].
        apply andb_true_iff in Hi as [Ht Hi]. apply bool_decide_eq_true in Hi.
        right. exists buf. split; [apply list_elem_of_here|auto]. }
    destruct (IH _ _ _ _ _ _ Hd1 H) as (root' & Hd' & Hw).
    rewrite Hn, Hh in Hw.
    exists root'. split; [exact Hd'|]. intros ixs.
    destruct (Hw ixs) as [Hw2 Hw3]. split.
    + intros Hi. destruct (Hw2 Hi) as [Hr|(dw & Hin & ?)].
      * rewrite Hw1 in Hr. apply orb_true_iff in Hr as [?|Hr]; [auto|].
        apply andb_true_iff in Hr as [Ht Hr]. apply bool_decide_eq_true in Hr.
        right. exists buf. split; [apply list_elem_of_here|auto].
      * right. exists dw. split; [apply list_elem_of_further, Hin|auto].
    + intros Hok [Hr|(dw & Hin & Hl & Ha)].
      * apply Hw3; [exact Hok|]. left. rewrite Hw1, Hr. reflexivity.
      * apply Hw3; [exact Hok|].
        apply elem_of_cons in Hin as [->|Hin]; [|eauto 6].
        left. rewrite Hw1. apply orb_true_iff. right.
        apply andb_true_iff. split; [|apply bool_decide_eq_true; auto].
        apply Ha2; [reflexivity|]. unfold acceptedb in Ha.
        apply andb_true_iff in Ha. apply Ha.
Qed.

(** X3.  What [trieBuild] builds.  Started on an empty dictionary, a
    [trieBuild] that reports success leaves a dictionary that holds exactly
    the lines that fit on the board and have no letter of count zero; one
    that stops on a failed allocation holds some of them and nothing
    else. *)
Theorem trieBuild_words words w root ok cnt w' :
  dict (cb w) = Some root ->
  (forall ixs, is_word root ixs = false) ->
  trieBuild words w = Done (ok, cnt) w' ->
  exists root', dict (cb w') = Some root' /\
    forall ixs,
      (is_word root' ixs = true ->
       exists dw, dw ∈ words /\ letters dw = ixs /\
         acceptedb (boardSize (cb w)) (histogram (cb w)) dw = true) /\
      (ok = true ->
       (exists dw, dw ∈ words /\ letters dw = ixs /\
          acceptedb (boardSize (cb w)) (histogram (cb w)) dw = true) ->
       is_word root' ixs = true).
Proof.
  intros Hd Hempty H.
  destruct (trieBuildLoop_words _ _ _ _ _ _ _ Hd H) as (root' & Hd' & Hw).
  exists root'. split; [exact Hd'|]. intros ixs.
  destruct (Hw ixs) as [H1 H2]. split.
  - intros Hi. destruct (H1 Hi) as [Hr|?]; [|auto].
    rewrite Hempty in Hr. discriminate.
  - intros Hok Hex. apply H2; auto.
Qed.

(** ** The count that [trieBuild] prints *)

Lemma acceptedb_added word w root added w' :
  dict (cb w) = Some root ->
  Z.of_nat (length word) <= boardSize (cb w) * boardSize (cb w) ->
  trieAddWord word w = Done (added, true) w' ->
  added = acceptedb (boardSize (cb w)) (histogram (cb w)) word.
Proof.
  intros Hd Hfit H.
  destruct (trieAddWord_added _ _ _ _ _ _ Hd H) as [H1 H2].
  unfold acceptedb. apply Z.leb_le in Hfit. rewrite Hfit. simpl.
  destruct added.
  - symmetry. apply H1. reflexivity.
  - destruct (forallb _ word); [|reflexivity].
    discriminate (H2 eq_refl eq_refl).
Qed.

Lemma incr_range n : 0 <= incr n < SIZE_MAX1.
Proof. unfold incr. apply Z.mod_pos_bound. reflexivity. Qed.

Lemma trieAddWord_keeps_root word w root r w' :
  dict (cb w) = Some root -> trieAddWord word w = Done r w' ->
  exists root', dict (cb w') = Some root'.
Proof.
  intros Hd H.
  apply trieAddWord_dict in H as [[Hn _]|(r0 & root' & Hd' & w2 & Hloop & ->)];
    [congruence|]. eauto.
Qed.

Lemma trieBuildLoop_count words : forall count w cnt w' root,
  dict (cb w) = Some root ->
  0 <= count < SIZE_MAX1 ->
  trieBuildLoop words count w = Done (true, cnt) w' ->
  cnt = (count + Z.of_nat (length (List.filter
           (acceptedb (boardSize (cb w)) (histogram (cb w))) words)))
        mod SIZE_MAX1.
Proof.
  induction words as [|buf rest IH]; intros count w cnt w' root Hd Hc H;
    simpl in H.
  - unfold ret in H. simplify_eq. simpl. rewrite Z.add_0_r.
    symmetry. apply Z.mod_small, Hc.
  - unfold bind at 1, gets at 1 in H. cbn [List.filter].
    destruct (Z.leb_spec (Z.of_nat (length buf))
                (boardSize (cb w) * boardSize (cb w))) as [Hfit|Hlong].
    2:{ unfold acceptedb at 1.
        destruct (Z.leb_spec (Z.of_nat (length buf))
                    (boardSize (cb w) * boardSize (cb w))); [lia|].
        simpl. eapply IH; eauto. }
    apply bind_Done in H as ([added ok1] & w1 & Hadd & H).
    destruct ok1; simpl in H; [|unfold ret in H; discriminate].
    rewrite <- (acceptedb_added _ _ _ _ _ Hd Hfit Hadd).
    destruct (trieAddWord_keeps_root _ _ _ _ _ Hd Hadd) as (root1 & Hd1).
    pose proof (same_but_dict_consts _ _ (trieAddWord_frame _ _ _ _ Hadd))
      as [Hn Hh].
    destruct added.
    + eapply IH in H; [|exact Hd1|apply incr_range].
      rewrite H, Hn, Hh. unfold incr. cbn [length].
      rewrite Zplus_mod_idemp_l. f_equal. lia.
    + eapply IH in H; [|exact Hd1|exact Hc]. rewrite H, Hn, Hh. reflexivity.
Qed.

(** X4.  The count [trieBuild] prints after a successful build is the
    number of lines that were accepted, a line that occurs several times
    counted each time (modulo the width of [size_t]). *)
Theorem trieBuild_count words w root cnt w' :
  dict (cb w) = Some root ->
  trieBuild words w = Done (true, cnt) w' ->
  cnt = Z.of_nat (length (List.filter
          (acceptedb (boardSize (cb w)) (histogram (cb w))) words))
        mod SIZE_MAX1.
Proof.
  intros Hd H. eapply trieBuildLoop_count in H; [|exact Hd|].
  - exact H.
  - split; [lia|reflexivity].
Qed.

(** ** Insertion never faults on lines of letters *)

Lemma trie_wf_eq c f kids :
  trie_wf (TrieNode c f kids) <->
  length kids = Z.to_nat ALPHABET_SIZE /\ Forall slot_wf kids.
Proof.
  simpl. apply and_iff_compat_l.
  induction kids as [|[k|] l IH]; simpl.
  - split; auto.
  - rewrite Forall_cons. simpl. tauto.
  - rewrite Forall_cons. simpl. tauto.
Qed.

Arguments trie_wf : simpl never.

Lemma zeroNode_wf : trie_wf zeroNode.
Proof.
  apply trie_wf_eq. split; [apply length_replicate|].
  apply Forall_replicate. exact I.
Qed.

Lemma set_ch_wf t c : trie_wf (set_ch t c) <-> trie_wf t.
Proof. destruct t. simpl. rewrite !trie_wf_eq. reflexivity. Qed.

Lemma or_flags_wf t m : trie_wf (or_flags t m) <-> trie_wf t.
Proof. destruct t. simpl. rewrite !trie_wf_eq. reflexivity. Qed.

Lemma trie_wf_insert t i k :
  trie_wf t -> trie_wf k ->
  trie_wf (TrieNode (trie_ch t) (trie_flags t)
             (<[i := Some k]> (trie_child t))).
Proof.
  destruct t as [c f kids]. rewrite !trie_wf_eq. simpl.
  intros [Hl Hk] Hw. rewrite length_insert. split; [exact Hl|].
  apply Forall_insert; auto.
Qed.

Lemma trie_wf_child t i k :
  trie_wf t -> load (trie_child t) i = Some (Some k) -> trie_wf k.
Proof.
  destruct t as [c f kids]. rewrite trie_wf_eq. simpl. intros [_ Hk] Hl.
  apply load_lookup in Hl as [_ Hl]. rewrite Forall_lookup in Hk.
  apply (Hk _ _ Hl).
Qed.

Lemma load_in_range {A} (l : list A) i :
  0 <= i < Z.of_nat (length l) -> exists x, load l i = Some x.
Proof.
  intros H. unfold load. destruct (Z.leb_spec 0 i); [|lia].
  apply lookup_lt_is_Some. lia.
Qed.

Lemma load_out_of_range {A} (l : list A) i :
  ~ 0 <= i < Z.of_nat (length l) -> load l i = None.
Proof.
  intros H. unfold load. destruct (Z.leb_spec 0 i); [|reflexivity].
  apply lookup_ge_None_2. lia.
Qed.

Lemma trie_wf_slot t i :
  trie_wf t -> 0 <= i < ALPHABET_SIZE ->
  exists slot, load (trie_child t) i = Some slot.
Proof.
  destruct t as [c f kids]. rewrite trie_wf_eq. simpl. intros [Hl _] Hi.
  apply load_in_range. rewrite Hl. unfold ALPHABET_SIZE in *. lia.
Qed.

(** One iteration of the loop that goes down to a child, old or new. *)
Lemma trieAddLoop_descend c rest r cur w h k w1 :
  load (histogram (cb w)) (getCharIndex c) = Some h -> h <> 0 ->
  (load (trie_child cur) (getCharIndex c) = Some (Some k) /\ w1 = w \/
   load (trie_child cur) (getCharIndex c) = Some None /\ k = zeroNode /\
   exists n, heapNodes w = S n /\ w1 = allocated w n) ->
  trieAddLoop (c :: rest) r cur w =
  match trieAddLoop rest false (set_ch k c) w1 with
  | Done (k', added, ok) w' =>
      Done (TrieNode (trie_ch cur) (trie_flags cur)
              (<[Z.to_nat (getCharIndex c) := Some k']> (trie_child cur)),
            added, ok) w'
  | Abort f w' => Abort f w'
  end.
Proof.
  intros Hh Hne Hk. cbn [trieAddLoop]. unfold bind, gets, loadM.
  rewrite Hh. unfold ret. cbn beta iota.
  destruct (Z.eqb_spec h 0) as [|_]; [contradiction|].
  destruct Hk as [[Hs ->]|(Hs & -> & n & Hn & ->)]; rewrite Hs; cbn beta iota.
  - destruct (trieAddLoop rest false (set_ch k c) w) as [[[k' a] o] w'|f w'];
      reflexivity.
  - unfold trieAllocNode. rewrite Hn. cbn beta iota. unfold modify.
    change (with_cb _ _) with (allocated w n).
    destruct (trieAddLoop rest false (set_ch zeroNode c) (allocated w n))
      as [[[k' a] o] w'|f w']; reflexivity.
Qed.

Lemma trieAddLoop_nomem c rest r cur w h :
  load (histogram (cb w)) (getCharIndex c) = Some h -> h <> 0 ->
  load (trie_child cur) (getCharIndex c) = Some None ->
  heapNodes w = O ->
  trieAddLoop (c :: rest) r cur w = Done (cur, false, false) w.
Proof.
  intros Hh Hne Hs Hn. cbn [trieAddLoop]. unfold bind, gets, loadM.
  rewrite Hh. unfold ret. cbn beta iota.
  destruct (Z.eqb_spec h 0) as [|_]; [contradiction|].
  rewrite Hs. cbn beta iota. unfold trieAllocNode. rewrite Hn. reflexivity.
Qed.

Lemma trieAddLoop_safe word : forall r cur w,
  trie_wf cur ->
  length (histogram (cb w)) = Z.to_nat ALPHABET_SIZE ->
  Forall is_letter word ->
  (word = [] -> r = false) ->
  exists t added ok w',
    trieAddLoop word r cur w = Done (t, added, ok) w' /\
    trie_wf t /\
    (ok = false -> heapNodes w' = O) /\
    (heapNodes w <= heapNodes w' + length word)%nat /\
    (length word <= heapNodes w -> ok = true)%nat.
Proof.
  induction word as [|c rest IH]; intros r cur w Hwf Hlen Hlet Hr.
  - rewrite (Hr eq_refl). eexists _, _, _, _. split; [reflexivity|].
    split; [apply or_flags_wf, Hwf|]. split; [discriminate|].
    split; [simpl; lia|reflexivity].
  - apply Forall_cons in Hlet as [Hc Hrest].
    apply getCharIndex_range in Hc.
    destruct (load_in_range (histogram (cb w)) (getCharIndex c)) as [h Hh].
    { rewrite Hlen. unfold ALPHABET_SIZE in *. lia. }
    destruct (Z.eq_dec h 0) as [->|Hne].
    { rewrite (trieAddLoop_break _ _ _ _ _ Hh). eexists _, _, _, _.
      split; [reflexivity|]. split; [exact Hwf|]. split; [discriminate|].
      split; [simpl; lia|reflexivity]. }
    destruct (trie_wf_slot cur (getCharIndex c) Hwf Hc) as [[k|] Hs].
    + destruct (IH false (set_ch k c) w) as (k' & a & o & w' & E & Hk' & Ho & Hh1 & Hh2);
        auto.
      { apply set_ch_wf. eapply trie_wf_child; eauto. }
      rewrite (trieAddLoop_descend c rest r cur w h k w Hh Hne) by auto.
      rewrite E. eexists _, _, _, _. split; [reflexivity|].
      split; [apply trie_wf_insert; auto|]. split; [exact Ho|].
      simpl. split; [lia|]. intros; apply Hh2; lia.
    + destruct (heapNodes w) as [|n] eqn:Hn.
      { rewrite (trieAddLoop_nomem _ _ _ _ _ _ Hh Hne Hs Hn).
        eexists _, _, _, _. split; [reflexivity|]. split; [exact Hwf|].
        split; [auto|]. simpl. split; [lia|]. intros; lia. }
      destruct (IH false (set_ch zeroNode c) (allocated w n))
        as (k' & a & o & w' & E & Hk' & Ho & Hh1 & Hh2); auto.
      { apply set_ch_wf, zeroNode_wf. }
      rewrite (trieAddLoop_descend c rest r cur w h zeroNode (allocated w n)
                 Hh Hne) by (right; eauto).
      rewrite E. eexists _, _, _, _. split; [reflexivity|].
      split; [apply trie_wf_insert; auto|]. split; [exact Ho|].
      simpl in *. split; [lia|]. intros; apply Hh2; lia.
Qed.

(** The dictionary and the histogram as [trieBuild] needs them. *)
Lemma trieAddWord_safe word w root :
  dict (cb w) = Some root -> trie_wf root ->
  length (histogram (cb w)) = Z.to_nat ALPHABET_SIZE ->
  Forall is_letter word -> word <> [] ->
  exists added ok w' root',
    trieAddWord word w = Done (added, ok) w' /\
    dict (cb w') = Some root' /\ trie_wf root' /\
    (ok = false -> heapNodes w' = O) /\
    (heapNodes w <= heapNodes w' + length word)%nat /\
    (length word <= heapNodes w -> ok = true)%nat.
Proof.
  intros Hd Hwf Hlen Hlet Hne.
  destruct (trieAddLoop_safe word true root w Hwf Hlen Hlet)
    as (t & a & o & w' & E & Ht & Ho & Hh1 & Hh2); [contradiction|].
  exists a, o, (with_cb (set_dict (Some t)) w'), t.
  split; [|auto].
  unfold trieAddWord, bind, gets. rewrite Hd, E. reflexivity.
Qed.

Lemma trieBuildLoop_safe words : forall count w root,
  dict (cb w) = Some root -> trie_wf root ->
  length (histogram (cb w)) = Z.to_nat ALPHABET_SIZE ->
  Forall (fun dw => dw <> [] /\ Forall is_letter dw) words ->
  exists ok cnt w' root',
    trieBuildLoop words count w = Done (ok, cnt) w' /\
    dict (cb w') = Some root' /\ trie_wf root' /\
    (ok = false -> heapNodes w' = O) /\
    (total_letters words <= heapNodes w -> ok = true)%nat.
Proof.
  induction words as [|buf rest IH]; intros count w root Hd Hwf Hlen Hall.
  - exists true, count, w, root.
    split; [reflexivity|]. split; [exact Hd|]. split; [exact Hwf|].
    split; [discriminate|reflexivity].
  - apply Forall_cons in Hall as [[Hne Hlet] Hall]. cbn [trieBuildLoop].
    unfold bind at 1, gets at 1.
    destruct (_ <=? _).
    2:{ destruct (IH count w root Hd Hwf Hlen Hall)
          as (ok & cnt & w' & root' & E & Hd' & Hwf' & H0 & H1).
        exists ok, cnt, w', root'.
        split; [exact E|]. split; [exact Hd'|]. split; [exact Hwf'|].
        split; [exact H0|].
        intros Ht. apply H1. simpl in Ht. lia. }
    destruct (trieAddWord_safe buf w root Hd Hwf Hlen Hlet Hne)
      as (added & ok1 & w1 & root1 & E1 & Hd1 & Hwf1 & H0 & Hh1 & Hh2).
    unfold bind at 1. rewrite E1. cbn beta iota.
    destruct ok1; simpl.
    2:{ exists false, count, w1, root1.
        split; [reflexivity|]. split; [exact Hd1|]. split; [exact Hwf1|].
        split; [exact H0|].
        intros Ht. simpl in Ht. apply Hh2. lia. }
    pose proof (same_but_dict_consts _ _ (trieAddWord_frame _ _ _ _ E1))
      as [_ Hh].
    destruct (IH (if added then incr count else count) w1 root1 Hd1 Hwf1)
      as (ok & cnt & w' & root' & E & Hd' & Hwf' & H0' & H1'); auto.
    { rewrite Hh. exact Hlen. }
    exists ok, cnt, w', root'.
    split; [exact E|]. split; [exact Hd'|]. split; [exact Hwf'|].
    split; [exact H0'|].
    intros Ht. apply H1'. simpl in Ht. lia.
Qed.

(** X5.  On lines that are not empty and hold only letters, from a
    dictionary whose nodes all have their 26 slots and with a 26-entry
    histogram, [trieBuild] never faults: it returns, the dictionary keeps
    that shape, it reports failure only when the heap is exhausted, and it
    succeeds whenever the heap has a node for every letter of the file. *)
Theorem trieBuild_safe words w root :
  dict (cb w) = Some root -> trie_wf root ->
  length (histogram (cb w)) = Z.to_nat ALPHABET_SIZE ->
  Forall (fun dw => dw <> [] /\ Forall is_letter dw) words ->
  exists ok cnt w' root',
    trieBuild words w = Done (ok, cnt) w' /\
    dict (cb w') = Some root' /\ trie_wf root' /\
    (ok = false -> heapNodes w' = O) /\
    (total_letters words <= heapNodes w -> ok = true)%nat.
Proof. apply trieBuildLoop_safe. Qed.

(** ** A byte that is not a letter *)

Lemma trieAddLoop_bad_byte pre : forall c post r cur w,
  trie_wf cur ->
  length (histogram (cb w)) = Z.to_nat ALPHABET_SIZE ->
  Forall (fun p => is_letter p /\ absentb (histogram (cb w)) p = false) pre ->
  ~ is_letter c ->
  (length pre <= heapNodes w)%nat ->
  exists w', trieAddLoop (pre ++ c :: post) r cur w = Abort OutOfBounds w'.
Proof.
  induction pre as [|p pre IH]; intros c post r cur w Hwf Hlen Hpre Hc Hheap.
  - exists w. cbn [app trieAddLoop]. unfold bind, gets, loadM.
    rewrite load_out_of_range; [reflexivity|].
    rewrite Hlen. intros Hr. apply Hc, getCharIndex_range.
    unfold ALPHABET_SIZE in *. lia.
  - apply Forall_cons in Hpre as [[Hp Hab] Hpre].
    apply getCharIndex_range in Hp.
    unfold absentb in Hab.
    destruct (load_in_range (histogram (cb w)) (getCharIndex p)) as [h Hh].
    { rewrite Hlen. unfold ALPHABET_SIZE in *. lia. }
    rewrite Hh in Hab.
    apply Z.eqb_neq in Hab.
    change ((p :: pre) ++ c :: post) with (p :: (pre ++ c :: post)).
    destruct (trie_wf_slot cur (getCharIndex p) Hwf Hp) as [[k|] Hs].
    + destruct (IH c post false (set_ch k p) w) as [w' E]; auto.
      { apply set_ch_wf. eapply trie_wf_child; eauto. }
      { simpl in Hheap. lia. }
      exists w'.
      rewrite (trieAddLoop_descend p _ r cur w h k w Hh Hab) by auto.
      rewrite E. reflexivity.
    + destruct (heapNodes w) as [|n] eqn:Hn; [simpl in Hheap; lia|].
      destruct (IH c post false (set_ch zeroNode p) (allocated w n))
        as [w' E]; auto.
      { apply set_ch_wf, zeroNode_wf. }
      { simpl in *. lia. }
      exists w'.
      rewrite (trieAddLoop_descend p _ r cur w h zeroNode (allocated w n)
                 Hh Hab) by (right; eauto).
      rewrite E. reflexivity.
Qed.

(** X6.  A line with a byte that is not a letter (an apostrophe, a digit,
    a hyphen), after letters that all occur on the board, makes
    [trieAddWord] index the histogram outside its 26 entries: undefined
    behaviour in C, the fault [OutOfBounds] here. *)
Theorem trieAddWord_bad_byte pre c post w root :
  dict (cb w) = Some root -> trie_wf root ->
  length (histogram (cb w)) = Z.to_nat ALPHABET_SIZE ->
  Forall (fun p => is_letter p /\ absentb (histogram (cb w)) p = false) pre ->
  ~ is_letter c ->
  (length pre <= heapNodes w)%nat ->
  exists w', trieAddWord (pre ++ c :: post) w = Abort OutOfBounds w'.
Proof.
  intros Hd Hwf Hlen Hpre Hc Hheap.
  destruct (trieAddLoop_bad_byte pre c post true root w Hwf Hlen Hpre Hc Hheap)
    as [w' E].
  exists w'. unfold trieAddWord, bind, gets. rewrite Hd, E. reflexivity.
Qed.

(** ** The search reports dictionary words, and stays inside its arrays *)

Lemma walk_app t ixs jxs :
  walk t (ixs ++ jxs) =
  match walk t ixs with Some nd => walk nd jxs | None => None end.
Proof.
  revert t. induction ixs as [|i ixs IH]; intros t; simpl; [reflexivity|].
  destruct (load (trie_child t) i) as [[k|]|]; auto.
Qed.

Lemma square_le_buffer n : n * n <= MAX_WORD_LENGTH -> n * n <= 64.
Proof.
  unfold MAX_WORD_LENGTH. intros H.
  assert (n <= 8 \/ 9 <= n) as [?|?] by lia;
    assert (-8 <= n \/ n <= -9) as [?|?] by lia; nia.
Qed.

Lemma isValid_runs i nd w :
  is_Some (load (used (cb w)) i) ->
  (exists c, load (board (cb w)) i = Some c /\ is_letter c) ->
  trie_wf nd ->
  exists v, isValid i nd w = Done v (with_trace w [Probe i]).
Proof.
  intros [u Hu] (c & Hb & Hc) Hwf.
  apply getCharIndex_range in Hc.
  destruct (trie_wf_slot nd (getCharIndex c) Hwf Hc) as [slot Hs].
  unfold isValid, bind, emit, gets, id, loadM, ret. cbn beta iota.
  change (cb {| cb := cb w; heapNodes := heapNodes w;
                trace := trace w ++ [Probe i]; gpath := gpath w |})
    with (cb w).
  destruct (_ && _); [|eauto]. rewrite Hu.
  destruct u; cbn beta iota; [eauto|]. rewrite Hb, Hs.
  destruct slot; eauto.
Qed.

Lemma store_in_range {A} (l : list A) i x :
  0 <= i < Z.of_nat (length l) -> exists l', store l i x = Some l'.
Proof.
  intros H. unfold store.
  destruct (Z.leb_spec 0 i), (Z.ltb_spec i (Z.of_nat (length l)));
    try lia. simpl. eauto.
Qed.

Lemma markUsed_runs row col si w c :
  load (used (cb w)) (getBoardIndex (cb w) row col) = Some false ->
  load (board (cb w)) (getBoardIndex (cb w) row col) = Some c ->
  0 <= si < Z.of_nat (length (search (cb w))) ->
  exists w1, markUsed row col si w = Done tt w1.
Proof.
  intros Hu Hb Hsi.
  destruct (store_in_range (used (cb w)) (getBoardIndex (cb w) row col) true)
    as [u' Hu']; [eapply load_Some_lt, Hu|].
  destruct (store_in_range (search (cb w)) si c Hsi) as [s' Hs'].
  unfold markUsed, bind, gets, id, loadM, storeM, assert, modify, ret,
    get_gpath, set_gpath, snapshot, emit. cbn beta iota.
  rewrite Hu. cbn. rewrite Hu'. cbn. rewrite Hb. cbn. rewrite Hs'. eauto.
Qed.

Lemma markUnused_runs row col si w :
  load (used (cb w)) (getBoardIndex (cb w) row col) = Some true ->
  0 <= si < Z.of_nat (length (search (cb w))) ->
  exists w1, markUnused row col si w = Done tt w1.
Proof.
  intros Hu Hsi.
  destruct (store_in_range (used (cb w)) (getBoardIndex (cb w) row col) false)
    as [u' Hu']; [eapply load_Some_lt, Hu|].
  destruct (store_in_range (search (cb w)) si NUL Hsi) as [s' Hs'].
  unfold markUnused, bind, gets, id, loadM, storeM, assert, modify, ret,
    get_gpath, set_gpath, snapshot, emit. cbn beta iota.
  rewrite Hu. cbn. rewrite Hu'. cbn. rewrite Hs'. eauto.
Qed.

Lemma step_in_refl root ends w : step_in root ends w (Done tt w).
Proof. exists []. split; [constructor|]. symmetry. apply with_trace_nil. Qed.

Lemma step_in_trans root ends w evs o :
  Forall (in_dict root) evs ->
  step_in root ends (with_trace w evs) o -> step_in root ends w o.
Proof.
  intros H1 (evs2 & H2 & Ho). exists (evs ++ evs2). split.
  - apply Forall_app. auto.
  - destruct o as [[] w'|f w']; simpl in *.
    + rewrite Ho. apply with_trace_app.
    + rewrite app_assoc. exact Ho.
Qed.

Lemma for_each_in {A} root ends (P : World -> Prop) (l : list A) body :
  (forall w evs, P w -> P (with_trace w evs)) ->
  (forall x w, x ∈ l -> P w -> step_in root ends w (body x w)) ->
  forall w, P w -> step_in root ends w (for_each l body w).
Proof.
  intros HP Hbody. induction l as [|x l IH]; intros w Hw; simpl.
  - apply step_in_refl.
  - unfold bind.
    pose proof (Hbody x w (list_elem_of_here _ _) Hw) as Hx.
    destruct (body x w) as [[] w1|f w1]; [|exact Hx].
    destruct Hx as (evs & Hevs & ->).
    eapply step_in_trans; [exact Hevs|].
    apply IH; [|apply HP, Hw].
    intros y w' Hy. apply Hbody. apply list_elem_of_further, Hy.
Qed.

Lemma safe_board_with_trace w evs :
  safe_board w -> safe_board (with_trace w evs).
Proof. intros []. constructor; assumption. Qed.

Lemma tracks_with_trace root nd w evs :
  tracks root nd w -> tracks root nd (with_trace w evs).
Proof. intros H. exact H. Qed.

Lemma inv_search_length w :
  search_inv w -> length (search (cb w)) = Z.to_nat MAX_WORD_LENGTH.
Proof.
  intros [_ _ _ _ (word & _ & _ & -> & Hlen)].
  rewrite length_app, length_replicate. lia.
Qed.

Lemma spelled_cons n tiles p path word' :
  spelled n tiles (p :: path) word' ->
  exists word c, word' = word ++ [c] /\ spelled n tiles path word /\
                 load tiles (cell_index n p) = Some c.
Proof.
  unfold spelled. simpl. intros H.
  apply Forall2_app_inv_l in H as (word & tl & Hw & Htl & ->).
  inversion Htl as [|? c ? ? Hc Hnil]; subst. inversion Hnil; subst.
  eauto.
Qed.

Lemma tracks_marked root nd k w nr nc si s' c :
  tracks root nd w ->
  load (board (cb w)) (cell_index (boardSize (cb w)) (nr, nc)) = Some c ->
  load (trie_child nd) (getCharIndex c) = Some (Some k) ->
  tracks root k (marked w nr nc si s').
Proof.
  intros Ht Hb Hk word' Hsp. simpl in Hsp.
  apply spelled_cons in Hsp as (word & c' & -> & Hsp & Hc').
  rewrite Hb in Hc'. injection Hc' as <-.
  unfold letters. rewrite map_app, walk_app.
  fold (letters word). rewrite (Ht word Hsp). simpl. rewrite Hk. reflexivity.
Qed.

Lemma safe_board_marked w nr nc si s' :
  safe_board w -> safe_board (marked w nr nc si s').
Proof.
  intros [H1 H2 H3]. constructor; simpl; auto.
  rewrite length_insert. exact H2.
Qed.

Section ExploreIn.
Variable fuel' : nat.
Variable root : Trie.
Hypothesis IH : forall row col nd si w (safe : Prop),
  at_tile row col si w -> tracks root nd w ->
  (safe -> safe_board w /\ trie_wf nd) ->
  step_in root
    (fun f => safe -> f = OutOfFuel /\ (fuel' <= unused (used (cb w)))%nat)
    w (findSolution fuel' row col (Some nd) si w).

Lemma explore_in row col si nd nr nc w (safe : Prop) :
  at_tile row col si w -> tracks root nd w ->
  (safe -> safe_board w /\ trie_wf nd) ->
  in_grid (boardSize (cb w)) (nr, nc) ->
  Z.abs (nr - row) <= 1 -> Z.abs (nc - col) <= 1 ->
  step_in root
    (fun f => safe -> f = OutOfFuel /\ (S fuel' <= unused (used (cb w)))%nat)
    w (explore (findSolution fuel') nd si nr nc (cb w) w).
Proof.
  intros Hat Htr Hsafe Hin Hr Hc.
  set (n := boardSize (cb w)). set (i := cell_index n (nr, nc)).
  pose proof (in_grid_index _ _ Hin) as Hi. fold n i in Hi.
  unfold explore. change (getBoardIndex (cb w) nr nc) with i.
  unfold bind at 1.
  assert (Hsafe_valid : safe ->
    exists v, isValid i nd w = Done v (with_trace w [Probe i])).
  { intros Hs. destruct (Hsafe Hs) as [[_ Hu Ht] Hwf].
    apply isValid_runs; auto.
    - destruct (load_in_range (used (cb w)) i) as [u Hl]; [|eauto].
      rewrite Hu. fold n. lia.
    - apply Ht. fold n. lia. }
  destruct (isValid_spec i nd w) as [E|(v & E & Hv)]; rewrite E.
  { exists [Probe i]. split; [apply Forall_singleton; exact I|].
    split; [reflexivity|]. intros Hs.
    destruct (Hsafe_valid Hs) as [v E']. congruence. }
  destruct v.
  2:{ exists [Probe i]. split; [apply Forall_singleton; exact I|].
      reflexivity. }
  destruct (Hv eq_refl) as (Hu & c & k & Hb & Hk). clear Hv E Hsafe_valid.
  assert (Hcn : c <> NUL).
  { apply getCharIndex_NUL. apply load_lookup in Hk. tauto. }
  set (wp := with_trace w [Probe i]).
  assert (Hat' : at_tile row col si wp) by (apply at_tile_with_trace, Hat).
  eapply step_in_trans with (evs := [Probe i]);
    [apply Forall_singleton; exact I|]. fold wp.
  unfold loadM at 1. change (board (cb w)) with (board (cb wp)).
  assert (Hsafe' : safe -> safe_board wp /\ trie_wf nd).
  { intros Hs. destruct (Hsafe Hs). split; [apply safe_board_with_trace|];
      auto. }
  assert (Htr' : tracks root nd wp) by exact Htr.
  change i with (cell_index (boardSize (cb wp)) (nr, nc)) in Hu, Hb |- *.
  change (used (cb w)) with (used (cb wp)) in Hu |- *.
  change (board (cb w)) with (board (cb wp)) in Hb.
  change (boardSize (cb w)) with (boardSize (cb wp)) in Hin.
  clearbody wp. clear Hat Hsafe Htr Hi. subst n i.
  rewrite Hb. unfold bind at 1, ret at 1. unfold bind at 1.
  destruct Hat' as (Hinv & (rest & Hp) & Hsi).
  assert (Hnear : near_head (gpath wp) nr nc) by (rewrite Hp; simpl; auto).
  assert (Hlen : Z.of_nat (length (gpath wp)) + 1 <=
                 boardSize (cb wp) * boardSize (cb wp)).
  { pose proof (path_length_le (boardSize (cb wp)) ((nr, nc) :: gpath wp))
      as Hle. simpl length in Hle. rewrite Nat2Z.inj_succ in Hle.
    unfold Z.succ in Hle. apply Hle.
    - simpl. constructor; [|apply Hinv].
      eapply mask_is_fresh; [apply Hinv|exact Hu].
    - constructor; [exact Hin|apply Hinv]. }
  assert (Hsi_ok : safe -> 0 <= si < Z.of_nat (length (search (cb wp)))).
  { intros Hs. destruct (Hsafe' Hs) as [[Hside _ _] _].
    rewrite (inv_search_length _ Hinv). unfold MAX_WORD_LENGTH in *. lia. }
  pose proof (markUsed_spec nr nc si wp) as Hmu.
  destruct (markUsed nr nc si wp) as [[] w1|f w1] eqn:Emu.
  2:{ exists []. split; [constructor|]. destruct Hmu as [-> Hf].
      rewrite app_nil_r. split; [reflexivity|]. intros Hs.
      destruct (markUsed_runs nr nc si wp c Hu Hb (Hsi_ok Hs)) as [w1' E'].
      congruence. }
  destruct Hmu as (_ & c' & s' & Hb' & Hst & ->).
  rewrite Hb in Hb'. injection Hb' as <-.
  destruct (marked_at_tile _ _ _ _ _ _ Hinv Hsi Hin Hnear Hu Hb Hst)
    as [Hat1 _].
  specialize (Hat1 Hcn).
  unfold bind at 1, loadM at 1. rewrite Hk. unfold ret at 1.
  unfold bind at 1.
  assert (Hun : unused (used (cb wp)) =
                S (unused (used (cb (marked wp nr nc si s'))))).
  { apply load_lookup in Hu as [_ Hu]. apply (unused_mark _ _ Hu). }
  pose proof (IH nr nc k (si + 1) _ safe Hat1
                (tracks_marked _ _ _ _ _ _ _ _ _ Htr' Hb Hk)) as Hrec.
  destruct Hrec as (evs & Hevs & Ho).
  { intros Hs. destruct (Hsafe' Hs) as [Hsb Hwf].
    split; [apply safe_board_marked, Hsb|eapply trie_wf_child; eauto]. }
  destruct (findSolution fuel' nr nc (Some k) (si + 1) _) as [[] w2|f w2].
  2:{ eexists (Snap _ _ _ :: evs).
      split; [constructor; [exact I|exact Hevs]|].
      destruct Ho as [Ht Hf]. split.
      - rewrite Ht. simpl. rewrite <- app_assoc. reflexivity.
      - intros Hs. destruct (Hf Hs) as [-> Hfu]. split; [reflexivity|].
        rewrite Hun. lia. }
  subst w2.
  pose proof (markUnused_spec nr nc si
                (with_trace (marked wp nr nc si s') evs)) as Hmn.
  destruct (markUnused nr nc si _) as [[] w3|f w3] eqn:Emn.
  2:{ eexists (Snap _ _ _ :: evs).
      split; [constructor; [exact I|exact Hevs]|].
      destruct Hmn as [Ht Hf]. split.
      - rewrite Ht. simpl. rewrite <- app_assoc. reflexivity.
      - intros Hs. exfalso.
        destruct (markUnused_runs nr nc si
                    (with_trace (marked wp nr nc si s') evs)) as [w3' E'].
        + simpl. eapply load_insert. exact Hu.
        + simpl. apply store_Some in Hst as [Hst ->].
          rewrite length_insert. exact Hst.
        + congruence. }
  destruct Hmn as (_ & s2 & Hst2 & ->).
  rewrite (unmarked_marked _ _ _ _ _ _ _ _ Hinv Hsi Hu Hst Hst2).
  eexists. split; [|reflexivity].
  constructor; [exact I|]. apply Forall_app. split; [exact Hevs|].
  apply Forall_singleton. exact I.
Qed.
End ExploreIn.

Lemma step_in_weaken root (ends ends' : fault -> Prop) w o :
  (forall f, ends f -> ends' f) ->
  step_in root ends w o -> step_in root ends' w o.
Proof.
  intros H (evs & Hevs & Ho). exists evs. split; [exact Hevs|].
  destruct o; [exact Ho|]. destruct Ho. auto.
Qed.

Lemma printFound_runs row col w word :
  cstring (search (cb w)) = Some word ->
  printFound row col w = Done tt (with_trace w [Found word row col (gpath w)]).
Proof.
  intros H. unfold printFound, bind, gets. rewrite H. reflexivity.
Qed.

Lemma safe_cstring w :
  search_inv w -> safe_board w ->
  exists word, cstring (search (cb w)) = Some word.
Proof.
  intros [_ Hnd _ Hg (word & Hsp & Hnul & Hs & _)] [Hside _ _].
  exists word. rewrite Hs, (cstring_padded _ _ Hnul).
  pose proof (path_length_le _ _ Hnd Hg) as Hle.
  rewrite <- (spelled_length _ _ _ _ Hsp) in Hle.
  apply square_le_buffer in Hside. unfold MAX_WORD_LENGTH.
  destruct (Z.to_nat 80 - length word)%nat eqn:E; [lia|reflexivity].
Qed.

(** The second master lemma of the search: from a state in which the node
    held is the node the dictionary reaches along the word spelled, every
    word a call of [findSolution] prints is a word of the dictionary; and
    on arrays of the right sizes, over a board of letters and a dictionary
    whose nodes have their 26 slots, the call can only stop for lack of
    fuel. *)
Lemma findSolution_in root fuel : forall row col nd si w (safe : Prop),
  at_tile row col si w -> tracks root nd w ->
  (safe -> safe_board w /\ trie_wf nd) ->
  step_in root
    (fun f => safe -> f = OutOfFuel /\ (fuel <= unused (used (cb w)))%nat)
    w (findSolution fuel row col (Some nd) si w).
Proof.
  induction fuel as [|fuel' IH]; intros row col nd si w safe Hat Htr Hsafe.
  { exists []. split; [constructor|]. simpl. rewrite app_nil_r.
    split; [reflexivity|]. intros _. split; [reflexivity|lia]. }
  rewrite findSolution_unfold.
  set (u := unused (used (cb w))).
  set (ends := fun f : fault => safe -> f = OutOfFuel /\ (S fuel' <= u)%nat).
  assert (Hloops : forall w,
    at_tile row col si w -> tracks root nd w ->
    (safe -> safe_board w /\ trie_wf nd) -> unused (used (cb w)) = u ->
    step_in root ends w
      ((bs <- gets boardSize ;;
        for_each (seqZ (-1) 3) (fun rowDiff =>
          let newRow := row + rowDiff in
          if (0 <=? newRow) && (newRow <? bs) then
            for_each (seqZ (-1) 3) (fun colDiff =>
              let newCol := col + colDiff in
              b <- gets id ;;
              if (0 <=? newCol) && (newCol <? bs) then
                explore (findSolution fuel') nd si newRow newCol b
              else ret tt)
          else ret tt)) w)).
  { clearbody u. clear w Hat Htr Hsafe.
    intros w Hat Htr Hsafe Hu. subst ends. unfold bind at 1, gets at 1.
    set (bs := boardSize (cb w)).
    set (P := fun w0 : World =>
      at_tile row col si w0 /\ tracks root nd w0 /\
      (safe -> safe_board w0 /\ trie_wf nd) /\
      unused (used (cb w0)) = unused (used (cb w)) /\
      boardSize (cb w0) = bs).
    assert (HP : forall w0 evs, P w0 -> P (with_trace w0 evs)).
    { intros w0 evs (H1 & H2 & H3 & H4 & H5).
      split; [apply at_tile_with_trace, H1|]. split; [exact H2|].
      split; [|auto]. intros Hs. destruct (H3 Hs).
      split; [apply safe_board_with_trace|]; auto. }
    apply (for_each_in root _ P); [exact HP| |].
    - intros rowDiff w1 Hrd HP1. cbv zeta.
      destruct ((0 <=? row + rowDiff) && (row + rowDiff <? bs)) eqn:Er;
        [|apply step_in_refl].
      apply andb_true_iff in Er as [Hr1%Z.leb_le Hr2%Z.ltb_lt].
      apply (for_each_in root _ P); [exact HP| |exact HP1].
      intros colDiff w2 Hcd (Hat2 & Htr2 & Hsafe2 & Hu2 & Hbs2). cbv zeta.
      unfold bind at 1, gets at 1. unfold id.
      destruct ((0 <=? col + colDiff) && (col + colDiff <? bs)) eqn:Ec;
        [|apply step_in_refl].
      apply andb_true_iff in Ec as [Hc1%Z.leb_le Hc2%Z.ltb_lt].
      apply elem_of_diffs in Hrd, Hcd.
      eapply step_in_weaken;
        [|apply (explore_in fuel' root (fun r c n s w0 sf => IH r c n s w0 sf)
                   row col si nd (row + rowDiff) (col + colDiff) w2 safe);
          auto].
      + intros f Hf Hs. rewrite <- Hu, <- Hu2. apply Hf, Hs.
      + rewrite Hbs2. split; simpl; lia.
      + replace (row + rowDiff - row) with rowDiff by lia. exact Hrd.
      + replace (col + colDiff - col) with colDiff by lia. exact Hcd.
    - unfold P. auto. }
  unfold bind at 1.
  destruct (Z.land (trie_flags nd) FLAGS_ISWORD =? 0) eqn:Eflag.
  { unfold ret at 1. apply Hloops; auto. }
  destruct (cstring (search (cb w))) as [word|] eqn:Ecs.
  - rewrite (printFound_runs _ _ _ _ Ecs).
    apply (step_in_trans _ _ _ [Found word row col (gpath w)]).
    + apply Forall_singleton. unfold in_dict.
      pose proof (found_ok _ _ _ _ _ Hat Ecs) as (_ & _ & _ & _ & Hsp).
      unfold is_word. rewrite (Htr word Hsp). unfold flagged.
      rewrite Eflag. reflexivity.
    + apply Hloops; auto.
      * apply at_tile_with_trace, Hat.
      * intros Hs. destruct (Hsafe Hs).
        split; [apply safe_board_with_trace|]; auto.
  - pose proof (printFound_spec row col w) as Hpf.
    destruct (printFound row col w) as [[] w1|f w1].
    + destruct Hpf as (word & Hc & _). congruence.
    + destruct Hpf as [-> ->]. exists []. split; [constructor|].
      rewrite app_nil_r. split; [reflexivity|]. intros Hs. exfalso.
      destruct (Hsafe Hs) as [Hsb _].
      destruct (safe_cstring w (proj1 Hat) Hsb) as [word Hw]. congruence.
Qed.

Lemma tracks_root root w : gpath w = [] -> tracks root root w.
Proof.
  intros Hp word Hsp. unfold spelled in Hsp. rewrite Hp in Hsp. simpl in Hsp.
  apply Forall2_nil_inv_l in Hsp. subst word. reflexivity.
Qed.

Lemma safe_unmarked w i :
  search_inv w -> gpath w = [] -> safe_board w ->
  0 <= i < boardSize (cb w) * boardSize (cb w) ->
  load (used (cb w)) i = Some false.
Proof.
  intros Hinv Hp [_ Hu _] Hi.
  destruct (load_in_range (used (cb w)) i) as [u Hl]; [lia|].
  destruct u; [|exact Hl].
  apply (inv_mask _ Hinv) in Hl. rewrite Hp in Hl. simpl in Hl.
  apply elem_of_nil in Hl. contradiction.
Qed.

(** One start of the search, from the tile ([i], [j]): what it prints is in
    the dictionary; on arrays of the right sizes it stops only for lack of
    fuel, or because the letter of the tile has no child under the root. *)
Lemma start_in fuel i j w root (safe : Prop) :
  search_inv w -> gpath w = [] -> dict (cb w) = Some root ->
  in_grid (boardSize (cb w)) (i, j) ->
  (safe -> safe_board w /\ trie_wf root) ->
  step_in root
    (fun f => safe ->
       (f = OutOfFuel /\ (S fuel <= unused (used (cb w)))%nat) \/
       (f = AssertFail /\ rootless root w))
    w (start fuel i j w).
Proof.
  intros Hinv Hp Hd Hin Hsafe. unfold start. unfold bind at 1.
  assert (Hsi : 0 = Z.of_nat (length (gpath w))) by (rewrite Hp; reflexivity).
  assert (Hnear : near_head (gpath w) i j) by (rewrite Hp; exact I).
  pose proof (in_grid_index _ _ Hin) as Hi.
  pose proof (markUsed_spec i j 0 w) as Hmu.
  destruct (markUsed i j 0 w) as [[] w1|f w1] eqn:Emu.
  2:{ exists []. split; [constructor|]. destruct Hmu as [-> Hf].
      rewrite app_nil_r. split; [reflexivity|]. intros Hs. exfalso.
      destruct (Hsafe Hs) as [Hsb _].
      destruct (safe_tiles _ Hsb (cell_index (boardSize (cb w)) (i, j)))
        as (c & Hb & _); [lia|].
      destruct (markUsed_runs i j 0 w c) as [w1' E'].
      - apply (safe_unmarked w (cell_index (boardSize (cb w)) (i, j)));
          auto. lia.
      - exact Hb.
      - rewrite (inv_search_length _ Hinv). unfold MAX_WORD_LENGTH. lia.
      - congruence. }
  destruct Hmu as (Hu & c & s' & Hb & Hst & ->).
  destruct (marked_at_tile _ _ _ _ _ _ Hinv Hsi Hin Hnear Hu Hb Hst)
    as [Hat1 _].
  unfold bind at 1, gets at 1, id.
  change (getBoardIndex (cb (marked w i j 0 s')) i j)
    with (cell_index (boardSize (cb w)) (i, j)).
  change (board (cb (marked w i j 0 s'))) with (board (cb w)).
  change (dict (cb (marked w i j 0 s'))) with (dict (cb w)).
  unfold loadM at 1. rewrite Hb. unfold bind at 1, ret at 1.
  unfold bind at 1. rewrite Hd. unfold loadM at 1.
  destruct (load (trie_child root) (getCharIndex c)) as [[k|]|] eqn:Hroot.
  - unfold ret at 1.
    assert (Hcn : c <> NUL).
    { apply getCharIndex_NUL. apply load_lookup in Hroot. tauto. }
    specialize (Hat1 Hcn). unfold bind at 1.
    assert (Hun : unused (used (cb w)) =
                  S (unused (used (cb (marked w i j 0 s'))))).
    { apply load_lookup in Hu as [_ Hu]. apply (unused_mark _ _ Hu). }
    destruct (findSolution_in root fuel i j k 1 _ safe Hat1
                (tracks_marked _ _ _ _ _ _ _ _ _ (tracks_root root w Hp)
                   Hb Hroot)) as (evs & Hevs & Ho).
    { intros Hs. destruct (Hsafe Hs) as [Hsb Hwf].
      split; [apply safe_board_marked, Hsb|eapply trie_wf_child; eauto]. }
    change (0 + 1) with 1 in Ho.
    destruct (findSolution fuel i j (Some k) 1 _) as [[] w2|f w2].
    2:{ eexists (Snap _ _ _ :: evs).
        split; [constructor; [exact I|exact Hevs]|].
        destruct Ho as [Ht Hf]. split.
        - rewrite Ht. simpl. rewrite <- app_assoc. reflexivity.
        - intros Hs. destruct (Hf Hs) as [-> Hfu]. left.
          split; [reflexivity|]. rewrite Hun. lia. }
    subst w2.
    pose proof (markUnused_spec i j 0
                  (with_trace (marked w i j 0 s') evs)) as Hmn.
    destruct (markUnused i j 0 _) as [[] w3|f w3] eqn:Emn.
    2:{ eexists (Snap _ _ _ :: evs).
        split; [constructor; [exact I|exact Hevs]|].
        destruct Hmn as [Ht Hf]. split.
        - rewrite Ht. simpl. rewrite <- app_assoc. reflexivity.
        - intros Hs. exfalso.
          destruct (markUnused_runs i j 0
                      (with_trace (marked w i j 0 s') evs)) as [w3' E'].
          + simpl. eapply load_insert. exact Hu.
          + simpl. apply store_Some in Hst as [Hst ->].
            rewrite length_insert. exact Hst.
          + congruence. }
    destruct Hmn as (_ & s2 & Hst2 & ->).
    rewrite (unmarked_marked _ _ _ _ _ _ _ _ Hinv Hsi Hu Hst Hst2).
    eexists. split; [|reflexivity].
    constructor; [exact I|]. apply Forall_app. split; [exact Hevs|].
    apply Forall_singleton. exact I.
  - unfold ret at 1. unfold bind at 1.
    replace (findSolution fuel i j None 1 (marked w i j 0 s'))
      with (@Abort unit AssertFail (marked w i j 0 s'))
      by (destruct fuel; reflexivity).
    eexists [Snap _ _ _]. split; [apply Forall_singleton; exact I|].
    split; [reflexivity|]. intros _. right. split; [reflexivity|].
    exists i, j, c. auto.
  - eexists [Snap _ _ _]. split; [apply Forall_singleton; exact I|].
    split; [reflexivity|]. intros Hs. exfalso.
    destruct (Hsafe Hs) as [Hsb Hwf].
    destruct (safe_tiles _ Hsb (cell_index (boardSize (cb w)) (i, j)))
      as (c' & Hb' & Hc'); [lia|].
    rewrite Hb in Hb'. injection Hb' as <-.
    apply getCharIndex_range in Hc'.
    destruct (trie_wf_slot root _ Hwf Hc') as [slot Hslot]. congruence.
Qed.

(** The whole search: what [playBoggle] prints is in the dictionary; on
    arrays of the right sizes it stops only for lack of fuel, or because
    the letter of a tile has no child under the root. *)
Lemma playBoggle_in fuel w root (safe : Prop) :
  idle w -> dict (cb w) = Some root ->
  (safe -> safe_board w /\ trie_wf root) ->
  exists evs, Forall (in_dict root) evs /\
    match playBoggle fuel w with
    | Done _ w' => w' = with_trace (cleared w) evs
    | Abort f w' =>
        trace w' = trace w ++ evs /\
        (safe ->
           (f = OutOfFuel /\ (S fuel <= unused (used (cb w)))%nat) \/
           (f = AssertFail /\ rootless root w))
    end.
Proof.
  intros Hidle Hd Hsafe. rewrite playBoggle_unfold.
  unfold bind at 1, gets at 1. unfold bind at 1, assert at 1.
  set (bs := boardSize (cb w)).
  destruct (bs * bs <=? MAX_WORD_LENGTH) eqn:Eside.
  2:{ exists []. split; [constructor|]. simpl. rewrite app_nil_r.
      split; [reflexivity|]. intros Hs. exfalso.
      destruct (Hsafe Hs) as [[Hside _ _] _]. fold bs in Hside.
      apply Z.leb_gt in Eside. lia. }
  unfold ret at 1. unfold bind at 1, modify at 1. fold (cleared w).
  set (ends := fun f : fault => safe ->
       (f = OutOfFuel /\ (S fuel <= unused (used (cb w)))%nat) \/
       (f = AssertFail /\ rootless root w)).
  set (P := fun w0 : World =>
       search_inv w0 /\ gpath w0 = [] /\ cb w0 = cb (cleared w)).
  assert (HP : forall w0 evs, P w0 -> P (with_trace w0 evs)).
  { intros w0 evs (H1 & H2 & H3).
    split; [apply search_inv_with_trace, H1|auto]. }
  assert (H : step_in root ends (cleared w)
    (for_each (seqZ 0 bs)
       (fun i => for_each (seqZ 0 bs) (fun j => start fuel i j)) (cleared w))).
  { apply (for_each_in root ends P); [exact HP| |].
    - intros i w1 Hi HP1.
      apply (for_each_in root ends P); [exact HP| |exact HP1].
      intros j w2 Hj (Hinv2 & Hp2 & Hcb2).
      eapply step_in_weaken;
        [|apply (start_in fuel i j w2 root safe Hinv2 Hp2)].
      + intros f Hf Hs. unfold rootless in Hf. rewrite Hcb2 in Hf.
        exact (Hf Hs).
      + rewrite Hcb2. exact Hd.
      + rewrite Hcb2. apply elem_of_seqZ in Hi, Hj. split; simpl; lia.
      + intros Hs. destruct (Hsafe Hs) as [[H1 H2 H3] Hwf].
        split; [|exact Hwf]. constructor; rewrite Hcb2; assumption.
    - split; [apply cleared_inv, Hidle|]. split; [apply Hidle|reflexivity]. }
  destruct H as (evs & Hevs & Ho). exists evs. split; [exact Hevs|].
  destruct (for_each _ _ _) as [[] w'|f w']; exact Ho.
Qed.

(** X7.  The search prints only words of the dictionary: the letters of
    every word that a run of [playBoggle] reports select, from the root of
    the dictionary the run was given, a node flagged as the end of a
    word. *)
Theorem search_sound fuel w root word row col path :
  idle w -> trace w = [] -> dict (cb w) = Some root ->
  Found word row col path ∈ search_trace fuel w ->
  is_word root (letters word) = true.
Proof.
  intros Hidle Ht Hd Hin. unfold search_trace in Hin.
  destruct (playBoggle_in fuel w root False Hidle Hd) as (evs & Hevs & Ho);
    [contradiction|].
  assert (Htr : trace (world_of (playBoggle fuel w)) = evs).
  { destruct (playBoggle fuel w) as [[] w'|f w']; simpl.
    - subst w'. simpl. rewrite Ht. reflexivity.
    - destruct Ho as [-> _]. rewrite Ht. reflexivity. }
  rewrite Htr in Hin. rewrite Forall_forall in Hevs.
  exact (Hevs _ Hin).
Qed.

(** ** When the search returns *)

Lemma for_each_visits {A} (P : World -> Prop) (l : list A) body :
  (forall x w w', x ∈ l -> P w -> body x w = Done tt w' -> P w') ->
  forall w w', P w -> for_each l body w = Done tt w' ->
  P w' /\ forall x, x ∈ l -> exists w1 w2, P w1 /\ body x w1 = Done tt w2.
Proof.
  intros Hbody. induction l as [|x l IH]; intros w w' Hw H; simpl in H.
  - unfold ret in H. injection H as <-. split; [exact Hw|].
    intros x Hx. apply elem_of_nil in Hx. contradiction.
  - apply bind_Done in H as ([] & w1 & H1 & H2).
    assert (Hw1 : P w1) by (eapply Hbody; eauto using list_elem_of_here).
    destruct (IH (fun y w0 w0' Hy => Hbody y w0 w0' (list_elem_of_further _ _ _ Hy))
                 w1 w' Hw1 H2) as [Hw' Hall].
    split; [exact Hw'|]. intros y Hy.
    apply elem_of_cons in Hy as [->|Hy]; [eauto|auto].
Qed.

Lemma start_rootless fuel i j w root c w' :
  dict (cb w) = Some root ->
  load (board (cb w)) (cell_index (boardSize (cb w)) (i, j)) = Some c ->
  load (trie_child root) (getCharIndex c) = Some None ->
  start fuel i j w <> Done tt w'.
Proof.
  intros Hd Hb Hroot H.
  destruct (markUsed i j 0 w) as [[] w1|f w1] eqn:Emu.
  - rewrite (start_without_root fuel i j w w1 root c Emu Hd Hb Hroot) in H.
    discriminate.
  - unfold start in H. unfold bind at 1 in H. rewrite Emu in H.
    discriminate.
Qed.

Lemma playBoggle_rootless fuel w root w' :
  idle w -> dict (cb w) = Some root -> rootless root w ->
  playBoggle fuel w <> Done tt w'.
Proof.
  intros Hidle Hd (i & j & c & [Hi Hj] & Hb & Hroot) H.
  simpl in Hi, Hj.
  rewrite playBoggle_unfold in H.
  apply bind_Done in H as (bs & w0 & Hbs & H).
  unfold gets in Hbs. injection Hbs as <- <-.
  apply bind_Done in H as ([] & w0 & Ha & H).
  unfold assert in Ha.
  destruct (_ <=? _); [|discriminate]. unfold ret in Ha. injection Ha as <-.
  apply bind_Done in H as ([] & w0 & Hm & H).
  unfold modify in Hm. injection Hm as <-. fold (cleared w) in H.
  set (P := fun w0 : World =>
       search_inv w0 /\ gpath w0 = [] /\ cb w0 = cb (cleared w)).
  assert (HP : forall w0 evs, P w0 -> P (with_trace w0 evs)).
  { intros w0 evs (H1 & H2 & H3).
    split; [apply search_inv_with_trace, H1|auto]. }
  assert (Hstart : forall i0 j0 w1 w2,
    i0 ∈ seqZ 0 (boardSize (cb w)) -> j0 ∈ seqZ 0 (boardSize (cb w)) ->
    P w1 -> start fuel i0 j0 w1 = Done tt w2 -> P w2).
  { intros i0 j0 w1 w2 Hi0 Hj0 (Hinv & Hp & Hcb) Hs.
    destruct (start_ok fuel i0 j0 w1 Hinv Hp) as (evs & _ & Ho).
    - rewrite Hcb. apply elem_of_seqZ in Hi0, Hj0. split; simpl; lia.
    - rewrite Hs in Ho. subst w2. apply HP. unfold P. auto. }
  assert (Hinner : forall i0 w1 w2,
    i0 ∈ seqZ 0 (boardSize (cb w)) -> P w1 ->
    for_each (seqZ 0 (boardSize (cb w))) (fun j0 => start fuel i0 j0) w1
      = Done tt w2 ->
    P w2 /\ forall j0, j0 ∈ seqZ 0 (boardSize (cb w)) ->
      exists w3 w4, P w3 /\ start fuel i0 j0 w3 = Done tt w4).
  { intros i0 w1 w2 Hi0 HP1 Hf.
    apply (for_each_visits P _ (fun j0 => start fuel i0 j0)
             (fun j0 w3 w4 Hj0 => Hstart i0 j0 w3 w4 Hi0 Hj0) w1 w2 HP1 Hf). }
  destruct (for_each_visits P _ _
              (fun i0 w1 w2 Hi0 HP1 Hf => proj1 (Hinner i0 w1 w2 Hi0 HP1 Hf))
              (cleared w) w') as [_ Hall].
  { split; [apply cleared_inv, Hidle|]. split; [apply Hidle|reflexivity]. }
  { exact H. }
  destruct (Hall i) as (w1 & w2 & HP1 & Hf1);
    [apply elem_of_seqZ; lia|].
  destruct (Hinner i w1 w2) as [_ Hall2];
    [apply elem_of_seqZ; lia|exact HP1|exact Hf1|].
  destruct (Hall2 j) as (w3 & w4 & (_ & _ & Hcb) & Hs);
    [apply elem_of_seqZ; lia|].
  apply (start_rootless fuel i j w3 root c w4); auto.
  - rewrite Hcb. exact Hd.
  - rewrite Hcb. exact Hb.
Qed.

Lemma playBoggle_outcome fuel w root :
  idle w -> dict (cb w) = Some root -> safe_board w -> trie_wf root ->
  (length (used (cb w)) <= fuel)%nat ->
  (~ rootless root w -> exists w', playBoggle fuel w = Done tt w') /\
  (rootless root w -> exists w', playBoggle fuel w = Abort AssertFail w').
Proof.
  intros Hidle Hd Hsb Hwf Hfuel.
  destruct (playBoggle_in fuel w root True Hidle Hd) as (evs & _ & Ho); [auto|].
  pose proof (playBoggle_rootless fuel w root) as Hnr.
  pose proof (unused_le (used (cb w))) as Hle.
  destruct (playBoggle fuel w) as [[] w'|f w'].
  - split; [eauto|]. intros Hr. destruct (Hnr w' Hidle Hd Hr eq_refl).
  - destruct Ho as [_ Ho]. destruct (Ho I) as [[_ Hf]|[-> Hr]]; [lia|].
    split; [contradiction|eauto].
Qed.

(** X8.  When [playBoggle] returns.  On a board of letters with a mask of
    N² entries, N² at most the size of the word buffer, over a dictionary
    whose nodes all have their 26 slots, the search needs no more nested
    calls than there are tiles and reads and writes inside its arrays;
    it returns if the letter of every tile has a child under the root of
    the dictionary, and otherwise it stops at the assertion at the top of
    [findSolution]. *)
Theorem playBoggle_returns fuel w root :
  idle w -> dict (cb w) = Some root -> safe_board w -> trie_wf root ->
  (length (used (cb w)) <= fuel)%nat ->
  (~ rootless root w -> exists w', playBoggle fuel w = Done tt w') /\
  (rootless root w -> exists w', playBoggle fuel w = Abort AssertFail w').
Proof. apply playBoggle_outcome. Qed.

(** ** The search misses nothing *)

Lemma step_all_weaken (T T' : event -> Prop) w o :
  (forall e, T' e -> T e) -> step_all T w o -> step_all T' w o.
Proof.
  intros H. destruct o as [[] w'|f w']; [|auto].
  intros (evs & Hw & He). exists evs. auto.
Qed.

Lemma step_all_trans (T T' : event -> Prop) w evs0 o :
  (forall e, T' e -> e ∈ evs0 \/ T e) ->
  step_all T (with_trace w evs0) o -> step_all T' w o.
Proof.
  intros H. destruct o as [[] w'|f w']; [|auto].
  intros (evs & -> & He). exists (evs0 ++ evs).
  split; [apply with_trace_app|]. intros e HT.
  apply elem_of_app. destruct (H e HT); auto.
Qed.

Lemma for_each_all {A} (T : A -> event -> Prop) (P : World -> Prop)
    (l : list A) body :
  (forall w evs, P w -> P (with_trace w evs)) ->
  (forall x w, x ∈ l -> P w -> step_all (T x) w (body x w)) ->
  forall w, P w ->
    step_all (fun e => exists x, x ∈ l /\ T x e) w (for_each l body w).
Proof.
  intros HP Hbody. induction l as [|x l IH]; intros w Hw; simpl.
  - exists []. split; [symmetry; apply with_trace_nil|].
    intros e (x & Hx & _). apply elem_of_nil in Hx. contradiction.
  - unfold bind.
    pose proof (Hbody x w (list_elem_of_here _ _) Hw) as Hx.
    destruct (body x w) as [[] w1|f w1]; [|exact I].
    destruct Hx as (evs & -> & He).
    apply (step_all_trans
             (fun e => exists y, y ∈ l /\ T y e) _ w evs).
    + intros e (y & Hy & HT). apply elem_of_cons in Hy as [->|Hy]; eauto.
    + apply IH; [|apply HP, Hw].
      intros y w' Hy. apply Hbody. apply list_elem_of_further, Hy.
Qed.

Lemma spelled_app n tiles ext p word :
  spelled n tiles (ext ++ p) word ->
  exists wp we, word = wp ++ we /\ spelled n tiles p wp /\
                spelled n tiles ext we.
Proof.
  unfold spelled. rewrite rev_app_distr. intros H.
  apply Forall2_app_inv_l in H as (wp & we & Hp & He & ->). eauto.
Qed.

Lemma spelled_fun n tiles path w1 w2 :
  spelled n tiles path w1 -> spelled n tiles path w2 -> w1 = w2.
Proof.
  unfold spelled. generalize (rev path). intros l H. revert w2.
  induction H as [|p c l w1 Hc _ IH]; intros w2 H2.
  - apply Forall2_nil_inv_l in H2. congruence.
  - apply Forall2_cons_inv_l in H2 as (c' & w2' & Hc' & H2 & ->).
    f_equal; [congruence|auto].
Qed.

Lemma chain_app_r a b : chain (a ++ b) -> chain b.
Proof.
  induction a as [|x a IH]; [auto|]. simpl.
  destruct (a ++ b) eqn:E; [|intros [_ H]; auto].
  destruct a; [|discriminate]. simpl in E. subst b. intros _. exact I.
Qed.

Lemma valid_path_app_r n a b : valid_path n (a ++ b) -> valid_path n b.
Proof.
  intros (Hnd & Hch & Hg). rewrite map_app in Hnd.
  apply NoDup_app in Hnd as (_ & _ & Hnd). apply Forall_app in Hg as [_ Hg].
  repeat split; [exact Hnd|eapply chain_app_r; eauto|exact Hg].
Qed.

(** A report owed at [p] is the report of [p] itself, or is owed at a path
    with one tile more. *)
Lemma target_split root n tiles p e :
  target root n tiles p e ->
  (exists word row col,
     e = Found word row col p /\ head p = Some (row, col) /\
     spelled n tiles p word /\ is_word root (letters word) = true) \/
  (exists q, valid_path n (q :: p) /\ target root n tiles (q :: p) e).
Proof.
  intros (ext & word & row & col & -> & Hh & Hv & Hsp & Hw).
  destruct ext as [|x ext'] using rev_ind; [left; eauto 8|]. clear IHext'.
  right. exists x. rewrite <- app_assoc in *. simpl in *.
  split; [eapply valid_path_app_r, Hv|].
  exists ext', word, row, col. auto.
Qed.

Lemma isValid_false i nd w w' :
  isValid i nd w = Done false w' ->
  0 <= i <= maxBoardSize (cb w) ->
  load (used (cb w)) i = Some true \/
  exists c, load (board (cb w)) i = Some c /\
            load (trie_child nd) (getCharIndex c) = Some None.
Proof.
  intros H Hi. unfold isValid in H.
  assert (Hr : (0 <=? i) && (i <=? maxBoardSize (cb w)) = true).
  { apply andb_true_iff. split; apply Z.leb_le; lia. }
  unfold bind, emit, gets, id, loadM, ret in H. cbn in H. rewrite Hr in H.
  destruct (load (used (cb w)) i) as [[|]|]; cbn in H;
    [auto|right|discriminate].
  destruct (load (board (cb w)) i) as [c|]; cbn in H; [|discriminate].
  destruct (load (trie_child nd) (getCharIndex c)) as [[k|]|] eqn:Ek;
    cbn in H; try discriminate.
  eauto.
Qed.

(** No report is owed through a tile that [isValid] turns down. *)
Lemma target_valid root nd w q e :
  search_inv w -> tracks root nd w ->
  target root (boardSize (cb w)) (board (cb w)) (q :: gpath w) e ->
  load (used (cb w)) (cell_index (boardSize (cb w)) q) <> Some true /\
  forall c, load (board (cb w)) (cell_index (boardSize (cb w)) q) = Some c ->
            load (trie_child nd) (getCharIndex c) <> Some None.
Proof.
  intros Hinv Htr (ext & word & row & col & _ & _ & Hv & Hsp & Hw).
  apply valid_path_app_r in Hv as Hv'. destruct Hv' as (Hnd & _ & _).
  split.
  - intros Hu. apply (inv_mask _ Hinv) in Hu. simpl in Hnd.
    apply NoDup_cons in Hnd as [Hni _]. contradiction.
  - intros c Hb Hk.
    apply spelled_app in Hsp as (wp & we & -> & Hp & _).
    apply spelled_cons in Hp as (wp' & c' & -> & Hp & Hc').
    rewrite Hb in Hc'. injection Hc' as <-.
    unfold is_word, letters in Hw. rewrite !map_app, <- app_assoc in Hw.
    rewrite walk_app in Hw. fold (letters wp') in Hw.
    rewrite (Htr wp' Hp) in Hw. simpl in Hw. rewrite Hk in Hw.
    discriminate.
Qed.

Section ExploreAll.
Variable fuel' : nat.
Variable root : Trie.
Hypothesis IH : forall row col nd si w,
  at_tile row col si w -> tracks root nd w ->
  boardSize (cb w) * boardSize (cb w) - 1 <= maxBoardSize (cb w) ->
  step_all (target root (boardSize (cb w)) (board (cb w)) (gpath w))
    w (findSolution fuel' row col (Some nd) si w).

Lemma explore_all row col si nd nr nc w :
  at_tile row col si w -> tracks root nd w ->
  boardSize (cb w) * boardSize (cb w) - 1 <= maxBoardSize (cb w) ->
  in_grid (boardSize (cb w)) (nr, nc) ->
  Z.abs (nr - row) <= 1 -> Z.abs (nc - col) <= 1 ->
  step_all
    (target root (boardSize (cb w)) (board (cb w)) ((nr, nc) :: gpath w))
    w (explore (findSolution fuel') nd si nr nc (cb w) w).
Proof.
  intros Hat Htr Hmax Hin Hr Hc.
  unfold explore.
  change (getBoardIndex (cb w) nr nc)
    with (cell_index (boardSize (cb w)) (nr, nc)).
  set (i := cell_index (boardSize (cb w)) (nr, nc)).
  pose proof (in_grid_index _ _ Hin) as Hi. fold i in Hi.
  unfold bind at 1.
  destruct (isValid_spec i nd w) as [E|(v & E & Hv)]; rewrite E; [exact I|].
  destruct v.
  2:{ exists [Probe i]. split; [reflexivity|]. intros e He. exfalso.
      destruct (target_valid root nd w (nr, nc) e (proj1 Hat) Htr He)
        as [Hu Hk]. fold i in Hu, Hk.
      destruct (isValid_false i nd w _ E) as [Hu'|(c & Hb & Hk')];
        [lia|contradiction|].
      exact (Hk c Hb Hk'). }
  destruct (Hv eq_refl) as (Hu & c & k & Hb & Hk). clear Hv E.
  assert (Hcn : c <> NUL).
  { apply getCharIndex_NUL. apply load_lookup in Hk. tauto. }
  apply (step_all_trans
           (target root (boardSize (cb w)) (board (cb w)) ((nr, nc) :: gpath w))
           _ w [Probe i]); [auto|].
  set (wp := with_trace w [Probe i]).
  assert (Hat' : at_tile row col si wp) by (apply at_tile_with_trace, Hat).
  assert (Htr' : tracks root nd wp) by exact Htr.
  unfold loadM at 1.
  change i with (cell_index (boardSize (cb wp)) (nr, nc)) in Hu, Hb |- *.
  change (used (cb w)) with (used (cb wp)) in Hu.
  change (board (cb w)) with (board (cb wp)) in Hb |- *.
  change (boardSize (cb w)) with (boardSize (cb wp)) in Hin, Hmax |- *.
  change (maxBoardSize (cb w)) with (maxBoardSize (cb wp)) in Hmax.
  change (gpath w) with (gpath wp).
  clearbody wp. clear Hat Htr Hi. clear i.
  rewrite Hb. unfold bind at 1, ret at 1. unfold bind at 1.
  destruct Hat' as (Hinv & (rest & Hp) & Hsi).
  assert (Hnear : near_head (gpath wp) nr nc) by (rewrite Hp; simpl; auto).
  pose proof (markUsed_spec nr nc si wp) as Hmu.
  destruct (markUsed nr nc si wp) as [[] w1|f w1]; [|exact I].
  destruct Hmu as (_ & c' & s' & Hb' & Hst & ->).
  rewrite Hb in Hb'. injection Hb' as <-.
  destruct (marked_at_tile _ _ _ _ _ _ Hinv Hsi Hin Hnear Hu Hb Hst)
    as [Hat1 _].
  specialize (Hat1 Hcn).
  unfold bind at 1, loadM at 1. rewrite Hk. unfold ret at 1.
  unfold bind at 1.
  pose proof (IH nr nc k (si + 1) _ Hat1
                (tracks_marked _ _ _ _ _ _ _ _ _ Htr' Hb Hk) Hmax) as Hrec.
  destruct (findSolution fuel' nr nc (Some k) (si + 1) _) as [[] w2|f w2];
    [|exact I].
  destruct Hrec as (evs & -> & Hevs).
  pose proof (markUnused_spec nr nc si
                (with_trace (marked wp nr nc si s') evs)) as Hmn.
  destruct (markUnused nr nc si _) as [[] w3|f w3]; [|exact I].
  destruct Hmn as (_ & s2 & Hst2 & ->).
  rewrite (unmarked_marked _ _ _ _ _ _ _ _ Hinv Hsi Hu Hst Hst2).
  eexists. split; [reflexivity|]. intros e He.
  apply elem_of_app. right. apply elem_of_app. left. apply Hevs, He.
Qed.
End ExploreAll.

(** The third master lemma of the search: a call of [findSolution] that
    returns has reported every valid path that extends the path it was
    called on and spells a word of the dictionary. *)
Lemma findSolution_all root fuel : forall row col nd si w,
  at_tile row col si w -> tracks root nd w ->
  boardSize (cb w) * boardSize (cb w) - 1 <= maxBoardSize (cb w) ->
  step_all (target root (boardSize (cb w)) (board (cb w)) (gpath w))
    w (findSolution fuel row col (Some nd) si w).
Proof.
  induction fuel as [|fuel' IH]; intros row col nd si w Hat Htr Hmax;
    [exact I|].
  rewrite findSolution_unfold.
  set (n := boardSize (cb w)). set (tiles := board (cb w)).
  set (p := gpath w).
  assert (Hloops : forall w0,
    at_tile row col si w0 -> tracks root nd w0 ->
    cb w0 = cb w -> gpath w0 = p ->
    step_all (fun e => exists q, valid_path n (q :: p) /\
                                 target root n tiles (q :: p) e) w0
      ((bs <- gets boardSize ;;
        for_each (seqZ (-1) 3) (fun rowDiff =>
          let newRow := row + rowDiff in
          if (0 <=? newRow) && (newRow <? bs) then
            for_each (seqZ (-1) 3) (fun colDiff =>
              let newCol := col + colDiff in
              b <- gets id ;;
              if (0 <=? newCol) && (newCol <? bs) then
                explore (findSolution fuel') nd si newRow newCol b
              else ret tt)
          else ret tt)) w0)).
  { intros w0 Hat0 Htr0 Hcb0 Hp0. unfold bind at 1, gets at 1.
    replace (boardSize (cb w0)) with n by (rewrite Hcb0; reflexivity).
    set (P := fun w1 : World =>
      at_tile row col si w1 /\ tracks root nd w1 /\
      cb w1 = cb w /\ gpath w1 = p).
    assert (HP : forall w1 evs, P w1 -> P (with_trace w1 evs)).
    { intros w1 evs (H1 & H2 & H3 & H4).
      split; [apply at_tile_with_trace, H1|]. unfold P. auto. }
    set (T2 := fun rd cd e =>
      in_grid n (row + rd, col + cd) /\
      target root n tiles ((row + rd, col + cd) :: p) e).
    set (T1 := fun rd e => exists cd, cd ∈ seqZ (-1) 3 /\ T2 rd cd e).
    apply (step_all_weaken (fun e => exists rd, rd ∈ seqZ (-1) 3 /\ T1 rd e)).
    { intros e ([qr qc] & Hv & He).
      destruct Hat as (_ & (rest & Hrest) & _). fold p in Hrest.
      destruct Hv as (_ & Hch & Hg). rewrite Hrest in Hch.
      destruct Hch as [(Ha1 & Ha2 & _) _]. simpl in Ha1, Ha2.
      apply Forall_cons in Hg as [Hq _].
      exists (qr - row). split; [apply elem_of_seqZ; lia|].
      exists (qc - col). split; [apply elem_of_seqZ; lia|].
      unfold T2. replace (row + (qr - row)) with qr by lia.
      replace (col + (qc - col)) with qc by lia. auto. }
    apply (for_each_all T1 P); [exact HP| |unfold P; auto].
    intros rd w1 Hrd HP1. cbv zeta.
    destruct ((0 <=? row + rd) && (row + rd <? n)) eqn:Er.
    2:{ exists []. split; [symmetry; apply with_trace_nil|].
        intros e (cd & _ & [Hr _] & _). simpl in Hr.
        apply andb_false_iff in Er as [Er|Er];
          [apply Z.leb_gt in Er|apply Z.ltb_ge in Er]; lia. }
    apply (for_each_all (T2 rd) P); [exact HP| |exact HP1].
    intros cd w2 Hcd (Hat2 & Htr2 & Hcb2 & Hp2). cbv zeta.
    unfold bind at 1, gets at 1. unfold id.
    destruct ((0 <=? col + cd) && (col + cd <? n)) eqn:Ec.
    2:{ exists []. split; [symmetry; apply with_trace_nil|].
        intros e [[_ Hc] _]. simpl in Hc.
        apply andb_false_iff in Ec as [Ec|Ec];
          [apply Z.leb_gt in Ec|apply Z.ltb_ge in Ec]; lia. }
    apply andb_true_iff in Er as [Hr1%Z.leb_le Hr2%Z.ltb_lt].
    apply andb_true_iff in Ec as [Hc1%Z.leb_le Hc2%Z.ltb_lt].
    apply elem_of_diffs in Hrd, Hcd.
    eapply step_all_weaken;
      [|apply (explore_all fuel' root IH row col si nd (row + rd) (col + cd)
                 w2 Hat2 Htr2)].
    - intros e [_ He]. rewrite Hcb2, Hp2. exact He.
    - rewrite Hcb2. exact Hmax.
    - rewrite Hcb2. split; simpl; fold n; lia.
    - replace (row + rd - row) with rd by lia. exact Hrd.
    - replace (col + cd - col) with cd by lia. exact Hcd. }
  unfold bind at 1.
  destruct (Z.land (trie_flags nd) FLAGS_ISWORD =? 0) eqn:Eflag.
  { unfold ret at 1.
    eapply step_all_weaken; [|apply Hloops; auto].
    intros e He. apply target_split in He as [He|He]; [exfalso|exact He].
    destruct He as (word & _ & _ & _ & _ & Hsp & Hw).
    unfold is_word in Hw. rewrite (Htr word Hsp) in Hw.
    unfold flagged in Hw. rewrite Eflag in Hw. discriminate. }
  pose proof (printFound_spec row col w) as Hpf.
  destruct (printFound row col w) as [[] w1|f w1]; [|exact I].
  destruct Hpf as (word0 & Hcs & ->).
  apply (step_all_trans
           (fun e => exists q, valid_path n (q :: p) /\
                               target root n tiles (q :: p) e)
           _ w [Found word0 row col (gpath w)]).
  - intros e He. apply target_split in He as [He|He]; [left|right; exact He].
    destruct He as (word & r & c & -> & Hh & Hsp & _).
    pose proof (found_ok _ _ _ _ _ Hat Hcs) as (_ & _ & _ & _ & Hsp0).
    rewrite (spelled_fun _ _ _ _ _ Hsp Hsp0).
    destruct Hat as (_ & (rest & Hrest) & _). fold p. fold p in Hrest.
    rewrite Hrest in Hh. injection Hh as <- <-.
    apply list_elem_of_singleton. reflexivity.
  - apply Hloops; auto. apply at_tile_with_trace, Hat.
Qed.

Lemma start_all fuel i j w root :
  search_inv w -> gpath w = [] -> dict (cb w) = Some root ->
  in_grid (boardSize (cb w)) (i, j) ->
  boardSize (cb w) * boardSize (cb w) - 1 <= maxBoardSize (cb w) ->
  step_all (target root (boardSize (cb w)) (board (cb w)) [(i, j)])
    w (start fuel i j w).
Proof.
  intros Hinv Hp Hd Hin Hmax. unfold start. unfold bind at 1.
  assert (Hsi : 0 = Z.of_nat (length (gpath w))) by (rewrite Hp; reflexivity).
  assert (Hnear : near_head (gpath w) i j) by (rewrite Hp; exact I).
  pose proof (markUsed_spec i j 0 w) as Hmu.
  destruct (markUsed i j 0 w) as [[] w1|f w1]; [|exact I].
  destruct Hmu as (Hu & c & s' & Hb & Hst & ->).
  destruct (marked_at_tile _ _ _ _ _ _ Hinv Hsi Hin Hnear Hu Hb Hst)
    as [Hat1 _].
  unfold bind at 1, gets at 1, id.
  change (getBoardIndex (cb (marked w i j 0 s')) i j)
    with (cell_index (boardSize (cb w)) (i, j)).
  change (board (cb (marked w i j 0 s'))) with (board (cb w)).
  change (dict (cb (marked w i j 0 s'))) with (dict (cb w)).
  unfold loadM at 1. rewrite Hb. unfold bind at 1, ret at 1.
  unfold bind at 1. rewrite Hd. unfold loadM at 1.
  destruct (load (trie_child root) (getCharIndex c)) as [[k|]|] eqn:Hroot;
    [|destruct fuel; exact I|exact I].
  unfold ret at 1.
  assert (Hcn : c <> NUL).
  { apply getCharIndex_NUL. apply load_lookup in Hroot. tauto. }
  specialize (Hat1 Hcn). unfold bind at 1.
  pose proof (findSolution_all root fuel i j k 1 _ Hat1
                (tracks_marked _ _ _ _ _ _ _ _ _ (tracks_root root w Hp)
                   Hb Hroot) Hmax) as Hrec.
  change (0 + 1) with 1 in Hrec.
  destruct (findSolution fuel i j (Some k) 1 _) as [[] w2|f w2]; [|exact I].
  destruct Hrec as (evs & -> & Hevs).
  pose proof (markUnused_spec i j 0
                (with_trace (marked w i j 0 s') evs)) as Hmn.
  destruct (markUnused i j 0 _) as [[] w3|f w3]; [|exact I].
  destruct Hmn as (_ & s2 & Hst2 & ->).
  rewrite (unmarked_marked _ _ _ _ _ _ _ _ Hinv Hsi Hu Hst Hst2).
  eexists. split; [reflexivity|]. intros e He.
  apply elem_of_app. right. apply elem_of_app. left. apply Hevs.
  simpl. rewrite Hp. exact He.
Qed.

Lemma playBoggle_all fuel w root :
  idle w -> dict (cb w) = Some root ->
  boardSize (cb w) * boardSize (cb w) - 1 <= maxBoardSize (cb w) ->
  match playBoggle fuel w with
  | Done _ w' =>
      exists evs, w' = with_trace (cleared w) evs /\
        forall q e,
          in_grid (boardSize (cb w)) q ->
          target root (boardSize (cb w)) (board (cb w)) [q] e -> e ∈ evs
  | Abort _ _ => True
  end.
Proof.
  intros Hidle Hd Hmax. rewrite playBoggle_unfold.
  unfold bind at 1, gets at 1. unfold bind at 1, assert at 1.
  set (n := boardSize (cb w)).
  destruct (n * n <=? MAX_WORD_LENGTH); [|exact I].
  unfold ret at 1. unfold bind at 1, modify at 1. fold (cleared w).
  set (P := fun w0 : World =>
       search_inv w0 /\ gpath w0 = [] /\ cb w0 = cb (cleared w)).
  assert (HP : forall w0 evs, P w0 -> P (with_trace w0 evs)).
  { intros w0 evs (H1 & H2 & H3).
    split; [apply search_inv_with_trace, H1|auto]. }
  set (T2 := fun i j => target root n (board (cb w)) [(i, j)]).
  set (T1 := fun i e => exists j, j ∈ seqZ 0 n /\ T2 i j e).
  assert (H : step_all (fun e => exists i, i ∈ seqZ 0 n /\ T1 i e) (cleared w)
    (for_each (seqZ 0 n)
       (fun i => for_each (seqZ 0 n) (fun j => start fuel i j)) (cleared w))).
  { apply (for_each_all T1 P); [exact HP| |].
    - intros i w1 Hi HP1.
      apply (for_each_all (T2 i) P); [exact HP| |exact HP1].
      intros j w2 Hj (Hinv2 & Hp2 & Hcb2).
      eapply step_all_weaken;
        [|apply (start_all fuel i j w2 root Hinv2 Hp2)].
      + intros e He. rewrite Hcb2. exact He.
      + rewrite Hcb2. exact Hd.
      + rewrite Hcb2. apply elem_of_seqZ in Hi, Hj. split; simpl; lia.
      + rewrite Hcb2. exact Hmax.
    - split; [apply cleared_inv, Hidle|]. split; [apply Hidle|reflexivity]. }
  destruct (for_each _ _ _) as [[] w'|f w']; [|exact I].
  destruct H as (evs & -> & Hevs). exists evs. split; [reflexivity|].
  intros [i j] e [Hi Hj] He. simpl in Hi, Hj. apply Hevs.
  exists i. split; [apply elem_of_seqZ; lia|].
  exists j. split; [apply elem_of_seqZ; lia|]. exact He.
Qed.

(** X9.  The search misses nothing.  A run of [playBoggle] that returns has
    reported every path that the rules allow (tiles on the board, no tile
    twice, each tile next to the one before) and that spells a word of the
    dictionary it was given, with that word and the newest tile of the
    path. *)
Theorem search_complete fuel w root w' path word :
  idle w -> trace w = [] -> dict (cb w) = Some root ->
  boardSize (cb w) * boardSize (cb w) - 1 <= maxBoardSize (cb w) ->
  playBoggle fuel w = Done tt w' ->
  path <> [] ->
  valid_path (boardSize (cb w)) path ->
  spelled (boardSize (cb w)) (board (cb w)) path word ->
  is_word root (letters word) = true ->
  exists row col,
    head path = Some (row, col) /\ Found word row col path ∈ trace w'.
Proof.
  intros Hidle Ht Hd Hmax Hrun Hne Hv Hsp Hw.
  pose proof (playBoggle_all fuel w root Hidle Hd Hmax) as H.
  rewrite Hrun in H. destruct H as (evs & -> & Hevs).
  destruct path as [|[row col] rest] eqn:Epath; [contradiction|].
  rewrite <- Epath in *. exists row, col.
  split; [rewrite Epath; reflexivity|].
  simpl. rewrite Ht. simpl.
  destruct path as [|q ext] using rev_ind; [discriminate|]. clear IHext.
  apply (Hevs q).
  - destruct Hv as (_ & _ & Hg). apply Forall_app in Hg as [_ Hg].
    apply Forall_cons in Hg as [Hq _]. exact Hq.
  - exists ext, word, row, col. rewrite Epath. simpl.
    rewrite <- Epath. auto.
Qed.

(** ** From the two files to the words printed *)

Lemma mainSetup_dict n tiles heap w :
  mainSetup n tiles (world0 (S heap)) = Done tt w ->
  dict (cb w) = Some zeroNode.
Proof.
  unfold mainSetup. intros H.
  apply bind_Done in H as ([] & w1 & Hinit & H).
  assert (Hw1 : dict (cb w1) = Some zeroNode).
  { unfold initBoggle in Hinit. clear H. vm_compute in Hinit.
    injection Hinit as <-. reflexivity. }
  apply bind_Done in H as ([] & w2 & H2 & H). unfold modify in H2.
  simplify_eq.
  apply bind_Done in H as (hist & w4 & Hh & H).
  apply buildHistogram_spec in Hh as [-> _].
  unfold bind, modify in H. simpl in H. simplify_eq. exact Hw1.
Qed.

Lemma stdout_elem tr word row col :
  (word, row, col) ∈ stdout tr <->
  exists path, Found word row col path ∈ tr.
Proof.
  unfold stdout. rewrite list_elem_of_omap. split.
  - intros ([word' row' col' path| |] & Hin & He); simplify_eq. eauto.
  - intros (path & Hin). eauto.
Qed.

Lemma present_not_absentb hist c c' :
  present hist c' -> getCharIndex c = getCharIndex c' ->
  absentb hist c = false.
Proof.
  intros (k & Hk & Hpos) E. unfold absentb. rewrite E, Hk.
  apply Z.eqb_neq. lia.
Qed.

(** A line with the letters of a word that a valid path spells passes the
    two filters of the dictionary. *)
Lemma spelled_accepted n tiles hist path word dw :
  (forall r c ch, in_grid n (r, c) ->
     load tiles (cell_index n (r, c)) = Some ch -> present hist ch) ->
  valid_path n path -> spelled n tiles path word ->
  letters dw = letters word ->
  acceptedb n hist dw = true.
Proof.
  intros Hh (Hnd & _ & Hg) Hsp El. unfold acceptedb.
  apply andb_true_iff. split.
  - apply Z.leb_le.
    assert (length dw = length word) as ->.
    { apply (f_equal length) in El. unfold letters in El.
      rewrite !length_map in El. exact El. }
    rewrite (spelled_length _ _ _ _ Hsp). apply path_length_le; auto.
  - apply forallb_forall. intros c Hc. apply negb_true_iff.
    apply In_nth_error in Hc as [i Hi].
    assert (Hl : nth_error (letters dw) i = Some (getCharIndex c)).
    { unfold letters. rewrite nth_error_map, Hi. reflexivity. }
    rewrite El in Hl. unfold letters in Hl. rewrite nth_error_map in Hl.
    destruct (nth_error word i) as [c'|] eqn:Hc'; [|discriminate].
    injection Hl as Hl.
    apply (present_not_absentb hist c c'); [|auto].
    apply (spelled_present n tiles hist path word c' Hh Hg Hsp).
    apply list_elem_of_In. eapply nth_error_In, Hc'.
Qed.

Lemma main_prints fuel n tiles words heap w1 cnt w2 w3 :
  mainSetup n tiles (world0 (S heap)) = Done tt w1 ->
  trieBuild words w1 = Done (true, cnt) w2 ->
  playBoggle fuel w2 = Done tt w3 ->
  forall word row col,
    (word, row, col) ∈ stdout (trace w3) <->
    exists path,
      head path = Some (row, col) /\ valid_path n path /\
      spelled n tiles path word /\
      exists dw, dw ∈ words /\ letters dw = letters word.
Proof.
  intros Hsetup Hbuild Hrun word row col.
  pose proof (mainSetup_ready _ _ _ _ Hsetup) as Hr1.
  pose proof (mainSetup_dict _ _ _ _ Hsetup) as Hd1.
  pose proof (ready_same_but_dict _ _ _ _ Hr1 (trieBuild_frame _ _ _ _ Hbuild))
    as Hr2.
  pose proof (ready_idle _ _ _ Hr2) as Hidle.
  destruct (trieBuildLoop_words _ _ _ _ _ _ _ Hd1 Hbuild)
    as (root & Hd2 & Hwords).
  destruct Hr1 as [Hn1 _ _ _ Hh1 _ _].
  destruct Hr2 as [Hn2 Hb2 Hm2 _ _ Ht2 _].
  rewrite stdout_elem. split.
  - intros (path & Hin). exists path.
    destruct (playBoggle_ok fuel w2 Hidle) as (evs & Hevs & Ho).
    destruct (playBoggle_in fuel w2 root False Hidle Hd2)
      as (evs' & Hevs' & Ho'); [contradiction|].
    rewrite Hrun in Ho, Ho'. subst w3. simpl in Hin.
    rewrite Ht2 in Hin. simpl in Hin.
    assert (evs' = evs) as ->.
    { apply (f_equal trace) in Ho'. simpl in Ho'. rewrite Ht2 in Ho'.
      simpl in Ho'. congruence. }
    rewrite Forall_forall in Hevs, Hevs'.
    destruct (Hevs _ Hin) as ((rest & ->) & Hnd & Hch & Hg & Hsp).
    rewrite Hn2, Hb2 in *.
    split; [reflexivity|]. split; [repeat split; assumption|].
    split; [exact Hsp|].
    specialize (Hevs' _ Hin). simpl in Hevs'.
    destruct (proj1 (Hwords _) Hevs') as [Hz|(dw & Hdw & El & _)].
    + rewrite is_word_zeroNode in Hz. discriminate.
    + eauto.
  - intros (path & Hh & Hv & Hsp & dw & Hdw & El).
    assert (Hw : is_word root (letters word) = true).
    { apply (proj2 (Hwords _)); [reflexivity|]. right. exists dw.
      split; [exact Hdw|]. split; [exact El|]. rewrite Hn1.
      apply (spelled_accepted n tiles _ path word); auto. }
    pose proof (playBoggle_all fuel w2 root Hidle Hd2) as Hall.
    rewrite Hrun, Hn2, Hb2, Hm2 in Hall.
    destruct Hall as (evs & -> & Hall); [lia|].
    exists path. simpl. rewrite Ht2. simpl.
    destruct path as [|q ext] using rev_ind; [discriminate|]. clear IHext.
    apply (Hall q).
    + destruct Hv as (_ & _ & Hg). apply Forall_app in Hg as [_ Hg].
      apply Forall_cons in Hg as [Hq _]. exact Hq.
    + exists ext, word, row, col. auto.
Qed.

(** X10.  What the program prints.  When [main] has set up the board,
    [trieBuild] has read the whole dictionary file and [playBoggle]
    returns, the lines printed are exactly these: a word, and the
    coordinates of the last tile of a path that the rules allow, that
    spells the word on the board, and whose letters are, up to case, those
    of a line of the dictionary file. *)
Theorem main_reports fuel n tiles words heap w1 cnt w2 w3 :
  mainSetup n tiles (world0 (S heap)) = Done tt w1 ->
  trieBuild words w1 = Done (true, cnt) w2 ->
  playBoggle fuel w2 = Done tt w3 ->
  forall word row col,
    (word, row, col) ∈ stdout (trace w3) <->
    exists path,
      head path = Some (row, col) /\ valid_path n path /\
      spelled n tiles path word /\
      exists dw, dw ∈ words /\ letters dw = letters word.
Proof. apply main_prints. Qed.

(** ** Instances of the further properties on the 2 x 2 board *)

Lemma demo_setup_dict : dict (cb demo_setup) = Some zeroNode.
Proof. vm_compute. reflexivity. Qed.

Lemma demo_dict : dict (cb demo) = Some demo_root.
Proof. vm_compute. reflexivity. Qed.

Lemma demo_done_eq : playBoggle 4 demo = Done tt demo_done.
Proof. vm_compute. reflexivity. Qed.

Lemma demo_ab_eq :
  trieAddWord (chars "ab") demo_setup = Done (true, true) demo_ab.
Proof. vm_compute. reflexivity. Qed.

Lemma demo_hist : length (histogram (cb demo_setup)) = Z.to_nat ALPHABET_SIZE.
Proof. vm_compute. reflexivity. Qed.

Lemma lower_is_letter c :
  (97 <=? nat_of_ascii c)%nat && (nat_of_ascii c <=? 122)%nat = true ->
  is_letter c.
Proof.
  intros H. apply andb_true_iff in H as [H1%Nat.leb_le H2%Nat.leb_le].
  right. auto.
Qed.

Lemma demo_words_letters :
  Forall (fun dw => dw <> [] /\ Forall is_letter dw) demo_words.
Proof.
  unfold demo_words.
  repeat (apply Forall_cons; split;
          [split; [discriminate|
                   repeat (apply Forall_cons; split;
                           [apply lower_is_letter; reflexivity|]);
                   apply Forall_nil_2]|]).
  apply Forall_nil_2.
Qed.

Lemma trieBuild_wf words w root r w' root' :
  dict (cb w) = Some root -> trie_wf root ->
  length (histogram (cb w)) = Z.to_nat ALPHABET_SIZE ->
  Forall (fun dw => dw <> [] /\ Forall is_letter dw) words ->
  trieBuild words w = Done r w' -> dict (cb w') = Some root' ->
  trie_wf root'.
Proof.
  intros Hd Hwf Hlen Hall Hrun Hd'.
  destruct (trieBuildLoop_safe words 0 w root Hd Hwf Hlen Hall)
    as (ok & cnt & w1 & root1 & Hrun1 & Hd1 & Hwf1 & _).
  unfold trieBuild in Hrun. rewrite Hrun1 in Hrun. injection Hrun as _ <-.
  rewrite Hd1 in Hd'. injection Hd' as <-. exact Hwf1.
Qed.

Lemma demo_root_wf : trie_wf demo_root.
Proof.
  exact (trieBuild_wf demo_words demo_setup zeroNode _ demo demo_root
           demo_setup_dict zeroNode_wf demo_hist demo_words_letters
           demo_eq demo_dict).
Qed.

Lemma demo_safe : safe_board demo.
Proof.
  constructor.
  - vm_compute. discriminate.
  - vm_compute. reflexivity.
  - intros i Hi.
    assert (Hn : boardSize (cb demo) = 2) by (vm_compute; reflexivity).
    assert (Hb : board (cb demo) = demo_board) by (vm_compute; reflexivity).
    rewrite Hn in Hi. rewrite Hb.
    assert (Hcases : i = 0 \/ i = 1 \/ i = 2 \/ i = 3) by lia.
    destruct Hcases as [Hi0 | [Hi0 | [Hi0 | Hi0]]]; subst i;
      eexists; (split; [reflexivity|apply lower_is_letter; reflexivity]).
Qed.

Lemma demo_path_valid : valid_path 2 [(0, 1); (0, 0)].
Proof.
  split; [|split].
  - apply NoDup_ListNoDup. vm_compute. repeat constructor; simpl; intuition lia.
  - simpl. split; [|exact I]. unfold adjacent. simpl.
    split; [lia|]. split; [lia|discriminate].
  - repeat constructor; simpl; lia.
Qed.

Lemma demo_path_spelled :
  spelled 2 demo_board [(0, 1); (0, 0)] (chars "ab").
Proof. repeat constructor. Qed.

Lemma trieAddWord_words_witness :
  dict (cb demo_setup) = Some zeroNode /\
  trieAddWord (chars "ab") demo_setup = Done (true, true) demo_ab /\
  exists root', dict (cb demo_ab) = Some root' /\
    forall ixs, is_word root' ixs =
                is_word zeroNode ixs ||
                (true && bool_decide (ixs = letters (chars "ab"))).
Proof.
  split; [exact demo_setup_dict|]. split; [exact demo_ab_eq|].
  apply (trieAddWord_words (chars "ab") demo_setup zeroNode true true demo_ab
           demo_setup_dict demo_ab_eq).
Defined.

Lemma trieBuild_words_witness :
  dict (cb demo_setup) = Some zeroNode /\
  (forall ixs, is_word zeroNode ixs = false) /\
  trieBuild demo_words demo_setup = Done (true, 4) demo /\
  exists root', dict (cb demo) = Some root' /\
    forall ixs,
      (is_word root' ixs = true ->
       exists dw, dw ∈ demo_words /\ letters dw = ixs /\
         acceptedb (boardSize (cb demo_setup)) (histogram (cb demo_setup)) dw
         = true) /\
      (true = true ->
       (exists dw, dw ∈ demo_words /\ letters dw = ixs /\
          acceptedb (boardSize (cb demo_setup)) (histogram (cb demo_setup)) dw
          = true) ->
       is_word root' ixs = true).
Proof.
  split; [exact demo_setup_dict|]. split; [exact is_word_zeroNode|].
  split; [exact demo_eq|].
  apply (trieBuild_words demo_words demo_setup zeroNode true 4 demo
           demo_setup_dict is_word_zeroNode demo_eq).
Defined.

Lemma trieBuild_count_witness :
  dict (cb demo_setup) = Some zeroNode /\
  trieBuild demo_words demo_setup = Done (true, 4) demo /\
  4 = Z.of_nat (length (List.filter
        (acceptedb (boardSize (cb demo_setup)) (histogram (cb demo_setup)))
        demo_words)) mod SIZE_MAX1.
Proof.
  split; [exact demo_setup_dict|]. split; [exact demo_eq|].
  apply (trieBuild_count demo_words demo_setup zeroNode 4 demo
           demo_setup_dict demo_eq).
Defined.

Lemma trieBuild_safe_witness :
  dict (cb demo_setup) = Some zeroNode /\ trie_wf zeroNode /\
  length (histogram (cb demo_setup)) = Z.to_nat ALPHABET_SIZE /\
  Forall (fun dw => dw <> [] /\ Forall is_letter dw) demo_words /\
  exists ok cnt w' root',
    trieBuild demo_words demo_setup = Done (ok, cnt) w' /\
    dict (cb w') = Some root' /\ trie_wf root' /\
    (ok = false -> heapNodes w' = O) /\
    (total_letters demo_words <= heapNodes demo_setup -> ok = true)%nat.
Proof.
  split; [exact demo_setup_dict|]. split; [exact zeroNode_wf|].
  split; [exact demo_hist|]. split; [exact demo_words_letters|].
  apply (trieBuild_safe demo_words demo_setup zeroNode demo_setup_dict
           zeroNode_wf demo_hist demo_words_letters).
Defined.

Lemma demo_ab_present :
  Forall (fun p => is_letter p /\
                   absentb (histogram (cb demo_setup)) p = false)
         (chars "ab").
Proof.
  repeat (apply Forall_cons; split;
          [split; [apply lower_is_letter; reflexivity|
                   vm_compute; reflexivity]|]).
  apply Forall_nil_2.
Qed.

Lemma digit_not_letter : ~ is_letter "1".
Proof. intros [H|H]; vm_compute in H; lia. Qed.

Lemma trieAddWord_bad_byte_witness :
  dict (cb demo_setup) = Some zeroNode /\ trie_wf zeroNode /\
  length (histogram (cb demo_setup)) = Z.to_nat ALPHABET_SIZE /\
  Forall (fun p => is_letter p /\
                   absentb (histogram (cb demo_setup)) p = false)
         (chars "ab") /\
  ~ is_letter "1" /\
  (length (chars "ab") <= heapNodes demo_setup)%nat /\
  exists w',
    trieAddWord (chars "ab" ++ "1"%char :: chars "c") demo_setup
    = Abort OutOfBounds w'.
Proof.
  assert (Hheap : (length (chars "ab") <= heapNodes demo_setup)%nat)
    by (vm_compute; lia).
  split; [exact demo_setup_dict|]. split; [exact zeroNode_wf|].
  split; [exact demo_hist|]. split; [exact demo_ab_present|].
  split; [exact digit_not_letter|]. split; [exact Hheap|].
  apply (trieAddWord_bad_byte (chars "ab") "1" (chars "c") demo_setup zeroNode
           demo_setup_dict zeroNode_wf demo_hist demo_ab_present
           digit_not_letter Hheap).
Defined.

Lemma search_sound_witness :
  idle demo /\ trace demo = [] /\ dict (cb demo) = Some demo_root /\
  Found (chars "ab") 0 1 [(0, 1); (0, 0)] ∈ search_trace 4 demo /\
  is_word demo_root (letters (chars "ab")) = true.
Proof.
  split; [exact demo_idle|]. split; [exact demo_trace|].
  split; [exact demo_dict|]. split; [exact demo_found|].
  apply (search_sound 4 demo demo_root (chars "ab") 0 1 [(0, 1); (0, 0)]
           demo_idle demo_trace demo_dict demo_found).
Defined.

Lemma playBoggle_returns_witness :
  idle demo /\ dict (cb demo) = Some demo_root /\ safe_board demo /\
  trie_wf demo_root /\ (length (used (cb demo)) <= 4)%nat /\
  (~ rootless demo_root demo -> exists w', playBoggle 4 demo = Done tt w') /\
  (rootless demo_root demo ->
   exists w', playBoggle 4 demo = Abort AssertFail w').
Proof.
  assert (Hfuel : (length (used (cb demo)) <= 4)%nat) by (vm_compute; lia).
  split; [exact demo_idle|]. split; [exact demo_dict|].
  split; [exact demo_safe|]. split; [exact demo_root_wf|].
  split; [exact Hfuel|].
  apply (playBoggle_returns 4 demo demo_root demo_idle demo_dict demo_safe
           demo_root_wf Hfuel).
Defined.

Lemma search_complete_witness :
  idle demo /\ trace demo = [] /\ dict (cb demo) = Some demo_root /\
  boardSize (cb demo) * boardSize (cb demo) - 1 <= maxBoardSize (cb demo) /\
  playBoggle 4 demo = Done tt demo_done /\
  [(0, 1); (0, 0)] <> [] /\
  valid_path (boardSize (cb demo)) [(0, 1); (0, 0)] /\
  spelled (boardSize (cb demo)) (board (cb demo)) [(0, 1); (0, 0)]
    (chars "ab") /\
  is_word demo_root (letters (chars "ab")) = true /\
  exists row col,
    head [(0, 1); (0, 0)] = Some (row, col) /\
    Found (chars "ab") row col [(0, 1); (0, 0)] ∈ trace demo_done.
Proof.
  assert (Hmax : boardSize (cb demo) * boardSize (cb demo) - 1
                 <= maxBoardSize (cb demo)) by (vm_compute; discriminate).
  assert (Hne : [(0, 1); (0, 0)] <> ([] : list cell)) by discriminate.
  assert (Hw : is_word demo_root (letters (chars "ab")) = true)
    by (vm_compute; reflexivity).
  split; [exact demo_idle|]. split; [exact demo_trace|].
  split; [exact demo_dict|]. split; [exact Hmax|].
  split; [exact demo_done_eq|]. split; [exact Hne|].
  split; [exact demo_path_valid|]. split; [exact demo_path_spelled|].
  split; [exact Hw|].
  apply (search_complete 4 demo demo_root demo_done [(0, 1); (0, 0)]
           (chars "ab") demo_idle demo_trace demo_dict Hmax demo_done_eq Hne
           demo_path_valid demo_path_spelled Hw).
Defined.

Lemma main_reports_witness :
  mainSetup 2 demo_board (world0 16) = Done tt demo_setup /\
  trieBuild demo_words demo_setup = Done (true, 4) demo /\
  playBoggle 4 demo = Done tt demo_done /\
  forall word row col,
    (word, row, col) ∈ stdout (trace demo_done) <->
    exists path,
      head path = Some (row, col) /\ valid_path 2 path /\
      spelled 2 demo_board path word /\
      exists dw, dw ∈ demo_words /\ letters dw = letters word.
Proof.
  split; [exact demo_setup_eq|]. split; [exact demo_eq|].
  split; [exact demo_done_eq|].
  apply (main_reports 4 2 demo_board demo_words 15 demo_setup 4 demo demo_done
           demo_setup_eq demo_eq demo_done_eq).
Defined.

(** ** [chop] *)

Lemma isalpha_letter c : isalpha c = true <-> is_letter c.
Proof.
  unfold isalpha, is_letter.
  rewrite orb_true_iff, !andb_true_iff, !Nat.leb_le. reflexivity.
Qed.

Lemma cstring_app word tail :
  Forall (fun ch => ch <> NUL) word ->
  cstring (word ++ NUL :: tail) = Some word.
Proof.
  induction 1 as [|c word Hc _ IH]; [reflexivity|]. simpl.
  destruct (Ascii.eqb_spec c NUL); [contradiction|]. rewrite IH. reflexivity.
Qed.

Lemma cstring_inv buf word :
  cstring buf = Some word ->
  Forall (fun ch => ch <> NUL) word /\ exists tail, buf = word ++ NUL :: tail.
Proof.
  revert word. induction buf as [|c buf IH]; intros word H; [discriminate|].
  simpl in H. destruct (Ascii.eqb_spec c NUL) as [->|Hc].
  - injection H as <-. split; [constructor|]. exists buf. reflexivity.
  - destruct (cstring buf) as [s|]; [|discriminate]. injection H as <-.
    destruct (IH s eq_refl) as [Hs (tail & ->)].
    split; [constructor; auto|]. exists tail. reflexivity.
Qed.

Lemma load_app_mid {A} (l : list A) x r :
  load (l ++ x :: r) (Z.of_nat (length l)) = Some x.
Proof.
  unfold load. destruct (Z.leb_spec 0 (Z.of_nat (length l))); [|lia].
  rewrite Nat2Z.id. apply list_lookup_middle. reflexivity.
Qed.

Lemma store_app_mid {A} (l : list A) x y r :
  store (l ++ x :: r) (Z.of_nat (length l)) y = Some (l ++ y :: r).
Proof.
  unfold store. rewrite length_app. simpl.
  destruct (Z.leb_spec 0 (Z.of_nat (length l))); [|lia].
  destruct (Z.ltb_spec (Z.of_nat (length l))
              (Z.of_nat (length l + S (length r)))); [|lia].
  simpl. rewrite Nat2Z.id. f_equal.
  rewrite insert_app_r_alt by lia. rewrite Nat.sub_diag. reflexivity.
Qed.

(** The loop of [chop] from the end of a string whose last letter is [c]:
    the bytes after [c] become NUL. *)
Lemma chopLoop_trims junk : forall kept c tail fuel w,
  isalpha c = true -> Forall (fun x => isalpha x = false) junk ->
  (length junk <= fuel)%nat ->
  chopLoop fuel (kept ++ c :: junk ++ tail)
    (Z.of_nat (length kept + 1 + length junk)) w
  = Done (kept ++ c :: replicate (length junk) NUL ++ tail,
          Z.of_nat (length kept + 1)) w.
Proof.
  induction junk as [|x junk IH] using rev_ind;
    intros kept c tail fuel w Hc Hj Hf.
  - simpl. rewrite Nat.add_0_r.
    destruct fuel; simpl; unfold bind, loadM;
      (replace (Z.of_nat (length kept + 1) - 1) with (Z.of_nat (length kept))
         by lia);
      rewrite load_app_mid; unfold ret; rewrite Hc; reflexivity.
  - apply Forall_app in Hj as [Hj Hx]. rewrite Forall_singleton in Hx.
    rewrite length_app in Hf |- *. simpl in Hf |- *.
    destruct fuel as [|fuel]; [lia|]. cbn [chopLoop].
    replace (Z.of_nat (length kept + 1 + (length junk + 1)) - 1)
      with (Z.of_nat (length (kept ++ c :: junk)))
      by (rewrite length_app; simpl; lia).
    replace (kept ++ c :: (junk ++ [x]) ++ tail)
      with ((kept ++ c :: junk) ++ x :: tail)
      by (rewrite <- !app_assoc; reflexivity).
    unfold bind at 1, loadM at 1. rewrite load_app_mid. unfold ret at 1.
    rewrite Hx. cbn [negb]. unfold bind at 1, storeM at 1.
    rewrite store_app_mid. unfold ret at 1.
    replace ((kept ++ c :: junk) ++ NUL :: tail)
      with (kept ++ c :: junk ++ (NUL :: tail))
      by (rewrite <- app_assoc; reflexivity).
    replace (Z.of_nat (length (kept ++ c :: junk)))
      with (Z.of_nat (length kept + 1 + length junk))
      by (rewrite length_app; simpl; lia).
    rewrite IH by (auto; lia). f_equal. f_equal. f_equal.
    replace (length junk + 1)%nat with (S (length junk)) by lia.
    rewrite replicate_S_end, <- app_assoc. reflexivity.
Qed.

(** The loop of [chop] on a string without a letter reads [buf[-1]]. *)
Lemma chopLoop_none junk : forall tail fuel w,
  Forall (fun x => isalpha x = false) junk ->
  (length junk <= fuel)%nat ->
  chopLoop fuel (junk ++ tail) (Z.of_nat (length junk)) w
  = Abort OutOfBounds w.
Proof.
  induction junk as [|x junk IH] using rev_ind; intros tail fuel w Hj Hf.
  - destruct fuel; reflexivity.
  - apply Forall_app in Hj as [Hj Hx]. rewrite Forall_singleton in Hx.
    rewrite length_app in Hf |- *. simpl in Hf |- *.
    destruct fuel as [|fuel]; [lia|]. cbn [chopLoop].
    replace (Z.of_nat (length junk + 1) - 1) with (Z.of_nat (length junk))
      by lia.
    rewrite <- app_assoc. simpl.
    unfold bind at 1, loadM at 1. rewrite load_app_mid. unfold ret at 1.
    rewrite Hx. cbn [negb]. unfold bind at 1, storeM at 1.
    rewrite store_app_mid. unfold ret at 1.
    apply IH; [exact Hj|lia].
Qed.

Lemma chopped_junk junk :
  Forall (fun x => isalpha x = false) junk -> chopped junk = [].
Proof.
  induction 1 as [|x junk Hx _ IH]; [reflexivity|]. simpl.
  rewrite IH, Hx. reflexivity.
Qed.

Lemma chopped_letter c junk :
  isalpha c = true -> Forall (fun x => isalpha x = false) junk ->
  chopped (c :: junk) = [c].
Proof. intros Hc Hj. simpl. rewrite (chopped_junk _ Hj), Hc. reflexivity. Qed.

Lemma chopped_cons x l : chopped l <> [] -> chopped (x :: l) = x :: chopped l.
Proof. intros H. simpl. destruct (chopped l); [contradiction|reflexivity]. Qed.

Lemma chopped_app kept c junk :
  isalpha c = true -> Forall (fun x => isalpha x = false) junk ->
  chopped (kept ++ c :: junk) = kept ++ [c].
Proof.
  intros Hc Hj. induction kept as [|x kept IH]; simpl app.
  - apply chopped_letter; auto.
  - rewrite chopped_cons; rewrite IH; [reflexivity|].
    destruct kept; discriminate.
Qed.

(** A line with a letter ends with a last letter and bytes that are not
    letters; a line without has none. *)
Lemma last_letter line :
  (exists kept c junk,
     line = kept ++ c :: junk /\ isalpha c = true /\
     Forall (fun x => isalpha x = false) junk) \/
  Forall (fun x => isalpha x = false) line.
Proof.
  induction line as [|x line IH]; [right; constructor|].
  destruct IH as [(kept & c & junk & -> & Hc & Hj)|Hall].
  - left. exists (x :: kept), c, junk. auto.
  - destruct (isalpha x) eqn:Hx.
    + left. exists [], x, line. auto.
    + right. constructor; auto.
Qed.

Lemma chop_letter buf kept c junk w :
  cstring buf = Some (kept ++ c :: junk) ->
  isalpha c = true -> Forall (fun x => isalpha x = false) junk ->
  exists buf',
    chop buf w = Done (buf', Z.of_nat (length (kept ++ [c]))) w /\
    cstring buf' = Some (kept ++ [c]) /\ length buf' = length buf.
Proof.
  intros Hs Hc Hj. apply cstring_inv in Hs as [Hnul (tail & ->)].
  exists (kept ++ c :: replicate (length junk) NUL ++ NUL :: tail).
  split; [|split].
  - unfold chop, strlen, bind. rewrite (cstring_app _ _ Hnul). unfold ret.
    rewrite Nat2Z.id. rewrite <- app_assoc. simpl.
    replace (length (kept ++ c :: junk))
      with (length kept + 1 + length junk)%nat
      by (rewrite length_app; simpl; lia).
    rewrite chopLoop_trims by (auto; lia).
    rewrite length_app. reflexivity.
  - apply Forall_app in Hnul as [Hk Hcj]. apply Forall_cons in Hcj as [Hc' _].
    replace (kept ++ c :: replicate (length junk) NUL ++ NUL :: tail)
      with ((kept ++ [c]) ++ NUL :: (replicate (length junk) NUL ++ tail)).
    + apply cstring_app. apply Forall_app. auto.
    + rewrite <- app_assoc. simpl. f_equal. f_equal.
      change (NUL :: replicate (length junk) NUL ++ tail)
        with (replicate (S (length junk)) NUL ++ tail).
      rewrite replicate_S_end, <- app_assoc. reflexivity.
  - rewrite !length_app. simpl. rewrite !length_app, length_replicate.
    simpl. lia.
Qed.

Lemma isalpha_false_letter c : isalpha c = false <-> ~ is_letter c.
Proof.
  rewrite <- isalpha_letter. destruct (isalpha c); split; intros H;
    try easy.
Qed.

Lemma chop_chopped buf line w :
  cstring buf = Some line -> Exists is_letter line ->
  exists buf',
    chop buf w = Done (buf', Z.of_nat (length (chopped line))) w /\
    cstring buf' = Some (chopped line) /\ length buf' = length buf /\
    exists kept c, chopped line = kept ++ [c] /\ is_letter c.
Proof.
  intros Hs Hex.
  destruct (last_letter line) as [(kept & c & junk & -> & Hc & Hj)|Hall].
  - destruct (chop_letter buf kept c junk w Hs Hc Hj) as (buf' & H1 & H2 & H3).
    rewrite (chopped_app kept c junk Hc Hj). exists buf'.
    split; [exact H1|]. split; [exact H2|]. split; [exact H3|].
    exists kept, c. split; [reflexivity|]. apply isalpha_letter, Hc.
  - exfalso. apply Exists_exists in Hex as (c & Hin & Hc).
    rewrite Forall_forall in Hall. apply isalpha_letter in Hc.
    rewrite (Hall c Hin) in Hc. discriminate.
Qed.

(** X11.  [chop] on a line with a letter: it returns, leaves in the buffer
    the line without its trailing bytes that are not letters, changes
    nothing else of the program state, and returns the new length, which is
    at least one; the string left ends with a letter. *)
Theorem chop_trims buf line w :
  cstring buf = Some line -> Exists is_letter line ->
  exists buf',
    chop buf w = Done (buf', Z.of_nat (length (chopped line))) w /\
    cstring buf' = Some (chopped line) /\ length buf' = length buf /\
    exists kept c, chopped line = kept ++ [c] /\ is_letter c.
Proof. apply chop_chopped. Qed.

Lemma chop_faults buf w :
  (forall line, cstring buf = Some line ->
                Forall (fun c => ~ is_letter c) line) ->
  chop buf w = Abort OutOfBounds w.
Proof.
  intros H. unfold chop, strlen, bind.
  destruct (cstring buf) as [line|] eqn:Hs; [|reflexivity].
  specialize (H line eq_refl).
  apply cstring_inv in Hs as [_ (tail & ->)]. unfold ret.
  rewrite Nat2Z.id. apply chopLoop_none; [|lia].
  eapply Forall_impl; [exact H|]. intros c. apply isalpha_false_letter.
Qed.

(** X12.  [chop] on a string without a letter (an empty line, a line of
    digits) turns every byte of it into NUL and then reads [buf[-1]]. *)
Theorem chop_no_letter buf w :
  (forall line, cstring buf = Some line ->
                Forall (fun c => ~ is_letter c) line) ->
  chop buf w = Abort OutOfBounds w.
Proof. apply chop_faults. Qed.

(** ** [trieBuild] and the dictionary file *)

Lemma fgets_cstring line buf :
  Forall (fun ch => ch <> NUL) line -> cstring (fgets line buf) = Some line.
Proof. apply cstring_app. Qed.

Lemma fgets_length line buf :
  (length line < length buf)%nat -> length (fgets line buf) = length buf.
Proof.
  intros H. unfold fgets. rewrite length_app. simpl. rewrite length_drop. lia.
Qed.

Lemma chop_fgets line buf w :
  line_ok buf line -> Exists is_letter line ->
  exists buf',
    chop (fgets line buf) w
    = Done (buf', Z.of_nat (length (chopped line))) w /\
    cstring buf' = Some (chopped line) /\ length buf' = length buf.
Proof.
  intros [Hnul Hlen] Hex.
  destruct (chop_chopped (fgets line buf) line w (fgets_cstring _ _ Hnul) Hex)
    as (buf' & H1 & H2 & H3 & _).
  exists buf'. rewrite H3, (fgets_length _ _ Hlen). auto.
Qed.

Lemma trieBuildFileLoop_lines lines : forall buf count w,
  Forall (fun line => line_ok buf line /\ Exists is_letter line) lines ->
  trieBuildFileLoop (boardSize (cb w) * boardSize (cb w)) lines buf count w
  = trieBuildLoop (map chopped lines) count w.
Proof.
  induction lines as [|line rest IH]; intros buf count w Hall;
    [reflexivity|].
  apply Forall_cons in Hall as [[Hok Hex] Hall].
  destruct (chop_fgets line buf w Hok Hex) as (buf' & Hc & Hs & Hlen).
  assert (Hall' : Forall (fun line => line_ok buf' line /\
                                      Exists is_letter line) rest).
  { eapply Forall_impl; [exact Hall|]. intros l [[H1 H2] H3].
    split; [split|]; auto. rewrite Hlen. exact H2. }
  cbn [trieBuildFileLoop map trieBuildLoop].
  unfold bind at 1. rewrite Hc.
  unfold bind at 3, gets at 1.
  destruct (_ <=? _); [|apply IH, Hall'].
  unfold bind at 1, cstringM at 1. rewrite Hs. unfold ret at 1.
  unfold bind.
  destruct (trieAddWord (chopped line) w) as [[added ok] w1|f w1] eqn:Ea;
    [|reflexivity].
  destruct ok; cbn [negb]; [|reflexivity].
  destruct (same_but_dict_consts _ _ (trieAddWord_frame _ _ _ _ Ea))
    as [Hbs _].
  rewrite <- Hbs. apply IH, Hall'.
Qed.

Lemma trieBuildFile_chopped lines buf w :
  Forall (fun line => line_ok buf line /\ Exists is_letter line) lines ->
  trieBuildFile lines buf w = trieBuild (map chopped lines) w.
Proof.
  intros Hall. unfold trieBuildFile, trieBuild. unfold bind at 1, gets at 1.
  apply trieBuildFileLoop_lines, Hall.
Qed.

(** X13.  [trieBuild] reads its words through [chop]: on a file in which
    every line holds a letter (and fits the buffer), it does what the loop
    over the chopped lines does, whatever the buffer held before. *)
Theorem trieBuildFile_lines lines buf w :
  Forall (fun line => line_ok buf line /\ Exists is_letter line) lines ->
  trieBuildFile lines buf w = trieBuild (map chopped lines) w.
Proof. apply trieBuildFile_chopped. Qed.

Lemma trieBuildFileLoop_blank good : forall bad rest buf count w cnt w1,
  Forall (fun line => line_ok buf line /\ Exists is_letter line) good ->
  line_ok buf bad -> Forall (fun c => ~ is_letter c) bad ->
  trieBuildLoop (map chopped good) count w = Done (true, cnt) w1 ->
  trieBuildFileLoop (boardSize (cb w) * boardSize (cb w))
    (good ++ bad :: rest) buf count w
  = Abort OutOfBounds w1.
Proof.
  induction good as [|line good IH];
    intros bad rest buf count w cnt w1 Hall Hok Hbad Hrun.
  - simpl in Hrun. unfold ret in Hrun. injection Hrun as _ <-.
    cbn [app trieBuildFileLoop]. unfold bind at 1.
    rewrite chop_faults; [reflexivity|].
    intros l Hl. rewrite fgets_cstring in Hl by apply Hok.
    injection Hl as <-. exact Hbad.
  - apply Forall_cons in Hall as [[Hok1 Hex] Hall].
    destruct (chop_fgets line buf w Hok1 Hex) as (buf' & Hc & Hs & Hlen).
    assert (Hall' : Forall (fun line => line_ok buf' line /\
                                        Exists is_letter line) good).
    { eapply Forall_impl; [exact Hall|]. intros l [[H1 H2] H3].
      split; [split|]; auto. rewrite Hlen. exact H2. }
    assert (Hok' : line_ok buf' bad).
    { destruct Hok. split; [auto|]. rewrite Hlen. auto. }
    cbn [app trieBuildFileLoop]. cbn [map trieBuildLoop] in Hrun.
    unfold bind at 1. rewrite Hc.
    unfold bind at 1, gets at 1 in Hrun.
    destruct (_ <=? _); [|eapply IH; eauto].
    unfold bind at 1, cstringM at 1. rewrite Hs. unfold ret at 1.
    unfold bind. unfold bind in Hrun.
    destruct (trieAddWord (chopped line) w) as [[added ok] w2|f w2] eqn:Ea;
      [|discriminate].
    destruct ok; cbn [negb] in Hrun |- *; [|discriminate].
    destruct (same_but_dict_consts _ _ (trieAddWord_frame _ _ _ _ Ea))
      as [Hbs _].
    rewrite <- Hbs. eapply IH; eauto.
Qed.

(** X14.  A line without a letter in the dictionary file (a blank line):
    [trieBuild] inserts the lines before it and then, in [chop], reads
    outside the buffer. *)
Theorem trieBuildFile_blank_line good bad rest buf w cnt w1 :
  Forall (fun line => line_ok buf line /\ Exists is_letter line) good ->
  line_ok buf bad -> Forall (fun c => ~ is_letter c) bad ->
  trieBuild (map chopped good) w = Done (true, cnt) w1 ->
  trieBuildFile (good ++ bad :: rest) buf w = Abort OutOfBounds w1.
Proof.
  intros Hall Hok Hbad Hrun. unfold trieBuildFile.
  unfold bind at 1, gets at 1.
  eapply trieBuildFileLoop_blank; eauto.
Qed.

(** ** The board file *)

Lemma load_app_l {A} (l r : list A) i x :
  l !! i = Some x -> load (l ++ r) (Z.of_nat i) = Some x.
Proof.
  intros H. unfold load. destruct (Z.leb_spec 0 (Z.of_nat i)); [|lia].
  rewrite Nat2Z.id. apply lookup_app_l_Some, H.
Qed.

(** The inner loop, from column [length done] on. *)
Lemma copyRow_from todo : forall done old pre post tail n row w,
  length old = length todo ->
  Z.of_nat (length pre) = n * row ->
  foldM (fun b i =>
           c <- loadM ((done ++ todo) ++ tail) i ;;
           storeM b (n * row + i) (tolower c))
        (seqZ (Z.of_nat (length done)) (Z.of_nat (length todo)))
        (pre ++ map tolower done ++ old ++ post) w
  = Done (pre ++ map tolower (done ++ todo) ++ post) w.
Proof.
  induction todo as [|c todo IH]; intros done old pre post tail n row w Ho Hp.
  - destruct old; [|discriminate]. rewrite app_nil_r. reflexivity.
  - destruct old as [|o old]; [discriminate|]. injection Ho as Ho.
    replace (Z.of_nat (length (c :: todo)))
      with (Z.succ (Z.of_nat (length todo))) by (simpl; lia).
    rewrite seqZ_cons by lia. rewrite Z.pred_succ. cbn [foldM].
    unfold bind at 1. unfold bind at 1, loadM at 1.
    replace ((done ++ c :: todo) ++ tail) with (done ++ c :: (todo ++ tail))
      by (rewrite <- app_assoc; reflexivity).
    rewrite load_app_mid. unfold ret at 1. unfold storeM.
    replace (pre ++ map tolower done ++ (o :: old) ++ post)
      with ((pre ++ map tolower done) ++ o :: (old ++ post))
      by (rewrite <- !app_assoc; reflexivity).
    replace (n * row + Z.of_nat (length done))
      with (Z.of_nat (length (pre ++ map tolower done)))
      by (rewrite length_app, length_map; lia).
    rewrite store_app_mid. unfold ret at 1.
    specialize (IH (done ++ [c]) old pre post tail n row w Ho Hp).
    rewrite length_app in IH. simpl in IH.
    replace (Z.succ (Z.of_nat (length done)))
      with (Z.of_nat (length done + 1)) by lia.
    replace ((pre ++ map tolower done) ++ tolower c :: old ++ post)
      with (pre ++ map tolower (done ++ [c]) ++ old ++ post)
      by (rewrite map_app, <- !app_assoc; reflexivity).
    replace (done ++ c :: todo ++ tail) with (((done ++ [c]) ++ todo) ++ tail)
      by (rewrite <- !app_assoc; reflexivity).
    unfold storeM in IH. rewrite IH. rewrite <- app_assoc. reflexivity.
Qed.

Lemma copyRow_row word old pre post tail row w :
  length old = length word ->
  Z.of_nat (length pre) = Z.of_nat (length word) * row ->
  copyRow (word ++ tail) (pre ++ old ++ post) (Z.of_nat (length word)) row w
  = Done (pre ++ map tolower word ++ post) w.
Proof.
  intros Ho Hp. unfold copyRow.
  apply (copyRow_from word [] old pre post tail _ row w Ho Hp).
Qed.

(** The first write of a row below the last row of the board. *)
Lemma copyRow_below c tail board n row w :
  0 < n -> Z.of_nat (length board) <= n * row ->
  copyRow (c :: tail) board n row w = Abort OutOfBounds w.
Proof.
  intros Hn Hrow. unfold copyRow.
  replace n with (Z.succ (Z.pred n)) at 2 by lia.
  rewrite seqZ_cons by lia. cbn [foldM].
  unfold bind at 1. unfold bind at 1, loadM at 1. simpl load.
  unfold ret at 1. unfold storeM, store.
  destruct (Z.ltb_spec (n * row + 0) (Z.of_nat (length board))); [lia|].
  rewrite andb_false_r. reflexivity.
Qed.

(** The loop over the rows that are left, on a board whose rows above
    are filled; [more] is what the file holds after them. *)
Lemma readBoardLoop_rows n more lines : forall buf above below w,
  Forall (fun line => line_ok buf line /\ Exists is_letter line /\
                      length (chopped line) = n) lines ->
  length above = (n * (n - length lines))%nat ->
  length below = (n * length lines)%nat ->
  (length lines <= n)%nat ->
  exists buf',
    length buf' = length buf /\
    readBoardLoop (lines ++ more) buf (Some (above ++ below)) (Z.of_nat n)
      (Z.of_nat (n - length lines)) w
    = readBoardLoop more buf' (Some (above ++ tiles_of lines)) (Z.of_nat n)
        (Z.of_nat n) w.
Proof.
  induction lines as [|line rest IH]; intros buf above below w Hall Ha Hb Hn.
  - simpl in Hb. rewrite Nat.mul_0_r in Hb.
    destruct below; [|discriminate]. exists buf. split; [reflexivity|].
    simpl. rewrite Nat.sub_0_r. reflexivity.
  - apply Forall_cons in Hall as [(Hok & Hex & Hlen) Hall].
    destruct Hok as [Hnul Hfit].
    destruct (chop_chopped (fgets line buf) line w
                (fgets_cstring _ _ Hnul) Hex)
      as (buf' & Hc & Hs & Hl & _).
    rewrite (fgets_length _ _ Hfit) in Hl.
    apply cstring_inv in Hs as [_ (tail & Hbuf')].
    simpl length in *.
    assert (Hsplit : exists old below',
              below = old ++ below' /\ length old = n /\
              length below' = (n * length rest)%nat).
    { exists (take n below), (drop n below).
      rewrite take_drop, length_take, length_drop. repeat split; lia. }
    destruct Hsplit as (old & below' & -> & Hold & Hb').
    assert (Hcopy :
      copyRow buf' (above ++ old ++ below') (Z.of_nat n)
        (Z.of_nat (n - S (length rest))) w
      = Done (above ++ map tolower (chopped line) ++ below') w).
    { pose proof (copyRow_row (chopped line) old above below' (NUL :: tail)
                    (Z.of_nat (n - S (length rest))) w) as H.
      rewrite Hlen in H. rewrite Hbuf'. apply H; [exact Hold|].
      rewrite Ha. rewrite <- Nat2Z.inj_mul. reflexivity. }
    destruct (IH buf' (above ++ map tolower (chopped line)) below' w)
      as (buf2 & Hl2 & Hrun).
    { eapply Forall_impl; [exact Hall|]. intros l ([H1 H2] & H3 & H4).
      split; [split|]; auto. rewrite Hl. exact H2. }
    { rewrite length_app, length_map, Hlen, Ha. nia. }
    { exact Hb'. }
    { lia. }
    exists buf2. split; [congruence|].
    cbn [app readBoardLoop]. unfold bind at 1. rewrite Hc.
    unfold bind at 1, ret at 1. cbv beta iota. unfold bind at 1.
    rewrite Hcopy.
    replace (Z.of_nat (n - S (length rest)) + 1)
      with (Z.of_nat (n - length rest)) by lia.
    rewrite <- app_assoc in Hrun. rewrite Hrun.
    unfold tiles_of. simpl. rewrite map_app, <- app_assoc. reflexivity.
Qed.

(** The first line of the board file and the rows after it. *)
Lemma readBoard_first n more line rest buf w :
  Forall (fun line => line_ok buf line /\ Exists is_letter line /\
                      length (chopped line) = S n) (line :: rest) ->
  length rest = n ->
  exists buf',
    length buf' = length buf /\
    readBoard ((line :: rest) ++ more) buf w
    = readBoardLoop more buf' (Some (tiles_of (line :: rest)))
        (Z.of_nat (S n)) (Z.of_nat (S n))
        (with_cb (set_boardSize (Z.of_nat (S n))) w).
Proof.
  intros Hall Hrest.
  apply Forall_cons in Hall as [(Hok & Hex & Hlen) Hall].
  destruct Hok as [Hnul Hfit].
  destruct (chop_chopped (fgets line buf) line w (fgets_cstring _ _ Hnul) Hex)
    as (buf' & Hc & Hs & Hl & _).
  rewrite (fgets_length _ _ Hfit) in Hl.
  apply cstring_inv in Hs as [_ (tail & Hbuf')].
  set (w1 := with_cb (set_boardSize (Z.of_nat (S n))) w).
  set (N := S n) in *.
  assert (Hboard : replicate (Z.to_nat (Z.of_nat N * Z.of_nat N)) NUL
                   = [] ++ replicate N NUL ++ replicate (N * n) NUL).
  { rewrite app_nil_l, <- replicate_add. f_equal.
    rewrite <- Nat2Z.inj_mul, Nat2Z.id. subst N. nia. }
  assert (Hcopy :
    copyRow buf' ([] ++ replicate N NUL ++ replicate (N * n) NUL)
      (Z.of_nat N) 0 w1
    = Done ([] ++ map tolower (chopped line) ++ replicate (N * n) NUL) w1).
  { pose proof (copyRow_row (chopped line) (replicate N NUL) []
                  (replicate (N * n) NUL) (NUL :: tail) 0 w1) as H.
    rewrite Hlen in H. rewrite Hbuf'. apply H.
    - apply length_replicate.
    - simpl. lia. }
  destruct (readBoardLoop_rows N more rest buf'
              (map tolower (chopped line)) (replicate (N * n) NUL) w1)
    as (buf2 & Hl2 & Hrun).
  { eapply Forall_impl; [exact Hall|]. intros l ([H1 H2] & H3 & H4).
    split; [split|]; auto. rewrite Hl. exact H2. }
  { rewrite length_map, Hlen, Hrest. subst N. nia. }
  { rewrite length_replicate, Hrest. reflexivity. }
  { subst N. lia. }
  exists buf2. split; [congruence|].
  unfold readBoard. cbn [app readBoardLoop]. unfold bind at 1. rewrite Hc.
  rewrite Hlen. unfold bind at 1. unfold bind at 1, modify at 1.
  fold w1. unfold ret at 1. cbv beta iota. unfold bind at 1.
  rewrite Hboard, Hcopy. rewrite app_nil_l.
  replace (0 + 1) with (Z.of_nat (N - length rest))
    by (rewrite Hrest; subst N; lia).
  rewrite Hrun. unfold tiles_of. simpl. rewrite map_app. reflexivity.
Qed.

Lemma readBoard_square_run n lines more buf w :
  square_file buf n lines -> (0 < n)%nat ->
  exists buf',
    length buf' = length buf /\
    readBoard (lines ++ more) buf w
    = readBoardLoop more buf' (Some (tiles_of lines)) (Z.of_nat n)
        (Z.of_nat n) (with_cb (set_boardSize (Z.of_nat n)) w).
Proof.
  intros [Hn Hall] Hpos.
  destruct n as [|n]; [lia|]. destruct lines as [|line rest]; [discriminate|].
  apply readBoard_first; [exact Hall|]. simpl in Hn. lia.
Qed.

Lemma readBoard_rows n lines buf w :
  square_file buf n lines -> (0 < n)%nat ->
  readBoard lines buf w
  = Done (Some (tiles_of lines), Z.of_nat n)
         (with_cb (set_boardSize (Z.of_nat n)) w).
Proof.
  intros Hsq Hpos.
  destruct (readBoard_square_run n lines [] buf w Hsq Hpos)
    as (buf' & _ & Hrun).
  rewrite app_nil_r in Hrun. exact Hrun.
Qed.

(** X15.  Reading the board.  From a file of n lines that each hold n
    bytes before their trailing bytes that are not letters, [main] builds
    the board of side n that holds these bytes, lower-cased, row by row,
    and sets [bCB.boardSize] to n; nothing else of the state changes. *)
Theorem readBoard_square n lines buf w :
  square_file buf n lines -> (0 < n)%nat ->
  readBoard lines buf w
  = Done (Some (tiles_of lines), Z.of_nat n)
         (with_cb (set_boardSize (Z.of_nat n)) w).
Proof. apply readBoard_rows. Qed.

(** X16.  A board file with a line too many: the line after the n-th, if
    it holds a letter, is copied to a row below the board; the first
    write of that copy is outside the array. *)
Theorem readBoard_extra_line n lines extra rest buf w :
  square_file buf n lines -> (0 < n)%nat ->
  line_ok buf extra -> Exists is_letter extra ->
  readBoard (lines ++ extra :: rest) buf w
  = Abort OutOfBounds (with_cb (set_boardSize (Z.of_nat n)) w).
Proof.
  intros Hsq Hpos [Hnul Hfit] Hex.
  destruct (readBoard_square_run n lines (extra :: rest) buf w Hsq Hpos)
    as (buf' & Hl & ->).
  set (w1 := with_cb (set_boardSize (Z.of_nat n)) w).
  rewrite <- Hl in Hfit.
  destruct (chop_chopped (fgets extra buf') extra w1
              (fgets_cstring _ _ Hnul) Hex)
    as (buf2 & Hc & Hs & _ & kept & c & Hk & _).
  apply cstring_inv in Hs as [_ (tail & Hbuf2)].
  cbn [readBoardLoop]. unfold bind at 1. rewrite Hc.
  unfold bind at 1, ret at 1. cbv beta iota. unfold bind at 1.
  assert (Hshape : exists c0 tail0, buf2 = c0 :: tail0).
  { rewrite Hbuf2, Hk. destruct kept; simpl; eauto. }
  destruct Hshape as (c0 & tail0 & ->).
  rewrite copyRow_below; [reflexivity|lia|].
  destruct Hsq as [Hn Hall]. unfold tiles_of.
  rewrite length_map.
  assert (Hsum : length (concat (map chopped lines))
                 = (length lines * n)%nat).
  { clear Hn.
    induction Hall as [|l ls (_ & _ & Hlen) _ IH]; [reflexivity|].
    simpl. rewrite length_app, IH, Hlen. reflexivity. }
  rewrite Hsum, Hn. lia.
Qed.

(** ** The program on its two files *)

(** X17.  [main] on a square board file and a dictionary file whose lines
    all hold a letter is the run [mainRun] on the side of the board, its
    lower-cased tiles and the chopped lines of the dictionary. *)
Theorem mainFile_run fuel n boardLines dictLines buf0 buf1 w :
  square_file buf0 n boardLines -> (0 < n)%nat ->
  Forall (fun line => line_ok buf1 line /\ Exists is_letter line) dictLines ->
  mainFile fuel boardLines dictLines buf0 buf1 w
  = mainRun fuel (Z.of_nat n) (tiles_of boardLines) (map chopped dictLines) w.
Proof.
  intros Hsq Hpos Hdict.
  unfold mainFile, mainRun, mainSetup, bind.
  destruct (initBoggle w) as [[] w1|f w1]; [|reflexivity].
  rewrite (readBoard_rows n boardLines buf0 w1 Hsq Hpos).
  unfold modify at 5. cbv beta iota. cbn [from_option id].
  destruct (buildHistogram (tiles_of boardLines) _) as [hist w3|f w3];
    [|reflexivity].
  unfold modify. cbv beta iota.
  rewrite (trieBuildFile_chopped dictLines buf1 _ Hdict). reflexivity.
Qed.

(** ** The children of the root *)

Lemma has_childb_insert cur ix slot k i :
  load (trie_child cur) ix = Some slot ->
  has_childb (TrieNode (trie_ch cur) (trie_flags cur)
                (<[Z.to_nat ix := Some k]> (trie_child cur))) i
  = has_childb cur i || (ix =? i).
Proof.
  intros Hslot. unfold has_childb. cbn [trie_child].
  destruct (Z.eqb_spec ix i) as [->|Hne].
  - rewrite (load_insert _ _ _ _ Hslot), orb_true_r. reflexivity.
  - apply load_lookup in Hslot as [Hi _].
    rewrite load_insert_ne by auto. rewrite orb_false_r. reflexivity.
Qed.

Lemma trieAddLoop_child word r cur w t added ok w' i :
  trieAddLoop word r cur w = Done (t, added, ok) w' -> ok = true ->
  has_childb t i = has_childb cur i || startsb (histogram (cb w)) i word.
Proof.
  intros H Hok. destruct word as [|c rest].
  - apply trieAddLoop_nil in H as (_ & -> & _ & _ & _).
    destruct cur. simpl. rewrite orb_false_r. reflexivity.
  - apply trieAddLoop_cons in H as
      (h & Hh & [(-> & -> & _)|(Hne & slot & Hslot &
         [(_ & _ & _ & _ & -> & _)|(k & k' & w1 & _ & _ & ->)])]).
    + unfold startsb, absentb. rewrite Hh. simpl.
      rewrite andb_false_r, orb_false_r. reflexivity.
    + discriminate.
    + rewrite (has_childb_insert _ _ _ _ _ Hslot). f_equal.
      unfold startsb, absentb. rewrite Hh.
      apply Z.eqb_neq in Hne. rewrite Hne. simpl.
      rewrite andb_true_r. reflexivity.
Qed.

Lemma trieAddWord_child word w root added ok w' i :
  dict (cb w) = Some root ->
  trieAddWord word w = Done (added, ok) w' -> ok = true ->
  exists root', dict (cb w') = Some root' /\
    has_childb root' i = has_childb root i || startsb (histogram (cb w)) i word.
Proof.
  intros Hd H Hok.
  apply trieAddWord_dict in H as [[Hn _]|(r0 & root' & Hd' & w2 & Hloop & ->)];
    [congruence|].
  rewrite Hd in Hd'. injection Hd' as <-. exists root'.
  split; [reflexivity|]. eapply trieAddLoop_child; eauto.
Qed.

Lemma trieBuildLoop_child words i : forall count w cnt w' root,
  dict (cb w) = Some root ->
  trieBuildLoop words count w = Done (true, cnt) w' ->
  exists root', dict (cb w') = Some root' /\
    has_childb root' i
    = has_childb root i ||
      existsb (opensb (boardSize (cb w)) (histogram (cb w)) i) words.
Proof.
  induction words as [|buf rest IH]; intros count w cnt w' root Hd H;
    simpl in H.
  - unfold ret in H. simplify_eq. exists root. split; [exact Hd|].
    simpl. rewrite orb_false_r. reflexivity.
  - unfold bind at 1, gets at 1 in H. cbn [existsb]. unfold opensb at 1.
    destruct (_ <=? _).
    2:{ simpl. eapply IH; eauto. }
    apply bind_Done in H as ([added ok1] & w1 & Hadd & H).
    destruct ok1; simpl in H; [|unfold ret in H; discriminate].
    destruct (trieAddWord_child _ _ _ _ _ _ i Hd Hadd eq_refl)
      as (root1 & Hd1 & Hc1).
    pose proof (same_but_dict_consts _ _ (trieAddWord_frame _ _ _ _ Hadd))
      as [Hn Hh].
    destruct (IH _ _ _ _ _ Hd1 H) as (root' & Hd' & Hc').
    exists root'. split; [exact Hd'|].
    rewrite Hc', Hc1, Hn, Hh. simpl. rewrite orb_assoc. reflexivity.
Qed.

(** X18.  The children of the root.  After a [trieBuild] that reports
    success, the root has a child in slot [i] exactly if it had one before
    or some line passes the length test and begins with a letter of index
    [i] that occurs on the board, whether or not the line was then put in
    the dictionary. *)
Theorem trieBuild_root_children words w root cnt w' i :
  dict (cb w) = Some root ->
  trieBuild words w = Done (true, cnt) w' ->
  exists root', dict (cb w') = Some root' /\
    has_childb root' i
    = has_childb root i ||
      existsb (opensb (boardSize (cb w)) (histogram (cb w)) i) words.
Proof. apply trieBuildLoop_child. Qed.

(** ** The frequency table, tile by tile *)

Lemma foldM_ext {A B} (f g : B -> A -> M B) l :
  (forall acc x w, f acc x w = g acc x w) ->
  forall acc w, foldM f l acc w = foldM g l acc w.
Proof.
  intros H. induction l as [|x l IH]; intros acc w; [reflexivity|].
  simpl. unfold bind. rewrite H. destruct (g acc x w); auto.
Qed.

Lemma foldM_app {A B} (f : B -> A -> M B) l1 l2 acc w :
  foldM f (l1 ++ l2) acc w = (acc' <- foldM f l1 acc ;; foldM f l2 acc') w.
Proof.
  revert acc w. induction l1 as [|x l1 IH]; intros acc w; [reflexivity|].
  simpl. unfold bind. destruct (f acc x w) as [acc1 w1|]; [|reflexivity].
  rewrite IH. reflexivity.
Qed.

(** A loop over the indices of a segment of an array is a loop over the
    segment. *)
Lemma foldM_index {A B} (g : B -> A -> M B) (pre post : list A) base todo :
  forall done acc w,
  Z.of_nat (length pre) = base ->
  foldM (fun acc j =>
           c <- loadM (pre ++ (done ++ todo) ++ post) (base + j) ;; g acc c)
        (seqZ (Z.of_nat (length done)) (Z.of_nat (length todo))) acc w
  = foldM g todo acc w.
Proof.
  induction todo as [|x todo IH]; intros done acc w Hb; [reflexivity|].
  replace (Z.of_nat (length (x :: todo)))
    with (Z.succ (Z.of_nat (length todo))) by (simpl; lia).
  rewrite seqZ_cons by lia. rewrite Z.pred_succ. cbn [foldM].
  unfold bind at 1. unfold bind at 1, loadM at 1.
  replace (pre ++ (done ++ x :: todo) ++ post)
    with ((pre ++ done) ++ x :: (todo ++ post))
    by (rewrite <- !app_assoc; reflexivity).
  replace (base + Z.of_nat (length done))
    with (Z.of_nat (length (pre ++ done))) by (rewrite length_app; lia).
  rewrite load_app_mid. unfold ret at 1. unfold bind at 2.
  destruct (g acc x w) as [acc1 w1|]; [|reflexivity].
  specialize (IH (done ++ [x]) acc1 w1 Hb).
  rewrite length_app in IH. simpl in IH.
  replace (Z.succ (Z.of_nat (length done)))
    with (Z.of_nat (length done + 1)) by lia.
  rewrite <- IH. apply foldM_ext. intros acc2 j w2.
  replace ((pre ++ done) ++ x :: todo ++ post)
    with (pre ++ ((done ++ [x]) ++ todo) ++ post)
    by (rewrite <- !app_assoc; reflexivity).
  reflexivity.
Qed.

Lemma chunks {A} n k : forall l : list A,
  length l = (k * n)%nat ->
  exists rows, l = concat rows /\ length rows = k /\
               Forall (fun r => length r = n) rows.
Proof.
  induction k as [|k IH]; intros l Hl.
  - destruct l; [|discriminate]. exists []. repeat split. constructor.
  - destruct (IH (drop n l)) as (rows & Hr & Hk & Hall).
    { rewrite length_drop. lia. }
    exists (take n l :: rows). split; [|split].
    + simpl. rewrite <- Hr, take_drop. reflexivity.
    + simpl. lia.
    + constructor; [|exact Hall]. rewrite length_take. nia.
Qed.

(** The two loops of [main] over rows and columns are one loop over the
    tiles in the order of the array. *)
Lemma bind_stop {A B} (m : M A) (k : A -> M B) w f w1 :
  m w = Abort f w1 -> bind m k w = Abort f w1.
Proof. unfold bind. intros ->. reflexivity. Qed.

Lemma histogram_rows (n : nat) todo : forall done acc w,
  Forall (fun r => length r = n) (done ++ todo) ->
  foldM (fun hist row =>
           foldM (fun hist col =>
                    c <- loadM (concat (done ++ todo))
                           (Z.of_nat n * row + col) ;;
                    countTile hist c)
                 (seqZ 0 (Z.of_nat n)) hist)
        (seqZ (Z.of_nat (length done)) (Z.of_nat (length todo))) acc w
  = foldM countTile (concat todo) acc w.
Proof.
  induction todo as [|r todo IH]; intros done acc w Hall; [reflexivity|].
  replace (Z.of_nat (length (r :: todo)))
    with (Z.succ (Z.of_nat (length todo))) by (cbn [length]; lia).
  rewrite (seqZ_cons (Z.of_nat (length done))) by lia.
  rewrite Z.pred_succ. cbn [foldM concat]. rewrite foldM_app.
  assert (Hr : length r = n).
  { apply Forall_app in Hall as [_ Hall].
    apply Forall_cons in Hall as [Hr _]. exact Hr. }
  assert (Hdone : Z.of_nat (length (concat done))
                  = Z.of_nat n * Z.of_nat (length done)).
  { apply Forall_app in Hall as [Hd _]. clear -Hd.
    induction Hd as [|x l Hx _ IHd]; [simpl; lia|].
    simpl. rewrite length_app, Hx. lia. }
  assert (Hinner :
    foldM (fun hist col =>
             c <- loadM (concat (done ++ r :: todo))
                    (Z.of_nat n * Z.of_nat (length done) + col) ;;
             countTile hist c)
          (seqZ 0 (Z.of_nat n)) acc w
    = foldM countTile r acc w).
  { rewrite concat_app. cbn [concat]. rewrite <- Hr.
    change (seqZ 0 (Z.of_nat (length r)))
      with (seqZ (Z.of_nat (length (@nil ascii))) (Z.of_nat (length r))).
    rewrite <- (foldM_index countTile (concat done) (concat todo)
                  (Z.of_nat (length r) * Z.of_nat (length done)) r [] acc w)
      by (rewrite Hr; exact Hdone).
    reflexivity. }
  destruct (foldM countTile r acc w) as [acc1 w1|f w1] eqn:Er.
  - rewrite (bind_step _ _ _ _ _ Hinner), (bind_step _ _ _ _ _ Er).
    specialize (IH (done ++ [r]) acc1 w1).
    rewrite <- app_assoc in IH. simpl in IH. rewrite length_app in IH.
    simpl in IH.
    replace (Z.succ (Z.of_nat (length done)))
      with (Z.of_nat (length done + 1)) by lia.
    apply IH, Hall.
  - rewrite (bind_stop _ _ _ _ _ Hinner), (bind_stop _ _ _ _ _ Er).
    reflexivity.
Qed.

Lemma buildHistogram_flat (n : nat) tiles w :
  boardSize (cb w) = Z.of_nat n -> length tiles = (n * n)%nat ->
  buildHistogram tiles w
  = foldM countTile tiles (replicate (Z.to_nat ALPHABET_SIZE) 0) w.
Proof.
  intros Hn Hlen. destruct (chunks n n tiles Hlen) as (rows & -> & Hk & Hall).
  unfold buildHistogram. unfold bind at 1, gets at 1, id.
  unfold getBoardIndex. rewrite Hn.
  pose proof (histogram_rows n rows [] (replicate (Z.to_nat ALPHABET_SIZE) 0)
                w Hall) as H.
  simpl in H. rewrite Hk in H. exact H.
Qed.

Lemma countTile_letter hist c w :
  length hist = Z.to_nat ALPHABET_SIZE -> is_letter c ->
  exists h, load hist (getCharIndex c) = Some h /\
    countTile hist c w
    = Done (<[Z.to_nat (getCharIndex c) := h + 1]> hist) w.
Proof.
  intros Hlen Hc. apply getCharIndex_range in Hc.
  destruct (load_in_range hist (getCharIndex c)) as [h Hh].
  { rewrite Hlen. unfold ALPHABET_SIZE in *. lia. }
  exists h. split; [exact Hh|].
  unfold countTile, bind, assert, loadM, storeM, store, ret.
  destruct (Z.ltb_spec (getCharIndex c) ALPHABET_SIZE); [|lia].
  rewrite Hh.
  destruct (Z.leb_spec 0 (getCharIndex c)); [|lia].
  destruct (Z.ltb_spec (getCharIndex c) (Z.of_nat (length hist)));
    [reflexivity|].
  rewrite Hlen in *. unfold ALPHABET_SIZE in *. lia.
Qed.

Lemma countTile_bad hist c w :
  length hist = Z.to_nat ALPHABET_SIZE -> ~ is_letter c ->
  countTile hist c w
  = Abort (if ALPHABET_SIZE <=? getCharIndex c then AssertFail
           else OutOfBounds) w.
Proof.
  intros Hlen Hc. rewrite <- getCharIndex_range in Hc.
  unfold countTile, bind, assert, loadM, ret.
  destruct (Z.ltb_spec (getCharIndex c) ALPHABET_SIZE),
    (Z.leb_spec ALPHABET_SIZE (getCharIndex c)); try lia; [|reflexivity].
  rewrite load_out_of_range; [reflexivity|]. lia.
Qed.

Lemma tally_cons c tiles i :
  tally (c :: tiles) i
  = (if getCharIndex c =? i then 1 else 0) + tally tiles i.
Proof.
  unfold tally. simpl. destruct (getCharIndex c =? i); simpl; lia.
Qed.

Lemma countTiles_letters tiles : forall hist w,
  length hist = Z.to_nat ALPHABET_SIZE -> Forall is_letter tiles ->
  exists hist',
    foldM countTile tiles hist w = Done hist' w /\
    length hist' = Z.to_nat ALPHABET_SIZE /\
    forall i h, load hist i = Some h ->
                load hist' i = Some (h + tally tiles i).
Proof.
  induction tiles as [|c tiles IH]; intros hist w Hlen Hall.
  - exists hist. split; [reflexivity|]. split; [exact Hlen|].
    intros i h Hh. rewrite Hh. f_equal. unfold tally. simpl. lia.
  - apply Forall_cons in Hall as [Hc Hall].
    destruct (countTile_letter hist c w Hlen Hc) as (h0 & Hh0 & Hrun).
    destruct (IH (<[Z.to_nat (getCharIndex c) := h0 + 1]> hist) w)
      as (hist' & Hrun' & Hlen' & Hcount); [rewrite length_insert; auto|auto|].
    exists hist'. split; [|split; [exact Hlen'|]].
    + cbn [foldM]. unfold bind. rewrite Hrun. exact Hrun'.
    + intros i h Hh. rewrite tally_cons.
      destruct (Z.eqb_spec (getCharIndex c) i) as [Heq|Hne].
      * rewrite Heq in *. rewrite Hh in Hh0. injection Hh0 as <-.
        rewrite (Hcount i (h + 1)); [f_equal; lia|].
        eapply load_insert, Hh.
      * rewrite (Hcount i h); [f_equal; lia|].
        apply load_lookup in Hh0 as [Hi _].
        rewrite load_insert_ne by auto. exact Hh.
Qed.

Lemma buildHistogram_letters (n : nat) tiles w :
  boardSize (cb w) = Z.of_nat n -> length tiles = (n * n)%nat ->
  Forall is_letter tiles ->
  exists hist,
    buildHistogram tiles w = Done hist w /\
    length hist = Z.to_nat ALPHABET_SIZE /\
    forall i, 0 <= i < ALPHABET_SIZE -> load hist i = Some (tally tiles i).
Proof.
  intros Hn Hlen Hall. rewrite (buildHistogram_flat n tiles w Hn Hlen).
  destruct (countTiles_letters tiles (replicate (Z.to_nat ALPHABET_SIZE) 0) w)
    as (hist & Hrun & Hl & Hcount); [apply length_replicate|exact Hall|].
  exists hist. split; [exact Hrun|]. split; [exact Hl|].
  intros i Hi. rewrite (Hcount i 0); [reflexivity|].
  unfold load. destruct (Z.leb_spec 0 i); [|lia].
  apply lookup_replicate_2. unfold ALPHABET_SIZE in *. lia.
Qed.

(** X19.  The frequency table.  On a board of n² letters the two loops of
    [main] return a table of 26 counts in which the count of index [i] is
    the number of tiles whose letter, of either case, has index [i]; the
    program state is as it was. *)
Theorem buildHistogram_counts (n : nat) tiles w :
  boardSize (cb w) = Z.of_nat n -> length tiles = (n * n)%nat ->
  Forall is_letter tiles ->
  exists hist,
    buildHistogram tiles w = Done hist w /\
    length hist = Z.to_nat ALPHABET_SIZE /\
    forall i, 0 <= i < ALPHABET_SIZE -> load hist i = Some (tally tiles i).
Proof. apply buildHistogram_letters. Qed.

(** X20.  A tile that is not a letter.  [chop] removes only the trailing
    bytes of a line, so a board row can hold one.  At the first such tile
    the histogram loops stop.  They stop at the assertion if the index of
    the byte is 26 or more: the bytes from '{' up to 254, whose indices are
    26 to 157.  They pass the assertion and access the table below its
    first entry if the index is negative: the bytes under 'a' that are not
    capital letters (a digit, a NUL left by a short row), and the byte 255,
    which is -1 as a [char] and has the index -98. *)
Theorem buildHistogram_bad_tile (n : nat) good c rest w :
  boardSize (cb w) = Z.of_nat n ->
  length (good ++ c :: rest) = (n * n)%nat ->
  Forall is_letter good -> ~ is_letter c ->
  buildHistogram (good ++ c :: rest) w
  = Abort (if ALPHABET_SIZE <=? getCharIndex c then AssertFail
           else OutOfBounds) w.
Proof.
  intros Hn Hlen Hgood Hc.
  rewrite (buildHistogram_flat n _ w Hn Hlen), foldM_app.
  destruct (countTiles_letters good (replicate (Z.to_nat ALPHABET_SIZE) 0) w)
    as (hist & Hrun & Hl & _); [apply length_replicate|exact Hgood|].
  unfold bind. rewrite Hrun. cbn [foldM]. unfold bind.
  rewrite (countTile_bad hist c w Hl Hc). reflexivity.
Qed.

(** ** The whole run *)

Lemma tally_nonneg tiles i : 0 <= tally tiles i.
Proof. unfold tally. lia. Qed.

Lemma tally_pos c tiles : c ∈ tiles -> 0 < tally tiles (getCharIndex c).
Proof.
  induction tiles as [|x tiles IH]; intros Hin.
  - apply elem_of_nil in Hin. contradiction.
  - rewrite tally_cons. pose proof (tally_nonneg tiles (getCharIndex c)).
    apply elem_of_cons in Hin as [->|Hin].
    + rewrite Z.eqb_refl. lia.
    + specialize (IH Hin). destruct (_ =? _); lia.
Qed.

Lemma existsb_ext {A} (f g : A -> bool) l :
  (forall x, f x = g x) -> existsb f l = existsb g l.
Proof. intros H. induction l as [|x l IH]; simpl; congruence. Qed.

Lemma forallb_false {A} (f : A -> bool) l :
  forallb f l = false -> exists x, x ∈ l /\ f x = false.
Proof.
  induction l as [|x l IH]; [discriminate|]. simpl.
  destruct (f x) eqn:Hx; simpl.
  - intros H. destruct (IH H) as (y & Hy & Hf). exists y.
    split; [apply list_elem_of_further, Hy|exact Hf].
  - intros _. exists x. split; [apply list_elem_of_here|exact Hx].
Qed.

Lemma has_childb_zeroNode i : has_childb zeroNode i = false.
Proof.
  unfold has_childb.
  destruct (load (trie_child zeroNode) i) as [[k|]|] eqn:H; try reflexivity.
  apply load_lookup in H as [_ H].
  change (trie_child zeroNode)
    with (replicate (Z.to_nat ALPHABET_SIZE) (@None Trie)) in H.
  apply lookup_replicate in H as [H _]. discriminate.
Qed.

Lemma opensb_begins n hist c dw :
  present hist c -> opensb n hist (getCharIndex c) dw = begins n c dw.
Proof.
  intros Hp. unfold opensb, begins, startsb. f_equal.
  destruct dw as [|c' rest]; [reflexivity|].
  destruct (Z.eqb_spec (getCharIndex c') (getCharIndex c)) as [E|E];
    [|reflexivity].
  rewrite (present_not_absentb hist c' c Hp E). reflexivity.
Qed.

Lemma mainExit_trace w w' : mainExit w = Done tt w' -> trace w' = trace w.
Proof.
  unfold mainExit. intros H.
  apply bind_Done in H as (d & w0 & Hd & H). unfold gets in Hd.
  injection Hd as <- <-.
  apply bind_Done in H as (d' & w1 & Hfree & H).
  assert (Ht : trace w1 = trace w).
  { unfold trieFree in Hfree. destruct (dict (cb w)) as [t|].
    - apply bind_Done in Hfree as ([] & w2 & Hnode & Hret).
      unfold ret in Hret. injection Hret as _ <-.
      destruct (trieFreeNode_spec t w) as (f & h & E & _).
      rewrite E in Hnode. injection Hnode as <-. reflexivity.
    - unfold ret in Hfree. injection Hfree as _ <-. reflexivity. }
  apply bind_Done in H as ([] & w2 & Hm & H). unfold modify in Hm.
  injection Hm as <-.
  apply bind_Done in H as (b & w3 & Hb & H). unfold gets in Hb.
  injection Hb as _ <-.
  apply bind_Done in H as ([] & w4 & Ha & H).
  unfold assert in Ha, H.
  destruct (match dict _ with None => true | Some _ => false end);
    [|discriminate].
  unfold ret in Ha. injection Ha as <-.
  destruct (_ =? _); [|discriminate].
  unfold ret in H. injection H as <-. exact Ht.
Qed.

(** [main]'s setup on a board of letters. *)
Lemma mainSetup_runs (n : nat) tiles heap :
  length tiles = (n * n)%nat -> Forall is_letter tiles ->
  exists w1,
    mainSetup (Z.of_nat n) tiles (world0 (S heap)) = Done tt w1 /\
    heapNodes w1 = heap /\
    length (histogram (cb w1)) = Z.to_nat ALPHABET_SIZE /\
    forall i, 0 <= i < ALPHABET_SIZE ->
              load (histogram (cb w1)) i = Some (tally tiles i).
Proof.
  intros Hlen Hall. unfold mainSetup.
  set (w0 := world_of (initBoggle (world0 (S heap)))).
  assert (E0 : initBoggle (world0 (S heap)) = Done tt w0) by reflexivity.
  rewrite (bind_step _ _ _ _ _ E0).
  unfold bind at 1, modify at 1.
  set (w0' := with_cb (set_boardSize (Z.of_nat n)) w0).
  destruct (buildHistogram_letters n tiles w0' eq_refl Hlen Hall)
    as (hist & Hrun & Hl & Hcount).
  rewrite (bind_step _ _ _ _ _ Hrun).
  unfold bind, modify. eexists. split; [reflexivity|].
  split; [reflexivity|]. split; [exact Hl|exact Hcount].
Qed.

Lemma ready_safe (n : nat) tiles w :
  ready (Z.of_nat n) tiles w ->
  Z.of_nat n * Z.of_nat n <= MAX_WORD_LENGTH ->
  length tiles = (n * n)%nat -> Forall is_letter tiles ->
  safe_board w.
Proof.
  intros [Hn Hb _ Hu _ _ _] Hside Hlen Hall. constructor.
  - rewrite Hn. exact Hside.
  - rewrite Hu, Hn, length_replicate. lia.
  - intros i Hi. rewrite Hn in Hi. rewrite Hb.
    destruct (load_in_range tiles i) as [c Hc]; [rewrite Hlen; lia|].
    exists c. split; [exact Hc|].
    apply load_lookup in Hc as [_ Hc]. rewrite Forall_forall in Hall.
    apply Hall. eapply list_elem_of_lookup_2, Hc.
Qed.

(** A tile without a child under the root, in terms of the two files. *)
Lemma rootless_covered (n : nat) tiles words w root :
  ready (Z.of_nat n) tiles w ->
  length tiles = (n * n)%nat -> Forall is_letter tiles ->
  trie_wf root ->
  (forall c, c ∈ tiles ->
     has_childb root (getCharIndex c)
     = existsb (begins (Z.of_nat n) c) words) ->
  rootless root w <-> covered (Z.of_nat n) tiles words = false.
Proof.
  intros [Hn Hb _ _ _ _ _] Hlen Hall Hwf Hch. split.
  - intros (i & j & c & _ & Hl & Hk). rewrite Hb in Hl.
    apply load_lookup in Hl as [_ Hl].
    apply list_elem_of_lookup_2 in Hl.
    destruct (covered _ tiles words) eqn:Hc; [|reflexivity].
    unfold covered in Hc. rewrite forallb_forall in Hc.
    specialize (Hc c (proj1 (list_elem_of_In _ _) Hl)).
    rewrite <- (Hch c Hl) in Hc. unfold has_childb in Hc.
    rewrite Hk in Hc. discriminate.
  - intros Hc. apply forallb_false in Hc as (c & Hin & Hc).
    rewrite <- (Hch c Hin) in Hc.
    apply list_elem_of_lookup_1 in Hin as [p Hp].
    pose proof (lookup_lt_Some _ _ _ Hp) as Hlt. rewrite Hlen in Hlt.
    assert (Hpos : 0 < Z.of_nat n) by nia.
    set (P := Z.of_nat p). set (N := Z.of_nat n) in *.
    exists (P / N), (P mod N), c.
    pose proof (Z.div_mod P N ltac:(lia)) as Hdm.
    pose proof (Z.mod_pos_bound P N Hpos) as Hmod.
    assert (Hdiv : 0 <= P / N < N).
    { split; [apply Z.div_pos; lia|].
      apply Z.div_lt_upper_bound; [lia|]. subst P N. nia. }
    split; [split; simpl; rewrite Hn; lia|]. split.
    + rewrite Hn, Hb. unfold cell_index. simpl. rewrite <- Hdm.
      unfold load. destruct (Z.leb_spec 0 P); [|lia].
      subst P. rewrite Nat2Z.id. exact Hp.
    + rewrite Forall_forall in Hall.
      assert (Hc' : is_letter c)
        by (apply Hall; eapply list_elem_of_lookup_2, Hp).
      apply getCharIndex_range in Hc'.
      destruct (trie_wf_slot root _ Hwf Hc') as [[k|] Hs]; [|exact Hs].
      unfold has_childb in Hc. rewrite Hs in Hc. discriminate.
Qed.

(** X21.  The whole run.  On a board of n² letters, n² at most the size
    of the word buffer, and a dictionary of non-empty lines of letters,
    with a heap that holds the trie and as much recursion depth as there
    are tiles: if every tile is the first letter of a line that passes
    the length test, [main] returns, with both of its final assertions
    passed, and has printed exactly the words of the dictionary that valid
    paths spell, each with the last tile of its path; if some tile is not,
    the program stops at [assert(node != NULL)] in [findSolution]. *)
Theorem mainRun_outcome fuel (n : nat) tiles words heap :
  Z.of_nat n * Z.of_nat n <= MAX_WORD_LENGTH ->
  length tiles = (n * n)%nat -> Forall is_letter tiles ->
  Forall (fun dw => dw <> [] /\ Forall is_letter dw) words ->
  (total_letters words <= heap)%nat -> (n * n <= fuel)%nat ->
  if covered (Z.of_nat n) tiles words
  then exists w',
         mainRun fuel (Z.of_nat n) tiles words (world0 (S heap)) = Done tt w' /\
         forall word row col,
           (word, row, col) ∈ stdout (trace w') <->
           exists path,
             head path = Some (row, col) /\ valid_path (Z.of_nat n) path /\
             spelled (Z.of_nat n) tiles path word /\
             exists dw, dw ∈ words /\ letters dw = letters word
  else exists w',
         mainRun fuel (Z.of_nat n) tiles words (world0 (S heap))
         = Abort AssertFail w'.
Proof.
  intros Hside Hlen Hall Hwords Hheap Hfuel.
  destruct (mainSetup_runs n tiles heap Hlen Hall)
    as (w1 & Hsetup & Hh1 & Hl1 & Hcount).
  pose proof (mainSetup_ready _ _ _ _ Hsetup) as Hr1.
  pose proof (mainSetup_dict _ _ _ _ Hsetup) as Hd1.
  assert (Hb1 : built w1).
  { eapply mainSetup_built; [exact Hsetup|]. rewrite Hd1. discriminate. }
  destruct (trieBuildLoop_safe words 0 w1 zeroNode Hd1 zeroNode_wf Hl1 Hwords)
    as (ok & cnt & w2 & root & Hbuild & Hd2 & Hwf & _ & Hok).
  rewrite Hh1 in Hok. specialize (Hok Hheap). subst ok.
  change (trieBuild words w1 = Done (true, cnt) w2) in Hbuild.
  pose proof (ready_same_but_dict _ _ _ _ Hr1 (trieBuild_frame _ _ _ _ Hbuild))
    as Hr2.
  pose proof (ready_idle _ _ _ Hr2) as Hidle.
  pose proof (ready_safe n tiles w2 Hr2 Hside Hlen Hall) as Hsafe.
  pose proof (trieBuild_built _ _ _ _ Hb1 Hbuild) as Hb2.
  assert (Hch : forall c, c ∈ tiles ->
            has_childb root (getCharIndex c)
            = existsb (begins (Z.of_nat n) c) words).
  { intros c Hin.
    destruct (trieBuildLoop_child words (getCharIndex c) 0 w1 cnt w2 zeroNode
                Hd1 Hbuild) as (root' & Hd' & Hc).
    rewrite Hd2 in Hd'. injection Hd' as <-.
    rewrite Hc, has_childb_zeroNode. simpl.
    rewrite (ready_size _ _ _ Hr1). apply existsb_ext. intros dw.
    apply opensb_begins. exists (tally tiles (getCharIndex c)). split.
    - apply Hcount. apply getCharIndex_range.
      rewrite Forall_forall in Hall. auto.
    - apply tally_pos, Hin. }
  pose proof (rootless_covered n tiles words w2 root Hr2 Hlen Hall Hwf Hch)
    as Hroot.
  assert (Hused : (length (used (cb w2)) <= fuel)%nat).
  { rewrite (ready_used _ _ _ Hr2), length_replicate. lia. }
  destruct (playBoggle_outcome fuel w2 root Hidle Hd2 Hsafe Hwf Hused)
    as [Hdone Hstop].
  unfold mainRun. rewrite (bind_step _ _ _ _ _ Hsetup).
  rewrite (bind_step _ _ _ _ _ Hbuild). cbn [fst].
  destruct (covered (Z.of_nat n) tiles words).
  - destruct Hdone as [w3 Hplay].
    { intros Hr. apply Hroot in Hr. discriminate. }
    rewrite (bind_step _ _ _ _ _ Hplay).
    assert (Hb3 : built w3).
    { destruct (playBoggle_ok fuel w2 Hidle) as (evs & _ & Ho).
      rewrite Hplay in Ho. subst w3.
      eapply built_other; [exact Hb2| | |]; reflexivity. }
    destruct (mainExit_counted w3 (built_counted _ Hb3)) as (w4 & Hexit & _).
    exists w4. split; [exact Hexit|].
    rewrite (mainExit_trace _ _ Hexit).
    exact (main_prints fuel (Z.of_nat n) tiles words heap w1 cnt w2 w3
             Hsetup Hbuild Hplay).
  - destruct Hstop as [w3 Hplay]; [apply Hroot; reflexivity|].
    exists w3. rewrite (bind_stop _ _ _ _ _ Hplay). reflexivity.
Qed.

(** ** Instances of the properties of the file reading *)

Lemma newline_not_letter : ~ is_letter newline.
Proof. intros [H|H]; vm_compute in H; lia. Qed.

Lemma blank_no_letter : Forall (fun c => ~ is_letter c) [newline].
Proof. apply Forall_cons. split; [exact newline_not_letter|apply Forall_nil_2]. Qed.

Lemma demo_line_ok s :
  Forall (fun ch => ch <> NUL) s -> (length s < 128)%nat ->
  line_ok demo_buf s.
Proof. intros H1 H2. split; [exact H1|]. exact H2. Qed.

Ltac line_facts :=
  split;
  [apply demo_line_ok;
   [repeat (apply Forall_cons; split; [discriminate|]); apply Forall_nil_2
   |simpl; lia]
  |apply Exists_cons_hd, lower_is_letter; reflexivity].

Lemma demo_dict_lines_ok :
  Forall (fun line => line_ok demo_buf line /\ Exists is_letter line)
         demo_dict_lines.
Proof.
  unfold demo_dict_lines.
  repeat (apply Forall_cons; split; [line_facts|]). apply Forall_nil_2.
Qed.

Lemma demo_board_square : square_file demo_buf 2 demo_board_lines.
Proof.
  split; [reflexivity|]. unfold demo_board_lines.
  repeat (apply Forall_cons; split;
          [split; [apply demo_line_ok;
                   [repeat (apply Forall_cons; split; [discriminate|]);
                    apply Forall_nil_2
                   |simpl; lia]
                  |split; [apply Exists_cons_hd, lower_is_letter; reflexivity
                          |reflexivity]]|]).
  apply Forall_nil_2.
Qed.

Lemma blank_line_ok : line_ok demo_buf [newline].
Proof.
  apply demo_line_ok; [|simpl; lia].
  apply Forall_cons. split; [discriminate|apply Forall_nil_2].
Qed.

Lemma demo_chopped_eq :
  trieBuild (map chopped demo_dict_lines) demo_setup = Done (true, 4) demo.
Proof. vm_compute. reflexivity. Qed.

Lemma demo_board_letters : Forall is_letter demo_board.
Proof.
  unfold demo_board.
  repeat (apply Forall_cons; split; [apply lower_is_letter; reflexivity|]).
  apply Forall_nil_2.
Qed.

Lemma demo_setup_size : boardSize (cb demo_setup) = Z.of_nat 2.
Proof. vm_compute. reflexivity. Qed.

Lemma chop_trims_witness :
  cstring (fgets (chars "ab" ++ [newline]) demo_buf)
  = Some (chars "ab" ++ [newline]) /\
  Exists is_letter (chars "ab" ++ [newline]) /\
  exists buf',
    chop (fgets (chars "ab" ++ [newline]) demo_buf) demo_setup
    = Done (buf', Z.of_nat (length (chopped (chars "ab" ++ [newline]))))
           demo_setup /\
    cstring buf' = Some (chopped (chars "ab" ++ [newline])) /\
    length buf' = length (fgets (chars "ab" ++ [newline]) demo_buf) /\
    exists kept c, chopped (chars "ab" ++ [newline]) = kept ++ [c] /\
                   is_letter c.
Proof.
  assert (H1 : cstring (fgets (chars "ab" ++ [newline]) demo_buf)
               = Some (chars "ab" ++ [newline])) by (vm_compute; reflexivity).
  assert (H2 : Exists is_letter (chars "ab" ++ [newline]))
    by (apply Exists_cons_hd, lower_is_letter; reflexivity).
  split; [exact H1|]. split; [exact H2|].
  apply (chop_trims (fgets (chars "ab" ++ [newline]) demo_buf)
           (chars "ab" ++ [newline]) demo_setup H1 H2).
Defined.

Lemma blank_buffer_no_letter :
  forall line, cstring (fgets [newline] demo_buf) = Some line ->
               Forall (fun c => ~ is_letter c) line.
Proof.
  intros line H. vm_compute in H. injection H as <-. exact blank_no_letter.
Qed.

Lemma chop_no_letter_witness :
  (forall line, cstring (fgets [newline] demo_buf) = Some line ->
                Forall (fun c => ~ is_letter c) line) /\
  chop (fgets [newline] demo_buf) demo_setup = Abort OutOfBounds demo_setup.
Proof.
  split; [exact blank_buffer_no_letter|].
  apply (chop_no_letter (fgets [newline] demo_buf) demo_setup
           blank_buffer_no_letter).
Defined.

Lemma trieBuildFile_lines_witness :
  Forall (fun line => line_ok demo_buf line /\ Exists is_letter line)
         demo_dict_lines /\
  trieBuildFile demo_dict_lines demo_buf demo_setup
  = trieBuild (map chopped demo_dict_lines) demo_setup.
Proof.
  split; [exact demo_dict_lines_ok|].
  apply (trieBuildFile_lines demo_dict_lines demo_buf demo_setup
           demo_dict_lines_ok).
Defined.

Lemma trieBuildFile_blank_line_witness :
  Forall (fun line => line_ok demo_buf line /\ Exists is_letter line)
         demo_dict_lines /\
  line_ok demo_buf [newline] /\
  Forall (fun c => ~ is_letter c) [newline] /\
  trieBuild (map chopped demo_dict_lines) demo_setup = Done (true, 4) demo /\
  trieBuildFile (demo_dict_lines ++ [newline] :: []) demo_buf demo_setup
  = Abort OutOfBounds demo.
Proof.
  split; [exact demo_dict_lines_ok|]. split; [exact blank_line_ok|].
  split; [exact blank_no_letter|]. split; [exact demo_chopped_eq|].
  apply (trieBuildFile_blank_line demo_dict_lines [newline] [] demo_buf
           demo_setup 4 demo demo_dict_lines_ok blank_line_ok blank_no_letter
           demo_chopped_eq).
Defined.

Lemma two_pos : (0 < 2)%nat.
Proof. lia. Qed.

Lemma readBoard_square_witness :
  square_file demo_buf 2 demo_board_lines /\ (0 < 2)%nat /\
  readBoard demo_board_lines demo_buf (world0 16)
  = Done (Some (tiles_of demo_board_lines), Z.of_nat 2)
         (with_cb (set_boardSize (Z.of_nat 2)) (world0 16)).
Proof.
  split; [exact demo_board_square|]. split; [exact two_pos|].
  apply (readBoard_square 2 demo_board_lines demo_buf (world0 16)
           demo_board_square two_pos).
Defined.

Lemma extra_line_ok : line_ok demo_buf (chars "ef" ++ [newline]).
Proof.
  apply demo_line_ok; [|simpl; lia].
  repeat (apply Forall_cons; split; [discriminate|]). apply Forall_nil_2.
Qed.

Lemma extra_line_letter : Exists is_letter (chars "ef" ++ [newline]).
Proof. apply Exists_cons_hd, lower_is_letter. reflexivity. Qed.

Lemma readBoard_extra_line_witness :
  square_file demo_buf 2 demo_board_lines /\ (0 < 2)%nat /\
  line_ok demo_buf (chars "ef" ++ [newline]) /\
  Exists is_letter (chars "ef" ++ [newline]) /\
  readBoard (demo_board_lines ++ (chars "ef" ++ [newline]) :: []) demo_buf
    (world0 16)
  = Abort OutOfBounds (with_cb (set_boardSize (Z.of_nat 2)) (world0 16)).
Proof.
  split; [exact demo_board_square|]. split; [exact two_pos|].
  split; [exact extra_line_ok|]. split; [exact extra_line_letter|].
  apply (readBoard_extra_line 2 demo_board_lines (chars "ef" ++ [newline]) []
           demo_buf (world0 16) demo_board_square two_pos extra_line_ok
           extra_line_letter).
Defined.

Lemma mainFile_run_witness :
  square_file demo_buf 2 demo_board_lines /\ (0 < 2)%nat /\
  Forall (fun line => line_ok demo_buf line /\ Exists is_letter line)
         demo_dict_lines /\
  mainFile 4 demo_board_lines demo_dict_lines demo_buf demo_buf (world0 16)
  = mainRun 4 (Z.of_nat 2) (tiles_of demo_board_lines)
      (map chopped demo_dict_lines) (world0 16).
Proof.
  split; [exact demo_board_square|]. split; [exact two_pos|].
  split; [exact demo_dict_lines_ok|].
  apply (mainFile_run 4 2 demo_board_lines demo_dict_lines demo_buf demo_buf
           (world0 16) demo_board_square two_pos demo_dict_lines_ok).
Defined.

Lemma trieBuild_root_children_witness :
  dict (cb demo_setup) = Some zeroNode /\
  trieBuild demo_words demo_setup = Done (true, 4) demo /\
  exists root', dict (cb demo) = Some root' /\
    has_childb root' 0
    = has_childb zeroNode 0 ||
      existsb (opensb (boardSize (cb demo_setup))
                 (histogram (cb demo_setup)) 0) demo_words.
Proof.
  split; [exact demo_setup_dict|]. split; [exact demo_eq|].
  apply (trieBuild_root_children demo_words demo_setup zeroNode 4 demo 0
           demo_setup_dict demo_eq).
Defined.

Lemma demo_board_length : length demo_board = (2 * 2)%nat.
Proof. reflexivity. Qed.

Lemma buildHistogram_counts_witness :
  boardSize (cb demo_setup) = Z.of_nat 2 /\
  length demo_board = (2 * 2)%nat /\
  Forall is_letter demo_board /\
  exists hist,
    buildHistogram demo_board demo_setup = Done hist demo_setup /\
    length hist = Z.to_nat ALPHABET_SIZE /\
    forall i, 0 <= i < ALPHABET_SIZE ->
              load hist i = Some (tally demo_board i).
Proof.
  split; [exact demo_setup_size|]. split; [exact demo_board_length|].
  split; [exact demo_board_letters|].
  apply (buildHistogram_counts 2 demo_board demo_setup demo_setup_size
           demo_board_length demo_board_letters).
Defined.

Lemma high_not_letter : ~ is_letter "255".
Proof. intros [H|H]; vm_compute in H; lia. Qed.

Lemma brace_not_letter : ~ is_letter "{".
Proof. intros [H|H]; vm_compute in H; lia. Qed.

Lemma bad_board_length :
  length (chars "a" ++ "1"%char :: chars "cd") = (2 * 2)%nat.
Proof. reflexivity. Qed.

Lemma bad_board_good : Forall is_letter (chars "a").
Proof.
  apply Forall_cons. split; [apply lower_is_letter; reflexivity|].
  apply Forall_nil_2.
Qed.

Lemma buildHistogram_bad_tile_witness :
  boardSize (cb demo_setup) = Z.of_nat 2 /\
  length (chars "a" ++ "1"%char :: chars "cd") = (2 * 2)%nat /\
  Forall is_letter (chars "a") /\ ~ is_letter "1" /\
  ~ is_letter "255" /\ ~ is_letter "{" /\
  buildHistogram (chars "a" ++ "1"%char :: chars "cd") demo_setup
  = Abort OutOfBounds demo_setup /\
  buildHistogram (chars "a" ++ "255"%char :: chars "cd") demo_setup
  = Abort OutOfBounds demo_setup /\
  buildHistogram (chars "a" ++ "{"%char :: chars "cd") demo_setup
  = Abort AssertFail demo_setup.
Proof.
  split; [exact demo_setup_size|]. split; [exact bad_board_length|].
  split; [exact bad_board_good|]. split; [exact digit_not_letter|].
  split; [exact high_not_letter|]. split; [exact brace_not_letter|].
  split; [|split].
  - apply (buildHistogram_bad_tile 2 (chars "a") "1" (chars "cd") demo_setup
             demo_setup_size bad_board_length bad_board_good
             digit_not_letter).
  - apply (buildHistogram_bad_tile 2 (chars "a") "255" (chars "cd")
             demo_setup demo_setup_size bad_board_length bad_board_good
             high_not_letter).
  - apply (buildHistogram_bad_tile 2 (chars "a") "{" (chars "cd") demo_setup
             demo_setup_size bad_board_length bad_board_good
             brace_not_letter).
Defined.

Lemma demo_side : Z.of_nat 2 * Z.of_nat 2 <= MAX_WORD_LENGTH.
Proof. vm_compute. discriminate. Qed.

Lemma demo_heap : (total_letters demo_words <= 15)%nat.
Proof. vm_compute. lia. Qed.

Lemma demo_fuel : (2 * 2 <= 4)%nat.
Proof. lia. Qed.

Lemma mainRun_outcome_witness :
  Z.of_nat 2 * Z.of_nat 2 <= MAX_WORD_LENGTH /\
  length demo_board = (2 * 2)%nat /\ Forall is_letter demo_board /\
  Forall (fun dw => dw <> [] /\ Forall is_letter dw) demo_words /\
  (total_letters demo_words <= 15)%nat /\ (2 * 2 <= 4)%nat /\
  if covered (Z.of_nat 2) demo_board demo_words
  then exists w',
         mainRun 4 (Z.of_nat 2) demo_board demo_words (world0 (S 15))
         = Done tt w' /\
         forall word row col,
           (word, row, col) ∈ stdout (trace w') <->
           exists path,
             head path = Some (row, col) /\ valid_path (Z.of_nat 2) path /\
             spelled (Z.of_nat 2) demo_board path word /\
             exists dw, dw ∈ demo_words /\ letters dw = letters word
  else exists w',
         mainRun 4 (Z.of_nat 2) demo_board demo_words (world0 (S 15))
         = Abort AssertFail w'.
Proof.
  split; [exact demo_side|]. split; [exact demo_board_length|].
  split; [exact demo_board_letters|]. split; [exact demo_words_letters|].
  split; [exact demo_heap|]. split; [exact demo_fuel|].
  apply (mainRun_outcome 4 2 demo_board demo_words 15 demo_side
           demo_board_length demo_board_letters demo_words_letters demo_heap
           demo_fuel).
Defined.

(** ** No path is reported twice *)

Lemma found_paths_app a b :
  found_paths (a ++ b) = found_paths a ++ found_paths b.
Proof. apply omap_app. Qed.

Lemma step_once_quiet (P : list cell -> Prop) w evs o :
  found_paths evs = [] ->
  match o with
  | Done _ w' => w' = with_trace w evs
  | Abort _ w' => trace w' = trace w ++ evs
  end ->
  step_once P w o.
Proof.
  intros Hq Ho. exists evs. rewrite Hq.
  split; [constructor|]. split; [constructor|exact Ho].
Qed.

Lemma step_once_trans (P : list cell -> Prop) w evs0 o :
  found_paths evs0 = [] ->
  step_once P (with_trace w evs0) o -> step_once P w o.
Proof.
  intros Hq (evs & Hnd & Hall & Ho). exists (evs0 ++ evs).
  rewrite found_paths_app, Hq. simpl.
  split; [exact Hnd|]. split; [exact Hall|].
  destruct o as [[] w'|f w'].
  - rewrite Ho. apply with_trace_app.
  - simpl in Ho. rewrite Ho, app_assoc. reflexivity.
Qed.

Lemma step_once_weaken (P Q : list cell -> Prop) w o :
  (forall q, P q -> Q q) -> step_once P w o -> step_once Q w o.
Proof.
  intros H (evs & Hnd & Hall & Ho). exists evs.
  split; [exact Hnd|]. split; [|exact Ho].
  eapply Forall_impl; [exact Hall|exact H].
Qed.

(** A loop whose iterations report paths of pairwise disjoint kinds. *)
Lemma for_each_once {A} (P : A -> list cell -> Prop) (I : World -> Prop)
    (l : list A) body :
  NoDup l ->
  (forall x y q, x ∈ l -> y ∈ l -> x <> y -> P x q -> P y q -> False) ->
  (forall w evs, I w -> I (with_trace w evs)) ->
  (forall x w, x ∈ l -> I w -> step_once (P x) w (body x w)) ->
  forall w, I w ->
    step_once (fun q => exists x, x ∈ l /\ P x q) w (for_each l body w).
Proof.
  intros Hnd Hdis HI Hbody. induction l as [|x l IH]; intros w Hw; simpl.
  - apply (step_once_quiet _ w []); [reflexivity|].
    symmetry. apply with_trace_nil.
  - apply NoDup_cons in Hnd as [Hx Hnd]. unfold bind.
    destruct (Hbody x w (list_elem_of_here _ _) Hw)
      as (evs1 & Hnd1 & Hall1 & Ho1).
    destruct (body x w) as [[] w1|f w1].
    + subst w1.
      destruct (IH Hnd) with (w := with_trace w evs1)
        as (evs2 & Hnd2 & Hall2 & Ho2).
      * intros y z q Hy Hz. apply Hdis; apply list_elem_of_further; auto.
      * intros y w' Hy. apply Hbody, list_elem_of_further, Hy.
      * apply HI, Hw.
      * exists (evs1 ++ evs2). rewrite found_paths_app. split; [|split].
        -- apply NoDup_app. split; [exact Hnd1|]. split; [|exact Hnd2].
           intros q H1 H2. rewrite Forall_forall in Hall1, Hall2.
           destruct (Hall2 q H2) as (y & Hy & HPy).
           apply (Hdis x y q); auto using list_elem_of_here,
             list_elem_of_further.
           intros ->. contradiction.
        -- apply Forall_app. split.
           ++ eapply Forall_impl; [exact Hall1|]. intros q Hq.
              exists x. split; [apply list_elem_of_here|exact Hq].
           ++ eapply Forall_impl; [exact Hall2|]. intros q (y & Hy & Hq).
              exists y. split; [apply list_elem_of_further, Hy|exact Hq].
        -- destruct (for_each l body (with_trace w evs1)) as [[] w2|f w2].
           ++ rewrite Ho2. apply with_trace_app.
           ++ simpl in Ho2. rewrite Ho2, app_assoc. reflexivity.
    + exists evs1. split; [exact Hnd1|]. split; [|exact Ho1].
      eapply Forall_impl; [exact Hall1|]. intros q Hq.
      exists x. split; [apply list_elem_of_here|exact Hq].
Qed.

Lemma through_differ q1 q2 p path :
  through q1 p path -> through q2 p path -> q1 = q2.
Proof.
  intros (e1 & ->) (e2 & H). apply (f_equal (@rev cell)) in H.
  rewrite !rev_app_distr in H. simpl in H. rewrite <- !app_assoc in H.
  apply app_inv_head in H. simpl in H. congruence.
Qed.

Lemma through_longer q p path : through q p path -> path <> p.
Proof.
  intros (ext & ->) H. apply (f_equal length) in H.
  rewrite length_app in H. simpl in H. lia.
Qed.

Section ExploreOnce.
Variable fuel' : nat.
Hypothesis IH : forall row col nd si w,
  at_tile row col si w ->
  step_once (fun q => exists ext, q = ext ++ gpath w)
    w (findSolution fuel' row col (Some nd) si w).

Lemma explore_once row col si nd nr nc w :
  at_tile row col si w ->
  in_grid (boardSize (cb w)) (nr, nc) ->
  Z.abs (nr - row) <= 1 -> Z.abs (nc - col) <= 1 ->
  step_once (through (nr, nc) (gpath w))
    w (explore (findSolution fuel') nd si nr nc (cb w) w).
Proof.
  intros Hat Hin Hr Hc.
  unfold explore.
  change (getBoardIndex (cb w) nr nc)
    with (cell_index (boardSize (cb w)) (nr, nc)).
  set (i := cell_index (boardSize (cb w)) (nr, nc)).
  unfold bind at 1.
  destruct (isValid_spec i nd w) as [E|(v & E & Hv)]; rewrite E.
  { apply (step_once_quiet _ w [Probe i]); reflexivity. }
  destruct v.
  2:{ apply (step_once_quiet _ w [Probe i]); reflexivity. }
  destruct (Hv eq_refl) as (Hu & c & k & Hb & Hk). clear Hv E.
  assert (Hcn : c <> NUL).
  { apply getCharIndex_NUL. apply load_lookup in Hk. tauto. }
  apply (step_once_trans _ w [Probe i]); [reflexivity|].
  set (wp := with_trace w [Probe i]).
  assert (Hat' : at_tile row col si wp) by (apply at_tile_with_trace, Hat).
  unfold loadM at 1.
  change i with (cell_index (boardSize (cb wp)) (nr, nc)) in Hu, Hb |- *.
  change (used (cb w)) with (used (cb wp)) in Hu.
  change (board (cb w)) with (board (cb wp)) in Hb |- *.
  change (boardSize (cb w)) with (boardSize (cb wp)) in Hin |- *.
  change (gpath w) with (gpath wp).
  clearbody wp. clear Hat. clear i.
  rewrite Hb. unfold bind at 1, ret at 1. unfold bind at 1.
  destruct Hat' as (Hinv & (rest & Hp) & Hsi).
  assert (Hnear : near_head (gpath wp) nr nc) by (rewrite Hp; simpl; auto).
  pose proof (markUsed_spec nr nc si wp) as Hmu.
  destruct (markUsed nr nc si wp) as [[] w1|f w1].
  2:{ destruct Hmu as [Ht _]. apply (step_once_quiet _ wp []);
        [reflexivity|]. rewrite app_nil_r. exact Ht. }
  destruct Hmu as (_ & c' & s' & Hb' & Hst & ->).
  rewrite Hb in Hb'. injection Hb' as <-.
  destruct (marked_at_tile _ _ _ _ _ _ Hinv Hsi Hin Hnear Hu Hb Hst)
    as [Hat1 _].
  specialize (Hat1 Hcn).
  unfold bind at 1, loadM at 1. rewrite Hk. unfold ret at 1.
  unfold bind at 1.
  destruct (IH nr nc k (si + 1) _ Hat1) as (evs & Hnd & Hall & Ho).
  change (gpath (marked wp nr nc si s')) with ((nr, nc) :: gpath wp) in Hall.
  destruct (findSolution fuel' nr nc (Some k) (si + 1) _) as [[] w2|f w2].
  2:{ eexists (Snap _ _ _ :: evs). split; [exact Hnd|].
      split; [exact Hall|]. rewrite Ho. simpl.
      rewrite <- app_assoc. reflexivity. }
  subst w2.
  pose proof (markUnused_spec nr nc si
                (with_trace (marked wp nr nc si s') evs)) as Hmn.
  destruct (markUnused nr nc si _) as [[] w3|f w3].
  2:{ eexists (Snap _ _ _ :: evs). split; [exact Hnd|].
      split; [exact Hall|]. destruct Hmn as [Ht _]. rewrite Ht. simpl.
      rewrite <- app_assoc. reflexivity. }
  destruct Hmn as (_ & s2 & Hst2 & ->).
  rewrite (unmarked_marked _ _ _ _ _ _ _ _ Hinv Hsi Hu Hst Hst2).
  eexists. split; [|split; [|reflexivity]].
  - simpl. rewrite found_paths_app. simpl. rewrite app_nil_r. exact Hnd.
  - simpl. rewrite found_paths_app. simpl. rewrite app_nil_r. exact Hall.
Qed.
End ExploreOnce.

(** The fourth master lemma of the search: the paths a call of
    [findSolution] reports are pairwise different, and each extends the
    path the call was made on. *)
Lemma findSolution_once fuel : forall row col nd si w,
  at_tile row col si w ->
  step_once (fun q => exists ext, q = ext ++ gpath w)
    w (findSolution fuel row col (Some nd) si w).
Proof.
  induction fuel as [|fuel' IH]; intros row col nd si w Hat.
  { apply (step_once_quiet _ w []); [reflexivity|]. simpl.
    rewrite app_nil_r. reflexivity. }
  rewrite findSolution_unfold.
  set (p := gpath w).
  assert (Hloops : forall w0,
    at_tile row col si w0 -> cb w0 = cb w -> gpath w0 = p ->
    step_once (fun q => exists nr nc, through (nr, nc) p q) w0
      ((bs <- gets boardSize ;;
        for_each (seqZ (-1) 3) (fun rowDiff =>
          let newRow := row + rowDiff in
          if (0 <=? newRow) && (newRow <? bs) then
            for_each (seqZ (-1) 3) (fun colDiff =>
              let newCol := col + colDiff in
              b <- gets id ;;
              if (0 <=? newCol) && (newCol <? bs) then
                explore (findSolution fuel') nd si newRow newCol b
              else ret tt)
          else ret tt)) w0)).
  { intros w0 Hat0 Hcb0 Hp0. unfold bind at 1, gets at 1.
    set (bs := boardSize (cb w0)).
    set (I := fun w1 : World =>
      at_tile row col si w1 /\ cb w1 = cb w0 /\ gpath w1 = p).
    assert (HI : forall w1 evs, I w1 -> I (with_trace w1 evs)).
    { intros w1 evs (H1 & H2 & H3).
      split; [apply at_tile_with_trace, H1|]. unfold I. auto. }
    set (P2 := fun rd cd => through (row + rd, col + cd) p).
    set (P1 := fun rd q => exists cd, cd ∈ seqZ (-1) 3 /\ P2 rd cd q).
    apply (step_once_weaken
             (fun q => exists rd, rd ∈ seqZ (-1) 3 /\ P1 rd q)).
    { intros q (rd & _ & cd & _ & Hq). eauto. }
    apply (for_each_once P1 I); [apply NoDup_seqZ| |exact HI| |].
    - intros rd rd' q _ _ Hne (cd & _ & H1) (cd' & _ & H2).
      pose proof (through_differ _ _ _ _ H1 H2) as E.
      injection E as E1 E2. lia.
    - intros rd w1 Hrd HI1. cbv zeta.
      destruct ((0 <=? row + rd) && (row + rd <? bs)) eqn:Er.
      2:{ apply (step_once_quiet _ w1 []); [reflexivity|].
          symmetry. apply with_trace_nil. }
      apply (for_each_once (P2 rd) I); [apply NoDup_seqZ| |exact HI| |exact HI1].
      + intros cd cd' q _ _ Hne H1 H2.
        pose proof (through_differ _ _ _ _ H1 H2) as E.
        injection E as E. lia.
      + intros cd w2 Hcd (Hat2 & Hcb2 & Hp2). cbv zeta.
        unfold bind at 1, gets at 1. unfold id.
        destruct ((0 <=? col + cd) && (col + cd <? bs)) eqn:Ec.
        2:{ apply (step_once_quiet _ w2 []); [reflexivity|].
            symmetry. apply with_trace_nil. }
        apply andb_true_iff in Er as [Hr1%Z.leb_le Hr2%Z.ltb_lt].
        apply andb_true_iff in Ec as [Hc1%Z.leb_le Hc2%Z.ltb_lt].
        apply elem_of_diffs in Hrd, Hcd.
        unfold P2. rewrite <- Hp2.
        apply (explore_once fuel' IH row col si nd (row + rd) (col + cd)
                 w2 Hat2).
        * rewrite Hcb2. split; simpl; fold bs; lia.
        * replace (row + rd - row) with rd by lia. exact Hrd.
        * replace (col + cd - col) with cd by lia. exact Hcd.
    - unfold I. auto. }
  unfold bind at 1.
  destruct (Z.land (trie_flags nd) FLAGS_ISWORD =? 0).
  { unfold ret at 1.
    eapply step_once_weaken; [|apply Hloops; auto].
    intros q (nr & nc & ext & ->). exists (ext ++ [(nr, nc)]).
    rewrite <- app_assoc. reflexivity. }
  pose proof (printFound_spec row col w) as Hpf.
  destruct (printFound row col w) as [[] w1|f w1].
  2:{ destruct Hpf as [-> _]. apply (step_once_quiet _ w []);
        [reflexivity|]. rewrite app_nil_r. reflexivity. }
  destruct Hpf as (word & _ & ->).
  destruct (Hloops (with_trace w [Found word row col p]))
    as (evs & Hnd & Hall & Ho);
    [apply at_tile_with_trace, Hat|reflexivity|reflexivity|].
  exists (Found word row col p :: evs). cbn [found_paths omap].
  fold (found_paths evs). split; [|split].
  - apply NoDup_cons. split; [|exact Hnd].
    intros Hin. rewrite Forall_forall in Hall.
    destruct (Hall _ Hin) as (nr & nc & Hth).
    exact (through_longer _ _ _ Hth eq_refl).
  - apply Forall_cons. split; [exists []; reflexivity|].
    eapply Forall_impl; [exact Hall|].
    intros q (nr & nc & ext & ->). exists (ext ++ [(nr, nc)]).
    rewrite <- app_assoc. reflexivity.
  - destruct (_ _ : outcome unit) as [[] w2|f w2].
    + rewrite Ho. apply with_trace_app.
    + simpl in Ho. rewrite Ho, <- app_assoc. reflexivity.
Qed.

Lemma start_once fuel i j w :
  search_inv w -> gpath w = [] ->
  in_grid (boardSize (cb w)) (i, j) ->
  step_once (through (i, j) []) w (start fuel i j w).
Proof.
  intros Hinv Hp Hin. unfold start. unfold bind at 1.
  assert (Hsi : 0 = Z.of_nat (length (gpath w))) by (rewrite Hp; reflexivity).
  assert (Hnear : near_head (gpath w) i j) by (rewrite Hp; exact I).
  pose proof (markUsed_spec i j 0 w) as Hmu.
  destruct (markUsed i j 0 w) as [[] w1|f w1].
  2:{ destruct Hmu as [Ht _]. apply (step_once_quiet _ w []);
        [reflexivity|]. rewrite app_nil_r. exact Ht. }
  destruct Hmu as (Hu & c & s' & Hb & Hst & ->).
  destruct (marked_at_tile _ _ _ _ _ _ Hinv Hsi Hin Hnear Hu Hb Hst)
    as [Hat1 _].
  unfold bind at 1, gets at 1, id.
  change (getBoardIndex (cb (marked w i j 0 s')) i j)
    with (cell_index (boardSize (cb w)) (i, j)).
  change (board (cb (marked w i j 0 s'))) with (board (cb w)).
  change (dict (cb (marked w i j 0 s'))) with (dict (cb w)).
  unfold loadM at 1. rewrite Hb. unfold bind at 1, ret at 1.
  unfold bind at 1.
  assert (Hstop : forall f,
    step_once (through (i, j) []) w (Abort f (marked w i j 0 s'))).
  { intros f. eapply (step_once_quiet _ w [Snap _ _ _]); reflexivity. }
  destruct (dict (cb w)) as [d|]; [|apply Hstop].
  unfold loadM at 1.
  destruct (load (trie_child d) (getCharIndex c)) as [[k|]|] eqn:Hroot;
    [|destruct fuel; apply Hstop|apply Hstop].
  unfold ret at 1.
  assert (Hcn : c <> NUL).
  { apply getCharIndex_NUL. apply load_lookup in Hroot. tauto. }
  specialize (Hat1 Hcn). unfold bind at 1.
  destruct (findSolution_once fuel i j k 1 _ Hat1) as (evs & Hnd & Hall & Ho).
  change (0 + 1) with 1 in Ho.
  change (gpath (marked w i j 0 s')) with ((i, j) :: gpath w) in Hall.
  rewrite Hp in Hall.
  destruct (findSolution fuel i j (Some k) 1 _) as [[] w2|f w2].
  2:{ eexists (Snap _ _ _ :: evs). split; [exact Hnd|].
      split; [exact Hall|]. rewrite Ho. simpl.
      rewrite <- app_assoc. reflexivity. }
  subst w2.
  pose proof (markUnused_spec i j 0
                (with_trace (marked w i j 0 s') evs)) as Hmn.
  destruct (markUnused i j 0 _) as [[] w3|f w3].
  2:{ eexists (Snap _ _ _ :: evs). split; [exact Hnd|].
      split; [exact Hall|]. destruct Hmn as [Ht _]. rewrite Ht. simpl.
      rewrite <- app_assoc. reflexivity. }
  destruct Hmn as (_ & s2 & Hst2 & ->).
  rewrite (unmarked_marked _ _ _ _ _ _ _ _ Hinv Hsi Hu Hst Hst2).
  eexists. split; [|split; [|reflexivity]].
  - simpl. rewrite found_paths_app. simpl. rewrite app_nil_r. exact Hnd.
  - simpl. rewrite found_paths_app. simpl. rewrite app_nil_r. exact Hall.
Qed.

Lemma playBoggle_once fuel w :
  idle w ->
  exists evs,
    NoDup (found_paths evs) /\
    match playBoggle fuel w with
    | Done _ w' => w' = with_trace (cleared w) evs
    | Abort _ w' => trace w' = trace w ++ evs
    end.
Proof.
  intros Hidle. rewrite playBoggle_unfold.
  unfold bind at 1, gets at 1. unfold bind at 1, assert at 1.
  set (bs := boardSize (cb w)).
  destruct (bs * bs <=? MAX_WORD_LENGTH).
  2:{ exists []. split; [constructor|]. simpl. rewrite app_nil_r.
      reflexivity. }
  unfold ret at 1. unfold bind at 1, modify at 1. fold (cleared w).
  set (I := fun w0 : World =>
       search_inv w0 /\ gpath w0 = [] /\ boardSize (cb w0) = bs).
  assert (HI : forall w0 evs, I w0 -> I (with_trace w0 evs)).
  { intros w0 evs (H1 & H2 & H3).
    split; [apply search_inv_with_trace, H1|auto]. }
  set (P2 := fun i j => through (i, j) []).
  set (P1 := fun i q => exists j, j ∈ seqZ 0 bs /\ P2 i j q).
  assert (H : step_once (fun q => exists i, i ∈ seqZ 0 bs /\ P1 i q)
    (cleared w)
    (for_each (seqZ 0 bs)
       (fun i => for_each (seqZ 0 bs) (fun j => start fuel i j)) (cleared w))).
  { apply (for_each_once P1 I); [apply NoDup_seqZ| |exact HI| |].
    - intros i i' q _ _ Hne (j & _ & H1) (j' & _ & H2).
      pose proof (through_differ _ _ _ _ H1 H2) as E.
      injection E as E1 E2. lia.
    - intros i w1 Hi HI1.
      apply (for_each_once (P2 i) I); [apply NoDup_seqZ| |exact HI|
                                       |exact HI1].
      + intros j j' q _ _ Hne H1 H2.
        pose proof (through_differ _ _ _ _ H1 H2) as E.
        injection E as E. lia.
      + intros j w2 Hj (Hinv2 & Hp2 & Hbs2).
        apply start_once; auto. rewrite Hbs2.
        apply elem_of_seqZ in Hi, Hj. split; simpl; lia.
    - split; [apply cleared_inv, Hidle|]. split; [apply Hidle|reflexivity]. }
  destruct H as (evs & Hnd & _ & Ho). exists evs. split; [exact Hnd|].
  destruct (for_each _ _ _) as [[] w'|f w']; exact Ho.
Qed.



(** ** A failed allocation of the root *)

Lemma mainSetup_no_root n tiles w :
  mainSetup n tiles (world0 0) = Done tt w -> no_root w.
Proof.
  unfold mainSetup. intros H.
  apply bind_Done in H as ([] & w1 & Hinit & H).
  assert (Hw1 : no_root w1).
  { vm_compute in Hinit. injection Hinit as <-. repeat split. }
  apply bind_Done in H as ([] & w2 & H2 & H). unfold modify in H2.
  simplify_eq.
  apply bind_Done in H as (hist & w4 & Hh & H).
  apply buildHistogram_spec in Hh as [-> _].
  unfold bind, modify in H. simpl in H. simplify_eq. exact Hw1.
Qed.

Lemma trieBuildLoop_no_root words : forall count w r w',
  no_root w -> trieBuildLoop words count w = Done r w' -> no_root w'.
Proof.
  induction words as [|buf rest IH]; intros count w r w' Hw H; simpl in H.
  - unfold ret in H. simplify_eq. exact Hw.
  - unfold bind at 1, gets at 1 in H.
    destruct (_ <=? _); [|eapply IH; eauto].
    apply bind_Done in H as ([added ok] & w1 & Hadd & H).
    apply trieAddWord_dict in Hadd
      as [[_ ->]|(root & _ & Hd & _)];
      [|destruct Hw as [Hn _]; congruence].
    destruct ok; simpl in H.
    + eapply IH; eauto.
    + unfold ret in H. simplify_eq. exact Hw.
Qed.

Lemma mainExit_no_root w :
  no_root w -> exists w', mainExit w = Abort AssertFail w'.
Proof.
  intros (Hd & Ha & Hf). unfold mainExit, bind, gets, trieFree.
  rewrite Hd. unfold ret, modify, assert, with_cb. simpl.
  rewrite Ha, Hf. simpl. eexists. reflexivity.
Qed.

(** X23.  When [malloc] fails in [initBoggle], the counter
    [trieAllocCalls] still counts a root.  The program then never returns
    from [main]: it dereferences the missing root in [trieAddWord] or in
    [playBoggle], or stops elsewhere, or reaches the exit and fails the
    assertion [trieAllocCalls == trieFreeCalls]. *)
Theorem main_without_root fuel n tiles words :
  exists f w', mainRun fuel n tiles words (world0 0) = Abort f w'.
Proof.
  destruct (mainRun fuel n tiles words (world0 0)) as [[] w'|f w'] eqn:H;
    [exfalso|eauto].
  unfold mainRun in H.
  apply bind_Done in H as ([] & w1 & Hsetup & H).
  pose proof (mainSetup_no_root _ _ _ Hsetup) as Hw1.
  pose proof (mainSetup_ready _ _ _ _ Hsetup) as Hr1.
  apply bind_Done in H as ([ok cnt] & w2 & Hbuild & H).
  pose proof (trieBuildLoop_no_root _ _ _ _ _ Hw1 Hbuild) as Hw2.
  pose proof (ready_same_but_dict _ _ _ _ Hr1 (trieBuild_frame _ _ _ _ Hbuild))
    as Hr2.
  apply bind_Done in H as ([] & w3 & Hplay & Hexit).
  assert (Hw3 : no_root w3).
  { cbn [fst] in Hplay. destruct ok.
    - destruct (playBoggle_ok fuel w2 (ready_idle _ _ _ Hr2))
        as (evs & _ & Ho).
      rewrite Hplay in Ho. subst w3. exact Hw2.
    - unfold ret in Hplay. injection Hplay as <-. exact Hw2. }
  destruct (mainExit_no_root w3 Hw3) as [w4 E]. congruence.
Qed.

(** ** A failed allocation during the build *)


Lemma demo_small_eq : mainSetup 2 demo_board (world0 2) = Done tt demo_small.
Proof. vm_compute. reflexivity. Qed.

Lemma demo_short_eq :
  trieBuild demo_words demo_small = Done (false, 0) demo_short.
Proof. vm_compute. reflexivity. Qed.

